(** * minecraft-mcp: chest registry, container classification, transfer
      helpers and the keyed promise-chain mutex

    A shallow embedding of
    - [src/mcp-server/src/storage/chestStore.ts]   (module [ChestStore]),
    - the container utilities [chestUtils]          (module [ChestUtils]),
    - the deposit / withdraw / check skills         (module [Skills]),
    - [src/mcp-server/src/skills/library/mutex.ts]  (module [Mutex]),
    - the promise job queue that runs it            (module [Fifo]),
    - the rest of the registry and [list_chests]    (module [Registry]),
    - [countInContainerByName] of withdraw_items    (module [Withdraw]),
    - [findNearbyContainers] of chestUtils          (module [Discovery]),
    - [skills/verified/label_chest.ts]              (module [LabelChest]),
    - [skills/verified/find_containers.ts]          (module [FindContainers]),
    - the ['all'] branches of deposit_items and
      withdraw_items                                (module [Reports]),
    followed by the properties proved about them.

    Conventions of the embedding.
    - JavaScript numbers that hold block coordinates, slot indices and item
      counts are integers in the program; they are modelled as [Z].
    - JavaScript strings are modelled as [string]; [toLowerCase] and [trim]
      are given on the ASCII range.
    - An optional field ([notes?], [hidden?], ...) is an [option]; the
      JavaScript truthiness test on it is [truthy].
    - A function that throws returns a sum whose left side is the error.
    - [new Date().toISOString()] and the generated record id are inputs
      ([Env]), as they come from the clock and the random generator. *)

From Stdlib Require Import ZArith List Bool Ascii String Lia.
From stdpp Require Import base option list gmap strings.
From stdpp Require Import pretty.
Import ListNotations.

Local Open Scope string_scope.
Local Open Scope Z_scope.
Local Open Scope list_scope.

(* ===================================================================== *)
(** ** JavaScript string primitives used by the sources                   *)
(* ===================================================================== *)

Module JsString.

Definition lowerChar (c : ascii) : ascii :=
  let n := nat_of_ascii c in
  if ((65 <=? n)%nat && (n <=? 90)%nat)%bool then ascii_of_nat (n + 32) else c.

(** [s.toLowerCase()] *)
Fixpoint toLowerCase (s : string) : string :=
  match s with
  | EmptyString => EmptyString
  | String c s' => String (lowerChar c) (toLowerCase s')
  end.

(** White space removed by [trim]: space, TAB, LF, VT, FF, CR. *)
Definition isWhite (c : ascii) : bool :=
  let n := nat_of_ascii c in
  ((n =? 32)%nat || ((9 <=? n)%nat && (n <=? 13)%nat))%bool.

Fixpoint trimStart (s : string) : string :=
  match s with
  | EmptyString => EmptyString
  | String c s' => if isWhite c then trimStart s' else s
  end.

Fixpoint revOnto (s acc : string) : string :=
  match s with
  | EmptyString => acc
  | String c s' => revOnto s' (String c acc)
  end.

Definition reverse (s : string) : string := revOnto s EmptyString.

Definition trimEnd (s : string) : string := reverse (trimStart (reverse s)).

(** [s.trim()] *)
Definition trim (s : string) : string := trimEnd (trimStart s).

(** [s.endsWith(suffix)] *)
Definition endsWith (s suffix : string) : bool :=
  String.prefix (reverse suffix) (reverse s).

(** [s || dflt] on a possibly missing string: the empty string and
    [undefined] are both falsy. *)
Definition orElse (s : option string) (dflt : string) : string :=
  match s with
  | Some (String c r) => String c r
  | _ => dflt
  end.

End JsString.

(** JavaScript truthiness of an optional boolean field. *)
Definition truthy (b : option bool) : bool :=
  match b with
  | Some true => true
  | _ => false
  end.

(** [Array.prototype.findIndex], with [None] for [-1]. *)
Fixpoint findIndex {A : Type} (p : A -> bool) (l : list A) : option nat :=
  match l with
  | [] => None
  | x :: l' => if p x then Some O else S <$> findIndex p l'
  end.

(** [Array.prototype.find] *)
Definition jsFind {A : Type} (p : A -> bool) (l : list A) : option A :=
  match findIndex p l with
  | Some i => l !! i
  | None => None
  end.

(** [a || b] on two possibly [undefined] objects (objects are truthy). *)
Definition orUndefined {A : Type} (a b : option A) : option A :=
  match a with
  | Some x => Some x
  | None => b
  end.

(* ===================================================================== *)
(** ** storage/chestStore.ts                                              *)
(* ===================================================================== *)

Module ChestStore.
Import JsString.

Record StoredPosition := mkPos { x : Z; y : Z; z : Z }.

Inductive ContainerType :=
| single_chest | double_chest | trapped_chest | barrel
| ender_chest | shulker_box | container.

Record ChestRecord := mkChest {
  id : string;
  label : string;
  notes : option string;
  hidden : option bool;
  forbidden : option bool;
  type : ContainerType;
  positions : list StoredPosition;
  primary : StoredPosition;
  dimension : string;
  createdAt : string;
  updatedAt : string;
  destroyed : option bool
}.

Record WorldStore := mkWorld { chests : list ChestRecord }.

Record RootStore := mkRoot { version : Z; worlds : gmap string WorldStore }.

(** What [upsertChest] and [markDestroyed] take from the clock and the
    random generator: [now] is [new Date().toISOString()], [generatedId]
    is the template string built from [Date.now()] and [Math.random()]. *)
Record Env := mkEnv { now : string; generatedId : string }.

Definition normalizeLabel (l : string) : string := trim l.

Definition posEquals (a b : StoredPosition) : bool :=
  (x a =? x b) && (y a =? y b) && (z a =? z b).

Definition setWorld (store : RootStore) (worldKey : string) (ws : WorldStore)
  : RootStore :=
  {| version := version store; worlds := <[worldKey := ws]> (worlds store) |}.

Definition ensureWorld (store : RootStore) (worldKey : string)
  : RootStore * WorldStore :=
  match worlds store !! worldKey with
  | Some ws => (store, ws)
  | None => let ws := {| chests := [] |} in (setWorld store worldKey ws, ws)
  end.

(** The array-level bodies of the exported functions ([ws.chests] is the
    first argument); the exported functions follow. *)

Definition listed (includeHidden : bool) (c : ChestRecord) : bool :=
  negb (truthy (destroyed c))
  && (includeHidden || negb (truthy (hidden c)))
  && negb (truthy (forbidden c)).

Definition listIn (cs : list ChestRecord) (includeHidden : bool)
  : list ChestRecord :=
  List.filter (listed includeHidden) cs.

Definition labelVisible (norm : string) (c : ChestRecord) : bool :=
  negb (truthy (destroyed c)) && negb (truthy (forbidden c))
  && String.eqb (toLowerCase (label c)) norm.

Definition byLabelIn (cs : list ChestRecord) (l : string)
  : option ChestRecord :=
  let norm := toLowerCase (normalizeLabel l) in
  jsFind (labelVisible norm) cs.

Definition covers (pos : StoredPosition) (c : ChestRecord) : bool :=
  negb (truthy (destroyed c)) && existsb (fun p => posEquals p pos) (positions c).

Definition byPositionIn (cs : list ChestRecord) (pos : StoredPosition)
  : option ChestRecord :=
  jsFind (covers pos) cs.

Definition sameLabel (norm : string) (c : ChestRecord) : bool :=
  String.eqb (toLowerCase (label c)) norm.

Definition samePrimary (p : StoredPosition) (c : ChestRecord) : bool :=
  posEquals (primary c) p.

(** [existing]: index of the record found by label, else by primary. *)
Definition existingIndex (cs : list ChestRecord) (record : ChestRecord)
  : option nat :=
  let norm := toLowerCase (normalizeLabel (label record)) in
  orUndefined (findIndex (sameLabel norm) cs)
              (findIndex (samePrimary (primary record)) cs).

Definition overwrite (env : Env) (existing record : ChestRecord) : ChestRecord :=
  {| id := id existing;
     label := normalizeLabel (label record);
     notes := notes record;
     hidden := hidden record;
     forbidden := Some (truthy (forbidden record));
     type := type record;
     positions := positions record;
     primary := primary record;
     dimension := dimension record;
     createdAt := createdAt existing;
     updatedAt := now env;
     destroyed := Some false |}.

Definition newRec (env : Env) (record : ChestRecord) : ChestRecord :=
  {| id := orElse (Some (id record)) (generatedId env);
     label := label record;
     notes := notes record;
     hidden := hidden record;
     forbidden := Some (truthy (forbidden record));
     type := type record;
     positions := positions record;
     primary := primary record;
     dimension := dimension record;
     createdAt := now env;
     updatedAt := now env;
     destroyed := Some false |}.

Definition upsertIn (env : Env) (cs : list ChestRecord) (record : ChestRecord)
  : list ChestRecord * ChestRecord :=
  match existingIndex cs record with
  | Some i =>
      match cs !! i with
      | Some existing =>
          let e := overwrite env existing record in (<[i := e]> cs, e)
      | None => (cs, record)
      end
  | None => let n := newRec env record in (cs ++ [n], n)
  end.

(** The exported functions, on the module-level [store]. *)

Definition listChests (store : RootStore) (worldKey : string)
    (includeHidden : bool) : RootStore * list ChestRecord :=
  let '(store, ws) := ensureWorld store worldKey in
  (store, listIn (chests ws) includeHidden).

Definition getChestByLabel (store : RootStore) (worldKey l : string)
  : RootStore * option ChestRecord :=
  let '(store, ws) := ensureWorld store worldKey in
  (store, byLabelIn (chests ws) l).

Definition getChestByPosition (store : RootStore) (worldKey : string)
    (pos : StoredPosition) : RootStore * option ChestRecord :=
  let '(store, ws) := ensureWorld store worldKey in
  (store, byPositionIn (chests ws) pos).

Definition upsertChest (env : Env) (store : RootStore) (worldKey : string)
    (record : ChestRecord) : RootStore * ChestRecord :=
  let '(store, ws) := ensureWorld store worldKey in
  let '(cs, r) := upsertIn env (chests ws) record in
  (setWorld store worldKey {| chests := cs |}, r).

(** The records of a world as a later call sees them. *)
Definition chestsOf (store : RootStore) (worldKey : string) : list ChestRecord :=
  match worlds store !! worldKey with
  | Some ws => chests ws
  | None => []
  end.

End ChestStore.

(* ===================================================================== *)
(** ** skills/library/chestUtils.ts                                       *)
(* ===================================================================== *)

Module ChestUtils.
Import JsString.

(** [Vec3] and [StoredPosition] are both [{x, y, z}]; one record serves. *)
Definition Vec3 : Type := ChestStore.StoredPosition.

Definition vx (p : Vec3) : Z := ChestStore.x p.
Definition vy (p : Vec3) : Z := ChestStore.y p.
Definition vz (p : Vec3) : Z := ChestStore.z p.

(** [pos.offset(dx, dy, dz)] *)
Definition offset (p : Vec3) (dx dy dz : Z) : Vec3 :=
  ChestStore.mkPos (vx p + dx) (vy p + dy) (vz p + dz).

(** The part of [bot] the classifier reads: [bot.blockAt(p)?.name], with
    [None] when no block is loaded at [p]. *)
Definition Bot : Type := Vec3 -> option string.

Record DetectedContainer := mkDetected {
  type : ChestStore.ContainerType;
  positions : list Vec3;
  primary : Vec3
}.

Inductive DetectError :=
| NoBlockLoaded
| NotSupportedContainer (name : string).

Definition isContainerBlockName (name : string) : bool :=
  match name with
  | EmptyString => false
  | _ =>
      String.eqb name "chest" || String.eqb name "trapped_chest"
      || String.eqb name "barrel" || String.eqb name "ender_chest"
      || endsWith name "_shulker_box" || String.eqb name "shulker_box"
  end.

(** [a || b] on numbers: [b] when [a] is zero. *)
Definition orNum (a b : Z) : Z := if a =? 0 then b else a.

(** The comparator [(a, b) => (a.x - b.x) || (a.y - b.y) || (a.z - b.z)]. *)
Definition compareVec (a b : Vec3) : Z :=
  orNum (orNum (vx a - vx b) (vy a - vy b)) (vz a - vz b).

(** [Array.prototype.sort(cmp)]: a stable sort; an element moves behind
    another only when the comparator is positive. *)
Fixpoint insertBy {A : Type} (cmp : A -> A -> Z) (a : A) (l : list A) : list A :=
  match l with
  | [] => [a]
  | b :: l' => if 0 <? cmp a b then b :: insertBy cmp a l' else a :: l
  end.

Definition sortBy {A : Type} (cmp : A -> A -> Z) (l : list A) : list A :=
  List.fold_right (insertBy cmp) [] l.

Definition namedAt (bot : Bot) (name : string) (p : Vec3) : bool :=
  match bot p with
  | Some n => String.eqb n name
  | None => false
  end.

Definition adjPositions (pos : Vec3) : list Vec3 :=
  [ offset pos 1 0 0; offset pos (-1) 0 0; offset pos 0 0 1; offset pos 0 0 (-1) ].

Definition detectContainerAt (bot : Bot) (pos : Vec3)
  : DetectError + DetectedContainer :=
  match bot pos with
  | None => inl NoBlockLoaded
  | Some name =>
      if String.eqb name "chest" || String.eqb name "trapped_chest" then
        match jsFind (namedAt bot name) (adjPositions pos) with
        | Some m =>
            let sorted := sortBy compareVec [pos; m] in
            inr {| type := if String.eqb name "chest"
                           then ChestStore.double_chest
                           else ChestStore.trapped_chest;
                   positions := sorted;
                   primary := List.hd pos sorted |}
        | None =>
            inr {| type := if String.eqb name "chest"
                           then ChestStore.single_chest
                           else ChestStore.trapped_chest;
                   positions := [pos];
                   primary := pos |}
        end
      else if String.eqb name "barrel" then
        inr {| type := ChestStore.barrel; positions := [pos]; primary := pos |}
      else if String.eqb name "ender_chest" then
        inr {| type := ChestStore.ender_chest; positions := [pos]; primary := pos |}
      else if endsWith name "_shulker_box" || String.eqb name "shulker_box" then
        inr {| type := ChestStore.shulker_box; positions := [pos]; primary := pos |}
      else if isContainerBlockName name then
        inr {| type := ChestStore.container; positions := [pos]; primary := pos |}
      else inl (NotSupportedContainer name)
  end.

Inductive OpenError :=
| AccessDeniedForbidden
| DetectFailed (e : DetectError)
| NoBlockAtPosition.

(** [rec && rec.forbidden] *)
Definition foundForbidden (rec : option ChestStore.ChestRecord) : bool :=
  match rec with
  | Some r => truthy (ChestStore.forbidden r)
  | None => false
  end.

(** [openContainerAt] up to its calls into the game client: the result
    [inr target] stands for navigating to [target] and calling
    [bot.openContainer] on the block there. *)
Definition openContainerAt (store : ChestStore.RootStore) (worldKey : string)
    (bot : Bot) (pos : Vec3) : ChestStore.RootStore * (OpenError + Vec3) :=
  let '(store, rec) := ChestStore.getChestByPosition store worldKey pos in
  if foundForbidden rec then (store, inl AccessDeniedForbidden)
  else
    match detectContainerAt bot pos with
    | inl e => (store, inl (DetectFailed e))
    | inr det =>
        let targetPos :=
          match type det with
          | ChestStore.double_chest => primary det
          | _ => pos
          end in
        match bot targetPos with
        | None => (store, inl NoBlockAtPosition)
        | Some _ => (store, inr targetPos)
        end
    end.

(** *** Slot accounting *)

Record Item := mkItem { name : string; count : Z; itemType : Z }.

(** A window: [inventoryStart] / [inventoryEnd] are [Some n] exactly when
    [typeof] the field is ['number']. *)
Record Window := mkWindow {
  slots : list (option Item);
  inventoryStartField : option Z;
  inventoryEndField : option Z
}.

Record SlotInfo := mkSlotInfo {
  containerStart : Z;
  containerEnd : Z;
  inventoryStart : Z;
  inventoryEnd : Z;
  containerSize : Z
}.

Definition getContainerSlotInfo (window : Window) : SlotInfo :=
  let totalSlots := Z.of_nat (length (slots window)) in
  let inventoryStart :=
    match inventoryStartField window with
    | Some n => n
    | None => Z.max (totalSlots - 36) 0
    end in
  let inventoryEnd :=
    match inventoryEndField window with
    | Some n => n
    | None => totalSlots
    end in
  let containerStart := 0 in
  let containerEnd := inventoryStart in
  let containerSize := containerEnd - containerStart in
  mkSlotInfo containerStart containerEnd inventoryStart inventoryEnd containerSize.

(** The values [i] takes in [for (let i = a; i < b; i++)]. *)
Definition loopIndices (a b : Z) : list Z :=
  List.map (fun k => a + Z.of_nat k) (List.seq 0 (Z.to_nat (b - a))).

(** [window.slots[i]]: [None] for an empty slot and for an index outside
    the array. *)
Definition slotAt (window : Window) (i : Z) : option Item :=
  if i <? 0 then None
  else match slots window !! Z.to_nat i with
       | Some it => it
       | None => None
       end.

(** [summary[key] = (summary[key] || 0) + n], keys kept in insertion
    order as [Object.entries] lists them. *)
Fixpoint bump (key : string) (n : Z) (summary : list (string * Z))
  : list (string * Z) :=
  match summary with
  | [] => [(key, 0 + n)]
  | (k, v) :: rest =>
      if String.eqb k key then (k, v + n) :: rest
      else (k, v) :: bump key n rest
  end.

(** The two loops over the container region, with the slot read made a
    parameter. *)
Definition summarizeWith (read : Z -> option Item) (info : SlotInfo)
  : list (string * Z) :=
  List.fold_left
    (fun summary i =>
       match read i with
       | None => summary
       | Some it => bump (name it) (count it) summary
       end)
    (loopIndices (containerStart info) (containerEnd info)) [].

Definition countFreeWith (read : Z -> option Item) (info : SlotInfo) : Z :=
  List.fold_left
    (fun free i =>
       match read i with
       | None => free + 1
       | Some _ => free
       end)
    (loopIndices (containerStart info) (containerEnd info)) 0.

Definition summarizeContainerContents (window : Window) : list (string * Z) :=
  summarizeWith (slotAt window) (getContainerSlotInfo window).

Definition countFreeContainerSlots (window : Window) : Z :=
  countFreeWith (slotAt window) (getContainerSlotInfo window).

(** The indices at which the two functions evaluate [window.slots[i]]. *)
Definition slotReads (window : Window) : list Z :=
  let info := getContainerSlotInfo window in
  loopIndices (containerStart info) (containerEnd info).

End ChestUtils.

(* ===================================================================== *)
(** ** skills/verified/deposit_items.ts and withdraw_items               *)
(* ===================================================================== *)

Module Skills.

(** [type ChestParam = string | { x, y, z }] *)
Inductive ChestParam :=
| ByLabel (chest : string)
| ByCoords (chest : ChestUtils.Vec3).

(** [items: string[] | 'all'] *)
Inductive Items :=
| ItemsString (items : string)
| ItemsArray (items : list string).

(** The parameters as the skill receives them; [None] is a parameter that
    is missing. *)
Record Params := mkParams {
  chest : option ChestParam;
  items : option Items
}.

(** JavaScript truthiness of the two parameters: a missing value and the
    empty string are falsy, an object and an array (also the empty one)
    are truthy. *)
Definition chestGiven (chest : option ChestParam) : bool :=
  match chest with
  | Some (ByLabel EmptyString) => false
  | Some _ => true
  | None => false
  end.

Definition itemsGiven (items : option Items) : bool :=
  match items with
  | Some (ItemsString EmptyString) => false
  | Some _ => true
  | None => false
  end.

(** How the parameter check, the resolution and the policy part of
    [deposit_items] / [withdraw_items] end: the four early returns with
    their messages, or the result of the [openContainerAt] call made
    under [runExclusive]. *)
Inductive Access :=
| MissingParameters
| NoLabeledChestFound (chest : string)
| AccessDenied
| FailedWith (e : ChestUtils.OpenError)
| Opened (target : ChestUtils.Vec3).

(** From [await loadStore()] to the [runExclusive] call, for a [chest]
    that passed the parameter check. *)
Definition resolveAndOpen (store : ChestStore.RootStore) (worldKey : string)
    (bot : ChestUtils.Bot) (chest : ChestParam)
  : ChestStore.RootStore * Access :=
  let resolved :=
    match chest with
    | ByLabel l =>
        let '(store, rec) := ChestStore.getChestByLabel store worldKey l in
        (store, match rec with
                | Some r => inr (ChestStore.primary r)
                | None => inl (NoLabeledChestFound l)
                end)
    | ByCoords p => (store, inr p)
    end in
  match resolved with
  | (store, inl early) => (store, early)
  | (store, inr posVec) =>
      let '(store, recForbCheck) :=
        ChestStore.getChestByPosition store worldKey posVec in
      if ChestUtils.foundForbidden recForbCheck then (store, AccessDenied)
      else
        let '(store, window) :=
          ChestUtils.openContainerAt store worldKey bot posVec in
        (store, match window with
                | inl e => FailedWith e
                | inr target => Opened target
                end)
  end.

(** [if (!chest || !items) { ... return false; }], then the rest. *)
Definition accessChest (store : ChestStore.RootStore) (worldKey : string)
    (bot : ChestUtils.Bot) (params : Params)
  : ChestStore.RootStore * Access :=
  match chest params with
  | Some c =>
      if chestGiven (chest params) && itemsGiven (items params)
      then resolveAndOpen store worldKey bot c
      else (store, MissingParameters)
  | None => (store, MissingParameters)
  end.

(** *** Transfer helpers

    [window.deposit(typeId, null, count)] and [window.withdraw] belong to
    the game client.  A call either returns or throws and may change the
    window whichever it does: a transfer primitive maps the window state
    to the next state and to [true] (returned) or [false] (threw). *)

Section Transfer.
Context {W : Type}.

Definition Primitive : Type := W -> Z -> Z -> W * bool.

(** [for (let i = 0; i < count; i++) { try { move 1; moved++ }
    catch { break } }]; [n] is the number of iterations left. *)
Fixpoint oneByOne (move : Primitive) (n : nat) (window : W) (typeId moved : Z)
  : W * Z :=
  match n with
  | O => (window, moved)
  | S n' =>
      let '(window', ok) := move window typeId 1 in
      if ok then oneByOne move n' window' typeId (moved + 1)
      else (window', moved)
  end.

Definition transferType (move : Primitive) (window : W) (typeId count : Z)
  : W * Z :=
  let '(window', ok) := move window typeId count in
  if ok then (window', count)
  else oneByOne move (Z.to_nat count) window' typeId 0.

Record WindowOps := mkOps { deposit : Primitive; withdraw : Primitive }.

Definition depositType (ops : WindowOps) : W -> Z -> Z -> W * Z :=
  transferType (deposit ops).

Definition withdrawType (ops : WindowOps) : W -> Z -> Z -> W * Z :=
  transferType (withdraw ops).
End Transfer.

(** What the callers push on [deposited] / [withdrew] and on [failed]:
    [if (moved > 0) ...push(moved)], [if (moved < total) ...push(total - moved)]. *)
Definition reportedMoved (total moved : Z) : option Z :=
  if 0 <? moved then Some moved else None.

Definition reportedFailed (total moved : Z) : option Z :=
  if moved <? total then Some (total - moved) else None.

End Skills.

(* ===================================================================== *)
(** ** skills/library/mutex.ts                                            *)
(* ===================================================================== *)

(** [runExclusive] is an [async] function over promises.  Promise objects
    live in a heap and are compared by identity ([===]); the function body
    is cut at its two [await]s, and every piece that the JavaScript job
    queue runs to completion is one event of a step function.  The order
    in which ready jobs run and the moment at which an operation settles
    are left to the event sequence. *)

Module Mutex.
Import JsString.

(** Identity of a promise object: its index in the heap. *)
Abbreviation pid := nat (only parsing).

(** A promise made by [prev.then(() => next)]: it waits for [prev], then
    its callback returns [next] and it adopts [next], then it is
    fulfilled when [next] is. *)
Inductive ThenState := AwaitingPrev | AdoptingNext | Settled.

Inductive Promise :=
| Resolved                                   (* [Promise.resolve()] *)
| Deferred (fulfilled : bool)                (* [new Promise(res => { resolveNext = res; })] *)
| Then (prev next : pid) (st : ThenState).   (* [prev.then(() => next)] *)

Definition isFulfilled (heap : list Promise) (p : pid) : bool :=
  match heap !! p with
  | Some Resolved => true
  | Some (Deferred b) => b
  | Some (Then _ _ Settled) => true
  | _ => false
  end.

(** How the promise returned by [fn()] settles (or [fn] throws). *)
Inductive Outcome :=
| Returns (result : Z)
| Throws (err : Z).

(** Where one activation of [runExclusive] stands. *)
Inductive Pc :=
| AwaitPrev                (* suspended at [await prev] *)
| AwaitFn                  (* [fn()] called, suspended at [await fn()] *)
| Finished (o : Outcome).  (* returned [result] or threw [err] to its caller *)

Record Call := mkCall {
  lockKey : string;
  prev : pid;
  next : pid;
  pc : Pc
}.

Record State := mkState {
  locks : gmap string pid;      (* the module-level [locks] map *)
  heap : list Promise;
  calls : list Call             (* activations, in the order of the calls *)
}.

Definition init : State := mkState ∅ [] [].

(** [`${bot.username || 'bot'}:${key}`] *)
Definition lockKeyOf (username : option string) (key : string) : string :=
  String.append (orElse username "bot") (String.append ":" key).

Inductive Event :=
| Invoke (username : option string) (key : string)
    (* [runExclusive(bot, key, fn)] is called and runs up to [await prev] *)
| Resume (i : nat)
    (* [prev] is fulfilled: call [i] continues and calls [fn()] *)
| Settle (i : nat) (o : Outcome)
    (* [fn()] of call [i] settles: [resolveNext], return or throw, [finally] *)
| RunThen (p : pid)
    (* the reaction of [prev.then(() => next)] runs *)
| Adopt (p : pid).
    (* [next] is fulfilled, so is the promise that adopted it *)

Definition setPc (c : Call) (v : Pc) : Call :=
  mkCall (lockKey c) (prev c) (next c) v.

Definition step (s : State) (e : Event) : option State :=
  match e with
  | Invoke username key =>
      let lockKey := lockKeyOf username key in
      (* const prev = locks.get(lockKey) || Promise.resolve(); *)
      let '(heap1, prev) :=
        match locks s !! lockKey with
        | Some p => (heap s, p)
        | None => (heap s ++ [Resolved], length (heap s))
        end in
      (* const next = new Promise(res => { resolveNext = res; }); *)
      let next := length heap1 in
      let heap2 := heap1 ++ [Deferred false] in
      (* locks.set(lockKey, prev.then(() => next)); *)
      let link := length heap2 in
      let heap3 := heap2 ++ [Then prev next AwaitingPrev] in
      Some (mkState (<[lockKey := link]> (locks s)) heap3
                    (calls s ++ [mkCall lockKey prev next AwaitPrev]))
  | Resume i =>
      match calls s !! i with
      | Some c =>
          match pc c with
          | AwaitPrev =>
              if isFulfilled (heap s) (prev c)
              then Some (mkState (locks s) (heap s)
                                 (<[i := setPc c AwaitFn]> (calls s)))
              else None
          | _ => None
          end
      | None => None
      end
  | Settle i o =>
      match calls s !! i with
      | Some c =>
          match pc c with
          | AwaitFn =>
              (* resolveNext!(undefined); in both the try and the catch *)
              let heap' := <[next c := Deferred true]> (heap s) in
              (* finally { if (locks.get(lockKey) === next) locks.delete(lockKey); } *)
              let locks' :=
                if decide (locks s !! lockKey c = Some (next c))
                then delete (lockKey c) (locks s)
                else locks s in
              Some (mkState locks' heap' (<[i := setPc c (Finished o)]> (calls s)))
          | _ => None
          end
      | None => None
      end
  | RunThen p =>
      match heap s !! p with
      | Some (Then a b AwaitingPrev) =>
          if isFulfilled (heap s) a
          then Some (mkState (locks s) (<[p := Then a b AdoptingNext]> (heap s))
                             (calls s))
          else None
      | _ => None
      end
  | Adopt p =>
      match heap s !! p with
      | Some (Then a b AdoptingNext) =>
          if isFulfilled (heap s) b
          then Some (mkState (locks s) (<[p := Then a b Settled]> (heap s))
                             (calls s))
          else None
      | _ => None
      end
  end.

Fixpoint run (evs : list Event) (s : State) : option State :=
  match evs with
  | [] => Some s
  | e :: evs' =>
      match step s e with
      | Some s' => run evs' s'
      | None => None
      end
  end.

Definition reachable (s : State) : Prop := exists evs, run evs init = Some s.

Definition running (c : Call) : bool :=
  match pc c with AwaitFn => true | _ => false end.

Definition finished (c : Call) : bool :=
  match pc c with Finished _ => true | _ => false end.

Definition started (c : Call) : bool :=
  match pc c with AwaitPrev => false | _ => true end.

(** *** Running the job queue

    The events that need no new call: every ready continuation and
    reaction, and the settling of a running operation, call [i] with
    outcome [outcomes i]. *)
Definition internalEvents (outcomes : nat -> Outcome) (s : State) : list Event :=
  List.map Resume (List.seq 0 (length (calls s)))
  ++ List.map (fun i => Settle i (outcomes i)) (List.seq 0 (length (calls s)))
  ++ List.map RunThen (List.seq 0 (length (heap s)))
  ++ List.map Adopt (List.seq 0 (length (heap s))).

Fixpoint firstStep (s : State) (evs : list Event) : option State :=
  match evs with
  | [] => None
  | e :: evs' =>
      match step s e with
      | Some s' => Some s'
      | None => firstStep s evs'
      end
  end.

Fixpoint drain (outcomes : nat -> Outcome) (fuel : nat) (s : State) : State :=
  match fuel with
  | O => s
  | S fuel' =>
      match firstStep s (internalEvents outcomes s) with
      | Some s' => drain outcomes fuel' s'
      | None => s
      end
  end.

(** Jobs still to run: a bound on the fuel [drain] needs. *)
Definition promiseWork (p : Promise) : nat :=
  match p with
  | Then _ _ AwaitingPrev => 2
  | Then _ _ AdoptingNext => 1
  | _ => 0
  end.

Definition callWork (c : Call) : nat :=
  match pc c with
  | AwaitPrev => 2
  | AwaitFn => 1
  | Finished _ => 0
  end.

Definition work (s : State) : nat :=
  (list_sum (List.map promiseWork (heap s))
   + list_sum (List.map callWork (calls s)))%nat.

End Mutex.

(* ===================================================================== *)
(** ** The promise job queue                                              *)
(* ===================================================================== *)

(** [Mutex.step] says what each job does and when it can run, and leaves
    the order of the ready jobs open.  JavaScript runs them first in,
    first out.  This module adds the queue: a job is put at its end when
    the promise it reacts to is fulfilled (at once, when that promise is
    fulfilled already when the reaction is registered), and the job at its
    head is the one that runs.  Every step here is a step of [Mutex.step]
    or leaves the promise machine as it is. *)

Module Fifo.
Import Mutex.

Inductive Job :=
| ThenReaction (p : pid)
    (* the reaction of [prev.then(() => next)]: the callback runs and
       returns [next]  ([RunThen p]) *)
| AwaitReaction (i : nat)
    (* the reaction of [await prev] of call [i]  ([Resume i]) *)
| ThenableJob (p : pid)
    (* [p] was resolved with the promise [next]: this job calls
       [next.then] with the resolving functions of [p] *)
| NextReaction (p : pid)
    (* the reaction of that [next.then]: [p] is fulfilled  ([Adopt p]) *)
| FnReaction (i : nat) (o : Outcome).
    (* the reaction of [await fn()] of call [i]  ([Settle i o]) *)

Record State := mkState {
  base : Mutex.State;
  queue : list Job;
  parked : list pid;    (* promises whose [ThenableJob] ran while [next] was pending *)
  settled : list nat    (* calls whose [fn()] promise has settled *)
}.

Definition init : State := mkState Mutex.init [] [] [].

Inductive Event :=
| Submit (username : option string) (key : string)
    (* a call of [runExclusive], up to its [await prev] *)
| OperationSettles (i : nat) (o : Outcome)
    (* the promise [fn()] of call [i] returned settles *)
| Tick.
    (* the job at the head of the queue runs *)

(** The two reactions a call registers on its [prev], in the order of
    lines 10 and 13: the callback of [then], the continuation of
    [await].  The promise made by [then] sits right after [next] in the
    heap. *)
Definition reactions (i : nat) (c : Call) : list Job :=
  [ThenReaction (S (next c)); AwaitReaction i].

(** The reactions registered on [p]: those of the calls whose [prev] is
    [p], from call [i] on. *)
Fixpoint waiting (p : pid) (i : nat) (cs : list Call) : list Job :=
  match cs with
  | [] => []
  | c :: cs' =>
      (if Nat.eqb (prev c) p then reactions i c else []) ++ waiting p (S i) cs'
  end.

Definition step (s : State) (e : Event) : option State :=
  match e with
  | Submit username key =>
      match Mutex.step (base s) (Invoke username key) with
      | Some b =>
          let i := length (calls (base s)) in
          match calls b !! i with
          | Some c =>
              let ready :=
                if isFulfilled (heap b) (prev c) then reactions i c else [] in
              Some (mkState b (queue s ++ ready) (parked s) (settled s))
          | None => None
          end
      | None => None
      end
  | OperationSettles i o =>
      match calls (base s) !! i with
      | Some c =>
          match pc c with
          | AwaitFn =>
              if bool_decide (i ∈ settled s) then None
              else Some (mkState (base s) (queue s ++ [FnReaction i o])
                                 (parked s) (settled s ++ [i]))
          | _ => None
          end
      | None => None
      end
  | Tick =>
      match queue s with
      | [] => None
      | ThenReaction p :: rest =>
          match Mutex.step (base s) (RunThen p) with
          | Some b => Some (mkState b (rest ++ [ThenableJob p]) (parked s) (settled s))
          | None => None
          end
      | AwaitReaction i :: rest =>
          match Mutex.step (base s) (Resume i) with
          | Some b => Some (mkState b rest (parked s) (settled s))
          | None => None
          end
      | ThenableJob p :: rest =>
          match heap (base s) !! p with
          | Some (Then a b AdoptingNext) =>
              if isFulfilled (heap (base s)) b
              then Some (mkState (base s) (rest ++ [NextReaction p])
                                 (parked s) (settled s))
              else Some (mkState (base s) rest (parked s ++ [p]) (settled s))
          | _ => None
          end
      | NextReaction p :: rest =>
          match Mutex.step (base s) (Adopt p) with
          | Some b =>
              Some (mkState b (rest ++ waiting p 0 (calls b)) (parked s) (settled s))
          | None => None
          end
      | FnReaction i o :: rest =>
          match calls (base s) !! i, Mutex.step (base s) (Settle i o) with
          | Some c, Some b =>
              (* [resolveNext(undefined)] fulfils [next]: its reaction is
                 queued when the promise after it is parked on it *)
              let p := S (next c) in
              if bool_decide (p ∈ parked s)
              then Some (mkState b (rest ++ [NextReaction p])
                                 (List.filter (fun q => negb (Nat.eqb q p)) (parked s))
                                 (settled s))
              else Some (mkState b rest (parked s) (settled s))
          | _, _ => None
          end
      end
  end.

Fixpoint run (evs : list Event) (s : State) : option State :=
  match evs with
  | [] => Some s
  | e :: evs' =>
      match step s e with
      | Some s' => run evs' s'
      | None => None
      end
  end.

Definition reachable (s : State) : Prop := exists evs, run evs init = Some s.

(** What the step does to the promise machine. *)
Definition eventOf (s : State) (e : Event) : list Mutex.Event :=
  match e with
  | Submit username key => [Invoke username key]
  | OperationSettles _ _ => []
  | Tick =>
      match queue s with
      | ThenReaction p :: _ => [RunThen p]
      | AwaitReaction i :: _ => [Resume i]
      | NextReaction p :: _ => [Adopt p]
      | FnReaction i o :: _ => [Settle i o]
      | _ => []
      end
  end.

End Fifo.

(* ===================================================================== *)
(** ** storage/chestStore.ts: removeChest, markDestroyed, getWorldKey; and
       the hidden-chest count of skills/verified/list_chests.ts          *)
(* ===================================================================== *)

Module Registry.
Import JsString ChestStore.

(** The test of [removeChest]'s [findIndex]. *)
Definition removable (idOrLabel : string) (c : ChestRecord) : bool :=
  String.eqb (id c) idOrLabel
  || String.eqb (toLowerCase (label c)) (toLowerCase idOrLabel).

(** [ws.chests.splice(idx, 1)] at the index found, on the array. *)
Definition removeIn (cs : list ChestRecord) (idOrLabel : string)
  : list ChestRecord * bool :=
  match findIndex (removable idOrLabel) cs with
  | Some idx => (delete idx cs, true)
  | None => (cs, false)
  end.

Definition removeChest (store : RootStore) (worldKey idOrLabel : string)
  : RootStore * bool :=
  let '(store, ws) := ensureWorld store worldKey in
  match removeIn (chests ws) idOrLabel with
  | (cs, true) => (setWorld store worldKey {| chests := cs |}, true)
  | (_, false) => (store, false)
  end.

Definition hasId (theId : string) (c : ChestRecord) : bool :=
  String.eqb (id c) theId.

(** [rec.destroyed = true; rec.updatedAt = new Date().toISOString()] *)
Definition destroy (env : Env) (rec : ChestRecord) : ChestRecord :=
  {| id := id rec;
     label := label rec;
     notes := notes rec;
     hidden := hidden rec;
     forbidden := forbidden rec;
     type := type rec;
     positions := positions rec;
     primary := primary rec;
     dimension := dimension rec;
     createdAt := createdAt rec;
     updatedAt := now env;
     destroyed := Some true |}.

Definition markIn (env : Env) (cs : list ChestRecord) (theId : string)
  : list ChestRecord :=
  match findIndex (hasId theId) cs with
  | Some i =>
      match cs !! i with
      | Some rec => <[i := destroy env rec]> cs
      | None => cs
      end
  | None => cs
  end.

Definition markDestroyed (env : Env) (store : RootStore) (worldKey theId : string)
  : RootStore :=
  let '(store, ws) := ensureWorld store worldKey in
  setWorld store worldKey {| chests := markIn env (chests ws) theId |}.

(** What [getWorldKey] reads of the bot: [serverHost], [serverPort], the
    host and port of [_client.options], and [game.dimension]; each [None]
    when it is missing. *)
Record Connection := mkConnection {
  serverHost : option string;
  optionsHost : option string;
  serverPort : option Z;
  optionsPort : option Z;
  gameDimension : option string
}.

(** [a || b] on a possibly missing number: zero is falsy. *)
Definition orPort (a : option Z) (b : Z) : Z :=
  match a with
  | Some n => if n =? 0 then b else n
  | None => b
  end.

Definition hostOf (bot : Connection) : string :=
  orElse (serverHost bot) (orElse (optionsHost bot) "localhost").

Definition portOf (bot : Connection) : Z :=
  orPort (serverPort bot) (orPort (optionsPort bot) 25565).

Definition dimensionOf (bot : Connection) : string :=
  orElse (gameDimension bot) "overworld".

(** [`${host}:${port}:${dimension}`] *)
Definition getWorldKey (bot : Connection) : string :=
  String.append (hostOf bot)
    (String.append ":"
       (String.append (pretty (portOf bot))
          (String.append ":" (dimensionOf bot)))).

(** [list_chests]: [Math.max(allHidden.length - all.length, 0)], with
    [all = listChests(worldKey, includeHidden)] and
    [allHidden = listChests(worldKey, true)]. *)
Definition hiddenCount (store : RootStore) (worldKey : string)
    (includeHidden : bool) : RootStore * Z :=
  let '(store, all) := listChests store worldKey includeHidden in
  let '(store, allHidden) := listChests store worldKey true in
  (store, Z.max (Z.of_nat (length allHidden) - Z.of_nat (length all)) 0).

(** The note ["[n hidden chests not shown]"] is pushed. *)
Definition hiddenNoteShown (includeHidden : bool) (hiddenCount : Z) : bool :=
  negb includeHidden && (0 <? hiddenCount).

End Registry.

(* ===================================================================== *)
(** ** withdraw_items: countInContainerByName                             *)
(* ===================================================================== *)

Module Withdraw.

(** The loop of [countInContainerByName], with the slot read made a
    parameter as for the loops of [ChestUtils]. *)
Definition countByNameWith (read : Z -> option ChestUtils.Item)
    (info : ChestUtils.SlotInfo) (name : string) : Z :=
  List.fold_left
    (fun total i =>
       match read i with
       | Some it =>
           if String.eqb (ChestUtils.name it) name
           then total + ChestUtils.count it else total
       | None => total
       end)
    (ChestUtils.loopIndices (ChestUtils.containerStart info)
                            (ChestUtils.containerEnd info)) 0.

Definition countInContainerByName (window : ChestUtils.Window) (name : string) : Z :=
  countByNameWith (ChestUtils.slotAt window) (ChestUtils.getContainerSlotInfo window) name.

End Withdraw.

(* ===================================================================== *)
(** ** chestUtils: findNearbyContainers                                   *)
(* ===================================================================== *)

#[global] Instance StoredPosition_eq_dec : EqDecision ChestStore.StoredPosition.
Proof. solve_decision. Defined.

#[global] Instance StoredPosition_countable : Countable ChestStore.StoredPosition :=
  inj_countable'
    (fun p => (ChestStore.x p, ChestStore.y p, ChestStore.z p))
    (fun t => ChestStore.mkPos (fst (fst t)) (snd (fst t)) (snd t))
    (fun p => match p with ChestStore.mkPos _ _ _ => eq_refl end).

Module Discovery.
Import ChestUtils.

(** An element of the array [findNearbyContainers] returns. *)
Record Found := mkFound {
  type : ChestStore.ContainerType;
  position : Vec3
}.

(** The loop over the positions [bot.findBlocks] returned.  [seen] is the
    set of keys [`${x},${y},${z}`], one per coordinate triple, held here
    as a set of coordinates; [results] grows at its end.  A result of
    type [double_chest] has two positions, so [det.positions[1]] is there
    and the default of [List.nth] is not read. *)
Fixpoint scan (bot : Bot) (positions : list Vec3) (seen : gset Vec3)
    (results : list Found) : DetectError + list Found :=
  match positions with
  | [] => inr results
  | pos :: rest =>
      if decide (pos ∈ seen) then scan bot rest seen results
      else
        match detectContainerAt bot pos with
        | inl e => inl e
        | inr det =>
            match ChestUtils.type det with
            | ChestStore.double_chest =>
                let p0 := primary det in
                let p1 := List.nth 1 (ChestUtils.positions det) p0 in
                scan bot rest ({[p1]} ∪ ({[p0]} ∪ seen))
                     (results ++ [mkFound ChestStore.double_chest p0])
            | t => scan bot rest ({[pos]} ∪ seen) (results ++ [mkFound t pos])
            end
        end
  end.

(** The bounding-box test of the final [filter]. *)
Definition inBox (center : Vec3) (rx ry rz : Z) (r : Found) : bool :=
  (Z.abs (vx (position r) - vx center) <=? rx)
  && (Z.abs (vy (position r) - vy center) <=? ry)
  && (Z.abs (vz (position r) - vz center) <=? rz).

(** [center] is [bot.entity?.position?.floored() || new Vec3(0, 0, 0)] and
    [found] the array [bot.findBlocks] returned. *)
Definition findNearbyContainers (bot : Bot) (center : Vec3) (found : list Vec3)
    (rx ry rz : Z) : DetectError + list Found :=
  match scan bot found ∅ [] with
  | inl e => inl e
  | inr results => inr (List.filter (inBox center rx ry rz) results)
  end.

End Discovery.

(* ===================================================================== *)
(** ** skills/verified/label_chest.ts                                     *)
(* ===================================================================== *)

Module LabelChest.
Import JsString.

(** The parameters as the skill receives them: a coordinate is [Some]
    when [typeof] gives ['number'], the label when it gives ['string'].
    Coordinates are whole numbers, where [Math.floor] changes nothing. *)
Record Params := mkParams {
  x : option Z;
  y : option Z;
  z : option Z;
  label : option string;
  notes : option string;
  hidden : option bool;
  forbidden : option bool
}.

(** How the skill ends: the early [return false], the [catch] branch, or
    the [return true] after [upsertChest]. *)
Inductive Outcome :=
| MissingParameters
| FailedToLabel (e : ChestUtils.DetectError)
| Labeled (det : ChestUtils.DetectedContainer) (saved : ChestStore.ChestRecord).

Definition returned (o : Outcome) : bool :=
  match o with
  | Labeled _ _ => true
  | _ => false
  end.

(** The [record] literal; [stamps] are the two readings of
    [new Date().toISOString()]. *)
Definition recordOf (stamps : string * string) (bot : Registry.Connection)
    (params : Params) (label : string) (det : ChestUtils.DetectedContainer)
  : ChestStore.ChestRecord :=
  {| ChestStore.id := "";
     ChestStore.label := trim label;
     ChestStore.notes := notes params;
     ChestStore.hidden := Some (truthy (hidden params));
     ChestStore.forbidden := Some (truthy (forbidden params));
     ChestStore.type := ChestUtils.type det;
     ChestStore.positions := ChestUtils.positions det;
     ChestStore.primary := ChestUtils.primary det;
     ChestStore.dimension := Registry.dimensionOf bot;
     ChestStore.createdAt := fst stamps;
     ChestStore.updatedAt := snd stamps;
     ChestStore.destroyed := Some false |}.

(** [world] is the block lookup of the bot, [bot] what [getWorldKey] and
    the dimension read of it; the store is the one [loadStore] left. *)
Definition label_chest (env : ChestStore.Env) (stamps : string * string)
    (store : ChestStore.RootStore) (bot : Registry.Connection)
    (world : ChestUtils.Bot) (params : Params)
  : ChestStore.RootStore * Outcome :=
  match x params, y params, z params, label params with
  | Some x, Some y, Some z, Some label =>
      if String.eqb (trim label) "" then (store, MissingParameters)
      else
        let worldKey := Registry.getWorldKey bot in
        let pos := ChestStore.mkPos x y z in
        match ChestUtils.detectContainerAt world pos with
        | inl e => (store, FailedToLabel e)
        | inr det =>
            let record := recordOf stamps bot params label det in
            let '(store, saved) := ChestStore.upsertChest env store worldKey record in
            (store, Labeled det saved)
        end
  | _, _, _, _ => (store, MissingParameters)
  end.

(** The same parameters with the coordinates of [pos]. *)
Definition aimedAt (pos : ChestStore.StoredPosition) (params : Params) : Params :=
  {| x := Some (ChestStore.x pos);
     y := Some (ChestStore.y pos);
     z := Some (ChestStore.z pos);
     label := label params;
     notes := notes params;
     hidden := hidden params;
     forbidden := forbidden params |}.

End LabelChest.

(* ===================================================================== *)
(** ** skills/verified/find_containers.ts                                 *)
(* ===================================================================== *)

Module FindContainers.
Import ChestUtils.

Definition humanizeContainerType (t : ChestStore.ContainerType) : string :=
  match t with
  | ChestStore.single_chest => "Single Chest"
  | ChestStore.double_chest => "Double Chest"
  | ChestStore.trapped_chest => "Trapped Chest"
  | ChestStore.barrel => "Barrel"
  | ChestStore.ender_chest => "Ender Chest"
  | ChestStore.shulker_box => "Shulker Box"
  | ChestStore.container => "Container"
  end.

(** [typeof v === 'number' ? v : d] *)
Definition numberOr (v : option Z) (d : Z) : Z :=
  match v with
  | Some n => n
  | None => d
  end.

(** [containers.filter(c => !(rec && rec.forbidden))], [rec] being what
    [getChestByPosition] returns for the position of [c]. *)
Fixpoint visibleOf (store : ChestStore.RootStore) (worldKey : string)
    (containers : list Discovery.Found)
  : ChestStore.RootStore * list Discovery.Found :=
  match containers with
  | [] => (store, [])
  | c :: rest =>
      let '(store, rec) :=
        ChestStore.getChestByPosition store worldKey (Discovery.position c) in
      let '(store, visible) := visibleOf store worldKey rest in
      (store, if foundForbidden rec then visible else c :: visible)
  end.

(** One line of the listing: the type as it is printed, the position and
    the label of the record found there. *)
Record Line := mkLine {
  typeHuman : string;
  position : Vec3;
  labeled : option string
}.

Fixpoint linesOf (store : ChestStore.RootStore) (worldKey : string)
    (visible : list Discovery.Found) : ChestStore.RootStore * list Line :=
  match visible with
  | [] => (store, [])
  | c :: rest =>
      let '(store, rec) :=
        ChestStore.getChestByPosition store worldKey (Discovery.position c) in
      let line := mkLine (humanizeContainerType (Discovery.type c))
                         (Discovery.position c)
                         (ChestStore.label <$> rec) in
      let '(store, lines) := linesOf store worldKey rest in
      (store, line :: lines)
  end.

(** [find_containers]; [center] and [found] are what [findNearbyContainers]
    reads of the bot, the radii are the three optional parameters. *)
Definition find_containers (store : ChestStore.RootStore) (worldKey : string)
    (bot : Bot) (center : Vec3) (found : list Vec3)
    (radius_x radius_y radius_z : option Z)
  : ChestStore.RootStore * (DetectError + list Line) :=
  let rx := numberOr radius_x 16 in
  let ry := numberOr radius_y 8 in
  let rz := numberOr radius_z 16 in
  match Discovery.findNearbyContainers bot center found rx ry rz with
  | inl e => (store, inl e)
  | inr containers =>
      let '(store, visible) := visibleOf store worldKey containers in
      let '(store, lines) := linesOf store worldKey visible in
      (store, inr lines)
  end.

End FindContainers.

(* ===================================================================== *)
(** ** deposit_items.ts and withdraw_items: the ['all'] branches          *)
(* ===================================================================== *)

Module Reports.
Import ChestUtils Skills.

(** [deposited] / [withdrew] and [failed]: an entry [(name, n)] stands for
    the string [`${name} x${n}`]. *)
Record Report := mkReport {
  moved : list (string * Z);
  failed : list (string * Z)
}.

(** [if (cond) list.push(...)], the condition and the number pushed being
    those of [reportedMoved] and [reportedFailed]. *)
Definition pushIf (name : string) (n : option Z) (lines : list (string * Z))
  : list (string * Z) :=
  match n with
  | Some v => lines ++ [(name, v)]
  | None => lines
  end.

Definition record (name : string) (total n : Z) (report : Report) : Report :=
  mkReport (pushIf name (reportedMoved total n) (moved report))
           (pushIf name (reportedFailed total n) (failed report)).

(** [collectInventoryByName]: [items] is [bot.inventory.items()]. *)
Definition collectInventoryByName (items : list Item) : list (string * Z) :=
  List.fold_left (fun map it => bump (name it) (count it) map) items [].

(** [items.filter(it => it.name === resolved).reduce((a, it) => a + it.count, 0)],
    the total of the branch for named items. *)
Definition inventoryTotal (items : list Item) (resolved : string) : Z :=
  List.fold_left (fun a it => a + count it)
    (List.filter (fun it => String.eqb (name it) resolved) items) 0.

(** [totals.set(it.name, { typeId: it.type, count: (totals.get(it.name)?.count || 0) + it.count })] *)
Fixpoint bumpTotals (key : string) (typeId n : Z) (totals : list (string * (Z * Z)))
  : list (string * (Z * Z)) :=
  match totals with
  | [] => [(key, (typeId, 0 + n))]
  | (k, (t, v)) :: rest =>
      if String.eqb k key then (k, (typeId, v + n)) :: rest
      else (k, (t, v)) :: bumpTotals key typeId n rest
  end.

(** The [totals] map of [withdraw_items], over the container region. *)
Definition containerTotals (window : Window) : list (string * (Z * Z)) :=
  List.fold_left
    (fun totals i =>
       match slotAt window i with
       | None => totals
       | Some it => bumpTotals (name it) (itemType it) (count it) totals
       end)
    (loopIndices (containerStart (getContainerSlotInfo window))
                 (containerEnd (getContainerSlotInfo window))) [].

Section Loops.
Context {W : Type}.

(** [for (const [name, total] of invMap.entries())] of [deposit_items];
    [itemsByName] is the registry, giving the [id] of an entry. *)
Fixpoint depositEach (ops : @WindowOps W) (itemsByName : string -> option Z)
    (invMap : list (string * Z)) (window : W) (report : Report) : W * Report :=
  match invMap with
  | [] => (window, report)
  | (name, total) :: rest =>
      match itemsByName name with
      | None => depositEach ops itemsByName rest window report
      | Some id =>
          let '(window, n) := depositType ops window id total in
          depositEach ops itemsByName rest window (record name total n report)
      end
  end.

Definition depositAll (ops : @WindowOps W) (itemsByName : string -> option Z)
    (items : list Item) (window : W) : W * Report :=
  depositEach ops itemsByName (collectInventoryByName items) window (mkReport [] []).

(** [for (const [name, info] of totals.entries())] of [withdraw_items]. *)
Fixpoint withdrawEach (ops : @WindowOps W) (totals : list (string * (Z * Z)))
    (window : W) (report : Report) : W * Report :=
  match totals with
  | [] => (window, report)
  | (name, (typeId, total)) :: rest =>
      let '(window, n) := withdrawType ops window typeId total in
      withdrawEach ops rest window (record name total n report)
  end.

(** [slotsOf] gives the slots of the window as they are when the branch
    is entered. *)
Definition withdrawAll (ops : @WindowOps W) (slotsOf : W -> Window) (window : W)
  : W * Report :=
  withdrawEach ops (containerTotals (slotsOf window)) window (mkReport [] []).

End Loops.
End Reports.

(* ===================================================================== *)
(** * Properties                                                          *)
(* ===================================================================== *)

(** ** Searching an array *)

Section FindFacts.
Context {A : Type} (p : A -> bool).

Lemma findIndex_Some (l : list A) (i : nat) :
  findIndex p l = Some i <->
  (exists a, l !! i = Some a /\ p a = true) /\
  (forall j b, (j < i)%nat -> l !! j = Some b -> p b = false).
Proof.
  revert i. induction l as [|a l IH]; intros i; simpl.
  - split; [discriminate | intros [[b [Hb _]] _]; discriminate].
  - destruct (p a) eqn:Hpa.
    + split.
      * intros [= <-]. split; [exists a; auto | intros j b Hj; lia].
      * intros [[b [Hb Hpb]] Hlt]. destruct i as [|i]; [reflexivity|].
        specialize (Hlt O a ltac:(lia) eq_refl). congruence.
    + rewrite fmap_Some. split.
      * intros [k [Hk ->]]. apply IH in Hk as [Hex Hlt]. split; [exact Hex|].
        intros [|j] b Hj Hb; simpl in Hb; [congruence|].
        apply (Hlt j); [lia | exact Hb].
      * intros [[b [Hb Hpb]] Hlt]. destruct i as [|i]; simpl in Hb; [congruence|].
        exists i. split; [|reflexivity]. apply IH. split; [exists b; auto|].
        intros j c Hj Hc. apply (Hlt (S j)); [lia | exact Hc].
Qed.

Lemma findIndex_None (l : list A) :
  findIndex p l = None <-> (forall j b, l !! j = Some b -> p b = false).
Proof.
  induction l as [|a l IH]; simpl.
  - split; [intros _ j b Hb; discriminate | reflexivity].
  - destruct (p a) eqn:Hpa.
    + split; [discriminate|]. intros H. specialize (H O a eq_refl). congruence.
    + rewrite fmap_None, IH. split.
      * intros H [|j] b Hb; simpl in Hb; [congruence | eauto].
      * intros H j b Hb. apply (H (S j)). exact Hb.
Qed.

Lemma jsFind_Some (l : list A) (a : A) :
  jsFind p l = Some a <->
  exists i, l !! i = Some a /\ p a = true /\
            (forall j b, (j < i)%nat -> l !! j = Some b -> p b = false).
Proof.
  unfold jsFind. destruct (findIndex p l) as [i|] eqn:Hi.
  - apply findIndex_Some in Hi as [[b [Hb Hpb]] Hlt]. split.
    + intros Ha. exists i. rewrite Hb in Ha. injection Ha as <-. auto.
    + intros [k [Hk [Hpa Hltk]]].
      destruct (lt_eq_lt_dec i k) as [[Hlt' | -> ] | Hgt].
      * specialize (Hltk i b Hlt' Hb). congruence.
      * exact Hk.
      * specialize (Hlt k a Hgt Hk). congruence.
  - split; [discriminate|]. intros [k [Hk [Hpa _]]].
    rewrite findIndex_None in Hi. specialize (Hi k a Hk). congruence.
Qed.

Lemma jsFind_None (l : list A) :
  jsFind p l = None <-> (forall j b, l !! j = Some b -> p b = false).
Proof.
  unfold jsFind. destruct (findIndex p l) as [i|] eqn:Hi.
  - apply findIndex_Some in Hi as [[b [Hb Hpb]] Hlt]. split.
    + intros Hn. congruence.
    + intros H. specialize (H i b Hb). congruence.
  - rewrite findIndex_None in Hi. split; auto.
Qed.
End FindFacts.

(** ** The chest registry *)

Section ChestStoreFacts.
Import ChestStore.

Lemma posEquals_eq (a b : StoredPosition) : posEquals a b = true <-> a = b.
Proof.
  unfold posEquals. destruct a as [ax ay az], b as [bx b_y bz]; simpl.
  rewrite !andb_true_iff, !Z.eqb_eq. split.
  - intros [[-> ->] ->]. reflexivity.
  - intros [= -> -> ->]. auto.
Qed.

Lemma covers_spec (pos : StoredPosition) (c : ChestRecord) :
  covers pos c = true <-> truthy (destroyed c) = false /\ In pos (positions c).
Proof.
  unfold covers. rewrite andb_true_iff, negb_true_iff, existsb_exists.
  split.
  - intros [Hd [q [Hq Heq]]]. apply posEquals_eq in Heq. subst q. auto.
  - intros [Hd Hin]. split; [exact Hd|]. exists pos. split; [exact Hin|].
    apply posEquals_eq. reflexivity.
Qed.

Lemma ensureWorld_chests (store : RootStore) (worldKey : string) :
  chests (snd (ensureWorld store worldKey)) = chestsOf store worldKey /\
  chestsOf (fst (ensureWorld store worldKey)) worldKey = chestsOf store worldKey.
Proof.
  unfold ensureWorld, chestsOf.
  destruct (worlds store !! worldKey) as [ws|] eqn:Hw; simpl.
  - rewrite Hw. auto.
  - rewrite lookup_insert_eq. auto.
Qed.

Lemma getChestByPosition_snd (store : RootStore) (worldKey : string) pos :
  snd (getChestByPosition store worldKey pos)
  = byPositionIn (chestsOf store worldKey) pos.
Proof.
  unfold getChestByPosition.
  pose proof (ensureWorld_chests store worldKey) as [H _].
  destruct (ensureWorld store worldKey) as [st ws]; simpl in *. congruence.
Qed.

Lemma getChestByPosition_fst (store : RootStore) (worldKey : string) pos :
  chestsOf (fst (getChestByPosition store worldKey pos)) worldKey
  = chestsOf store worldKey.
Proof.
  unfold getChestByPosition.
  pose proof (ensureWorld_chests store worldKey) as [_ H].
  destruct (ensureWorld store worldKey) as [st ws]; simpl in *. congruence.
Qed.

Lemma getChestByLabel_snd (store : RootStore) (worldKey l : string) :
  snd (getChestByLabel store worldKey l) = byLabelIn (chestsOf store worldKey) l.
Proof.
  unfold getChestByLabel.
  pose proof (ensureWorld_chests store worldKey) as [H _].
  destruct (ensureWorld store worldKey) as [st ws]; simpl in *. congruence.
Qed.

Lemma getChestByLabel_fst (store : RootStore) (worldKey l : string) :
  chestsOf (fst (getChestByLabel store worldKey l)) worldKey
  = chestsOf store worldKey.
Proof.
  unfold getChestByLabel.
  pose proof (ensureWorld_chests store worldKey) as [_ H].
  destruct (ensureWorld store worldKey) as [st ws]; simpl in *. congruence.
Qed.

Lemma listChests_snd (store : RootStore) (worldKey : string) h :
  snd (listChests store worldKey h) = listIn (chestsOf store worldKey) h.
Proof.
  unfold listChests.
  pose proof (ensureWorld_chests store worldKey) as [H _].
  destruct (ensureWorld store worldKey) as [st ws]; simpl in *. congruence.
Qed.

Lemma byPositionIn_spec (cs : list ChestRecord) pos r :
  byPositionIn cs pos = Some r <->
  exists i, cs !! i = Some r /\ truthy (destroyed r) = false /\
            In pos (positions r) /\
            (forall j c, (j < i)%nat -> cs !! j = Some c ->
                         ~ (truthy (destroyed c) = false /\ In pos (positions c))).
Proof.
  unfold byPositionIn. rewrite jsFind_Some. split.
  - intros [i [Hi [Hc Hlt]]]. exists i. apply covers_spec in Hc as [Hd Hin].
    repeat split; auto. intros j c Hj Hjc Hcov.
    apply covers_spec in Hcov. rewrite (Hlt j c Hj Hjc) in Hcov. discriminate.
  - intros [i [Hi [Hd [Hin Hlt]]]]. exists i. repeat split; auto.
    + apply covers_spec. auto.
    + intros j c Hj Hjc. destruct (covers pos c) eqn:Hcov; [|reflexivity].
      apply covers_spec in Hcov. exfalso. exact (Hlt j c Hj Hjc Hcov).
Qed.
End ChestStoreFacts.

Section ChestStoreClaims.
Import ChestStore.

(** [r] is the first record of [cs] that is not destroyed and has [pos]
    among its positions. *)
Definition firstLiveHolder (cs : list ChestRecord) (pos : StoredPosition)
    (r : ChestRecord) : Prop :=
  exists i, cs !! i = Some r /\ truthy (destroyed r) = false /\
            In pos (positions r) /\
            (forall j c, (j < i)%nat -> cs !! j = Some c ->
                         ~ (truthy (destroyed c) = false /\ In pos (positions c))).

Lemma firstLiveHolder_exists (cs : list ChestRecord) (pos : StoredPosition) :
  (exists r, In r cs /\ truthy (destroyed r) = false /\ In pos (positions r)) ->
  exists r, byPositionIn cs pos = Some r.
Proof.
  intros [r [Hin [Hd Hp]]].
  destruct (byPositionIn cs pos) as [r'|] eqn:H; [eauto|].
  unfold byPositionIn in H. rewrite jsFind_None in H.
  apply list_elem_of_In, list_elem_of_lookup in Hin as [i Hi].
  specialize (H i r Hi).
  assert (covers pos r = true) by (apply covers_spec; auto). congruence.
Qed.

(** A forbidden double chest labelled "Vault". *)
Definition vaultRecord : ChestRecord :=
  {| id := "chest-1"; label := "Vault"; notes := None; hidden := Some false;
     forbidden := Some true; type := double_chest;
     positions := [mkPos 10 64 10; mkPos 11 64 10]; primary := mkPos 10 64 10;
     dimension := "overworld"; createdAt := "t0"; updatedAt := "t0";
     destroyed := Some false |}.

Definition overworld : string := "localhost:25565:overworld".

Definition emptyStore : RootStore := mkRoot 1 ∅.

(** Two readings of the clock and of the id generator. *)
Definition clock1 : Env := mkEnv "2025-01-01T00:00:00.000Z" "chest-1-abcdef".
Definition clock2 : Env := mkEnv "2025-01-01T00:00:05.000Z" "chest-2-ghijkl".

Definition vaultStore : RootStore :=
  mkRoot 1 {[ overworld := mkWorld [vaultRecord] ]}.

(** A bot that has joined no server yet: every field is missing. *)
Definition localBot : Registry.Connection :=
  Registry.mkConnection None None None None None.

(** A world with one chest at (11,64,10), and the same world once a chest
    stands next to it at (10,64,10). *)
Definition loneBot : ChestUtils.Bot :=
  fun p => if posEquals p (mkPos 11 64 10) then Some "chest" else Some "stone".

Definition vaultBot : ChestUtils.Bot :=
  fun p =>
    if posEquals p (mkPos 10 64 10) || posEquals p (mkPos 11 64 10)
    then Some "chest" else Some "stone".

(** [label_chest { x: 11, y: 64, z: 10, label: 'Spare' }] while the chest is
    a single chest; then, the chest having become a double chest,
    [label_chest { x: 11, y: 64, z: 10, label: 'Vault', forbidden: true }]. *)
Definition spareParams : LabelChest.Params :=
  LabelChest.mkParams (Some 11) (Some 64) (Some 10) (Some "Spare") None None None.

Definition sealParams : LabelChest.Params :=
  LabelChest.mkParams (Some 11) (Some 64) (Some 10) (Some "Vault") None None (Some true).

Definition shadowStore : RootStore :=
  fst (LabelChest.label_chest clock2 (now clock2, now clock2)
         (fst (LabelChest.label_chest clock1 (now clock1, now clock1)
                 emptyStore localBot loneBot spareParams))
         localBot vaultBot sealParams).

(** The two records [shadowStore] holds. *)
Definition spareRecord : ChestRecord :=
  {| id := "chest-1-abcdef"; label := "Spare"; notes := None; hidden := Some false;
     forbidden := Some false; type := single_chest;
     positions := [mkPos 11 64 10]; primary := mkPos 11 64 10;
     dimension := "overworld"; createdAt := now clock1; updatedAt := now clock1;
     destroyed := Some false |}.

Definition sealedVault : ChestRecord :=
  {| id := "chest-2-ghijkl"; label := "Vault"; notes := None; hidden := Some false;
     forbidden := Some true; type := double_chest;
     positions := [mkPos 10 64 10; mkPos 11 64 10]; primary := mkPos 10 64 10;
     dimension := "overworld"; createdAt := now clock2; updatedAt := now clock2;
     destroyed := Some false |}.

Lemma shadowStore_chests :
  Registry.getWorldKey localBot = overworld /\
  chestsOf shadowStore overworld = [spareRecord; sealedVault].
Proof. split; vm_compute; reflexivity. Qed.

(** C6, on the code.  [getChestByPosition(worldKey, pos)] returns the first
    record of the world that is not destroyed and has [pos] among its
    [positions] (any element, not only [primary]); it returns a record
    exactly when such a record exists; the [forbidden] flag plays no part;
    and two member coordinates of a live record resolve to that record
    when no earlier live record holds one of them.  But the store can hold
    two live records that share a block, and then the two halves of one
    double chest resolve to different records: after the two [label_chest]
    calls of [shadowStore], (10,64,10) resolves to the double chest
    "Vault" and (11,64,10), its other half, to "Spare". *)
Theorem C6_halves_of_a_double_chest_resolve_apart :
  (forall store worldKey pos r,
      snd (getChestByPosition store worldKey pos) = Some r <->
      firstLiveHolder (chestsOf store worldKey) pos r) /\
  (forall store worldKey pos,
      is_Some (snd (getChestByPosition store worldKey pos)) <->
      exists r, In r (chestsOf store worldKey) /\
                truthy (destroyed r) = false /\ In pos (positions r)) /\
  (forall store worldKey i r p q,
      chestsOf store worldKey !! i = Some r -> truthy (destroyed r) = false ->
      In p (positions r) -> In q (positions r) ->
      (forall j c, (j < i)%nat -> chestsOf store worldKey !! j = Some c ->
                   truthy (destroyed c) = false ->
                   ~ In p (positions c) /\ ~ In q (positions c)) ->
      snd (getChestByPosition store worldKey p) = Some r /\
      snd (getChestByPosition store worldKey q) = Some r) /\
  (chestsOf shadowStore overworld = [spareRecord; sealedVault] /\
   type sealedVault = double_chest /\
   positions sealedVault = [mkPos 10 64 10; mkPos 11 64 10] /\
   truthy (destroyed sealedVault) = false /\
   snd (getChestByPosition shadowStore overworld (mkPos 10 64 10)) = Some sealedVault /\
   snd (getChestByPosition shadowStore overworld (mkPos 11 64 10)) = Some spareRecord /\
   spareRecord <> sealedVault).
Proof.
  split; [|split; [|split]].
  - intros store worldKey pos r. rewrite getChestByPosition_snd. apply byPositionIn_spec.
  - intros store worldKey pos. rewrite getChestByPosition_snd. split.
    + intros [r Hr]. apply byPositionIn_spec in Hr as [i [Hi [Hd [Hp _]]]].
      exists r. repeat split; auto.
      apply list_elem_of_In, list_elem_of_lookup. eauto.
    + intros H. apply firstLiveHolder_exists in H as [r Hr]. exists r. exact Hr.
  - intros store worldKey i r p q Hi Hd Hp Hq Hfirst.
    rewrite !getChestByPosition_snd. split; apply byPositionIn_spec; exists i.
    + repeat split; auto.
      intros j c Hj Hc [Hdc Hin]. destruct (Hfirst j c Hj Hc Hdc) as [Hn _]. auto.
    + repeat split; auto.
      intros j c Hj Hc [Hdc Hin]. destruct (Hfirst j c Hj Hc Hdc) as [_ Hn]. auto.
  - split; [exact (proj2 shadowStore_chests)|].
    split; [reflexivity|]. split; [reflexivity|]. split; [reflexivity|].
    split; [vm_compute; reflexivity|]. split; [vm_compute; reflexivity|].
    discriminate.
Qed.
End ChestStoreClaims.

(** ** Forbidden records *)

Section ForbiddenClaims.
Import ChestStore.

Lemma listIn_not_forbidden (cs : list ChestRecord) (h : bool) (r : ChestRecord) :
  In r (listIn cs h) -> In r cs /\ truthy (forbidden r) = false.
Proof.
  unfold listIn. rewrite filter_In. intros [Hin Hl]. split; [exact Hin|].
  unfold listed in Hl. rewrite !andb_true_iff, !negb_true_iff in Hl. tauto.
Qed.

Lemma byLabelIn_visible (cs : list ChestRecord) (l : string) (r : ChestRecord) :
  byLabelIn cs l = Some r ->
  In r cs /\ truthy (forbidden r) = false /\ truthy (destroyed r) = false /\
  JsString.toLowerCase (label r) = JsString.toLowerCase (normalizeLabel l).
Proof.
  unfold byLabelIn. rewrite jsFind_Some. intros [i [Hi [Hv _]]].
  unfold labelVisible in Hv.
  rewrite !andb_true_iff, !negb_true_iff, String.eqb_eq in Hv.
  split; [|tauto]. apply list_elem_of_In, list_elem_of_lookup. eauto.
Qed.

Lemma byLabelIn_none (cs : list ChestRecord) (l : string) :
  (forall c, In c cs ->
             JsString.toLowerCase (label c) = JsString.toLowerCase (normalizeLabel l) ->
             truthy (destroyed c) = true \/ truthy (forbidden c) = true) ->
  byLabelIn cs l = None.
Proof.
  intros H. unfold byLabelIn. apply jsFind_None. intros j c Hc.
  unfold labelVisible.
  destruct (String.eqb_spec (JsString.toLowerCase (label c))
                            (JsString.toLowerCase (normalizeLabel l))) as [He|Hne].
  - assert (Hin : In c cs)
      by (apply list_elem_of_In, list_elem_of_lookup; eauto).
    destruct (H c Hin He) as [Hx | Hx]; rewrite Hx; simpl; [reflexivity|].
    destruct (negb (truthy (destroyed c))); reflexivity.
  - apply andb_false_r.
Qed.

Lemma accessChest_given store worldKey bot (c : Skills.ChestParam) items :
  Skills.chestGiven (Some c) = true -> Skills.itemsGiven items = true ->
  Skills.accessChest store worldKey bot (Skills.mkParams (Some c) items)
  = Skills.resolveAndOpen store worldKey bot c.
Proof.
  intros Hc Hi. unfold Skills.accessChest.
  cbn [Skills.chest Skills.items]. rewrite Hc, Hi. reflexivity.
Qed.

Lemma accessChest_by_label_none store worldKey bot (l : string) items :
  l <> "" -> Skills.itemsGiven items = true ->
  byLabelIn (chestsOf store worldKey) l = None ->
  snd (Skills.accessChest store worldKey bot
         (Skills.mkParams (Some (Skills.ByLabel l)) items))
  = Skills.NoLabeledChestFound l.
Proof.
  intros Hl Hi H. rewrite accessChest_given; [|destruct l; [congruence | reflexivity]|exact Hi].
  unfold Skills.resolveAndOpen.
  pose proof (getChestByLabel_snd store worldKey l) as Hs.
  destruct (getChestByLabel store worldKey l) as [st rec]; simpl in Hs.
  rewrite Hs, H. reflexivity.
Qed.

Lemma accessChest_by_coords_denied store worldKey bot pos items :
  Skills.itemsGiven items = true ->
  ChestUtils.foundForbidden (byPositionIn (chestsOf store worldKey) pos) = true ->
  snd (Skills.accessChest store worldKey bot
         (Skills.mkParams (Some (Skills.ByCoords pos)) items))
  = Skills.AccessDenied.
Proof.
  intros Hi H. rewrite accessChest_given; [|reflexivity|exact Hi].
  unfold Skills.resolveAndOpen.
  pose proof (getChestByPosition_snd store worldKey pos) as Hs.
  destruct (getChestByPosition store worldKey pos) as [st rec]; simpl in Hs.
  rewrite Hs, H. reflexivity.
Qed.

Lemma openContainerAt_denied store worldKey bot pos :
  ChestUtils.foundForbidden (byPositionIn (chestsOf store worldKey) pos) = true ->
  snd (ChestUtils.openContainerAt store worldKey bot pos)
  = inl ChestUtils.AccessDeniedForbidden.
Proof.
  intros H. unfold ChestUtils.openContainerAt.
  pose proof (getChestByPosition_snd store worldKey pos) as Hs.
  destruct (getChestByPosition store worldKey pos) as [st rec]; simpl in Hs.
  rewrite Hs, H. reflexivity.
Qed.

(** The record [label_chest] builds for a label at a detected container. *)
Definition labelRecord (l : string) (f : bool) (t : ContainerType)
    (ps : list StoredPosition) (p : StoredPosition) : ChestRecord :=
  {| id := ""; label := l; notes := None; hidden := Some false;
     forbidden := Some f; type := t; positions := ps; primary := p;
     dimension := "overworld"; createdAt := "t"; updatedAt := "t";
     destroyed := Some false |}.

(** [deposit_items { chest: { x: 11, y: 64, z: 10 }, items: 'all' }] *)
Definition depositAtSpare : Skills.Params :=
  Skills.mkParams (Some (Skills.ByCoords (mkPos 11 64 10)))
                  (Some (Skills.ItemsString "all")).

(** C2, on the code.  A forbidden record is never returned by
    [listChests], whatever [includeHidden] is, nor by [getChestByLabel]; an
    access addressed by a label that only destroyed or forbidden records
    bear ends before anything is opened, in the "No labeled chest found"
    return (the record is invisible); and an access addressed by a
    coordinate is denied, in the skill and in [openContainerAt], when the
    record [getChestByPosition] returns for the coordinate is forbidden.
    But that record need not be the forbidden one that holds the
    coordinate: in [shadowStore] the forbidden double chest "Vault" holds
    (11,64,10), the position check finds the earlier record "Spare", and
    the access by (11,64,10) goes on to open the forbidden double chest at
    its primary block (10,64,10). *)
Theorem C2_forbidden_chest_opened_through_a_shared_block :
  (forall store worldKey includeHidden r,
      In r (snd (listChests store worldKey includeHidden)) ->
      truthy (forbidden r) = false) /\
  (forall store worldKey l r,
      snd (getChestByLabel store worldKey l) = Some r ->
      truthy (forbidden r) = false) /\
  (forall store worldKey bot l items,
      l <> "" -> Skills.itemsGiven items = true ->
      (forall c, In c (chestsOf store worldKey) ->
                 JsString.toLowerCase (label c)
                 = JsString.toLowerCase (normalizeLabel l) ->
                 truthy (destroyed c) = true \/ truthy (forbidden c) = true) ->
      snd (Skills.accessChest store worldKey bot
             (Skills.mkParams (Some (Skills.ByLabel l)) items))
      = Skills.NoLabeledChestFound l) /\
  (forall store worldKey bot pos items r,
      Skills.itemsGiven items = true ->
      snd (getChestByPosition store worldKey pos) = Some r ->
      truthy (forbidden r) = true ->
      snd (Skills.accessChest store worldKey bot
             (Skills.mkParams (Some (Skills.ByCoords pos)) items))
      = Skills.AccessDenied /\
      snd (ChestUtils.openContainerAt store worldKey bot pos)
      = inl ChestUtils.AccessDeniedForbidden) /\
  (chestsOf shadowStore overworld = [spareRecord; sealedVault] /\
   truthy (forbidden sealedVault) = true /\
   truthy (destroyed sealedVault) = false /\
   In (mkPos 11 64 10) (positions sealedVault) /\
   ChestUtils.detectContainerAt vaultBot (mkPos 11 64 10)
   = inr (ChestUtils.mkDetected double_chest (positions sealedVault)
                                (primary sealedVault)) /\
   snd (Skills.accessChest shadowStore overworld vaultBot depositAtSpare)
   = Skills.Opened (mkPos 10 64 10) /\
   snd (ChestUtils.openContainerAt shadowStore overworld vaultBot (mkPos 11 64 10))
   = inr (mkPos 10 64 10)).
Proof.
  split; [|split; [|split; [|split]]].
  - intros store worldKey h r. rewrite listChests_snd. intros H.
    apply listIn_not_forbidden in H. tauto.
  - intros store worldKey l r. rewrite getChestByLabel_snd. intros H.
    apply byLabelIn_visible in H. tauto.
  - intros store worldKey bot l items Hl Hi H.
    apply accessChest_by_label_none; [exact Hl | exact Hi |].
    apply byLabelIn_none, H.
  - intros store worldKey bot pos items r Hi Hr Hf.
    rewrite getChestByPosition_snd in Hr. split.
    + apply accessChest_by_coords_denied; [exact Hi|]. rewrite Hr. exact Hf.
    + apply openContainerAt_denied. rewrite Hr. exact Hf.
  - split; [exact (proj2 shadowStore_chests)|].
    split; [reflexivity|]. split; [reflexivity|]. split; [simpl; auto|].
    split; [vm_compute; reflexivity|]. split; vm_compute; reflexivity.
Qed.
End ForbiddenClaims.

(** ** Upsert *)

Section UpsertFacts.
Import ChestStore.

(** The key [upsertChest] searches labels with. *)
Definition normOf (record : ChestRecord) : string :=
  JsString.toLowerCase (normalizeLabel (label record)).

(** Number of records whose label matches [norm]. *)
Definition labelCount (norm : string) (cs : list ChestRecord) : nat :=
  length (List.filter (sameLabel norm) cs).

Definition indicator (b : bool) : nat := if b then 1%nat else 0%nat.

Lemma labelCount_insert norm (cs : list ChestRecord) i c e :
  cs !! i = Some c ->
  (labelCount norm (<[i := e]> cs) + indicator (sameLabel norm c)
   = labelCount norm cs + indicator (sameLabel norm e))%nat.
Proof.
  unfold labelCount. revert i. induction cs as [|a cs IH]; intros i Hi.
  - discriminate.
  - destruct i as [|i]; simpl in Hi.
    + injection Hi as ->. simpl.
      destruct (sameLabel norm c), (sameLabel norm e); simpl; lia.
    + specialize (IH i Hi). simpl.
      destruct (sameLabel norm a); simpl; lia.
Qed.

Lemma labelCount_app norm (cs : list ChestRecord) n :
  labelCount norm (cs ++ [n]) = (labelCount norm cs + indicator (sameLabel norm n))%nat.
Proof.
  unfold labelCount. rewrite List.filter_app, length_app. simpl.
  destruct (sameLabel norm n); reflexivity.
Qed.

Lemma labelCount_none norm (cs : list ChestRecord) :
  findIndex (sameLabel norm) cs = None -> labelCount norm cs = 0%nat.
Proof.
  rewrite findIndex_None. unfold labelCount.
  induction cs as [|a cs IH]; intros H; [reflexivity|]. simpl.
  rewrite (H O a eq_refl). apply IH. intros j b Hb. apply (H (S j)). exact Hb.
Qed.

Lemma labelCount_pos norm (cs : list ChestRecord) i c :
  cs !! i = Some c -> sameLabel norm c = true -> (1 <= labelCount norm cs)%nat.
Proof.
  unfold labelCount. revert i. induction cs as [|a cs IH]; intros i Hi Hc.
  - discriminate.
  - destruct i as [|i]; simpl in Hi.
    + injection Hi as ->. simpl. rewrite Hc. simpl. lia.
    + specialize (IH i Hi Hc). simpl. destruct (sameLabel norm a); simpl; lia.
Qed.

Lemma existingIndex_lookup (cs : list ChestRecord) record i :
  existingIndex cs record = Some i ->
  exists c, cs !! i = Some c /\
    (sameLabel (normOf record) c = true \/
     (findIndex (sameLabel (normOf record)) cs = None /\
      samePrimary (primary record) c = true)).
Proof.
  unfold existingIndex. fold (normOf record).
  destruct (findIndex (sameLabel (normOf record)) cs) as [k|] eqn:Hl; simpl.
  - intros [= ->]. apply findIndex_Some in Hl as [[c [Hc Hs]] _]. eauto.
  - intros Hp. apply findIndex_Some in Hp as [[c [Hc Hs]] _]. eauto.
Qed.

Lemma sameLabel_overwrite env existing record norm :
  normOf record = norm -> sameLabel norm (overwrite env existing record) = true.
Proof.
  intros <-. unfold sameLabel, normOf. simpl. apply String.eqb_refl.
Qed.

Lemma upsertIn_found env (cs : list ChestRecord) record i existing :
  existingIndex cs record = Some i -> cs !! i = Some existing ->
  upsertIn env cs record
  = (<[i := overwrite env existing record]> cs, overwrite env existing record).
Proof. intros Hi Hc. unfold upsertIn. rewrite Hi, Hc. reflexivity. Qed.

Lemma upsertIn_new env (cs : list ChestRecord) record :
  existingIndex cs record = None ->
  upsertIn env cs record = (cs ++ [newRec env record], newRec env record).
Proof. intros Hi. unfold upsertIn. rewrite Hi. reflexivity. Qed.

Lemma upsertIn_found_length env (cs : list ChestRecord) record i :
  existingIndex cs record = Some i ->
  length (fst (upsertIn env cs record)) = length cs.
Proof.
  intros Hi. destruct (existingIndex_lookup _ _ _ Hi) as [c [Hc _]].
  rewrite (upsertIn_found env cs record i c Hi Hc). simpl.
  apply length_insert.
Qed.

Lemma upsertIn_found_count env (cs : list ChestRecord) record i :
  existingIndex cs record = Some i ->
  labelCount (normOf record) (fst (upsertIn env cs record))
  = Nat.max 1 (labelCount (normOf record) cs).
Proof.
  intros Hi. destruct (existingIndex_lookup _ _ _ Hi) as [c [Hc Hcase]].
  rewrite (upsertIn_found env cs record i c Hi Hc). simpl.
  pose proof (labelCount_insert (normOf record) cs i c
                (overwrite env c record) Hc) as Hins.
  rewrite (sameLabel_overwrite env c record _ eq_refl) in Hins. simpl in Hins.
  destruct Hcase as [Hs | [Hnone Hp]].
  - pose proof (labelCount_pos _ _ _ _ Hc Hs). rewrite Hs in Hins. simpl in Hins. lia.
  - pose proof (labelCount_none _ _ Hnone) as H0.
    assert (Hs : sameLabel (normOf record) c = false).
    { rewrite findIndex_None in Hnone. exact (Hnone i c Hc). }
    rewrite Hs in Hins. simpl in Hins. lia.
Qed.

Lemma upsertIn_new_count env (cs : list ChestRecord) record :
  existingIndex cs record = None ->
  (labelCount (normOf record) (fst (upsertIn env cs record)) <= 1)%nat.
Proof.
  intros Hi. rewrite (upsertIn_new env cs record Hi). simpl.
  rewrite labelCount_app.
  assert (Hl : findIndex (sameLabel (normOf record)) cs = None).
  { unfold existingIndex in Hi. fold (normOf record) in Hi.
    destruct (findIndex (sameLabel (normOf record)) cs); [discriminate | reflexivity]. }
  rewrite (labelCount_none _ _ Hl).
  destruct (sameLabel (normOf record) (newRec env record)); simpl; lia.
Qed.

Lemma upsertIn_holds_primary env (cs : list ChestRecord) record :
  exists j c, fst (upsertIn env cs record) !! j = Some c /\
              primary c = primary record.
Proof.
  destruct (existingIndex cs record) as [i|] eqn:Hi.
  - destruct (existingIndex_lookup _ _ _ Hi) as [c [Hc _]].
    rewrite (upsertIn_found env cs record i c Hi Hc). simpl.
    exists i, (overwrite env c record). split; [|reflexivity].
    apply list_lookup_insert_eq. apply lookup_lt_Some in Hc. exact Hc.
  - rewrite (upsertIn_new env cs record Hi). simpl.
    exists (length cs), (newRec env record). split; [|reflexivity].
    rewrite lookup_app_r by lia. rewrite Nat.sub_diag. reflexivity.
Qed.

Lemma existingIndex_after_upsert env (cs : list ChestRecord) record record2 :
  primary record2 = primary record ->
  existingIndex (fst (upsertIn env cs record)) record2 <> None.
Proof.
  intros Hp Hnone.
  destruct (upsertIn_holds_primary env cs record) as [j [c [Hc Hpc]]].
  unfold existingIndex, orUndefined in Hnone.
  destruct (findIndex (sameLabel _) _); [discriminate|].
  rewrite findIndex_None in Hnone. specialize (Hnone j c Hc).
  unfold samePrimary in Hnone.
  assert (posEquals (primary c) (primary record2) = true)
    by (apply posEquals_eq; congruence).
  congruence.
Qed.

Lemma upsertChest_chests env store worldKey record :
  chestsOf (fst (upsertChest env store worldKey record)) worldKey
  = fst (upsertIn env (chestsOf store worldKey) record) /\
  snd (upsertChest env store worldKey record)
  = snd (upsertIn env (chestsOf store worldKey) record).
Proof.
  unfold upsertChest.
  pose proof (ensureWorld_chests store worldKey) as [H _].
  destruct (ensureWorld store worldKey) as [st ws]; simpl in H. rewrite H.
  destruct (upsertIn env (chestsOf store worldKey) record) as [cs r]; simpl.
  split; [|reflexivity]. unfold chestsOf, setWorld; simpl.
  rewrite lookup_insert_eq. reflexivity.
Qed.

Lemma upsertIn_twice env env2 (cs : list ChestRecord) record record2 :
  normOf record2 = normOf record -> primary record2 = primary record ->
  let cs1 := fst (upsertIn env cs record) in
  let cs2 := fst (upsertIn env2 cs1 record2) in
  length cs2 = length cs1 /\
  ((labelCount (normOf record) cs <= 1)%nat -> labelCount (normOf record) cs2 = 1%nat).
Proof.
  intros Hn Hp cs1 cs2.
  destruct (existingIndex cs1 record2) as [k|] eqn:Hk;
    [| exfalso; exact (existingIndex_after_upsert env cs record record2 Hp Hk)].
  split.
  - exact (upsertIn_found_length env2 cs1 record2 k Hk).
  - intros Hle. unfold cs2. rewrite <- Hn.
    rewrite (upsertIn_found_count env2 cs1 record2 k Hk). rewrite Hn.
    assert (labelCount (normOf record) cs1 <= 1)%nat; [|lia].
    unfold cs1. destruct (existingIndex cs record) as [i|] eqn:Hi.
    + rewrite (upsertIn_found_count env cs record i Hi). lia.
    + exact (upsertIn_new_count env cs record Hi).
Qed.
End UpsertFacts.

Section UpsertClaims.
Import ChestStore.

(** C5, as the code has it.  [upsertChest] looks for a record whose
    lower-cased label equals the lower-cased trimmed label of the input and
    takes the first one; only when there is none does it take the first
    record with the same primary coordinate.  A record found is overwritten
    in place (label trimmed, notes, hidden, forbidden, type, positions,
    primary, dimension), gets [updatedAt] = now and [destroyed] = false,
    keeps its id and [createdAt], and is the value returned.  Otherwise a
    record is appended whose id is the id of the input when that is not
    empty and the generated id otherwise (distinct from the ids present when
    the generated id is), with both timestamps = now.  A second call whose
    input has the same label key and the same primary coordinate never
    appends: the number of records is unchanged, and when the world held at
    most one record for that label before, it holds exactly one after. *)
Theorem C5_upsertChest_merge :
  forall (env : Env) (store : RootStore) (worldKey : string) (record : ChestRecord),
    let cs := chestsOf store worldKey in
    let store1 := fst (upsertChest env store worldKey record) in
    let cs1 := chestsOf store1 worldKey in
    let saved := snd (upsertChest env store worldKey record) in
    (forall i, findIndex (sameLabel (normOf record)) cs = Some i ->
               existingIndex cs record = Some i) /\
    (findIndex (sameLabel (normOf record)) cs = None ->
     existingIndex cs record = findIndex (samePrimary (primary record)) cs) /\
    (forall i existing,
        existingIndex cs record = Some i -> cs !! i = Some existing ->
        cs1 = <[i := saved]> cs /\
        label saved = normalizeLabel (label record) /\
        notes saved = notes record /\
        hidden saved = hidden record /\
        forbidden saved = Some (truthy (forbidden record)) /\
        type saved = type record /\
        positions saved = positions record /\
        primary saved = primary record /\
        dimension saved = dimension record /\
        updatedAt saved = now env /\
        destroyed saved = Some false /\
        id saved = id existing /\
        createdAt saved = createdAt existing) /\
    (existingIndex cs record = None ->
     cs1 = cs ++ [saved] /\
     id saved = JsString.orElse (Some (id record)) (generatedId env) /\
     createdAt saved = now env /\
     updatedAt saved = now env /\
     destroyed saved = Some false /\
     label saved = label record /\
     primary saved = primary record /\
     (id record = "" -> ~ In (generatedId env) (List.map id cs) ->
      ~ In (id saved) (List.map id cs))) /\
    (forall env2 record2,
        normOf record2 = normOf record -> primary record2 = primary record ->
        let cs2 := chestsOf (fst (upsertChest env2 store1 worldKey record2)) worldKey in
        length cs2 = length cs1 /\
        ((labelCount (normOf record) cs <= 1)%nat ->
         labelCount (normOf record) cs2 = 1%nat)).
Proof.
  intros env store worldKey record cs store1 cs1 saved.
  pose proof (upsertChest_chests env store worldKey record) as [Hcs Hsaved].
  fold store1 in Hcs. fold cs1 in Hcs. fold saved in Hsaved. fold cs in Hcs, Hsaved.
  split; [|split; [|split; [|split]]].
  - intros i Hi. unfold existingIndex. fold (normOf record). rewrite Hi. reflexivity.
  - intros Hn. unfold existingIndex. fold (normOf record). rewrite Hn. reflexivity.
  - intros i existing Hi Hex.
    rewrite (upsertIn_found env cs record i existing Hi Hex) in Hcs, Hsaved.
    simpl in Hcs, Hsaved. rewrite Hcs, Hsaved. repeat split.
  - intros Hi. rewrite (upsertIn_new env cs record Hi) in Hcs, Hsaved.
    simpl in Hcs, Hsaved. rewrite Hcs, Hsaved. repeat split.
    intros Hid Hfresh. simpl. rewrite Hid. simpl.
    destruct (generatedId env) eqn:Hg; exact Hfresh.
  - intros env2 record2 Hn Hp cs2.
    pose proof (upsertChest_chests env2 store1 worldKey record2) as [Hcs2 _].
    fold cs2 in Hcs2. fold cs1 in Hcs2. rewrite Hcs2, Hcs.
    exact (upsertIn_twice env env2 cs record record2 Hn Hp).
Qed.

Definition labelRequest (l : string) (f : bool) : ChestRecord :=
  labelRecord l f single_chest [mkPos 5 70 5] (mkPos 5 70 5).

(** "Vault" at (5,70,5), then "vault" at the same place, now forbidden:
    one record, and it is not listed. *)
Lemma C5_upsertChest_merge_witness :
  let store1 := fst (upsertChest clock1 emptyStore overworld (labelRequest "Vault" false)) in
  let store2 := fst (upsertChest clock2 store1 overworld (labelRequest "vault" true)) in
  (length (chestsOf store2 overworld) = length (chestsOf store1 overworld) /\
   labelCount "vault" (chestsOf store2 overworld) = 1%nat) /\
  id (snd (upsertChest clock1 emptyStore overworld (labelRequest "Vault" false)))
  = "chest-1-abcdef" /\
  snd (listChests store2 overworld true) = [].
Proof.
  intros store1 store2.
  destruct (C5_upsertChest_merge clock1 emptyStore overworld (labelRequest "Vault" false))
    as [_ [_ [_ [Hnew Htwice]]]].
  split; [|split].
  - destruct (Htwice clock2 (labelRequest "vault" true) eq_refl eq_refl) as [Hlen Hone].
    split; [exact Hlen|]. apply Hone. vm_compute. lia.
  - destruct (Hnew eq_refl) as [_ [Hid _]]. exact Hid.
  - vm_compute. reflexivity.
Defined.

Definition recordA : ChestRecord :=
  {| id := "a"; label := "x"; notes := None; hidden := None; forbidden := None;
     type := single_chest; positions := [mkPos 0 0 0]; primary := mkPos 0 0 0;
     dimension := "overworld"; createdAt := "t"; updatedAt := "t";
     destroyed := None |}.

Definition recordB : ChestRecord :=
  {| id := "a"; label := "y"; notes := None; hidden := None; forbidden := None;
     type := single_chest; positions := [mkPos 1 0 0]; primary := mkPos 1 0 0;
     dimension := "overworld"; createdAt := "t"; updatedAt := "t";
     destroyed := None |}.

(** C5 as stated fails for the id: an input that carries an id and matches
    no record is appended under that id, here an id already in use. *)
Lemma C5_appended_id_is_the_given_one :
  let store := mkRoot 1 {[ overworld := mkWorld [recordA] ]} in
  let saved := snd (upsertChest clock1 store overworld recordB) in
  existingIndex (chestsOf store overworld) recordB = None /\
  chestsOf (fst (upsertChest clock1 store overworld recordB)) overworld
  = [recordA; saved] /\
  id saved = id recordA /\
  id saved <> generatedId clock1.
Proof.
  vm_compute. repeat split; discriminate.
Qed.
End UpsertClaims.

(** ** Classification of double chests *)

Section DetectFacts.
Import ChestUtils.

(** [a] comes before [b] in the order by x, then y, then z. *)
Definition lexLt (a b : Vec3) : Prop :=
  vx a < vx b \/
  (vx a = vx b /\ (vy a < vy b \/ (vy a = vy b /\ vz a < vz b))).

Lemma jsFind_cons {A : Type} (p : A -> bool) (a : A) (l : list A) :
  jsFind p (a :: l) = if p a then Some a else jsFind p l.
Proof.
  unfold jsFind. simpl. destruct (p a); [reflexivity|].
  destruct (findIndex p l); reflexivity.
Qed.

Lemma jsFind_only {A : Type} (dec : forall a b : A, {a = b} + {a <> b})
    (p : A -> bool) (l : list A) (n : A) :
  In n l -> p n = true ->
  (forall m, In m l -> m <> n -> p m = false) ->
  jsFind p l = Some n.
Proof.
  induction l as [|a l IH]; intros Hin Hp Hothers; [destruct Hin|].
  rewrite jsFind_cons. destruct (dec a n) as [-> | Hne].
  - rewrite Hp. reflexivity.
  - rewrite (Hothers a (or_introl eq_refl) Hne).
    destruct Hin as [Heq | Hin]; [congruence|].
    apply IH; auto. intros m Hm. apply Hothers. right. exact Hm.
Qed.

Lemma Vec3_eq_dec (a b : Vec3) : {a = b} + {a <> b}.
Proof.
  destruct (ChestStore.posEquals a b) eqn:H.
  - left. apply posEquals_eq. exact H.
  - right. intros Heq. apply posEquals_eq in Heq. congruence.
Qed.

Ltac split_orNum :=
  unfold compareVec, orNum;
  repeat match goal with
         | |- context [?a =? 0] => destruct (Z.eqb_spec a 0); cbv iota in *
         | H : context [?a =? 0] |- _ => destruct (Z.eqb_spec a 0); cbv iota in *
         end.

Lemma compareVec_pos (a b : Vec3) : 0 < compareVec a b -> lexLt b a.
Proof. unfold lexLt. split_orNum; lia. Qed.

Lemma compareVec_neg (a b : Vec3) : compareVec a b < 0 -> lexLt a b.
Proof. unfold lexLt. split_orNum; lia. Qed.

Lemma compareVec_zero (a b : Vec3) : compareVec a b = 0 -> a = b.
Proof.
  destruct a as [ax ay az], b as [bx b_y bz].
  unfold compareVec, vx, vy, vz; simpl.
  split_orNum; intros; try lia. f_equal; lia.
Qed.

Lemma compareVec_opp (a b : Vec3) : compareVec b a = - compareVec a b.
Proof. split_orNum; lia. Qed.

Lemma sortBy_pair (a b : Vec3) :
  sortBy compareVec [a; b]
  = if 0 <? compareVec a b then [b; a] else [a; b].
Proof. reflexivity. Qed.

Lemma sortBy_pair_sorted (a b : Vec3) :
  a <> b ->
  exists lo hi,
    sortBy compareVec [a; b] = [lo; hi] /\
    ((lo = a /\ hi = b) \/ (lo = b /\ hi = a)) /\ lexLt lo hi.
Proof.
  intros Hne. rewrite sortBy_pair.
  destruct (Z.ltb_spec 0 (compareVec a b)) as [Hpos|Hle].
  - exists b, a. split; [reflexivity|]. split; [auto|]. apply compareVec_pos, Hpos.
  - exists a, b. split; [reflexivity|]. split; [auto|]. apply compareVec_neg.
    assert (compareVec a b <> 0) by (intros H0; apply Hne, compareVec_zero, H0). lia.
Qed.

Lemma sortBy_pair_swap (a b : Vec3) :
  a <> b -> sortBy compareVec [b; a] = sortBy compareVec [a; b].
Proof.
  intros Hne. rewrite !sortBy_pair. rewrite (compareVec_opp a b).
  assert (compareVec a b <> 0) by (intros H0; apply Hne, compareVec_zero, H0).
  destruct (Z.ltb_spec 0 (compareVec a b)), (Z.ltb_spec 0 (- compareVec a b));
    try reflexivity; lia.
Qed.

Lemma adjacent_ne (pos n : Vec3) : In n (adjPositions pos) -> n <> pos.
Proof.
  unfold adjPositions, offset, vx, vy, vz. destruct pos as [px p_y pz]; simpl.
  intros [H | [H | [H | [H | []]]]] Heq; subst n; injection Heq; lia.
Qed.

Lemma adjacent_sym (pos n : Vec3) :
  In n (adjPositions pos) -> In pos (adjPositions n).
Proof.
  unfold adjPositions, offset, vx, vy, vz. destruct pos as [px p_y pz]; simpl.
  intros [H | [H | [H | [H | []]]]]; subst n; simpl.
  - right; left. f_equal; lia.
  - left. f_equal; lia.
  - right; right; right; left. f_equal; lia.
  - right; right; left. f_equal; lia.
Qed.

Lemma detect_chest_with_neighbour (bot : Bot) (pos n : Vec3) :
  bot pos = Some "chest" ->
  In n (adjPositions pos) -> bot n = Some "chest" ->
  (forall m, In m (adjPositions pos) -> m <> n -> bot m <> Some "chest") ->
  detectContainerAt bot pos
  = inr {| type := ChestStore.double_chest;
           positions := sortBy compareVec [pos; n];
           primary := List.hd pos (sortBy compareVec [pos; n]) |}.
Proof.
  intros Hpos Hin Hn Honly. unfold detectContainerAt. rewrite Hpos. simpl.
  rewrite (jsFind_only Vec3_eq_dec (namedAt bot "chest") (adjPositions pos) n Hin).
  - reflexivity.
  - unfold namedAt. rewrite Hn. reflexivity.
  - intros m Hm Hne. unfold namedAt. specialize (Honly m Hm Hne).
    destruct (bot m) as [s|]; [|reflexivity].
    destruct (String.eqb_spec s "chest"); [subst; congruence | reflexivity].
Qed.
End DetectFacts.

Section DetectClaims.
Import ChestUtils.

(** C7.  When the block at [pos] is named [chest] and exactly one of its
    four horizontal neighbours, [n], is named [chest] too,
    [detectContainerAt] returns type [double_chest] with positions
    [[lo; hi]], the two coordinates [pos] and [n] in ascending order by x,
    then y, then z, and with primary [lo], the smaller one.  When [pos] is
    in turn the only [chest] neighbour of [n], inspecting [n] gives the same
    result. *)
Theorem C7_detect_double_chest :
  forall (bot : Bot) (pos n : Vec3),
    bot pos = Some "chest" ->
    In n (adjPositions pos) ->
    bot n = Some "chest" ->
    (forall m, In m (adjPositions pos) -> m <> n -> bot m <> Some "chest") ->
    (exists lo hi,
        detectContainerAt bot pos
        = inr {| type := ChestStore.double_chest;
                 positions := [lo; hi];
                 primary := lo |} /\
        ((lo = pos /\ hi = n) \/ (lo = n /\ hi = pos)) /\
        lexLt lo hi) /\
    ((forall m, In m (adjPositions n) -> m <> pos -> bot m <> Some "chest") ->
     detectContainerAt bot n = detectContainerAt bot pos).
Proof.
  intros bot pos n Hpos Hin Hn Honly.
  pose proof (adjacent_ne pos n Hin) as Hne.
  rewrite (detect_chest_with_neighbour bot pos n Hpos Hin Hn Honly).
  split.
  - destruct (sortBy_pair_sorted pos n (not_eq_sym Hne)) as [lo [hi [Hs [Hset Hlt]]]].
    exists lo, hi. rewrite Hs. simpl. auto.
  - intros Honly'.
    rewrite (detect_chest_with_neighbour bot n pos Hn (adjacent_sym pos n Hin)
               Hpos Honly').
    rewrite (sortBy_pair_swap pos n (not_eq_sym Hne)).
    destruct (sortBy_pair_sorted pos n (not_eq_sym Hne)) as [lo [hi [Hs _]]].
    rewrite Hs. reflexivity.
Qed.

(** The two chests of the scenario: (10,64,10) and (11,64,10), stone
    everywhere else. *)
Definition pairBot : Bot :=
  fun p =>
    if ChestStore.posEquals p (ChestStore.mkPos 10 64 10)
       || ChestStore.posEquals p (ChestStore.mkPos 11 64 10)
    then Some "chest" else Some "stone".

Lemma pairBot_chest (m : Vec3) :
  pairBot m = Some "chest" ->
  m = ChestStore.mkPos 10 64 10 \/ m = ChestStore.mkPos 11 64 10.
Proof.
  unfold pairBot.
  destruct (ChestStore.posEquals m (ChestStore.mkPos 10 64 10)) eqn:H1.
  - left. apply posEquals_eq. exact H1.
  - destruct (ChestStore.posEquals m (ChestStore.mkPos 11 64 10)) eqn:H2.
    + right. apply posEquals_eq. exact H2.
    + discriminate.
Qed.

Lemma C7_detect_double_chest_witness :
  (exists lo hi,
      detectContainerAt pairBot (ChestStore.mkPos 11 64 10)
      = inr {| type := ChestStore.double_chest;
               positions := [lo; hi];
               primary := lo |} /\
      ((lo = ChestStore.mkPos 11 64 10 /\ hi = ChestStore.mkPos 10 64 10) \/
       (lo = ChestStore.mkPos 10 64 10 /\ hi = ChestStore.mkPos 11 64 10)) /\
      lexLt lo hi) /\
  detectContainerAt pairBot (ChestStore.mkPos 10 64 10)
  = detectContainerAt pairBot (ChestStore.mkPos 11 64 10).
Proof.
  assert (Hfar : forall a m : Vec3,
             In m (adjPositions a) -> pairBot m = Some "chest" ->
             pairBot a = Some "chest" ->
             (a = ChestStore.mkPos 10 64 10 -> m = ChestStore.mkPos 11 64 10) /\
             (a = ChestStore.mkPos 11 64 10 -> m = ChestStore.mkPos 10 64 10)).
  { intros a m Hm Hc Ha. pose proof (adjacent_ne a m Hm) as Hne.
    destruct (pairBot_chest m Hc) as [-> | ->];
      split; intros ->; try reflexivity; congruence. }
  destruct (C7_detect_double_chest pairBot (ChestStore.mkPos 11 64 10)
              (ChestStore.mkPos 10 64 10)) as [Hex Hsame].
  - reflexivity.
  - simpl. right; left. reflexivity.
  - reflexivity.
  - intros m Hm Hne Hc. destruct (Hfar _ m Hm Hc eq_refl) as [_ H]. auto.
  - split; [exact Hex|]. apply Hsame.
    intros m Hm Hne Hc. destruct (Hfar _ m Hm Hc eq_refl) as [H _]. auto.
Defined.
End DetectClaims.

(** ** Transfer helpers *)

Section TransferFacts.
Import Skills.
Context {W : Type}.

(** The window state after [k] unit moves that all returned; [None] when
    one of them threw. *)
Fixpoint unitMoves (move : @Primitive W) (typeId : Z) (k : nat) (window : W)
  : option W :=
  match k with
  | O => Some window
  | S k' =>
      let '(window', ok) := move window typeId 1 in
      if ok then unitMoves move typeId k' window' else None
  end.

(** A primitive run next to a meter that adds up the units of the calls
    that returned. *)
Definition metered (move : @Primitive W) : @Primitive (W * Z) :=
  fun state typeId count =>
    let '(window', ok) := move (fst state) typeId count in
    ((window', if ok then snd state + count else snd state), ok).

Lemma oneByOne_spec (move : @Primitive W) (n : nat) (window : W) (typeId moved0 : Z) :
  exists (k : nat) (wk : W),
    (k <= n)%nat /\
    unitMoves move typeId k window = Some wk /\
    snd (oneByOne move n window typeId moved0) = moved0 + Z.of_nat k /\
    ((k = n /\ fst (oneByOne move n window typeId moved0) = wk) \/
     ((k < n)%nat /\
      move wk typeId 1 = (fst (oneByOne move n window typeId moved0), false))).
Proof.
  revert window moved0. induction n as [|n IH]; intros window moved0.
  - exists O, window. simpl.
    split; [lia|]. split; [reflexivity|]. split; [lia|]. left. auto.
  - simpl. destruct (move window typeId 1) as [w' ok] eqn:Hm. destruct ok.
    + destruct (IH w' (moved0 + 1)) as [k [wk [Hk [Hu [Hs Hend]]]]].
      exists (S k), wk. simpl. rewrite Hm.
      split; [lia|]. split; [exact Hu|]. split; [lia|].
      destruct Hend as [[-> Hf] | [Hlt Hf]];
        [left; auto | right; split; [lia | exact Hf]].
    + exists O, window. simpl.
      split; [lia|]. split; [reflexivity|]. split; [lia|].
      right. split; [lia | exact Hm].
Qed.

Ltac same_meter :=
  match goal with
  | |- (_, ?a, _) = (_, ?b, _) => replace b with a by lia; reflexivity
  end.

Lemma oneByOne_metered (move : @Primitive W) (n : nat) (window : W)
    (typeId moved0 units : Z) :
  oneByOne (metered move) n (window, units) typeId moved0
  = ((fst (oneByOne move n window typeId moved0),
      units + (snd (oneByOne move n window typeId moved0) - moved0)),
     snd (oneByOne move n window typeId moved0)).
Proof.
  revert window moved0 units. induction n as [|n IH]; intros window moved0 units.
  - simpl. same_meter.
  - simpl. unfold metered at 1. simpl.
    destruct (move window typeId 1) as [w' ok]. destruct ok.
    + rewrite IH. same_meter.
    + simpl. same_meter.
Qed.

Lemma transferType_spec (move : @Primitive W) (window : W) (typeId count : Z) :
  0 <= count ->
  let bulk := move window typeId count in
  let result := transferType move window typeId count in
  let moved := snd result in
  (snd bulk = true -> result = (fst bulk, count)) /\
  (snd bulk = false ->
   exists (k : nat) (wk : W),
     moved = Z.of_nat k /\ Z.of_nat k <= count /\
     unitMoves move typeId k (fst bulk) = Some wk /\
     ((Z.of_nat k = count /\ fst result = wk) \/
      (Z.of_nat k < count /\ move wk typeId 1 = (fst result, false)))) /\
  0 <= moved <= count /\
  moved + default 0 (reportedFailed count moved) = count /\
  transferType (metered move) (window, 0) typeId count
  = ((fst result, moved), moved).
Proof.
  intros Hc. cbv zeta. unfold transferType. unfold metered at 1. simpl.
  destruct (move window typeId count) as [w1 ok]. destruct ok; simpl.
  - split; [reflexivity|]. split; [discriminate|].
    split; [lia|]. split; [|reflexivity].
    unfold reportedFailed. rewrite Z.ltb_irrefl. simpl. lia.
  - split; [discriminate|].
    destruct (oneByOne_spec move (Z.to_nat count) w1 typeId 0)
      as [k [wk [Hk [Hu [Hs Hend]]]]].
    assert (Hkc : Z.of_nat k <= count) by lia.
    split; [|split; [|split]].
    + intros _. exists k, wk. split; [lia|]. split; [exact Hkc|]. split; [exact Hu|].
      destruct Hend as [[-> Hf] | [Hlt Hf]].
      * left. split; [lia | exact Hf].
      * right. split; [lia | exact Hf].
    + lia.
    + unfold reportedFailed.
      destruct (Z.ltb_spec (snd (oneByOne move (Z.to_nat count) w1 typeId 0)) count);
        simpl; lia.
    + rewrite oneByOne_metered, Z.add_0_l, Z.sub_0_r. reflexivity.
Qed.
(** [held] counts the units at the destination, and [move] is atomic for
    it: a call that returns has moved the [count] units asked for, a call
    that throws has moved none. *)
Definition atomic (held : W -> Z) (move : @Primitive W) : Prop :=
  forall window typeId count,
    held (fst (move window typeId count))
    = if snd (move window typeId count) then held window + count else held window.

Lemma oneByOne_atomic (held : W -> Z) (move : @Primitive W) (n : nat)
    (window : W) (typeId moved0 : Z) :
  atomic held move ->
  held (fst (oneByOne move n window typeId moved0))
  = held window + (snd (oneByOne move n window typeId moved0) - moved0).
Proof.
  intros Ha. revert window moved0. induction n as [|n IH]; intros window moved0; simpl.
  - lia.
  - pose proof (Ha window typeId 1) as H1.
    destruct (move window typeId 1) as [w' ok]. simpl in H1. destruct ok.
    + rewrite IH, H1. lia.
    + simpl. rewrite H1. lia.
Qed.

Lemma transferType_atomic (held : W -> Z) (move : @Primitive W) (window : W)
    (typeId count : Z) :
  atomic held move ->
  held (fst (transferType move window typeId count)) - held window
  = snd (transferType move window typeId count).
Proof.
  intros Ha. unfold transferType.
  pose proof (Ha window typeId count) as Hb.
  destruct (move window typeId count) as [w1 ok]. simpl in Hb. destruct ok; simpl.
  - lia.
  - rewrite (oneByOne_atomic held move _ w1 typeId 0 Ha), Hb. lia.
Qed.
End TransferFacts.

Section TransferClaims.
Import Skills.

(** C8, as the code has it.  For a requested count [N >= 0],
    [depositType] and [withdrawType] first make one bulk call for [N];
    when it returns they return [N]; when it throws they make unit calls
    until one throws or [N] of them have returned, and return the number
    [k] of unit calls that returned.  They return a number in every case
    (no exception leaves them); that number is the number of units of the
    calls that returned (the meter); it is at most [N], and with the
    remaining count the caller reports ([N - moved], reported when
    [moved < N]) it adds up to [N].  It is the number of units actually
    moved, the growth of any count [held] of the units at the destination,
    when the primitive is atomic for that count. *)
Theorem C8_transfer_counts :
  forall (W : Type) (ops : @WindowOps W) (window : W) (typeId N : Z),
    0 <= N ->
    (let bulk := deposit ops window typeId N in
     let result := depositType ops window typeId N in
     let moved := snd result in
     (snd bulk = true -> result = (fst bulk, N)) /\
     (snd bulk = false ->
      exists (k : nat) (wk : W),
        moved = Z.of_nat k /\ Z.of_nat k <= N /\
        unitMoves (deposit ops) typeId k (fst bulk) = Some wk /\
        ((Z.of_nat k = N /\ fst result = wk) \/
         (Z.of_nat k < N /\ deposit ops wk typeId 1 = (fst result, false)))) /\
     0 <= moved <= N /\
     moved + default 0 (reportedFailed N moved) = N /\
     transferType (metered (deposit ops)) (window, 0) typeId N
     = ((fst result, moved), moved) /\
     (forall held, atomic held (deposit ops) ->
                   held (fst result) - held window = moved)) /\
    (let bulk := withdraw ops window typeId N in
     let result := withdrawType ops window typeId N in
     let moved := snd result in
     (snd bulk = true -> result = (fst bulk, N)) /\
     (snd bulk = false ->
      exists (k : nat) (wk : W),
        moved = Z.of_nat k /\ Z.of_nat k <= N /\
        unitMoves (withdraw ops) typeId k (fst bulk) = Some wk /\
        ((Z.of_nat k = N /\ fst result = wk) \/
         (Z.of_nat k < N /\ withdraw ops wk typeId 1 = (fst result, false)))) /\
     0 <= moved <= N /\
     moved + default 0 (reportedFailed N moved) = N /\
     transferType (metered (withdraw ops)) (window, 0) typeId N
     = ((fst result, moved), moved) /\
     (forall held, atomic held (withdraw ops) ->
                   held (fst result) - held window = moved)).
Proof.
  intros W ops window typeId N HN. split.
  - destruct (transferType_spec (deposit ops) window typeId N HN)
      as [H1 [H2 [H3 [H4 H5]]]].
    split; [exact H1|]. split; [exact H2|]. split; [exact H3|].
    split; [exact H4|]. split; [exact H5|].
    intros held Ha. exact (transferType_atomic held (deposit ops) window typeId N Ha).
  - destruct (transferType_spec (withdraw ops) window typeId N HN)
      as [H1 [H2 [H3 [H4 H5]]]].
    split; [exact H1|]. split; [exact H2|]. split; [exact H3|].
    split; [exact H4|]. split; [exact H5|].
    intros held Ha. exact (transferType_atomic held (withdraw ops) window typeId N Ha).
Qed.

(** A chest with [free] places left: a call for [count] units returns when
    they fit and throws otherwise, moving nothing. *)
Definition roomFor : @Primitive Z :=
  fun free _ count => if count <=? free then (free - count, true) else (free, false).

Definition roomOps : @WindowOps Z := mkOps roomFor roomFor.

Lemma roomFor_atomic (capacity : Z) : atomic (fun free => capacity - free) roomFor.
Proof.
  intros free typeId count. unfold roomFor.
  destruct (count <=? free); simpl; lia.
Qed.

Lemma C8_transfer_counts_witness :
  snd (depositType roomOps 40 1 64) = 40 /\
  reportedFailed 64 (snd (depositType roomOps 40 1 64)) = Some 24 /\
  0 <= snd (withdrawType roomOps 40 1 64) <= 64 /\
  (40 - fst (depositType roomOps 40 1 64)) - (40 - 40)
  = snd (depositType roomOps 40 1 64).
Proof.
  destruct (C8_transfer_counts Z roomOps 40 1 64 ltac:(lia)) as [Hd Hw].
  split; [reflexivity|]. split; [reflexivity|].
  split; [destruct Hw as [_ [_ [Hb _]]]; exact Hb|].
  destruct Hd as [_ [_ [_ [_ [_ Ha]]]]].
  exact (Ha (fun free => 40 - free) (roomFor_atomic 40)).
Defined.

(** A chest whose window is [(free, stored)], and a client that moves what
    fits before it throws: a call for [count] units returns when they fit,
    and otherwise fills the chest and throws. *)
Definition greedy : @Primitive (Z * Z) :=
  fun window _ count =>
    if count <=? fst window
    then ((fst window - count, snd window + count), true)
    else ((0, snd window + fst window), false).

Definition greedyOps : @WindowOps (Z * Z) := mkOps greedy greedy.

(** C8 as stated fails: the number returned is not always the number of
    units moved.  With 40 places left and 64 units asked for, the bulk
    call of the greedy client moves 40 units and throws, every unit call
    throws, and [depositType] returns 0 with 40 units in the chest; the
    caller reports 64 units as failed. *)
Lemma C8_returned_count_misses_moved_units :
  let before := (40, 0) in
  let result := depositType greedyOps before 1 64 in
  snd result = 0 /\
  snd (fst result) - snd before = 40 /\
  reportedMoved 64 (snd result) = None /\
  reportedFailed 64 (snd result) = Some 64 /\
  snd result <> snd (fst result) - snd before.
Proof. vm_compute. repeat split; discriminate. Qed.
End TransferClaims.

(** ** Slot accounting *)

Section SlotFacts.
Import ChestUtils.

Lemma loopIndices_In (a b i : Z) : In i (loopIndices a b) <-> a <= i < b.
Proof.
  unfold loopIndices. rewrite in_map_iff. split.
  - intros [k [<- Hk]]. apply in_seq in Hk. lia.
  - intros Hi. exists (Z.to_nat (i - a)). split; [lia|]. apply in_seq. lia.
Qed.

Lemma fold_left_agree {A B : Type} (f g : A -> B -> A) (l : list B) (a : A) :
  (forall acc i, In i l -> f acc i = g acc i) ->
  List.fold_left f l a = List.fold_left g l a.
Proof.
  revert a. induction l as [|x l IH]; intros a H; [reflexivity|]. simpl.
  rewrite (H a x (or_introl eq_refl)). apply IH.
  intros acc i Hi. apply H. right. exact Hi.
Qed.

Lemma defaultContainerEnd (window : Window) :
  inventoryStartField window = None ->
  containerEnd (getContainerSlotInfo window)
  = Z.max (Z.of_nat (length (slots window)) - 36) 0 /\
  containerStart (getContainerSlotInfo window) = 0 /\
  containerSize (getContainerSlotInfo window)
  = containerEnd (getContainerSlotInfo window).
Proof.
  intros H. unfold getContainerSlotInfo. rewrite H. simpl.
  split; [reflexivity|]. split; [reflexivity|]. lia.
Qed.
End SlotFacts.

Section SlotClaims.
Import ChestUtils.

(** C10.  For a window whose [inventoryStart] is not a number,
    [getContainerSlotInfo] gives [containerEnd = max(slots.length - 36, 0)];
    [containerSize] is then between 0 and [slots.length]; every index at
    which [summarizeContainerContents] and [countFreeContainerSlots] read
    [window.slots] lies in [0, slots.length); and their results are those
    of the same loops run with any slot reader that agrees with
    [window.slots] on that range. *)
Theorem C10_default_container_region :
  forall (window : Window),
    inventoryStartField window = None ->
    let total := Z.of_nat (length (slots window)) in
    let info := getContainerSlotInfo window in
    containerEnd info = Z.max (total - 36) 0 /\
    0 <= containerSize info <= total /\
    (forall i, In i (slotReads window) -> 0 <= i < total) /\
    (forall read : Z -> option Item,
        (forall i, 0 <= i < total -> read i = slotAt window i) ->
        summarizeWith read info = summarizeContainerContents window /\
        countFreeWith read info = countFreeContainerSlots window).
Proof.
  intros window H total info.
  destruct (defaultContainerEnd window H) as [Hend [Hstart Hsize]].
  fold info in Hend, Hstart, Hsize. fold total in Hend.
  assert (Hin : forall i, In i (slotReads window) -> 0 <= i < total).
  { intros i Hi. unfold slotReads in Hi. fold info in Hi.
    apply loopIndices_In in Hi. lia. }
  split; [exact Hend|]. split; [lia|]. split; [exact Hin|].
  intros read Hread.
  unfold summarizeContainerContents, countFreeContainerSlots,
    summarizeWith, countFreeWith. fold info.
  split; apply fold_left_agree; intros acc i Hi;
    rewrite (Hread i (Hin i Hi)); reflexivity.
Qed.

(** A window of 38 slots: two container slots and the 36 of the player. *)
Definition smallWindow : Window :=
  mkWindow (Some (mkItem "stone" 5 1) :: None :: List.repeat None 36) None None.

Lemma C10_default_container_region_witness :
  containerEnd (getContainerSlotInfo smallWindow) = Z.max (38 - 36) 0 /\
  0 <= containerSize (getContainerSlotInfo smallWindow) <= 38 /\
  summarizeContainerContents smallWindow = [("stone", 5)] /\
  countFreeContainerSlots smallWindow = 1.
Proof.
  destruct (C10_default_container_region smallWindow eq_refl)
    as [Hend [Hsize _]].
  split; [exact Hend|]. split; [exact Hsize|]. split; reflexivity.
Defined.
End SlotClaims.

(** ** The promise chain *)

Section MutexFacts.
Import Mutex.

Record Inv (s : State) : Prop := mkInv {
  inv_next : forall i c, calls s !! i = Some c ->
    heap s !! next c = Some (Deferred (finished c));
  inv_link : forall i c, calls s !! i = Some c ->
    exists st, heap s !! S (next c) = Some (Then (prev c) (next c) st) /\
      (st <> AwaitingPrev -> isFulfilled (heap s) (prev c) = true) /\
      (st = Settled -> finished c = true);
  inv_started : forall i c, calls s !! i = Some c -> started c = true ->
    isFulfilled (heap s) (prev c) = true;
  inv_order : forall i j ci cj,
    calls s !! i = Some ci -> calls s !! j = Some cj -> (i < j)%nat ->
    lockKey ci = lockKey cj -> isFulfilled (heap s) (prev cj) = true ->
    finished ci = true;
  inv_chain : forall j cj, calls s !! j = Some cj ->
    heap s !! prev cj = Some Resolved \/
    exists i ci, (i < j)%nat /\ calls s !! i = Some ci /\
      lockKey ci = lockKey cj /\ prev cj = S (next ci) /\
      forall k ck, (i < k < j)%nat -> calls s !! k = Some ck ->
                   lockKey ck <> lockKey cj;
  inv_locks : forall K p, locks s !! K = Some p ->
    exists i ci, calls s !! i = Some ci /\ lockKey ci = K /\ p = S (next ci) /\
      forall k ck, (i < k)%nat -> calls s !! k = Some ck -> lockKey ck <> K;
  inv_locks_none : forall K, locks s !! K = None ->
    forall i ci, calls s !! i = Some ci -> lockKey ci <> K;
  inv_inj : forall i j ci cj,
    calls s !! i = Some ci -> calls s !! j = Some cj -> next ci = next cj -> i = j
}.

Lemma Inv_init : Inv init.
Proof.
  split; simpl; intros; discriminate.
Qed.

Lemma isFulfilled_bound (h : list Promise) (p : pid) :
  isFulfilled h p = true -> (p < length h)%nat.
Proof.
  unfold isFulfilled. destruct (h !! p) eqn:H; [|discriminate].
  intros _. apply lookup_lt_Some in H. exact H.
Qed.

Lemma isFulfilled_app (h ext : list Promise) (p : pid) :
  (p < length h)%nat -> isFulfilled (h ++ ext) p = isFulfilled h p.
Proof. intros H. unfold isFulfilled. rewrite lookup_app_l by exact H. reflexivity. Qed.

Lemma isFulfilled_insert_ne (h : list Promise) (q p : pid) (x : Promise) :
  p <> q -> isFulfilled (<[q := x]> h) p = isFulfilled h p.
Proof.
  intros H. unfold isFulfilled.
  rewrite list_lookup_insert_ne; [reflexivity | auto].
Qed.

(** The promise a call waits for is never one made by [new Promise]. *)
Lemma prev_not_deferred (s : State) j cj b :
  Inv s -> calls s !! j = Some cj -> heap s !! prev cj <> Some (Deferred b).
Proof.
  intros I Hj Hd. destruct (inv_chain s I j cj Hj) as [Hr | [i [ci [_ [Hi [_ [Hp _]]]]]]].
  - congruence.
  - destruct (inv_link s I i ci Hi) as [st [Hl _]]. congruence.
Qed.

Lemma link_not_next (s : State) i j ci cj :
  Inv s -> calls s !! i = Some ci -> calls s !! j = Some cj ->
  S (next ci) <> next cj.
Proof.
  intros I Hi Hj Heq. destruct (inv_link s I i ci Hi) as [st [Hl _]].
  pose proof (inv_next s I j cj Hj) as Hn. congruence.
Qed.

(** The [finally] block never finds [next] in the map: the value stored is
    the promise made by [then]. *)
Lemma locks_never_next (s : State) i c :
  Inv s -> calls s !! i = Some c -> locks s !! lockKey c <> Some (next c).
Proof.
  intros I Hi Hl.
  destruct (inv_locks s I _ _ Hl) as [k [ck [Hk [_ [Hp _]]]]].
  exact (link_not_next s k i ck c I Hk Hi (eq_sym Hp)).
Qed.

Lemma lookup_setPc (cs : list Call) i c v k c' :
  cs !! i = Some c -> <[i := setPc c v]> cs !! k = Some c' ->
  exists c0, cs !! k = Some c0 /\
    lockKey c' = lockKey c0 /\ prev c' = prev c0 /\ next c' = next c0 /\
    ((k = i /\ c0 = c /\ pc c' = v) \/ (k <> i /\ c' = c0)).
Proof.
  intros Hi Hk. apply list_lookup_insert_Some in Hk as [[-> [<- _]] | [Hne Hk]].
  - exists c. simpl. auto 10.
  - exists c'. auto 10.
Qed.

Definition sameShape (c c' : Call) : Prop :=
  lockKey c' = lockKey c /\ prev c' = prev c /\ next c' = next c.

(** Two lists of activations that differ in their program counters only. *)
Definition aligned (cs cs' : list Call) : Prop :=
  forall k,
    match cs !! k, cs' !! k with
    | Some c, Some c' => sameShape c c'
    | None, None => True
    | _, _ => False
    end.

Lemma aligned_refl (cs : list Call) : aligned cs cs.
Proof. intros k. destruct (cs !! k); [repeat split | exact Logic.I]. Qed.

Lemma aligned_setPc (cs : list Call) i c v :
  cs !! i = Some c -> aligned cs (<[i := setPc c v]> cs).
Proof.
  intros Hi k. destruct (decide (k = i)) as [-> | Hne].
  - rewrite Hi, list_lookup_insert_eq by (apply lookup_lt_Some in Hi; exact Hi).
    repeat split.
  - rewrite list_lookup_insert_ne by auto.
    destruct (cs !! k); [repeat split | exact Logic.I].
Qed.

Lemma aligned_fwd (cs cs' : list Call) k c :
  aligned cs cs' -> cs !! k = Some c ->
  exists c', cs' !! k = Some c' /\ sameShape c c'.
Proof.
  intros A Hk. specialize (A k). rewrite Hk in A.
  destruct (cs' !! k) as [c'|]; [eauto | destruct A].
Qed.

Lemma aligned_bwd (cs cs' : list Call) k c' :
  aligned cs cs' -> cs' !! k = Some c' ->
  exists c, cs !! k = Some c /\ sameShape c c'.
Proof.
  intros A Hk. specialize (A k). rewrite Hk in A.
  destruct (cs !! k) as [c|]; [eauto | destruct A].
Qed.

(** The part of the invariant that only speaks of keys and promise
    identities survives every step that keeps them. *)
Lemma structure_preserved (s s' : State) :
  Inv s -> locks s' = locks s -> aligned (calls s) (calls s') ->
  (forall p, heap s !! p = Some Resolved -> heap s' !! p = Some Resolved) ->
  (forall j cj, calls s' !! j = Some cj ->
     heap s' !! prev cj = Some Resolved \/
     exists i ci, (i < j)%nat /\ calls s' !! i = Some ci /\
       lockKey ci = lockKey cj /\ prev cj = S (next ci) /\
       forall k ck, (i < k < j)%nat -> calls s' !! k = Some ck ->
                    lockKey ck <> lockKey cj) /\
  (forall K p, locks s' !! K = Some p ->
     exists i ci, calls s' !! i = Some ci /\ lockKey ci = K /\ p = S (next ci) /\
       forall k ck, (i < k)%nat -> calls s' !! k = Some ck -> lockKey ck <> K) /\
  (forall K, locks s' !! K = None ->
     forall i ci, calls s' !! i = Some ci -> lockKey ci <> K) /\
  (forall i j ci cj,
     calls s' !! i = Some ci -> calls s' !! j = Some cj -> next ci = next cj -> i = j).
Proof.
  intros I Hl A Hres. rewrite Hl. repeat split.
  - intros j cj Hj.
    destruct (aligned_bwd _ _ _ _ A Hj) as [c0 [Hj0 [Hk0 [Hp0 Hn0]]]].
    destruct (inv_chain s I j c0 Hj0) as [Hr | [i [ci [Hlt [Hi [Hkey [Hprev Hbetween]]]]]]].
    + left. rewrite Hp0. apply Hres, Hr.
    + right. destruct (aligned_fwd _ _ _ _ A Hi) as [ci' [Hi' [Hk1 [Hp1 Hn1]]]].
      exists i, ci'. repeat split; auto; try congruence.
      intros k ck Hk Hck.
      destruct (aligned_bwd _ _ _ _ A Hck) as [ck0 [Hck0 [Hk2 _]]].
      rewrite Hk2, Hk0. exact (Hbetween k ck0 Hk Hck0).
  - intros K p Hp.
    destruct (inv_locks s I K p Hp) as [i [ci [Hi [Hkey [Hpp Hlater]]]]].
    destruct (aligned_fwd _ _ _ _ A Hi) as [ci' [Hi' [Hk1 [Hp1 Hn1]]]].
    exists i, ci'. repeat split; auto; try congruence.
    intros k ck Hk Hck.
    destruct (aligned_bwd _ _ _ _ A Hck) as [ck0 [Hck0 [Hk2 _]]].
    rewrite Hk2. exact (Hlater k ck0 Hk Hck0).
  - intros K HK i ci Hi.
    destruct (aligned_bwd _ _ _ _ A Hi) as [c0 [Hi0 [Hk0 _]]].
    rewrite Hk0. exact (inv_locks_none s I K HK i c0 Hi0).
  - intros i j ci cj Hi Hj Heq.
    destruct (aligned_bwd _ _ _ _ A Hi) as [ci0 [Hi0 [_ [_ Hn0]]]].
    destruct (aligned_bwd _ _ _ _ A Hj) as [cj0 [Hj0 [_ [_ Hn1]]]].
    apply (inv_inj s I i j ci0 cj0 Hi0 Hj0). congruence.
Qed.

Lemma Inv_resume (s s' : State) i :
  Inv s -> step s (Resume i) = Some s' -> Inv s'.
Proof.
  intros I Hs. simpl in Hs.
  destruct (calls s !! i) as [c|] eqn:Hi; [|discriminate].
  destruct (pc c) eqn:Hpc; try discriminate.
  destruct (isFulfilled (heap s) (prev c)) eqn:Hf; [|discriminate].
  injection Hs as <-.
  set (s' := mkState (locks s) (heap s) (<[i := setPc c AwaitFn]> (calls s))).
  assert (Hfin : forall k c', calls s' !! k = Some c' ->
            exists c0, calls s !! k = Some c0 /\ sameShape c0 c' /\
                       finished c' = finished c0 /\
                       (started c' = true -> started c0 = true \/ k = i)).
  { intros k c' Hk. simpl in Hk.
    destruct (lookup_setPc _ _ _ _ _ _ Hi Hk)
      as [c0 [Hk0 [Hkey [Hprev [Hnext Hcase]]]]].
    exists c0. split; [exact Hk0|]. split; [repeat split; auto|].
    destruct Hcase as [[-> [-> Hv]] | [_ ->]]; [|auto].
    unfold finished. rewrite Hv, Hpc. auto. }
  destruct (structure_preserved s s' I eq_refl (aligned_setPc _ _ _ _ Hi)
              (fun p H => H)) as [Hchain [Hlocks [Hnone Hinj]]].
  split; auto.
  - intros k c' Hk. destruct (Hfin k c' Hk) as [c0 [Hk0 [[_ [_ Hn]] [Hf0 _]]]].
    simpl. rewrite Hn, Hf0. exact (inv_next s I k c0 Hk0).
  - intros k c' Hk. destruct (Hfin k c' Hk) as [c0 [Hk0 [[_ [Hp Hn]] [Hf0 _]]]].
    simpl. rewrite Hn, Hp, Hf0. exact (inv_link s I k c0 Hk0).
  - intros k c' Hk Hst. destruct (Hfin k c' Hk) as [c0 [Hk0 [[_ [Hp Hn]] [_ Hs0]]]].
    simpl. rewrite Hp. destruct (Hs0 Hst) as [Hs1 | ->].
    + exact (inv_started s I k c0 Hk0 Hs1).
    + rewrite Hi in Hk0. injection Hk0 as <-. exact Hf.
  - intros a b ca cb Ha Hb Hlt Hkey Hful.
    destruct (Hfin a ca Ha) as [ca0 [Ha0 [[Hka _] [Hfa _]]]].
    destruct (Hfin b cb Hb) as [cb0 [Hb0 [[Hkb [Hpb _]] _]]].
    rewrite Hfa. simpl in Hful. rewrite Hpb in Hful.
    apply (inv_order s I a b ca0 cb0 Ha0 Hb0 Hlt); [congruence | exact Hful].
Qed.

Lemma isFulfilled_deferred (h : list Promise) (p : pid) (b : bool) :
  h !! p = Some (Deferred b) -> isFulfilled h p = b.
Proof. intros H. unfold isFulfilled. rewrite H. reflexivity. Qed.

Lemma step_settle (s s' : State) i o :
  Inv s -> step s (Settle i o) = Some s' ->
  exists c, calls s !! i = Some c /\ pc c = AwaitFn /\
    s' = mkState (locks s) (<[next c := Deferred true]> (heap s))
                 (<[i := setPc c (Finished o)]> (calls s)).
Proof.
  intros I Hs. simpl in Hs.
  destruct (calls s !! i) as [c|] eqn:Hi; [|discriminate].
  destruct (pc c) eqn:Hpc; try discriminate.
  destruct (decide (locks s !! lockKey c = Some (next c))) as [Hl|Hl].
  - exfalso. exact (locks_never_next s i c I Hi Hl).
  - injection Hs as <-. exists c. auto.
Qed.

Lemma Inv_settle (s s' : State) i o :
  Inv s -> step s (Settle i o) = Some s' -> Inv s'.
Proof.
  intros I Hs. destruct (step_settle s s' i o I Hs) as [c [Hi [Hpc ->]]].
  set (h' := <[next c := Deferred true]> (heap s)).
  set (s' := mkState (locks s) h' (<[i := setPc c (Finished o)]> (calls s))).
  pose proof (inv_next s I i c Hi) as Hnc.
  assert (Hmono : forall p, isFulfilled (heap s) p = true -> isFulfilled h' p = true).
  { intros p Hp. destruct (decide (p = next c)) as [-> | Hne].
    - unfold h', isFulfilled. rewrite list_lookup_insert_eq; [reflexivity|].
      apply lookup_lt_Some in Hnc. exact Hnc.
    - unfold h'. rewrite isFulfilled_insert_ne by exact Hne. exact Hp. }
  assert (Hfin : forall k c', calls s' !! k = Some c' ->
            exists c0, calls s !! k = Some c0 /\ sameShape c0 c' /\
                       (finished c0 = true -> finished c' = true) /\
                       (started c' = true -> started c0 = true) /\
                       ((k = i /\ c0 = c /\ finished c' = true) \/ (k <> i /\ c' = c0))).
  { intros k c' Hk. simpl in Hk.
    destruct (lookup_setPc _ _ _ _ _ _ Hi Hk)
      as [c0 [Hk0 [Hkey [Hprev [Hnext Hcase]]]]].
    exists c0. split; [exact Hk0|]. split; [repeat split; auto|].
    destruct Hcase as [[-> [-> Hv]] | [Hne ->]].
    - unfold finished, started. rewrite Hv, Hpc. auto 10.
    - auto 10. }
  assert (Hres : forall p, heap s !! p = Some Resolved -> heap s' !! p = Some Resolved).
  { intros p Hp. simpl. unfold h'. rewrite list_lookup_insert_ne; [exact Hp|].
    intros <-. congruence. }
  destruct (structure_preserved s s' I eq_refl (aligned_setPc _ _ _ _ Hi) Hres)
    as [Hchain [Hlocks [Hnone Hinj]]].
  split; auto.
  - intros k c' Hk.
    destruct (Hfin k c' Hk) as [c0 [Hk0 [[_ [_ Hn]] [_ [_ Hcase]]]]]. simpl.
    destruct Hcase as [[-> [-> Hf]] | [Hne ->]].
    + rewrite Hn, Hf. unfold h'. apply list_lookup_insert_eq.
      apply lookup_lt_Some in Hnc. exact Hnc.
    + unfold h'. rewrite list_lookup_insert_ne.
      * exact (inv_next s I k c0 Hk0).
      * intros Heq. apply Hne. exact (inv_inj s I k i c0 c Hk0 Hi (eq_sym Heq)).
  - intros k c' Hk.
    destruct (Hfin k c' Hk) as [c0 [Hk0 [[_ [Hp Hn]] [Hf0 _]]]]. simpl.
    destruct (inv_link s I k c0 Hk0) as [st [Hl [Ha Hb]]].
    exists st. rewrite Hn, Hp. split; [|split].
    + unfold h'. rewrite list_lookup_insert_ne; [exact Hl|].
      intros Heq. exact (link_not_next s k i c0 c I Hk0 Hi (eq_sym Heq)).
    + intros Hst. apply Hmono, Ha, Hst.
    + intros Hst. apply Hf0, Hb, Hst.
  - intros k c' Hk Hst.
    destruct (Hfin k c' Hk) as [c0 [Hk0 [[_ [Hp _]] [_ [Hs0 _]]]]]. simpl.
    rewrite Hp. apply Hmono. exact (inv_started s I k c0 Hk0 (Hs0 Hst)).
  - intros a b ca cb Ha Hb Hlt Hkey Hful.
    destruct (Hfin a ca Ha) as [ca0 [Ha0 [[Hka _] [Hfa _]]]].
    destruct (Hfin b cb Hb) as [cb0 [Hb0 [[Hkb [Hpb _]] _]]].
    apply Hfa. simpl in Hful. rewrite Hpb in Hful.
    apply (inv_order s I a b ca0 cb0 Ha0 Hb0 Hlt); [congruence |].
    unfold h' in Hful. rewrite isFulfilled_insert_ne in Hful; [exact Hful|].
    intros Heq. apply (prev_not_deferred s b cb0 (finished c) I Hb0). congruence.
Qed.

Lemma Inv_runThen (s s' : State) p :
  Inv s -> step s (RunThen p) = Some s' -> Inv s'.
Proof.
  intros I Hs. simpl in Hs.
  destruct (heap s !! p) as [cellp|] eqn:Hp; [|discriminate].
  destruct cellp as [| |a b st]; try discriminate.
  destruct st; try discriminate.
  destruct (isFulfilled (heap s) a) eqn:Hfa; [|discriminate].
  injection Hs as <-.
  set (h' := <[p := Then a b AdoptingNext]> (heap s)).
  set (s' := mkState (locks s) h' (calls s)).
  assert (Hsame : forall q, isFulfilled h' q = isFulfilled (heap s) q).
  { intros q. destruct (decide (q = p)) as [-> | Hne].
    - unfold h', isFulfilled. rewrite Hp, list_lookup_insert_eq; [reflexivity|].
      apply lookup_lt_Some in Hp. exact Hp.
    - apply isFulfilled_insert_ne. exact Hne. }
  assert (Hother : forall q x, heap s !! q = Some x ->
             (forall a' b' st', x <> Then a' b' st') -> h' !! q = Some x).
  { intros q x Hq Hx. unfold h'. rewrite list_lookup_insert_ne; [exact Hq|].
    intros <-. rewrite Hp in Hq. injection Hq as <-. exact (Hx a b _ eq_refl). }
  destruct (structure_preserved s s' I eq_refl (aligned_refl _)
              (fun q H => Hother q _ H ltac:(discriminate)))
    as [Hchain [Hlocks [Hnone Hinj]]].
  split; auto; simpl.
  - intros k c Hk. apply Hother; [exact (inv_next s I k c Hk) | discriminate].
  - intros k c Hk. destruct (inv_link s I k c Hk) as [st [Hl [Ha Hb]]].
    destruct (decide (S (next c) = p)) as [Heq | Hne].
    + exists AdoptingNext. rewrite Heq in Hl. rewrite Hp in Hl.
      injection Hl as -> -> <-. split; [|split].
      * rewrite Heq. unfold h'. apply list_lookup_insert_eq.
        apply lookup_lt_Some in Hp. exact Hp.
      * intros _. rewrite Hsame. exact Hfa.
      * discriminate.
    + exists st. split; [|split].
      * unfold h'. rewrite list_lookup_insert_ne by auto. exact Hl.
      * intros Hst. rewrite Hsame. exact (Ha Hst).
      * exact Hb.
  - intros k c Hk Hst. rewrite Hsame. exact (inv_started s I k c Hk Hst).
  - intros i j ci cj Hi Hj Hlt Hkey Hful. rewrite Hsame in Hful.
    exact (inv_order s I i j ci cj Hi Hj Hlt Hkey Hful).
Qed.

Lemma Inv_adopt (s s' : State) p :
  Inv s -> step s (Adopt p) = Some s' -> Inv s'.
Proof.
  intros I Hs. simpl in Hs.
  destruct (heap s !! p) as [cellp|] eqn:Hp; [|discriminate].
  destruct cellp as [| |a b st]; try discriminate.
  destruct st; try discriminate.
  destruct (isFulfilled (heap s) b) eqn:Hfb; [|discriminate].
  injection Hs as <-.
  set (h' := <[p := Then a b Settled]> (heap s)).
  set (s' := mkState (locks s) h' (calls s)).
  assert (Hne_same : forall q, q <> p -> isFulfilled h' q = isFulfilled (heap s) q).
  { intros q Hne. apply isFulfilled_insert_ne. exact Hne. }
  assert (Hmono : forall q, isFulfilled (heap s) q = true -> isFulfilled h' q = true).
  { intros q Hq. destruct (decide (q = p)) as [-> | Hne].
    - unfold isFulfilled in Hq. rewrite Hp in Hq. discriminate.
    - rewrite Hne_same by exact Hne. exact Hq. }
  assert (Hother : forall q x, heap s !! q = Some x ->
             (forall a' b' st', x <> Then a' b' st') -> h' !! q = Some x).
  { intros q x Hq Hx. unfold h'. rewrite list_lookup_insert_ne; [exact Hq|].
    intros <-. rewrite Hp in Hq. injection Hq as <-. exact (Hx a b _ eq_refl). }
  destruct (structure_preserved s s' I eq_refl (aligned_refl _)
              (fun q H => Hother q _ H ltac:(discriminate)))
    as [Hchain [Hlocks [Hnone Hinj]]].
  assert (Hlinked : forall k c, calls s !! k = Some c -> S (next c) = p ->
             a = prev c /\ b = next c /\ finished c = true /\
             isFulfilled (heap s) (prev c) = true).
  { intros k c Hk Heq. destruct (inv_link s I k c Hk) as [st [Hl [Ha Hb]]].
    rewrite Heq, Hp in Hl. injection Hl as -> -> <-.
    split; [reflexivity|]. split; [reflexivity|]. split.
    - pose proof (inv_next s I k c Hk) as Hn.
      rewrite (isFulfilled_deferred _ _ _ Hn) in Hfb. exact Hfb.
    - apply Ha. discriminate. }
  split; auto; simpl.
  - intros k c Hk. apply Hother; [exact (inv_next s I k c Hk) | discriminate].
  - intros k c Hk. destruct (inv_link s I k c Hk) as [st [Hl [Ha Hb]]].
    destruct (decide (S (next c) = p)) as [Heq | Hne].
    + destruct (Hlinked k c Hk Heq) as [-> [-> [Hfin Hful]]].
      exists Settled. split; [|split].
      * rewrite Heq. unfold h'. apply list_lookup_insert_eq.
        apply lookup_lt_Some in Hp. exact Hp.
      * intros _. apply Hmono. exact Hful.
      * intros _. exact Hfin.
    + exists st. split; [|split].
      * unfold h'. rewrite list_lookup_insert_ne by auto. exact Hl.
      * intros Hst. apply Hmono. exact (Ha Hst).
      * exact Hb.
  - intros k c Hk Hst. apply Hmono. exact (inv_started s I k c Hk Hst).
  - intros i j ci cj Hi Hj Hlt Hkey Hful.
    destruct (decide (prev cj = p)) as [Heq | Hne].
    + destruct (inv_chain s I j cj Hj)
        as [Hr | [i0 [c0 [Hlt0 [Hi0 [Hkey0 [Hprev0 Hbetween]]]]]]].
      { rewrite Heq, Hp in Hr. discriminate. }
      assert (Hl0 : S (next c0) = p) by congruence.
      destruct (Hlinked i0 c0 Hi0 Hl0) as [_ [_ [Hfin0 Hful0]]].
      destruct (lt_eq_lt_dec i i0) as [[Hlt1 | ->] | Hgt].
      * apply (inv_order s I i i0 ci c0 Hi Hi0 Hlt1); [congruence | exact Hful0].
      * rewrite Hi0 in Hi. injection Hi as <-. exact Hfin0.
      * exfalso. exact (Hbetween i ci (conj Hgt Hlt) Hi Hkey).
    + rewrite Hne_same in Hful by exact Hne.
      exact (inv_order s I i j ci cj Hi Hj Hlt Hkey Hful).
Qed.

Lemma step_invoke (s : State) username key :
  exists h1 pv,
    step s (Invoke username key)
    = Some (mkState (<[lockKeyOf username key := S (length h1)]> (locks s))
                    (h1 ++ [Deferred false; Then pv (length h1) AwaitingPrev])
                    (calls s ++ [mkCall (lockKeyOf username key) pv (length h1) AwaitPrev])) /\
    ((locks s !! lockKeyOf username key = None /\
      h1 = heap s ++ [Resolved] /\ pv = length (heap s)) \/
     (locks s !! lockKeyOf username key = Some pv /\ h1 = heap s)).
Proof.
  simpl. destruct (locks s !! lockKeyOf username key) as [p|] eqn:Hl.
  - exists (heap s), p. split; [|right; auto].
    rewrite <- app_assoc, length_app. simpl.
    replace (length (heap s) + 1)%nat with (S (length (heap s))) by lia.
    reflexivity.
  - exists (heap s ++ [Resolved]), (length (heap s)). split; [|left; auto].
    rewrite <- (app_assoc (heap s ++ [Resolved])), length_app. simpl.
    replace (length (heap s ++ [Resolved]) + 1)%nat
      with (S (length (heap s ++ [Resolved]))) by lia.
    reflexivity.
Qed.

Lemma call_bounds (s : State) i c :
  Inv s -> calls s !! i = Some c ->
  (S (next c) < length (heap s))%nat /\ (prev c < length (heap s))%nat.
Proof.
  intros I Hi. destruct (inv_link s I i c Hi) as [st [Hl _]].
  split; [apply lookup_lt_Some in Hl; exact Hl|].
  destruct (inv_chain s I i c Hi) as [Hr | [k [ck [_ [Hk [_ [Hp _]]]]]]].
  - apply lookup_lt_Some in Hr. exact Hr.
  - destruct (inv_link s I k ck Hk) as [st' [Hl' _]].
    apply lookup_lt_Some in Hl'. lia.
Qed.

Lemma Inv_invoke (s s' : State) username key :
  Inv s -> step s (Invoke username key) = Some s' -> Inv s'.
Proof.
  intros I Hs.
  destruct (step_invoke s username key) as [h1 [pv [Hstep Hcase]]].
  rewrite Hstep in Hs. injection Hs as <-.
  set (K := lockKeyOf username key) in *.
  set (ext := [Deferred false; Then pv (length h1) AwaitingPrev]).
  set (new := mkCall K pv (length h1) AwaitPrev).
  assert (Hh1 : exists pre, h1 = heap s ++ pre).
  { destruct Hcase as [[_ [-> _]] | [_ ->]];
      [exists [Resolved]; reflexivity | exists []; rewrite app_nil_r; reflexivity]. }
  destruct Hh1 as [pre Hpre].
  assert (Hlen : (length (heap s) <= length h1)%nat).
  { rewrite Hpre, length_app. lia. }
  assert (F1 : forall q x, heap s !! q = Some x -> (h1 ++ ext) !! q = Some x).
  { intros q x Hq. apply lookup_app_l_Some. rewrite Hpre.
    apply lookup_app_l_Some. exact Hq. }
  assert (F2 : forall q, (q < length (heap s))%nat ->
             isFulfilled (h1 ++ ext) q = isFulfilled (heap s) q).
  { intros q Hq. rewrite Hpre, <- app_assoc. apply isFulfilled_app. exact Hq. }
  assert (F2' : forall q, isFulfilled (heap s) q = true ->
             isFulfilled (h1 ++ ext) q = true).
  { intros q Hq. rewrite F2; [exact Hq | apply isFulfilled_bound; exact Hq]. }
  assert (F3 : (h1 ++ ext) !! length h1 = Some (Deferred false)).
  { rewrite lookup_app_r by lia. rewrite Nat.sub_diag. reflexivity. }
  assert (F4 : (h1 ++ ext) !! S (length h1) = Some (Then pv (length h1) AwaitingPrev)).
  { rewrite lookup_app_r by lia.
    replace (S (length h1) - length h1)%nat with 1%nat by lia. reflexivity. }
  assert (Hsplit : forall k c', (calls s ++ [new]) !! k = Some c' ->
             calls s !! k = Some c' \/ (k = length (calls s) /\ c' = new)).
  { intros k c' Hk. apply lookup_snoc_Some in Hk as [[_ Hk] | [-> <-]]; auto. }
  assert (Hold : forall k c', calls s !! k = Some c' -> (k < length (calls s))%nat).
  { intros k c' Hk. apply lookup_lt_Some in Hk. exact Hk. }
  assert (Hlatest : forall p, locks s !! K = Some p ->
             exists i0 c0, calls s !! i0 = Some c0 /\ lockKey c0 = K /\
               pv = S (next c0) /\
               (forall k ck, (i0 < k)%nat -> calls s !! k = Some ck -> lockKey ck <> K)).
  { intros p Hp. destruct Hcase as [[Hn _] | [Hsome _]]; [congruence|].
    rewrite Hsome in Hp. injection Hp as <-.
    exact (inv_locks s I K pv Hsome). }
  split; simpl.
  - (* next *)
    intros k c' Hk. destruct (Hsplit k c' Hk) as [Hk0 | [-> ->]].
    + apply F1. exact (inv_next s I k c' Hk0).
    + exact F3.
  - (* link *)
    intros k c' Hk. destruct (Hsplit k c' Hk) as [Hk0 | [-> ->]].
    + destruct (inv_link s I k c' Hk0) as [st [Hl [Ha Hb]]].
      exists st. split; [apply F1; exact Hl|]. split; [|exact Hb].
      intros Hst. apply F2'. exact (Ha Hst).
    + exists AwaitingPrev. split; [exact F4|]. split; [congruence | discriminate].
  - (* started *)
    intros k c' Hk Hst. destruct (Hsplit k c' Hk) as [Hk0 | [-> ->]].
    + apply F2'. exact (inv_started s I k c' Hk0 Hst).
    + discriminate.
  - (* order *)
    intros i j ci cj Hi Hj Hlt Hkey Hful.
    destruct (Hsplit j cj Hj) as [Hj0 | [-> ->]].
    + destruct (Hsplit i ci Hi) as [Hi0 | [-> _]].
      * destruct (call_bounds s j cj I Hj0) as [_ Hb].
        rewrite F2 in Hful by exact Hb.
        exact (inv_order s I i j ci cj Hi0 Hj0 Hlt Hkey Hful).
      * apply Hold in Hj0. lia.
    + destruct (Hsplit i ci Hi) as [Hi0 | [-> _]]; [|lia].
      simpl in Hkey, Hful.
      destruct (locks s !! K) as [p|] eqn:HK.
      * destruct (Hlatest p eq_refl) as [i0 [c0 [Hi00 [Hk0 [Hpv Hlater]]]]].
        destruct (inv_link s I i0 c0 Hi00) as [st [Hl [Ha Hb]]].
        assert (Hp0 : isFulfilled (heap s) pv = true).
        { rewrite <- F2; [exact Hful|]. rewrite Hpv.
          apply lookup_lt_Some in Hl. exact Hl. }
        assert (Hst : st = Settled).
        { unfold isFulfilled in Hp0. rewrite Hpv, Hl in Hp0.
          destruct st; [discriminate | discriminate | reflexivity]. }
        destruct (lt_eq_lt_dec i i0) as [[Hlt1 | ->] | Hgt].
        -- apply (inv_order s I i i0 ci c0 Hi0 Hi00 Hlt1); [congruence|].
           apply Ha. rewrite Hst. discriminate.
        -- rewrite Hi00 in Hi0. injection Hi0 as <-. exact (Hb Hst).
        -- exfalso. exact (Hlater i ci Hgt Hi0 Hkey).
      * exfalso. exact (inv_locks_none s I K HK i ci Hi0 Hkey).
  - (* chain *)
    intros j cj Hj. destruct (Hsplit j cj Hj) as [Hj0 | [-> ->]].
    + destruct (inv_chain s I j cj Hj0)
        as [Hr | [i [ci [Hlt [Hi [Hkey [Hp Hbetween]]]]]]].
      * left. apply F1. exact Hr.
      * right. exists i, ci. split; [exact Hlt|].
        split; [apply lookup_app_l_Some; exact Hi|].
        split; [exact Hkey|]. split; [exact Hp|].
        intros k ck Hk Hck. destruct (Hsplit k ck Hck) as [Hck0 | [-> _]].
        -- exact (Hbetween k ck Hk Hck0).
        -- apply Hold in Hj0. lia.
    + simpl. destruct Hcase as [[Hn [Hh Hp]] | [Hsome Hh]].
      * left. rewrite Hh, Hp.
        rewrite <- app_assoc. rewrite lookup_app_r by lia.
        rewrite Nat.sub_diag. reflexivity.
      * right. destruct (Hlatest pv Hsome) as [i0 [c0 [Hi00 [Hk0 [Hpv Hlater]]]]].
        exists i0, c0. split; [exact (Hold _ _ Hi00)|].
        split; [apply lookup_app_l_Some; exact Hi00|].
        split; [exact Hk0|]. split; [exact Hpv|].
        intros k ck [Hk1 Hk2] Hck. destruct (Hsplit k ck Hck) as [Hck0 | [-> _]].
        -- exact (Hlater k ck Hk1 Hck0).
        -- lia.
  - (* locks *)
    intros K' p Hp. destruct (decide (K' = K)) as [-> | Hne].
    + rewrite lookup_insert_eq in Hp. injection Hp as <-.
      exists (length (calls s)), new. split.
      { rewrite lookup_app_r by lia. rewrite Nat.sub_diag. reflexivity. }
      split; [reflexivity|]. split; [reflexivity|].
      intros k ck Hk Hck. destruct (Hsplit k ck Hck) as [Hck0 | [-> _]].
      * apply Hold in Hck0. lia.
      * lia.
    + rewrite lookup_insert_ne in Hp by auto.
      destruct (inv_locks s I K' p Hp) as [i [ci [Hi [Hkey [Hpp Hlater]]]]].
      exists i, ci. split; [apply lookup_app_l_Some; exact Hi|].
      split; [exact Hkey|]. split; [exact Hpp|].
      intros k ck Hk Hck. destruct (Hsplit k ck Hck) as [Hck0 | [-> ->]].
      * exact (Hlater k ck Hk Hck0).
      * simpl. auto.
  - (* locks_none *)
    intros K' HK' i ci Hi. apply lookup_insert_None in HK' as [HK' Hne].
    destruct (Hsplit i ci Hi) as [Hi0 | [-> ->]].
    + exact (inv_locks_none s I K' HK' i ci Hi0).
    + simpl. exact Hne.
  - (* inj *)
    intros i j ci cj Hi Hj Heq.
    destruct (Hsplit i ci Hi) as [Hi0 | [-> ->]];
      destruct (Hsplit j cj Hj) as [Hj0 | [-> ->]].
    + exact (inv_inj s I i j ci cj Hi0 Hj0 Heq).
    + destruct (call_bounds s i ci I Hi0) as [Hb _]. simpl in Heq. lia.
    + destruct (call_bounds s j cj I Hj0) as [Hb _]. simpl in Heq. lia.
    + reflexivity.
Qed.

Lemma Inv_step (s s' : State) (e : Event) : Inv s -> step s e = Some s' -> Inv s'.
Proof.
  destruct e.
  - apply Inv_invoke.
  - apply Inv_resume.
  - apply Inv_settle.
  - apply Inv_runThen.
  - apply Inv_adopt.
Qed.

Lemma Inv_run (evs : list Event) (s s' : State) :
  Inv s -> run evs s = Some s' -> Inv s'.
Proof.
  revert s. induction evs as [|e evs IH]; intros s I Hr; simpl in Hr.
  - injection Hr as <-. exact I.
  - destruct (step s e) as [s1|] eqn:Hs; [|discriminate].
    exact (IH s1 (Inv_step s s1 e I Hs) Hr).
Qed.

Lemma Inv_reachable (s : State) : reachable s -> Inv s.
Proof. intros [evs Hr]. exact (Inv_run evs init s Inv_init Hr). Qed.

Lemma reachable_step (s s' : State) (e : Event) :
  reachable s -> step s e = Some s' -> reachable s'.
Proof.
  intros [evs Hr] Hs. exists (evs ++ [e]).
  revert Hr. generalize init. induction evs as [|e0 evs IH]; intros s0 Hr; simpl in *.
  - injection Hr as ->. rewrite Hs. reflexivity.
  - destruct (step s0 e0) as [s1|]; [|discriminate]. exact (IH s1 Hr).
Qed.

(** In a reachable state a call that has started sees every earlier call
    on its key finished. *)
Lemma started_after_earlier (s : State) i j ci cj :
  Inv s -> calls s !! i = Some ci -> calls s !! j = Some cj -> (i < j)%nat ->
  lockKey ci = lockKey cj -> started cj = true -> finished ci = true.
Proof.
  intros I Hi Hj Hlt Hkey Hst.
  exact (inv_order s I i j ci cj Hi Hj Hlt Hkey (inv_started s I j cj Hj Hst)).
Qed.

Lemma running_started (c : Call) : running c = true -> started c = true.
Proof. unfold running, started. destruct (pc c); auto. Qed.

Lemma running_not_finished (c : Call) : running c = true -> finished c = false.
Proof. unfold running, finished. destruct (pc c); auto; discriminate. Qed.

(** The state a sequence of events leads to from the initial state ([init]
    itself when an event of the sequence is not enabled). *)
Definition stateAfter (evs : list Event) : State := default init (run evs init).

Lemma stateAfter_reachable (evs : list Event) :
  is_Some (run evs init) -> reachable (stateAfter evs).
Proof.
  intros [s Hs]. exists evs. unfold stateAfter. rewrite Hs. reflexivity.
Qed.


(** *** The lock map *)

Lemma settle_keeps_locks (s s' : State) i o :
  Inv s -> step s (Settle i o) = Some s' -> locks s' = locks s.
Proof.
  intros I Hs. destruct (step_settle s s' i o I Hs) as [c [_ [_ ->]]]. reflexivity.
Qed.

Lemma step_keeps_entries (s s' : State) (e : Event) K :
  Inv s -> step s e = Some s' -> is_Some (locks s !! K) -> is_Some (locks s' !! K).
Proof.
  intros I Hs HK. destruct e.
  - destruct (step_invoke s username key) as [h1 [pv [Hstep _]]].
    rewrite Hstep in Hs. injection Hs as <-. simpl.
    destruct (decide (lockKeyOf username key = K)) as [-> | Hne].
    + rewrite lookup_insert_eq. eauto.
    + rewrite lookup_insert_ne by exact Hne. exact HK.
  - simpl in Hs. destruct (calls s !! i) as [c|]; [|discriminate].
    destruct (pc c); try discriminate.
    destruct (isFulfilled (heap s) (prev c)); [|discriminate].
    injection Hs as <-. exact HK.
  - rewrite (settle_keeps_locks s s' i o I Hs). exact HK.
  - simpl in Hs. destruct (heap s !! p) as [[| |a b [| |]]|]; try discriminate.
    destruct (isFulfilled (heap s) a); [|discriminate].
    injection Hs as <-. exact HK.
  - simpl in Hs. destruct (heap s !! p) as [[| |a b [| |]]|]; try discriminate.
    destruct (isFulfilled (heap s) b); [|discriminate].
    injection Hs as <-. exact HK.
Qed.

Lemma call_has_entry (s : State) i c :
  Inv s -> calls s !! i = Some c -> is_Some (locks s !! lockKey c).
Proof.
  intros I Hi. destruct (locks s !! lockKey c) eqn:HK; [eauto|].
  exfalso. exact (inv_locks_none s I _ HK i c Hi eq_refl).
Qed.

(** *** Progress *)

Lemma list_sum_insert {A : Type} (f : A -> nat) (l : list A) i x y :
  l !! i = Some x ->
  (list_sum (List.map f (<[i := y]> l)) + f x = list_sum (List.map f l) + f y)%nat.
Proof.
  revert i. induction l as [|a l IH]; intros i Hi; [discriminate|].
  destruct i as [|i]; simpl in *.
  - injection Hi as ->. lia.
  - specialize (IH i Hi). lia.
Qed.

Definition internal (e : Event) : bool :=
  match e with Invoke _ _ => false | _ => true end.

(** What a call returns to its caller once the queue has run: its own
    outcome. *)
Definition finalPc (outcomes : nat -> Outcome) (i : nat) (v : Pc) : Pc :=
  match v with
  | Finished o => Finished o
  | _ => Finished (outcomes i)
  end.

Definition settlesWith (outcomes : nat -> Outcome) (e : Event) : Prop :=
  match e with
  | Settle i o => o = outcomes i
  | _ => True
  end.

Lemma internal_step (outcomes : nat -> Outcome) (s s' : State) (e : Event) :
  Inv s -> internal e = true -> settlesWith outcomes e -> step s e = Some s' ->
  work s = S (work s') /\
  length (calls s') = length (calls s) /\
  (forall i c, calls s !! i = Some c ->
     exists c', calls s' !! i = Some c' /\
                finalPc outcomes i (pc c') = finalPc outcomes i (pc c)).
Proof.
  intros I Hint Hout Hs. destruct e; [discriminate| | | |].
  - (* Resume *)
    simpl in Hs. destruct (calls s !! i) as [c|] eqn:Hi; [|discriminate].
    destruct (pc c) eqn:Hpc; try discriminate.
    destruct (isFulfilled (heap s) (prev c)); [|discriminate].
    injection Hs as <-. unfold work; simpl. split; [|split].
    + pose proof (list_sum_insert callWork (calls s) i c (setPc c AwaitFn) Hi) as H.
      assert (E1 : callWork c = 2%nat) by (unfold callWork; rewrite Hpc; reflexivity).
      assert (E2 : callWork (setPc c AwaitFn) = 1%nat) by reflexivity.
      rewrite E1, E2 in H. lia.
    + apply length_insert.
    + intros k ck Hk. destruct (decide (k = i)) as [-> | Hne].
      * exists (setPc c AwaitFn). split.
        -- apply list_lookup_insert_eq. apply lookup_lt_Some in Hi. exact Hi.
        -- rewrite Hi in Hk. injection Hk as <-. rewrite Hpc. reflexivity.
      * exists ck. split; [|reflexivity].
        rewrite list_lookup_insert_ne by auto. exact Hk.
  - (* Settle *)
    simpl in Hout. subst o.
    destruct (step_settle s s' i _ I Hs) as [c [Hi [Hpc ->]]].
    unfold work; simpl. split; [|split].
    + pose proof (list_sum_insert callWork (calls s) i c
                    (setPc c (Finished (outcomes i))) Hi) as H.
      assert (E1 : callWork c = 1%nat) by (unfold callWork; rewrite Hpc; reflexivity).
      assert (E2 : callWork (setPc c (Finished (outcomes i))) = 0%nat) by reflexivity.
      rewrite E1, E2 in H.
      pose proof (list_sum_insert promiseWork (heap s) (next c)
                    (Deferred (finished c)) (Deferred true)
                    (inv_next s I i c Hi)) as H'.
      simpl in H'. lia.
    + apply length_insert.
    + intros k ck Hk. destruct (decide (k = i)) as [-> | Hne].
      * exists (setPc c (Finished (outcomes i))). split.
        -- apply list_lookup_insert_eq. apply lookup_lt_Some in Hi. exact Hi.
        -- rewrite Hi in Hk. injection Hk as <-. rewrite Hpc. reflexivity.
      * exists ck. split; [|reflexivity].
        rewrite list_lookup_insert_ne by auto. exact Hk.
  - (* RunThen *)
    simpl in Hs. destruct (heap s !! p) as [[| |a b [| |]]|] eqn:Hp; try discriminate.
    destruct (isFulfilled (heap s) a); [|discriminate].
    injection Hs as <-. unfold work; simpl. split; [|split].
    + pose proof (list_sum_insert promiseWork (heap s) p _
                    (Then a b AdoptingNext) Hp) as H. simpl in H. lia.
    + reflexivity.
    + intros k ck Hk. exists ck. auto.
  - (* Adopt *)
    simpl in Hs. destruct (heap s !! p) as [[| |a b [| |]]|] eqn:Hp; try discriminate.
    destruct (isFulfilled (heap s) b); [|discriminate].
    injection Hs as <-. unfold work; simpl. split; [|split].
    + pose proof (list_sum_insert promiseWork (heap s) p _
                    (Then a b Settled) Hp) as H. simpl in H. lia.
    + reflexivity.
    + intros k ck Hk. exists ck. auto.
Qed.

Lemma firstStep_Some (s s' : State) (evs : list Event) :
  firstStep s evs = Some s' -> exists e, In e evs /\ step s e = Some s'.
Proof.
  induction evs as [|e evs IH]; simpl; [discriminate|].
  destruct (step s e) as [s1|] eqn:Hs.
  - intros [= <-]. exists e. auto.
  - intros H. destruct (IH H) as [e' [Hin He']]. exists e'. auto.
Qed.

Lemma firstStep_None (s : State) (evs : list Event) (e : Event) :
  firstStep s evs = None -> In e evs -> step s e = None.
Proof.
  induction evs as [|e0 evs IH]; simpl; [intros _ []|].
  destruct (step s e0) as [s1|] eqn:Hs; [discriminate|].
  intros H [<- | Hin]; [exact Hs | exact (IH H Hin)].
Qed.

Lemma internalEvents_spec (outcomes : nat -> Outcome) (s : State) (e : Event) :
  In e (internalEvents outcomes s) -> internal e = true /\ settlesWith outcomes e.
Proof.
  unfold internalEvents. rewrite !in_app_iff, !in_map_iff.
  intros [[k [<- _]] | [[k [<- _]] | [[k [<- _]] | [k [<- _]]]]]; simpl; auto.
Qed.

Lemma in_internalEvents (outcomes : nat -> Outcome) (s : State) :
  (forall i, (i < length (calls s))%nat ->
     In (Resume i) (internalEvents outcomes s) /\
     In (Settle i (outcomes i)) (internalEvents outcomes s)) /\
  (forall p, (p < length (heap s))%nat ->
     In (RunThen p) (internalEvents outcomes s) /\
     In (Adopt p) (internalEvents outcomes s)).
Proof.
  unfold internalEvents. split; intros k Hk; rewrite !in_app_iff, !in_map_iff;
    split.
  - left. exists k. split; [reflexivity | apply in_seq; lia].
  - right; left. exists k. split; [reflexivity | apply in_seq; lia].
  - right; right; left. exists k. split; [reflexivity | apply in_seq; lia].
  - right; right; right. exists k. split; [reflexivity | apply in_seq; lia].
Qed.

(** While a call has not finished, some job is ready: no failure and no
    interleaving leaves the chain stuck. *)
Lemma some_job_ready (outcomes : nat -> Outcome) (s : State) i c :
  Inv s -> calls s !! i = Some c -> finished c = false ->
  exists e, In e (internalEvents outcomes s) /\ is_Some (step s e).
Proof.
  intros I. revert c. induction i as [i IH] using lt_wf_ind. intros c Hi Hfin.
  destruct (in_internalEvents outcomes s) as [Hcalls Hheap].
  pose proof (lookup_lt_Some _ _ _ Hi) as Hlt.
  destruct (pc c) eqn:Hpc.
  - (* suspended at [await prev] *)
    destruct (isFulfilled (heap s) (prev c)) eqn:Hful.
    + exists (Resume i). split; [apply Hcalls; exact Hlt|].
      simpl. rewrite Hi, Hpc, Hful. eauto.
    + destruct (inv_chain s I i c Hi)
        as [Hr | [i0 [c0 [Hlt0 [Hi0 [_ [Hprev _]]]]]]].
      { unfold isFulfilled in Hful. rewrite Hr in Hful. discriminate. }
      destruct (inv_link s I i0 c0 Hi0) as [st [Hl [Ha Hb]]].
      pose proof (lookup_lt_Some _ _ _ Hl) as Hpl.
      destruct st.
      * destruct (isFulfilled (heap s) (prev c0)) eqn:Hful0.
        -- exists (RunThen (S (next c0))). split; [apply Hheap; exact Hpl|].
           simpl. rewrite Hl, Hful0. eauto.
        -- apply (IH i0 Hlt0 c0 Hi0).
           destruct (finished c0) eqn:Hf0; [|reflexivity].
           assert (Hst : started c0 = true).
           { unfold finished in Hf0. unfold started. destruct (pc c0); auto; discriminate. }
           rewrite (inv_started s I i0 c0 Hi0 Hst) in Hful0. discriminate.
      * destruct (isFulfilled (heap s) (next c0)) eqn:Hful0.
        -- exists (Adopt (S (next c0))). split; [apply Hheap; exact Hpl|].
           simpl. rewrite Hl, Hful0. eauto.
        -- apply (IH i0 Hlt0 c0 Hi0).
           rewrite (isFulfilled_deferred _ _ _ (inv_next s I i0 c0 Hi0)) in Hful0.
           exact Hful0.
      * unfold isFulfilled in Hful. rewrite Hprev, Hl in Hful. discriminate.
  - (* running *)
    exists (Settle i (outcomes i)). split; [apply Hcalls; exact Hlt|].
    simpl. rewrite Hi, Hpc. eauto.
  - unfold finished in Hfin. rewrite Hpc in Hfin. discriminate.
Qed.

Lemma work_zero_finished (s : State) i c :
  work s = 0%nat -> calls s !! i = Some c -> finished c = true.
Proof.
  unfold work. intros Hw Hi.
  assert (Hc : list_sum (List.map callWork (calls s)) = 0%nat) by lia.
  clear Hw. revert i Hi Hc. induction (calls s) as [|a l IH]; intros i Hi Hc.
  - discriminate.
  - simpl in Hc. destruct i as [|i]; simpl in Hi.
    + injection Hi as ->. unfold callWork in Hc. unfold finished.
      destruct (pc c); [lia | lia | reflexivity].
    + apply (IH i Hi). lia.
Qed.

Lemma drain_spec (outcomes : nat -> Outcome) (n : nat) (s : State) :
  reachable s -> (work s <= n)%nat ->
  reachable (drain outcomes n s) /\
  length (calls (drain outcomes n s)) = length (calls s) /\
  (forall i c, calls s !! i = Some c ->
     exists c', calls (drain outcomes n s) !! i = Some c' /\
                pc c' = finalPc outcomes i (pc c)).
Proof.
  revert s. induction n as [|n IH]; intros s Hr Hw.
  - simpl. split; [exact Hr|]. split; [reflexivity|].
    intros i c Hi. exists c. split; [exact Hi|].
    pose proof (work_zero_finished s i c ltac:(lia) Hi) as Hf.
    unfold finished in Hf. destruct (pc c); try discriminate. reflexivity.
  - simpl. pose proof (Inv_reachable s Hr) as I.
    destruct (firstStep s (internalEvents outcomes s)) as [s1|] eqn:Hfs.
    + destruct (firstStep_Some s s1 _ Hfs) as [e [Hin Hs]].
      destruct (internalEvents_spec outcomes s e Hin) as [Hint Hout].
      destruct (internal_step outcomes s s1 e I Hint Hout Hs) as [Hw1 [Hlen Hpcs]].
      destruct (IH s1 (reachable_step s s1 e Hr Hs) ltac:(lia)) as [Hr' [Hlen' Hfinal]].
      split; [exact Hr'|]. split; [congruence|].
      intros i c Hi. destruct (Hpcs i c Hi) as [c1 [Hi1 Hf1]].
      destruct (Hfinal i c1 Hi1) as [c' [Hi' Hpc']].
      exists c'. split; [exact Hi'|]. congruence.
    + split; [exact Hr|]. split; [reflexivity|].
      intros i c Hi. exists c. split; [exact Hi|].
      destruct (finished c) eqn:Hf.
      * unfold finished in Hf. destruct (pc c); try discriminate. reflexivity.
      * exfalso. destruct (some_job_ready outcomes s i c I Hi Hf) as [e [Hin [s1 Hs]]].
        rewrite (firstStep_None s _ e Hfs Hin) in Hs. discriminate.
Qed.



(** *** Lock keys *)

Lemma append_length (a b : string) :
  String.length (String.append a b) = (String.length a + String.length b)%nat.
Proof.
  induction a as [|c a IH]; [reflexivity|].
  change (String.append (String c a) b) with (String c (String.append a b)).
  simpl. rewrite IH. reflexivity.
Qed.

Lemma append_cancel_r (a b t : string) :
  String.append a t = String.append b t -> a = b.
Proof.
  revert b. induction a as [|c a IH]; intros [|d b] H.
  - reflexivity.
  - exfalso. apply (f_equal String.length) in H.
    rewrite !append_length in H. simpl in H. lia.
  - exfalso. apply (f_equal String.length) in H.
    rewrite !append_length in H. simpl in H. lia.
  - change (String c (String.append a t) = String d (String.append b t)) in H.
    injection H as -> H. f_equal. exact (IH b H).
Qed.

Lemma lockKeyOf_eq (u1 u2 : option string) (key : string) :
  lockKeyOf u1 key = lockKeyOf u2 key <->
  JsString.orElse u1 "bot" = JsString.orElse u2 "bot".
Proof.
  unfold lockKeyOf. split.
  - apply append_cancel_r.
  - intros ->. reflexivity.
Qed.

Lemma invoke_fresh (s : State) (u : option string) (key : string) :
  locks s !! lockKeyOf u key = None ->
  step s (Invoke u key)
  = Some (mkState (<[lockKeyOf u key := S (S (length (heap s)))]> (locks s))
                  (heap s ++ [Resolved; Deferred false;
                              Then (length (heap s)) (S (length (heap s))) AwaitingPrev])
                  (calls s ++ [mkCall (lockKeyOf u key) (length (heap s))
                                      (S (length (heap s))) AwaitPrev])).
Proof.
  intros H. simpl. rewrite H. rewrite !length_app. simpl.
  replace (length (heap s) + 1)%nat with (S (length (heap s))) by lia.
  replace (S (length (heap s)) + 1)%nat with (S (S (length (heap s)))) by lia.
  rewrite <- !app_assoc. reflexivity.
Qed.

(** Two calls under different lock keys, both resumed. *)
Lemma distinct_keys_overlap (u1 u2 : option string) (key : string) :
  lockKeyOf u1 key <> lockKeyOf u2 key ->
  run [Invoke u1 key; Invoke u2 key; Resume 0; Resume 1] init
  = Some (mkState
            (<[lockKeyOf u2 key := 5%nat]> (<[lockKeyOf u1 key := 2%nat]> ∅))
            [Resolved; Deferred false; Then 0 1 AwaitingPrev;
             Resolved; Deferred false; Then 3 4 AwaitingPrev]
            [mkCall (lockKeyOf u1 key) 0 1 AwaitFn;
             mkCall (lockKeyOf u2 key) 3 4 AwaitFn]).
Proof.
  intros Hne. unfold run.
  rewrite (invoke_fresh init u1 key) by apply lookup_empty.
  rewrite invoke_fresh.
  - reflexivity.
  - simpl. rewrite lookup_insert_ne by exact Hne. apply lookup_empty.
Qed.

(** Mutual exclusion and order of start, for one reachable state. *)
Lemma exclusive_and_ordered (s : State) :
  reachable s ->
  (forall i j ci cj,
      calls s !! i = Some ci -> calls s !! j = Some cj -> i <> j ->
      lockKey ci = lockKey cj ->
      ~ (running ci = true /\ running cj = true)) /\
  (forall i j ci cj,
      calls s !! i = Some ci -> calls s !! j = Some cj -> (i < j)%nat ->
      lockKey ci = lockKey cj ->
      started cj = true -> finished ci = true).
Proof.
  intros Hr. pose proof (Inv_reachable s Hr) as I. split.
  - intros i j ci cj Hi Hj Hne Hkey [Hri Hrj].
    destruct (lt_eq_lt_dec i j) as [[Hlt | Heq] | Hgt]; [| exact (Hne Heq) |].
    + pose proof (started_after_earlier s i j ci cj I Hi Hj Hlt Hkey
                    (running_started cj Hrj)) as Hf.
      rewrite (running_not_finished ci Hri) in Hf. discriminate.
    + pose proof (started_after_earlier s j i cj ci I Hj Hi Hgt (eq_sym Hkey)
                    (running_started ci Hri)) as Hf.
      rewrite (running_not_finished cj Hrj) in Hf. discriminate.
  - intros i j ci cj Hi Hj Hlt Hkey Hst.
    exact (started_after_earlier s i j ci cj I Hi Hj Hlt Hkey Hst).
Qed.
End MutexFacts.

(** ** The job queue *)

Section QueueFacts.
Import Mutex.

Lemma fifo_step_refines (s s' : Fifo.State) (e : Fifo.Event) :
  Fifo.step s e = Some s' ->
  run (Fifo.eventOf s e) (Fifo.base s) = Some (Fifo.base s').
Proof.
  destruct e as [u key | i o |]; unfold Fifo.step, Fifo.eventOf.
  - destruct (step (Fifo.base s) (Invoke u key)) as [b|] eqn:Hb; [|discriminate].
    destruct (calls b !! length (calls (Fifo.base s))) as [c|]; [|discriminate].
    intros [= <-]. cbn [run]. rewrite Hb. reflexivity.
  - destruct (calls (Fifo.base s) !! i) as [c|]; [|discriminate].
    destruct (pc c); try discriminate.
    destruct (bool_decide (i ∈ Fifo.settled s)); [discriminate|].
    intros [= <-]. reflexivity.
  - destruct (Fifo.queue s) as [|[p | i | p | p | i o] rest]; [discriminate| | | | |].
    + destruct (step (Fifo.base s) (RunThen p)) as [b|] eqn:Hb; [|discriminate].
      intros [= <-]. cbn [run]. rewrite Hb. reflexivity.
    + destruct (step (Fifo.base s) (Resume i)) as [b|] eqn:Hb; [|discriminate].
      intros [= <-]. cbn [run]. rewrite Hb. reflexivity.
    + destruct (heap (Fifo.base s) !! p) as [[| |a b [| |]]|]; try discriminate.
      destruct (isFulfilled (heap (Fifo.base s)) b); intros [= <-]; reflexivity.
    + destruct (step (Fifo.base s) (Adopt p)) as [b|] eqn:Hb; [|discriminate].
      intros [= <-]. cbn [run]. rewrite Hb. reflexivity.
    + destruct (calls (Fifo.base s) !! i) as [c|]; [|discriminate].
      destruct (step (Fifo.base s) (Settle i o)) as [b|] eqn:Hb; [|discriminate].
      destruct (bool_decide (S (next c) ∈ Fifo.parked s)); intros [= <-];
        cbn [run]; rewrite Hb; reflexivity.
Qed.

Lemma run_app (a b : list Event) (s : State) :
  run (a ++ b) s = match run a s with Some s' => run b s' | None => None end.
Proof.
  revert s. induction a as [|e a IH]; intros s; simpl; [reflexivity|].
  destruct (step s e) as [s1|]; [apply IH | reflexivity].
Qed.

(** A run of the queue machine is a run of the promise machine. *)
Lemma fifo_run_refines (evs : list Fifo.Event) (s s' : Fifo.State) :
  Fifo.run evs s = Some s' ->
  exists mevs, run mevs (Fifo.base s) = Some (Fifo.base s').
Proof.
  revert s. induction evs as [|e evs IH]; intros s Hr; simpl in Hr.
  - injection Hr as <-. exists []. reflexivity.
  - destruct (Fifo.step s e) as [s1|] eqn:Hs; [|discriminate].
    destruct (IH s1 Hr) as [mevs Hm]. exists (Fifo.eventOf s e ++ mevs).
    rewrite run_app, (fifo_step_refines s s1 e Hs). exact Hm.
Qed.

Lemma fifo_reachable (s : Fifo.State) : Fifo.reachable s -> reachable (Fifo.base s).
Proof. intros [evs Hr]. exact (fifo_run_refines evs Fifo.init s Hr). Qed.

(** *** Progress *)

(** A job whatever its kind: a continuation, a reaction, or the settling
    of an operation with the outcome [outcomes] gives it. *)
Definition job (outcomes : nat -> Outcome) (e : Event) : Prop :=
  internal e = true /\ settlesWith outcomes e.

(** A job that settles no operation. *)
Definition promiseJob (e : Event) : bool :=
  match e with
  | Resume _ | RunThen _ | Adopt _ => true
  | _ => false
  end.

Lemma jobs_count (outcomes : nat -> Outcome) (evs : list Event) (s s' : State) :
  Inv s -> Forall (job outcomes) evs -> run evs s = Some s' ->
  work s = (length evs + work s')%nat /\
  length (calls s') = length (calls s).
Proof.
  revert s. induction evs as [|e evs IH]; intros s I Hall Hr; simpl in Hr.
  - injection Hr as <-. auto.
  - destruct (step s e) as [s1|] eqn:Hs; [|discriminate].
    inversion Hall as [|x l [Hint Hout] Hrest]; subst.
    destruct (internal_step outcomes s s1 e I Hint Hout Hs) as [Hw [Hlen _]].
    destruct (IH s1 (Inv_step s s1 e I Hs) Hrest Hr) as [Hw' Hlen'].
    simpl. split; [lia | congruence].
Qed.

Lemma resume_ready (s : State) j cj :
  calls s !! j = Some cj -> pc cj = AwaitPrev ->
  isFulfilled (heap s) (prev cj) = true ->
  step s (Resume j)
  = Some (mkState (locks s) (heap s) (<[j := setPc cj AwaitFn]> (calls s))).
Proof. intros Hj Hpc Hf. simpl. rewrite Hj, Hpc, Hf. reflexivity. Qed.

Lemma resumed_running (s : State) (h : list Promise) j cj :
  calls s !! j = Some cj ->
  exists cj', calls (mkState (locks s) h (<[j := setPc cj AwaitFn]> (calls s))) !! j
              = Some cj' /\ running cj' = true.
Proof.
  intros Hj. exists (setPc cj AwaitFn). split; [|reflexivity]. simpl.
  apply list_lookup_insert_eq. apply lookup_lt_Some in Hj. exact Hj.
Qed.

(** The next call in line starts without anything else happening: when
    every earlier call with its lock key has finished, at most three
    promise jobs (the reaction of [then], the adoption of [next], the
    continuation of [await prev]) bring it to [fn()]. *)
Lemma next_in_line (s : State) j cj :
  Inv s -> calls s !! j = Some cj -> pc cj = AwaitPrev ->
  (forall i ci, (i < j)%nat -> calls s !! i = Some ci ->
                lockKey ci = lockKey cj -> finished ci = true) ->
  exists evs s' cj',
    (length evs <= 3)%nat /\ Forall (fun e => promiseJob e = true) evs /\
    run evs s = Some s' /\ calls s' !! j = Some cj' /\ running cj' = true.
Proof.
  intros I Hj Hpc Hearlier.
  destruct (inv_chain s I j cj Hj) as [Hr | [i [ci [Hlt [Hi [Hkey [Hprev _]]]]]]].
  - (* [prev] is [Promise.resolve()] *)
    assert (Hf : isFulfilled (heap s) (prev cj) = true)
      by (unfold isFulfilled; rewrite Hr; reflexivity).
    destruct (resumed_running s (heap s) j cj Hj) as [cj' [Hj' Hrun]].
    exists [Resume j]. eexists. exists cj'.
    split; [simpl; lia|]. split; [repeat constructor|].
    split; [cbn [run]; rewrite (resume_ready s j cj Hj Hpc Hf); reflexivity|].
    split; [exact Hj' | exact Hrun].
  - (* [prev] is the promise the call before on this key stored *)
    pose proof (Hearlier i ci Hlt Hi Hkey) as Hfin.
    assert (Hst : started ci = true)
      by (unfold finished in Hfin; unfold started; destruct (pc ci); auto; discriminate).
    pose proof (inv_started s I i ci Hi Hst) as Hfa.
    pose proof (inv_next s I i ci Hi) as Hn. rewrite Hfin in Hn.
    assert (Hfb : isFulfilled (heap s) (next ci) = true)
      by (unfold isFulfilled; rewrite Hn; reflexivity).
    destruct (inv_link s I i ci Hi) as [st [Hl _]].
    set (L := S (next ci)) in *.
    assert (HL : (L < length (heap s))%nat) by (apply lookup_lt_Some in Hl; exact Hl).
    assert (Hne : next ci <> L) by (unfold L; lia).
    destruct st.
    + (* the reaction of [then] has not run *)
      set (h1 := <[L := Then (prev ci) (next ci) AdoptingNext]> (heap s)).
      set (h2 := <[L := Then (prev ci) (next ci) Settled]> h1).
      assert (H1 : step s (RunThen L) = Some (mkState (locks s) h1 (calls s))).
      { simpl. rewrite Hl, Hfa. reflexivity. }
      assert (H2 : step (mkState (locks s) h1 (calls s)) (Adopt L)
                   = Some (mkState (locks s) h2 (calls s))).
      { simpl. unfold h1 at 1. rewrite list_lookup_insert_eq by exact HL.
        unfold h1 at 1. rewrite isFulfilled_insert_ne by exact Hne.
        rewrite Hfb. reflexivity. }
      assert (Hf : isFulfilled h2 (prev cj) = true).
      { rewrite Hprev. unfold isFulfilled, h2.
        rewrite list_lookup_insert_eq; [reflexivity|].
        unfold h1. rewrite length_insert. exact HL. }
      destruct (resumed_running s h2 j cj Hj) as [cj' [Hj' Hrun]].
      exists [RunThen L; Adopt L; Resume j]. eexists. exists cj'.
      split; [simpl; lia|]. split; [repeat constructor|].
      split; [|split; [exact Hj' | exact Hrun]].
      cbn [run]. rewrite H1, H2.
      rewrite (resume_ready (mkState (locks s) h2 (calls s)) j cj Hj Hpc Hf).
      reflexivity.
    + (* [next] is being adopted *)
      set (h2 := <[L := Then (prev ci) (next ci) Settled]> (heap s)).
      assert (H2 : step s (Adopt L) = Some (mkState (locks s) h2 (calls s))).
      { simpl. rewrite Hl, Hfb. reflexivity. }
      assert (Hf : isFulfilled h2 (prev cj) = true).
      { rewrite Hprev. unfold isFulfilled, h2.
        rewrite list_lookup_insert_eq; [reflexivity | exact HL]. }
      destruct (resumed_running s h2 j cj Hj) as [cj' [Hj' Hrun]].
      exists [Adopt L; Resume j]. eexists. exists cj'.
      split; [simpl; lia|]. split; [repeat constructor|].
      split; [|split; [exact Hj' | exact Hrun]].
      cbn [run]. rewrite H2.
      rewrite (resume_ready (mkState (locks s) h2 (calls s)) j cj Hj Hpc Hf).
      reflexivity.
    + (* the stored promise is fulfilled *)
      assert (Hf : isFulfilled (heap s) (prev cj) = true)
        by (rewrite Hprev; unfold isFulfilled; fold L; rewrite Hl; reflexivity).
      destruct (resumed_running s (heap s) j cj Hj) as [cj' [Hj' Hrun]].
      exists [Resume j]. eexists. exists cj'.
      split; [simpl; lia|]. split; [repeat constructor|].
      split; [cbn [run]; rewrite (resume_ready s j cj Hj Hpc Hf); reflexivity|].
      split; [exact Hj' | exact Hrun].
Qed.
End QueueFacts.

(** ** The job queue never blocks *)

Section QueueInvariant.
Import Mutex.

Lemma step_resume (s s' : State) i :
  step s (Resume i) = Some s' ->
  exists c, calls s !! i = Some c /\ pc c = AwaitPrev /\
    isFulfilled (heap s) (prev c) = true /\
    s' = mkState (locks s) (heap s) (<[i := setPc c AwaitFn]> (calls s)).
Proof.
  simpl. destruct (calls s !! i) as [c|]; [|discriminate].
  destruct (pc c) eqn:Hpc; try discriminate.
  destruct (isFulfilled (heap s) (prev c)) eqn:Hf; [|discriminate].
  intros [= <-]. exists c. auto.
Qed.

Lemma step_runThen (s s' : State) p :
  step s (RunThen p) = Some s' ->
  exists a x, heap s !! p = Some (Then a x AwaitingPrev) /\
    isFulfilled (heap s) a = true /\
    s' = mkState (locks s) (<[p := Then a x AdoptingNext]> (heap s)) (calls s).
Proof.
  simpl. destruct (heap s !! p) as [[| |a x [| |]]|]; try discriminate.
  destruct (isFulfilled (heap s) a) eqn:Hf; [|discriminate].
  intros [= <-]. exists a, x. auto.
Qed.

Lemma step_adopt (s s' : State) p :
  step s (Adopt p) = Some s' ->
  exists a x, heap s !! p = Some (Then a x AdoptingNext) /\
    isFulfilled (heap s) x = true /\
    s' = mkState (locks s) (<[p := Then a x Settled]> (heap s)) (calls s).
Proof.
  simpl. destruct (heap s !! p) as [[| |a x [| |]]|]; try discriminate.
  destruct (isFulfilled (heap s) x) eqn:Hf; [|discriminate].
  intros [= <-]. exists a, x. auto.
Qed.

(** Every promise made by [then] belongs to a call: it sits after the
    [next] of the call, waits for its [prev] and adopts its [next]. *)
Definition owned (s : State) : Prop :=
  forall p a x st, heap s !! p = Some (Then a x st) ->
    exists i c, calls s !! i = Some c /\ p = S (next c) /\ a = prev c /\ x = next c.

Lemma owned_setPc (s : State) (h : list Promise) i c v :
  calls s !! i = Some c ->
  (forall p a x st, h !! p = Some (Then a x st) ->
     exists i c, calls s !! i = Some c /\ p = S (next c) /\ a = prev c /\ x = next c) ->
  owned (mkState (locks s) h (<[i := setPc c v]> (calls s))).
Proof.
  intros Hi H p a x st Hp. simpl in Hp.
  destruct (H p a x st Hp) as [k [ck [Hk [-> [-> ->]]]]].
  destruct (decide (k = i)) as [-> | Hne].
  - exists i, (setPc c v). simpl. rewrite Hi in Hk. injection Hk as <-.
    split; [|auto]. apply list_lookup_insert_eq. apply lookup_lt_Some in Hi. exact Hi.
  - exists k, ck. simpl. split; [|auto].
    rewrite list_lookup_insert_ne by auto. exact Hk.
Qed.

Lemma owned_retag (s : State) p a x st st' :
  owned s -> heap s !! p = Some (Then a x st) ->
  owned (mkState (locks s) (<[p := Then a x st']> (heap s)) (calls s)).
Proof.
  intros H Hp q a' x' st'' Hq. simpl in *.
  destruct (decide (q = p)) as [-> | Hne].
  - rewrite list_lookup_insert_eq in Hq by (apply lookup_lt_Some in Hp; exact Hp).
    injection Hq as <- <- <-. exact (H p a x st Hp).
  - rewrite list_lookup_insert_ne in Hq by auto. exact (H q a' x' st'' Hq).
Qed.

Lemma owned_step (s s' : State) (e : Event) :
  Inv s -> owned s -> step s e = Some s' -> owned s'.
Proof.
  intros I H Hs. destruct e as [u key | i | i o | p | p].
  - destruct (step_invoke s u key) as [h1 [pv [Hstep Hcase]]].
    rewrite Hstep in Hs. injection Hs as <-.
    assert (Hold : forall q a x st, h1 !! q = Some (Then a x st) ->
                     heap s !! q = Some (Then a x st)).
    { intros q a x st Hq. destruct Hcase as [[_ [-> _]] | [_ ->]]; [|exact Hq].
      apply lookup_app_Some in Hq as [Hq | [_ Hq]]; [exact Hq|].
      destruct (q - length (heap s))%nat as [|[|k]]; simpl in Hq; discriminate. }
    intros q a x st Hq. simpl in Hq.
    apply lookup_app_Some in Hq as [Hq | [Hge Hq]].
    + destruct (H q a x st (Hold q a x st Hq)) as [k [ck [Hk Hrest]]].
      exists k, ck. simpl. split; [|exact Hrest].
      apply lookup_app_l_Some. exact Hk.
    + destruct (q - length h1)%nat as [|[|k]] eqn:Hd; simpl in Hq; try discriminate.
      injection Hq as <- <- <-.
      exists (length (calls s)),
             (mkCall (lockKeyOf u key) pv (length h1) AwaitPrev). simpl.
      split; [|split; [lia | auto]].
      rewrite lookup_app_r by lia. rewrite Nat.sub_diag. reflexivity.
  - apply step_resume in Hs as [c [Hi [_ [_ ->]]]].
    apply owned_setPc; [exact Hi | exact H].
  - apply step_settle in Hs as [c [Hi [_ ->]]]; [|exact I].
    apply owned_setPc; [exact Hi|].
    intros p a x st Hp.
    destruct (decide (p = next c)) as [-> | Hne].
    + apply list_lookup_insert_Some in Hp as [[_ [Hp _]] | [Hp _]]; congruence.
    + rewrite list_lookup_insert_ne in Hp by auto. exact (H p a x st Hp).
  - apply step_runThen in Hs as [a [x [Hp [_ ->]]]].
    exact (owned_retag s p a x _ _ H Hp).
  - apply step_adopt in Hs as [a [x [Hp [_ ->]]]].
    exact (owned_retag s p a x _ _ H Hp).
Qed.

Lemma owned_run (evs : list Event) (s s' : State) :
  Inv s -> owned s -> run evs s = Some s' -> owned s'.
Proof.
  revert s. induction evs as [|e evs IH]; intros s I H Hr; simpl in Hr.
  - injection Hr as <-. exact H.
  - destruct (step s e) as [s1|] eqn:Hs; [|discriminate].
    exact (IH s1 (Inv_step s s1 e I Hs) (owned_step s s1 e I H Hs) Hr).
Qed.

Lemma owned_reachable (s : State) : reachable s -> owned s.
Proof.
  intros [evs Hr]. apply (owned_run evs init s Inv_init); [|exact Hr].
  intros p a x st Hp. discriminate.
Qed.
End QueueInvariant.

Section QueueLiveness.
Import Mutex.

(** What a job is about: two jobs with one key never sit in the queue
    together.  The job of adopting [next] and the reaction of [next] share
    theirs: the second is queued by the first, or by [resolveNext]. *)
Definition jobKey (j : Fifo.Job) : nat * nat :=
  match j with
  | Fifo.ThenReaction p => (0, p)
  | Fifo.AwaitReaction i => (1, i)
  | Fifo.ThenableJob p => (2, p)
  | Fifo.NextReaction p => (2, p)
  | Fifo.FnReaction i _ => (3, i)
  end%nat.

(** The queue holds the jobs that are due, once each, and no other. *)
Record QInv (fs : Fifo.State) : Prop := mkQInv {
  q_base : Inv (Fifo.base fs);
  q_owned : owned (Fifo.base fs);
  q_nodup : NoDup (jobKey <$> Fifo.queue fs);
  q_then : forall p, Fifo.ThenReaction p ∈ Fifo.queue fs ->
    exists a x, heap (Fifo.base fs) !! p = Some (Then a x AwaitingPrev) /\
      isFulfilled (heap (Fifo.base fs)) a = true;
  q_await : forall i, Fifo.AwaitReaction i ∈ Fifo.queue fs ->
    exists c, calls (Fifo.base fs) !! i = Some c /\ pc c = AwaitPrev /\
      isFulfilled (heap (Fifo.base fs)) (prev c) = true;
  q_thenable : forall p, Fifo.ThenableJob p ∈ Fifo.queue fs ->
    exists a x, heap (Fifo.base fs) !! p = Some (Then a x AdoptingNext);
  q_next : forall p, Fifo.NextReaction p ∈ Fifo.queue fs ->
    exists a x, heap (Fifo.base fs) !! p = Some (Then a x AdoptingNext) /\
      isFulfilled (heap (Fifo.base fs)) x = true;
  q_fn : forall i o, Fifo.FnReaction i o ∈ Fifo.queue fs ->
    i ∈ Fifo.settled fs /\
    exists c, calls (Fifo.base fs) !! i = Some c /\ pc c = AwaitFn;
  q_parked : forall p, p ∈ Fifo.parked fs ->
    ((2%nat, p) ∉ jobKey <$> Fifo.queue fs) /\
    exists a x, heap (Fifo.base fs) !! p = Some (Then a x AdoptingNext) /\
      isFulfilled (heap (Fifo.base fs)) x = false;
  q_settled : forall i, i ∈ Fifo.settled fs ->
    exists c, calls (Fifo.base fs) !! i = Some c /\ pc c <> AwaitPrev;
  due_then : forall p a x,
    heap (Fifo.base fs) !! p = Some (Then a x AwaitingPrev) ->
    isFulfilled (heap (Fifo.base fs)) a = true ->
    Fifo.ThenReaction p ∈ Fifo.queue fs;
  due_await : forall i c, calls (Fifo.base fs) !! i = Some c ->
    pc c = AwaitPrev -> isFulfilled (heap (Fifo.base fs)) (prev c) = true ->
    Fifo.AwaitReaction i ∈ Fifo.queue fs;
  due_adopt : forall p a x,
    heap (Fifo.base fs) !! p = Some (Then a x AdoptingNext) ->
    Fifo.ThenableJob p ∈ Fifo.queue fs \/ Fifo.NextReaction p ∈ Fifo.queue fs \/
    p ∈ Fifo.parked fs;
  due_fn : forall i c, calls (Fifo.base fs) !! i = Some c ->
    pc c = AwaitFn -> i ∈ Fifo.settled fs ->
    exists o, Fifo.FnReaction i o ∈ Fifo.queue fs
}.

Lemma key_then (Q : list Fifo.Job) p :
  (0%nat, p) ∈ jobKey <$> Q <-> Fifo.ThenReaction p ∈ Q.
Proof.
  rewrite list_elem_of_fmap. split.
  - intros [j [Hk Hj]]. destruct j; simpl in Hk; inversion Hk; subst; exact Hj.
  - intros H. eexists. split; [|exact H]. reflexivity.
Qed.

Lemma key_await (Q : list Fifo.Job) i :
  (1%nat, i) ∈ jobKey <$> Q <-> Fifo.AwaitReaction i ∈ Q.
Proof.
  rewrite list_elem_of_fmap. split.
  - intros [j [Hk Hj]]. destruct j; simpl in Hk; inversion Hk; subst; exact Hj.
  - intros H. eexists. split; [|exact H]. reflexivity.
Qed.

Lemma key_adopt (Q : list Fifo.Job) p :
  (2%nat, p) ∈ jobKey <$> Q <->
  Fifo.ThenableJob p ∈ Q \/ Fifo.NextReaction p ∈ Q.
Proof.
  rewrite list_elem_of_fmap. split.
  - intros [j [Hk Hj]]. destruct j; simpl in Hk; inversion Hk; subst; auto.
  - intros [H | H]; eexists; (split; [|exact H]); reflexivity.
Qed.

Lemma key_fn (Q : list Fifo.Job) i :
  (3%nat, i) ∈ jobKey <$> Q <-> exists o, Fifo.FnReaction i o ∈ Q.
Proof.
  rewrite list_elem_of_fmap. split.
  - intros [j [Hk Hj]]. destruct j; simpl in Hk; inversion Hk; subst; eauto.
  - intros [o H]. eexists. split; [|exact H]. reflexivity.
Qed.

Lemma QInv_init : QInv Fifo.init.
Proof.
  assert (Hnil : forall (A : Type) (x : A), x ∈ @nil A -> False)
    by (intros A x H; apply elem_of_nil in H; exact H).
  split; simpl.
  - exact Inv_init.
  - intros p a x st H. discriminate.
  - constructor.
  - intros p H. destruct (Hnil _ _ H).
  - intros p H. destruct (Hnil _ _ H).
  - intros p H. destruct (Hnil _ _ H).
  - intros p H. destruct (Hnil _ _ H).
  - intros p o H. destruct (Hnil _ _ H).
  - intros p H. destruct (Hnil _ _ H).
  - intros p H. destruct (Hnil _ _ H).
  - intros p a x H. discriminate.
  - intros i c H. discriminate.
  - intros p a x H. discriminate.
  - intros i c H. discriminate.
Qed.

(** The job at the head of the queue can always run. *)
Lemma head_runs (fs : Fifo.State) :
  QInv fs -> Fifo.queue fs <> [] -> is_Some (Fifo.step fs Fifo.Tick).
Proof.
  intros Q Hne. unfold Fifo.step.
  destruct (Fifo.queue fs) as [|j rest] eqn:HQ; [congruence|].
  assert (Hin : j ∈ Fifo.queue fs) by (rewrite HQ; apply list_elem_of_here).
  destruct j as [p | i | p | p | i o].
  - destruct (q_then fs Q p Hin) as [a [x [Hp Hf]]].
    simpl. rewrite Hp, Hf. eauto.
  - destruct (q_await fs Q i Hin) as [c [Hi [Hpc Hf]]].
    simpl. rewrite Hi, Hpc, Hf. eauto.
  - destruct (q_thenable fs Q p Hin) as [a [x Hp]].
    rewrite Hp. destruct (isFulfilled _ x); eauto.
  - destruct (q_next fs Q p Hin) as [a [x [Hp Hf]]].
    simpl. rewrite Hp, Hf. eauto.
  - destruct (q_fn fs Q i o Hin) as [_ [c [Hi Hpc]]].
    rewrite Hi. simpl. rewrite Hi, Hpc.
    destruct (bool_decide _); eauto.
Qed.

(** A new call can always be made. *)
Lemma submit_runs (fs : Fifo.State) u key :
  is_Some (Fifo.step fs (Fifo.Submit u key)).
Proof.
  unfold Fifo.step.
  destruct (step_invoke (Fifo.base fs) u key) as [h1 [pv [Hs _]]].
  rewrite Hs. cbn [calls].
  rewrite lookup_app_r by lia. rewrite Nat.sub_diag. simpl. eauto.
Qed.

(** With the queue empty, a call that has not finished waits for an
    operation that has not settled: its own, or that of an earlier call
    with its lock key.  Nothing else holds a call back. *)
Lemma idle_waits_for_operation (fs : Fifo.State) :
  QInv fs -> Fifo.queue fs = [] ->
  forall j cj, calls (Fifo.base fs) !! j = Some cj -> finished cj = false ->
  exists i c, (i <= j)%nat /\ calls (Fifo.base fs) !! i = Some c /\
    lockKey c = lockKey cj /\ running c = true /\
    forall o, is_Some (Fifo.step fs (Fifo.OperationSettles i o)).
Proof.
  intros Q HQ j. induction j as [j IH] using lt_wf_ind. intros cj Hj Hfin.
  pose proof (q_base fs Q) as I.
  assert (Hempty : forall x : Fifo.Job, x ∈ Fifo.queue fs -> False).
  { intros x Hx. rewrite HQ in Hx. apply elem_of_nil in Hx. exact Hx. }
  destruct (pc cj) eqn:Hpc.
  - (* waits for [prev] *)
    assert (Hnf : isFulfilled (heap (Fifo.base fs)) (prev cj) = false).
    { destruct (isFulfilled _ (prev cj)) eqn:Hf; [|reflexivity].
      destruct (Hempty _ (due_await fs Q j cj Hj Hpc Hf)). }
    destruct (inv_chain _ I j cj Hj) as [Hr | [i [ci [Hlt [Hi [Hkey [Hprev _]]]]]]].
    { unfold isFulfilled in Hnf. rewrite Hr in Hnf. discriminate. }
    assert (Hfi : finished ci = false).
    { destruct (inv_link _ I i ci Hi) as [st [Hl [Hst _]]].
      destruct st.
      - destruct (isFulfilled (heap (Fifo.base fs)) (prev ci)) eqn:Hf.
        + destruct (Hempty _ (due_then fs Q _ _ _ Hl Hf)).
        + destruct (started ci) eqn:Hs.
          * rewrite (inv_started _ I i ci Hi Hs) in Hf. discriminate.
          * unfold started in Hs. unfold finished.
            destruct (pc ci); [reflexivity | discriminate | discriminate].
      - destruct (due_adopt fs Q _ _ _ Hl) as [H | [H | H]];
          [destruct (Hempty _ H) | destruct (Hempty _ H) |].
        destruct (q_parked fs Q _ H) as [_ [a [x [Hl' Hx]]]].
        rewrite Hl in Hl'. injection Hl' as <- <-.
        rewrite (isFulfilled_deferred _ _ _ (inv_next _ I i ci Hi)) in Hx.
        exact Hx.
      - rewrite Hprev in Hnf. unfold isFulfilled in Hnf. rewrite Hl in Hnf.
        discriminate. }
    destruct (IH i Hlt ci Hi Hfi) as [k [c [Hle [Hk [Hkk [Hrun Hcan]]]]]].
    exists k, c. repeat split; [lia | exact Hk | congruence | exact Hrun | exact Hcan].
  - (* runs its operation *)
    exists j, cj. repeat split; [lia | exact Hj | unfold running; rewrite Hpc; reflexivity |].
    intros o. unfold Fifo.step. rewrite Hj, Hpc.
    destruct (bool_decide (j ∈ Fifo.settled fs)) eqn:Hb; [|eauto].
    apply bool_decide_eq_true in Hb.
    destruct (due_fn fs Q j cj Hj Hpc Hb) as [o' Ho'].
    destruct (Hempty _ Ho').
  - unfold finished in Hfin. rewrite Hpc in Hfin. discriminate.
Qed.
End QueueLiveness.

Section QueuePreserved.
Import Mutex.

Lemma queue_tail (fs : Fifo.State) (j : Fifo.Job) (rest : list Fifo.Job) :
  QInv fs -> Fifo.queue fs = j :: rest ->
  (jobKey j ∉ jobKey <$> rest) /\ NoDup (jobKey <$> rest) /\
  (forall x, x ∈ rest -> x ∈ Fifo.queue fs) /\
  (forall x, x ∈ Fifo.queue fs -> x <> j -> x ∈ rest) /\
  (forall k, k ∈ jobKey <$> rest -> k ∈ jobKey <$> Fifo.queue fs).
Proof.
  intros Q HQ. pose proof (q_nodup fs Q) as ND. rewrite HQ in *.
  rewrite fmap_cons in ND. apply NoDup_cons in ND as [Hh ND].
  split; [exact Hh|]. split; [exact ND|]. split; [|split].
  - intros x Hx. apply list_elem_of_further. exact Hx.
  - intros x Hx Hne. apply elem_of_cons in Hx as [-> | Hx]; [congruence | exact Hx].
  - intros k Hk. rewrite fmap_cons. apply list_elem_of_further. exact Hk.
Qed.

(** The continuation of [await prev] runs. *)
Lemma QInv_await (fs : Fifo.State) i rest b :
  QInv fs -> Fifo.queue fs = Fifo.AwaitReaction i :: rest ->
  step (Fifo.base fs) (Resume i) = Some b ->
  QInv (Fifo.mkState b rest (Fifo.parked fs) (Fifo.settled fs)).
Proof.
  intros Q HQ Hs.
  pose proof (q_base fs Q) as I. pose proof (q_owned fs Q) as O.
  pose proof (Inv_step _ _ _ I Hs) as I'. pose proof (owned_step _ _ _ I O Hs) as O'.
  destruct (queue_tail fs _ rest Q HQ) as [Hh [ND [Hsub [Hrest Hkeys]]]].
  simpl in Hh. rewrite key_await in Hh.
  apply step_resume in Hs as [c [Hi [Hpc [Hf ->]]]].
  assert (Hlt : (i < length (calls (Fifo.base fs)))%nat)
    by (apply lookup_lt_Some in Hi; exact Hi).
  split; cbn [Fifo.base Fifo.queue Fifo.parked Fifo.settled heap calls] in *.
  - exact I'.
  - exact O'.
  - exact ND.
  - intros p H. exact (q_then fs Q p (Hsub _ H)).
  - intros k H. destruct (q_await fs Q k (Hsub _ H)) as [ck [Hk Hrestk]].
    exists ck. split; [|exact Hrestk].
    rewrite list_lookup_insert_ne; [exact Hk|]. intros ->. exact (Hh H).
  - intros p H. exact (q_thenable fs Q p (Hsub _ H)).
  - intros p H. exact (q_next fs Q p (Hsub _ H)).
  - intros k o H. destruct (q_fn fs Q k o (Hsub _ H)) as [HS [ck [Hk Hpk]]].
    split; [exact HS|]. exists ck. split; [|exact Hpk].
    rewrite list_lookup_insert_ne; [exact Hk|]. intros ->. congruence.
  - intros p H. destruct (q_parked fs Q p H) as [Hno Hp].
    split; [|exact Hp]. intros Hk. exact (Hno (Hkeys _ Hk)).
  - intros k H. destruct (q_settled fs Q k H) as [ck [Hk Hpk]].
    destruct (decide (k = i)) as [-> | Hne].
    + exists (setPc c AwaitFn). split; [apply list_lookup_insert_eq; exact Hlt|].
      simpl. discriminate.
    + exists ck. split; [|exact Hpk]. rewrite list_lookup_insert_ne by auto. exact Hk.
  - intros p a x Hp Ha. apply Hrest; [|discriminate]. exact (due_then fs Q p a x Hp Ha).
  - intros k ck Hk Hpk Hfk.
    apply list_lookup_insert_Some in Hk as [[_ [<- _]] | [Hne Hk]]; [discriminate|].
    apply Hrest; [|congruence]. exact (due_await fs Q k ck Hk Hpk Hfk).
  - intros p a x Hp. destruct (due_adopt fs Q p a x Hp) as [H | [H | H]].
    + left. apply Hrest; [exact H | discriminate].
    + right; left. apply Hrest; [exact H | discriminate].
    + right; right. exact H.
  - intros k ck Hk Hpk HS.
    apply list_lookup_insert_Some in Hk as [[<- [<- _]] | [Hne Hk]].
    + destruct (q_settled fs Q i HS) as [c' [Hi' Hpc']]. congruence.
    + destruct (due_fn fs Q k ck Hk Hpk HS) as [o Ho]. exists o.
      apply Hrest; [exact Ho | discriminate].
Qed.

Lemma NoDup_app_one {A : Type} (l : list A) (x : A) :
  NoDup l -> x ∉ l -> NoDup (l ++ [x]).
Proof.
  intros ND Hx. apply NoDup_app. split; [exact ND|]. split; [|apply NoDup_singleton].
  intros y Hy Hin. apply list_elem_of_singleton in Hin. subst. exact (Hx Hy).
Qed.

Lemma elem_of_snoc {A : Type} (l : list A) (x y : A) :
  y ∈ l ++ [x] <-> y ∈ l \/ y = x.
Proof. rewrite elem_of_app, list_elem_of_singleton. reflexivity. Qed.

(** The callback of [then] runs and returns [next]. *)
Lemma QInv_then (fs : Fifo.State) p0 rest b :
  QInv fs -> Fifo.queue fs = Fifo.ThenReaction p0 :: rest ->
  step (Fifo.base fs) (RunThen p0) = Some b ->
  QInv (Fifo.mkState b (rest ++ [Fifo.ThenableJob p0]) (Fifo.parked fs) (Fifo.settled fs)).
Proof.
  intros Q HQ Hs.
  pose proof (q_base fs Q) as I. pose proof (q_owned fs Q) as O.
  pose proof (Inv_step _ _ _ I Hs) as I'. pose proof (owned_step _ _ _ I O Hs) as O'.
  destruct (queue_tail fs _ rest Q HQ) as [Hh [ND [Hsub [Hrest Hkeys]]]].
  simpl in Hh. rewrite key_then in Hh.
  apply step_runThen in Hs as [a0 [x0 [Hp0 [Hf0 ->]]]].
  assert (Hlt : (p0 < length (heap (Fifo.base fs)))%nat)
    by (apply lookup_lt_Some in Hp0; exact Hp0).
  set (h' := <[p0 := Then a0 x0 AdoptingNext]> (heap (Fifo.base fs))) in *.
  assert (H1 : forall p, p <> p0 -> h' !! p = heap (Fifo.base fs) !! p)
    by (intros p Hne; unfold h'; apply list_lookup_insert_ne; auto).
  assert (H2 : h' !! p0 = Some (Then a0 x0 AdoptingNext))
    by (unfold h'; apply list_lookup_insert_eq; exact Hlt).
  assert (H3 : forall q, isFulfilled h' q = isFulfilled (heap (Fifo.base fs)) q).
  { intros q. destruct (decide (q = p0)) as [-> | Hne].
    - unfold isFulfilled. rewrite H2, Hp0. reflexivity.
    - unfold isFulfilled. rewrite (H1 q Hne). reflexivity. }
  assert (Hnew : (2%nat, p0) ∉ jobKey <$> rest).
  { rewrite key_adopt. intros [H | H].
    - destruct (q_thenable fs Q p0 (Hsub _ H)) as [a [x Hp]]. congruence.
    - destruct (q_next fs Q p0 (Hsub _ H)) as [a [x [Hp _]]]. congruence. }
  split; cbn [Fifo.base Fifo.queue Fifo.parked Fifo.settled heap calls] in *.
  - exact I'.
  - exact O'.
  - rewrite fmap_app. apply NoDup_app_one; [exact ND | exact Hnew].
  - intros p H. apply elem_of_snoc in H as [H | H]; [|discriminate].
    destruct (q_then fs Q p (Hsub _ H)) as [a [x [Hp Hf]]].
    exists a, x. rewrite H3. split; [|exact Hf].
    rewrite H1; [exact Hp|]. intros ->. exact (Hh H).
  - intros k H. apply elem_of_snoc in H as [H | H]; [|discriminate].
    destruct (q_await fs Q k (Hsub _ H)) as [ck [Hk [Hpk Hfk]]].
    exists ck. rewrite H3. auto.
  - intros p H. apply elem_of_snoc in H as [H | H].
    + destruct (q_thenable fs Q p (Hsub _ H)) as [a [x Hp]].
      exists a, x. rewrite H1; [exact Hp|]. intros ->. congruence.
    + injection H as ->. eauto.
  - intros p H. apply elem_of_snoc in H as [H | H]; [|discriminate].
    destruct (q_next fs Q p (Hsub _ H)) as [a [x [Hp Hf]]].
    exists a, x. rewrite H3. split; [|exact Hf].
    rewrite H1; [exact Hp|]. intros ->. congruence.
  - intros k o H. apply elem_of_snoc in H as [H | H]; [|discriminate].
    exact (q_fn fs Q k o (Hsub _ H)).
  - intros p H. destruct (q_parked fs Q p H) as [Hno [a [x [Hp Hf]]]].
    assert (Hne : p <> p0) by (intros ->; congruence).
    split.
    + rewrite fmap_app. intros Hk. apply elem_of_snoc in Hk as [Hk | Hk].
      * exact (Hno (Hkeys _ Hk)).
      * simpl in Hk. congruence.
    + exists a, x. rewrite H3, (H1 p Hne). auto.
  - exact (q_settled fs Q).
  - intros p a x Hp Ha. rewrite H3 in Ha.
    assert (Hne : p <> p0) by (intros ->; congruence).
    rewrite (H1 p Hne) in Hp. apply elem_of_snoc. left.
    apply Hrest; [exact (due_then fs Q p a x Hp Ha) | congruence].
  - intros k ck Hk Hpk Hfk. rewrite H3 in Hfk. apply elem_of_snoc. left.
    apply Hrest; [exact (due_await fs Q k ck Hk Hpk Hfk) | discriminate].
  - intros p a x Hp. destruct (decide (p = p0)) as [-> | Hne].
    + left. apply elem_of_snoc. right. reflexivity.
    + rewrite (H1 p Hne) in Hp.
      destruct (due_adopt fs Q p a x Hp) as [H | [H | H]].
      * left. apply elem_of_snoc. left. apply Hrest; [exact H | discriminate].
      * right; left. apply elem_of_snoc. left. apply Hrest; [exact H | discriminate].
      * right; right. exact H.
  - intros k ck Hk Hpk HS. destruct (due_fn fs Q k ck Hk Hpk HS) as [o Ho].
    exists o. apply elem_of_snoc. left. apply Hrest; [exact Ho | discriminate].
Qed.

(** The job that adopts [next] runs: [next.then] is called, and its
    reaction is queued at once when [next] is fulfilled already. *)
Lemma QInv_thenable_ready (fs : Fifo.State) p0 rest a0 x0 :
  QInv fs -> Fifo.queue fs = Fifo.ThenableJob p0 :: rest ->
  heap (Fifo.base fs) !! p0 = Some (Then a0 x0 AdoptingNext) ->
  isFulfilled (heap (Fifo.base fs)) x0 = true ->
  QInv (Fifo.mkState (Fifo.base fs) (rest ++ [Fifo.NextReaction p0])
                     (Fifo.parked fs) (Fifo.settled fs)).
Proof.
  intros Q HQ Hp0 Hf0.
  destruct (queue_tail fs _ rest Q HQ) as [Hh [ND [Hsub [Hrest Hkeys]]]].
  simpl in Hh.
  split; cbn [Fifo.base Fifo.queue Fifo.parked Fifo.settled] in *.
  - exact (q_base fs Q).
  - exact (q_owned fs Q).
  - rewrite fmap_app. apply NoDup_app_one; [exact ND | exact Hh].
  - intros p H. apply elem_of_snoc in H as [H | H]; [|discriminate].
    exact (q_then fs Q p (Hsub _ H)).
  - intros k H. apply elem_of_snoc in H as [H | H]; [|discriminate].
    exact (q_await fs Q k (Hsub _ H)).
  - intros p H. apply elem_of_snoc in H as [H | H]; [|discriminate].
    exact (q_thenable fs Q p (Hsub _ H)).
  - intros p H. apply elem_of_snoc in H as [H | H].
    + exact (q_next fs Q p (Hsub _ H)).
    + injection H as ->. eauto.
  - intros k o H. apply elem_of_snoc in H as [H | H]; [|discriminate].
    exact (q_fn fs Q k o (Hsub _ H)).
  - intros p H. destruct (q_parked fs Q p H) as [Hno Hp].
    split; [|exact Hp].
    rewrite fmap_app. intros Hk. apply elem_of_snoc in Hk as [Hk | Hk].
    + exact (Hno (Hkeys _ Hk)).
    + simpl in Hk. injection Hk as ->. apply Hno. rewrite HQ, fmap_cons.
      apply list_elem_of_here.
  - exact (q_settled fs Q).
  - intros p a x Hp Ha. apply elem_of_snoc. left.
    apply Hrest; [exact (due_then fs Q p a x Hp Ha) | discriminate].
  - intros k ck Hk Hpk Hfk. apply elem_of_snoc. left.
    apply Hrest; [exact (due_await fs Q k ck Hk Hpk Hfk) | discriminate].
  - intros p a x Hp. destruct (decide (p = p0)) as [-> | Hne].
    + right; left. apply elem_of_snoc. right. reflexivity.
    + destruct (due_adopt fs Q p a x Hp) as [H | [H | H]].
      * left. apply elem_of_snoc. left. apply Hrest; [exact H | congruence].
      * right; left. apply elem_of_snoc. left. apply Hrest; [exact H | discriminate].
      * right; right. exact H.
  - intros k ck Hk Hpk HS. destruct (due_fn fs Q k ck Hk Hpk HS) as [o Ho].
    exists o. apply elem_of_snoc. left. apply Hrest; [exact Ho | discriminate].
Qed.

(** ... and the promise is parked on [next] when [next] is pending. *)
Lemma QInv_thenable_parked (fs : Fifo.State) p0 rest a0 x0 :
  QInv fs -> Fifo.queue fs = Fifo.ThenableJob p0 :: rest ->
  heap (Fifo.base fs) !! p0 = Some (Then a0 x0 AdoptingNext) ->
  isFulfilled (heap (Fifo.base fs)) x0 = false ->
  QInv (Fifo.mkState (Fifo.base fs) rest (Fifo.parked fs ++ [p0]) (Fifo.settled fs)).
Proof.
  intros Q HQ Hp0 Hf0.
  destruct (queue_tail fs _ rest Q HQ) as [Hh [ND [Hsub [Hrest Hkeys]]]].
  simpl in Hh.
  split; cbn [Fifo.base Fifo.queue Fifo.parked Fifo.settled] in *.
  - exact (q_base fs Q).
  - exact (q_owned fs Q).
  - exact ND.
  - intros p H. exact (q_then fs Q p (Hsub _ H)).
  - intros k H. exact (q_await fs Q k (Hsub _ H)).
  - intros p H. exact (q_thenable fs Q p (Hsub _ H)).
  - intros p H. exact (q_next fs Q p (Hsub _ H)).
  - intros k o H. exact (q_fn fs Q k o (Hsub _ H)).
  - intros p H. apply elem_of_snoc in H as [H | ->].
    + destruct (q_parked fs Q p H) as [Hno Hp].
      split; [|exact Hp]. intros Hk. exact (Hno (Hkeys _ Hk)).
    + split; [exact Hh | eauto].
  - exact (q_settled fs Q).
  - intros p a x Hp Ha.
    apply Hrest; [exact (due_then fs Q p a x Hp Ha) | discriminate].
  - intros k ck Hk Hpk Hfk.
    apply Hrest; [exact (due_await fs Q k ck Hk Hpk Hfk) | discriminate].
  - intros p a x Hp. destruct (decide (p = p0)) as [-> | Hne].
    + right; right. apply elem_of_snoc. right. reflexivity.
    + destruct (due_adopt fs Q p a x Hp) as [H | [H | H]].
      * left. apply Hrest; [exact H | congruence].
      * right; left. apply Hrest; [exact H | discriminate].
      * right; right. apply elem_of_snoc. left. exact H.
  - intros k ck Hk Hpk HS. destruct (due_fn fs Q k ck Hk Hpk HS) as [o Ho].
    exists o. apply Hrest; [exact Ho | discriminate].
Qed.

Lemma waiting_in p k (cs : list Call) (j : Fifo.Job) :
  j ∈ Fifo.waiting p k cs <->
  exists i c, cs !! i = Some c /\ prev c = p /\
    (j = Fifo.ThenReaction (S (next c)) \/ j = Fifo.AwaitReaction (k + i)).
Proof.
  revert k. induction cs as [|c cs IH]; intros k; simpl.
  - rewrite elem_of_nil. split; [tauto|]. intros [i [c [H _]]]. discriminate.
  - rewrite elem_of_app, IH. split.
    + intros [H | [i [c' [Hi [Hp Hj]]]]].
      * destruct (Nat.eqb_spec (prev c) p) as [Heq | Hne].
        -- exists 0%nat, c. replace (k + 0)%nat with k by lia.
           split; [reflexivity|]. split; [exact Heq|].
           unfold Fifo.reactions in H.
           rewrite !elem_of_cons, elem_of_nil in H. tauto.
        -- apply elem_of_nil in H. destruct H.
      * exists (S i), c'. replace (k + S i)%nat with (S k + i)%nat by lia. auto.
    + intros [[|i] [c' [Hi [Hp Hj]]]]; simpl in Hi.
      * injection Hi as <-. left. rewrite <- Hp, Nat.eqb_refl.
        unfold Fifo.reactions. rewrite !elem_of_cons.
        replace (k + 0)%nat with k in Hj by lia. tauto.
      * right. exists i, c'. replace (S k + i)%nat with (k + S i)%nat by lia. auto.
Qed.

Lemma waiting_nodup p k (cs : list Call) :
  (forall i j ci cj, cs !! i = Some ci -> cs !! j = Some cj ->
                     next ci = next cj -> i = j) ->
  NoDup (jobKey <$> Fifo.waiting p k cs).
Proof.
  revert k. induction cs as [|c cs IH]; intros k Hinj; simpl; [constructor|].
  assert (Htail : NoDup (jobKey <$> Fifo.waiting p (S k) cs)).
  { apply IH. intros i j ci cj Hi Hj Heq.
    assert (S i = S j) by (apply (Hinj (S i) (S j) ci cj); auto). lia. }
  destruct (Nat.eqb (prev c) p); [|exact Htail].
  simpl. apply NoDup_cons. split; [|apply NoDup_cons; split; [|exact Htail]].
  - rewrite elem_of_cons. intros [H | H]; [discriminate|].
    apply key_then, waiting_in in H as [i [c' [Hi [_ [H | H]]]]]; [|discriminate].
    injection H as Heq.
    assert (0 = S i)%nat by (apply (Hinj 0 (S i) c c')%nat; auto). lia.
  - intros H. apply key_await, waiting_in in H as [i [c' [Hi [_ [H | H]]]]];
      [discriminate|]. injection H as Heq. lia.
Qed.

(** The reaction of [next] runs: the promise is fulfilled, and the two
    reactions of the call that waits for it are queued. *)
Lemma QInv_next (fs : Fifo.State) p0 rest b :
  QInv fs -> Fifo.queue fs = Fifo.NextReaction p0 :: rest ->
  step (Fifo.base fs) (Adopt p0) = Some b ->
  QInv (Fifo.mkState b (rest ++ Fifo.waiting p0 0 (calls b))
                     (Fifo.parked fs) (Fifo.settled fs)).
Proof.
  intros Q HQ Hs.
  pose proof (q_base fs Q) as I. pose proof (q_owned fs Q) as O.
  pose proof (Inv_step _ _ _ I Hs) as I'. pose proof (owned_step _ _ _ I O Hs) as O'.
  destruct (queue_tail fs _ rest Q HQ) as [Hh [ND [Hsub [Hrest Hkeys]]]].
  simpl in Hh. rewrite key_adopt in Hh.
  apply step_adopt in Hs as [a0 [x0 [Hp0 [Hf0 ->]]]].
  assert (Hlt : (p0 < length (heap (Fifo.base fs)))%nat)
    by (apply lookup_lt_Some in Hp0; exact Hp0).
  set (h' := <[p0 := Then a0 x0 Settled]> (heap (Fifo.base fs))) in *.
  assert (H1 : forall p, p <> p0 -> h' !! p = heap (Fifo.base fs) !! p)
    by (intros p Hne; unfold h'; apply list_lookup_insert_ne; auto).
  assert (H2 : h' !! p0 = Some (Then a0 x0 Settled))
    by (unfold h'; apply list_lookup_insert_eq; exact Hlt).
  assert (H3 : forall q, q <> p0 -> isFulfilled h' q = isFulfilled (heap (Fifo.base fs)) q)
    by (intros q Hne; unfold isFulfilled; rewrite (H1 q Hne); reflexivity).
  assert (H4 : isFulfilled h' p0 = true) by (unfold isFulfilled; rewrite H2; reflexivity).
  assert (H5 : isFulfilled (heap (Fifo.base fs)) p0 = false)
    by (unfold isFulfilled; rewrite Hp0; reflexivity).
  assert (Hmono : forall q, isFulfilled (heap (Fifo.base fs)) q = true ->
                            isFulfilled h' q = true).
  { intros q Hq. destruct (decide (q = p0)) as [-> | Hne]; [exact H4|].
    rewrite (H3 q Hne). exact Hq. }
  cbn [calls].
  assert (W : forall j, j ∈ Fifo.waiting p0 0 (calls (Fifo.base fs)) <->
            exists i c, calls (Fifo.base fs) !! i = Some c /\ prev c = p0 /\
              (j = Fifo.ThenReaction (S (next c)) \/ j = Fifo.AwaitReaction i))
    by (intros j; apply waiting_in).
  assert (Wa : forall i c, calls (Fifo.base fs) !! i = Some c -> prev c = p0 ->
            pc c = AwaitPrev).
  { intros i c Hi Hp. destruct (started c) eqn:Hst.
    - pose proof (inv_started _ I i c Hi Hst) as Hf. rewrite Hp in Hf. congruence.
    - unfold started in Hst. destruct (pc c); [reflexivity | discriminate | discriminate]. }
  assert (Wb : forall i c, calls (Fifo.base fs) !! i = Some c -> prev c = p0 ->
            heap (Fifo.base fs) !! S (next c) = Some (Then p0 (next c) AwaitingPrev)).
  { intros i c Hi Hp. destruct (inv_link _ I i c Hi) as [st [Hl [Hst _]]].
    rewrite Hp in Hl, Hst. destruct st; [exact Hl | |];
      (assert (Hf : isFulfilled (heap (Fifo.base fs)) p0 = true)
         by (apply Hst; discriminate)); congruence. }
  split; cbn [Fifo.base Fifo.queue Fifo.parked Fifo.settled heap calls] in *.
  - exact I'.
  - exact O'.
  - rewrite fmap_app. apply NoDup_app. split; [exact ND|].
    split; [|apply waiting_nodup; exact (inv_inj _ I)].
    intros k Hk Hw. apply list_elem_of_fmap in Hw as [j [-> Hj]].
    apply W in Hj as [i [c [Hi [Hp [-> | ->]]]]]; simpl in Hk.
    + apply key_then in Hk.
      destruct (q_then fs Q _ (Hsub _ Hk)) as [a [x [Hl Hf]]].
      rewrite (Wb i c Hi Hp) in Hl. injection Hl as <- <-. congruence.
    + apply key_await in Hk.
      destruct (q_await fs Q _ (Hsub _ Hk)) as [c' [Hi' [_ Hf]]].
      rewrite Hi in Hi'. injection Hi' as <-. rewrite Hp in Hf. congruence.
  - intros p H. apply elem_of_app in H as [H | H].
    + destruct (q_then fs Q p (Hsub _ H)) as [a [x [Hp Hf]]].
      exists a, x. split; [|exact (Hmono a Hf)].
      rewrite H1; [exact Hp|]. intros ->. congruence.
    + apply W in H as [i [c [Hi [Hp [H | H]]]]]; [|discriminate].
      injection H as ->. exists p0, (next c). split; [|exact H4].
      rewrite H1; [exact (Wb i c Hi Hp)|]. intros Heq.
      pose proof (Wb i c Hi Hp) as Hl. rewrite Heq in Hl. congruence.
  - intros k H. apply elem_of_app in H as [H | H].
    + destruct (q_await fs Q k (Hsub _ H)) as [ck [Hk [Hpk Hfk]]].
      exists ck. auto.
    + apply W in H as [i [c [Hi [Hp [H | H]]]]]; [discriminate|].
      injection H as ->. exists c. split; [exact Hi|].
      split; [exact (Wa i c Hi Hp) | rewrite Hp; exact H4].
  - intros p H. apply elem_of_app in H as [H | H].
    + destruct (q_thenable fs Q p (Hsub _ H)) as [a [x Hp]].
      exists a, x. rewrite H1; [exact Hp|]. intros ->. apply Hh. auto.
    + apply W in H as [i [c [_ [_ [H | H]]]]]; discriminate.
  - intros p H. apply elem_of_app in H as [H | H].
    + destruct (q_next fs Q p (Hsub _ H)) as [a [x [Hp Hf]]].
      exists a, x. split; [|exact (Hmono x Hf)].
      rewrite H1; [exact Hp|]. intros ->. apply Hh. auto.
    + apply W in H as [i [c [_ [_ [H | H]]]]]; discriminate.
  - intros k o H. apply elem_of_app in H as [H | H].
    + exact (q_fn fs Q k o (Hsub _ H)).
    + apply W in H as [i [c [_ [_ [H | H]]]]]; discriminate.
  - intros p H. destruct (q_parked fs Q p H) as [Hno [a [x [Hp Hf]]]].
    assert (Hne : p <> p0).
    { intros ->. apply Hno. rewrite HQ, fmap_cons. apply list_elem_of_here. }
    split.
    + rewrite fmap_app. intros Hk. apply elem_of_app in Hk as [Hk | Hk].
      * exact (Hno (Hkeys _ Hk)).
      * apply key_adopt in Hk as [Hk | Hk];
          apply W in Hk as [i [c [_ [_ [Hk | Hk]]]]]; discriminate.
    + exists a, x. rewrite (H1 p Hne). split; [exact Hp|].
      rewrite H3; [exact Hf|]. intros ->.
      destruct (O p a p0 _ Hp) as [i [c [Hi [_ [_ Hx]]]]].
      pose proof (inv_next _ I i c Hi) as Hn. congruence.
  - exact (q_settled fs Q).
  - intros p a x Hp Ha.
    assert (Hne : p <> p0) by (intros ->; congruence).
    rewrite (H1 p Hne) in Hp. apply elem_of_app.
    destruct (decide (a = p0)) as [-> | Hna].
    + right. destruct (O p p0 x _ Hp) as [i [c [Hi [-> [Hpc _]]]]].
      apply W. exists i, c. auto.
    + left. rewrite (H3 a Hna) in Ha.
      apply Hrest; [exact (due_then fs Q p a x Hp Ha) | discriminate].
  - intros k ck Hk Hpk Hfk. apply elem_of_app.
    destruct (decide (prev ck = p0)) as [Heq | Hna].
    + right. apply W. exists k, ck. auto.
    + left. rewrite (H3 _ Hna) in Hfk.
      apply Hrest; [exact (due_await fs Q k ck Hk Hpk Hfk) | discriminate].
  - intros p a x Hp.
    assert (Hne : p <> p0) by (intros ->; congruence).
    rewrite (H1 p Hne) in Hp.
    destruct (due_adopt fs Q p a x Hp) as [H | [H | H]].
    + left. apply elem_of_app. left. apply Hrest; [exact H | discriminate].
    + right; left. apply elem_of_app. left. apply Hrest; [exact H | congruence].
    + right; right. exact H.
  - intros k ck Hk Hpk HS. destruct (due_fn fs Q k ck Hk Hpk HS) as [o Ho].
    exists o. apply elem_of_app. left. apply Hrest; [exact Ho | discriminate].
Qed.

(** The reaction queued by [resolveNext] for the promise parked on
    [next], if there is one. *)
Definition woken (parked : list pid) (p : pid) : list Fifo.Job :=
  if bool_decide (p ∈ parked) then [Fifo.NextReaction p] else [].

Definition unpark (parked : list pid) (p : pid) : list pid :=
  List.filter (fun q => negb (Nat.eqb q p)) parked.

Lemma woken_in (parked : list pid) (p : pid) (j : Fifo.Job) :
  j ∈ woken parked p <-> j = Fifo.NextReaction p /\ p ∈ parked.
Proof.
  unfold woken. destruct (bool_decide (p ∈ parked)) eqn:Hb.
  - apply bool_decide_eq_true in Hb. rewrite list_elem_of_singleton. tauto.
  - apply bool_decide_eq_false in Hb. rewrite elem_of_nil. tauto.
Qed.

Lemma unpark_in (parked : list pid) (p q : pid) :
  q ∈ unpark parked p <-> q ∈ parked /\ q <> p.
Proof.
  unfold unpark. rewrite !list_elem_of_In, filter_In.
  destruct (Nat.eqb_spec q p); simpl; intuition congruence.
Qed.

Lemma unpark_absent (parked : list pid) (p : pid) :
  p ∉ parked -> unpark parked p = parked.
Proof.
  unfold unpark. induction parked as [|q l IH]; intros Hp; simpl; [reflexivity|].
  apply not_elem_of_cons in Hp as [Hne Hp].
  destruct (Nat.eqb_spec q p) as [-> | _]; [congruence|].
  simpl. rewrite (IH Hp). reflexivity.
Qed.

(** The continuation of [await fn()] runs: [resolveNext], the [finally]
    block, and the call returns or throws. *)
Lemma QInv_fn (fs : Fifo.State) i0 o c0 rest b :
  QInv fs -> Fifo.queue fs = Fifo.FnReaction i0 o :: rest ->
  calls (Fifo.base fs) !! i0 = Some c0 ->
  step (Fifo.base fs) (Settle i0 o) = Some b ->
  QInv (Fifo.mkState b (rest ++ woken (Fifo.parked fs) (S (next c0)))
                     (unpark (Fifo.parked fs) (S (next c0))) (Fifo.settled fs)).
Proof.
  intros Q HQ Hi0 Hs.
  pose proof (q_base fs Q) as I. pose proof (q_owned fs Q) as O.
  pose proof (Inv_step _ _ _ I Hs) as I'. pose proof (owned_step _ _ _ I O Hs) as O'.
  destruct (queue_tail fs _ rest Q HQ) as [Hh [ND [Hsub [Hrest Hkeys]]]].
  simpl in Hh. rewrite key_fn in Hh.
  apply step_settle in Hs as [c [Hi [Hpc0 ->]]]; [|exact I].
  rewrite Hi0 in Hi. injection Hi as <-.
  set (n0 := next c0) in *.
  pose proof (inv_next _ I i0 c0 Hi0) as Hn0. fold n0 in Hn0.
  assert (Hlt : (n0 < length (heap (Fifo.base fs)))%nat)
    by (apply lookup_lt_Some in Hn0; exact Hn0).
  assert (Hlti : (i0 < length (calls (Fifo.base fs)))%nat)
    by (apply lookup_lt_Some in Hi0; exact Hi0).
  set (h' := <[n0 := Deferred true]> (heap (Fifo.base fs))) in *.
  set (cs' := <[i0 := setPc c0 (Finished o)]> (calls (Fifo.base fs))) in *.
  assert (H1 : forall p, p <> n0 -> h' !! p = heap (Fifo.base fs) !! p)
    by (intros p Hne; unfold h'; apply list_lookup_insert_ne; auto).
  assert (H2 : h' !! n0 = Some (Deferred true))
    by (unfold h'; apply list_lookup_insert_eq; exact Hlt).
  assert (H3 : forall q, q <> n0 -> isFulfilled h' q = isFulfilled (heap (Fifo.base fs)) q)
    by (intros q Hne; unfold isFulfilled; rewrite (H1 q Hne); reflexivity).
  assert (H4 : isFulfilled h' n0 = true) by (unfold isFulfilled; rewrite H2; reflexivity).
  assert (Hmono : forall q, isFulfilled (heap (Fifo.base fs)) q = true ->
                            isFulfilled h' q = true).
  { intros q Hq. destruct (decide (q = n0)) as [-> | Hne]; [exact H4|].
    rewrite (H3 q Hne). exact Hq. }
  assert (Hthen : forall p a x st,
            h' !! p = Some (Then a x st) <-> heap (Fifo.base fs) !! p = Some (Then a x st)).
  { intros p a x st. destruct (decide (p = n0)) as [-> | Hne].
    - rewrite H2, Hn0. split; discriminate.
    - rewrite (H1 p Hne). reflexivity. }
  assert (C1 : forall k, k <> i0 -> cs' !! k = calls (Fifo.base fs) !! k)
    by (intros k Hne; unfold cs'; apply list_lookup_insert_ne; auto).
  assert (C2 : cs' !! i0 = Some (setPc c0 (Finished o)))
    by (unfold cs'; apply list_lookup_insert_eq; exact Hlti).
  assert (Hprev : forall k ck, calls (Fifo.base fs) !! k = Some ck -> prev ck <> n0).
  { intros k ck Hk Heq.
    apply (prev_not_deferred _ k ck (finished c0) I Hk). rewrite Heq. exact Hn0. }
  assert (Hmem : forall j,
            j ∈ rest ++ woken (Fifo.parked fs) (S n0) <->
            j ∈ rest \/ (j = Fifo.NextReaction (S n0) /\ S n0 ∈ Fifo.parked fs))
    by (intros j; rewrite elem_of_app, woken_in; reflexivity).
  split; cbn [Fifo.base Fifo.queue Fifo.parked Fifo.settled heap calls] in *.
  - exact I'.
  - exact O'.
  - rewrite fmap_app. unfold woken.
    destruct (bool_decide (S n0 ∈ Fifo.parked fs)) eqn:Hb.
    + apply bool_decide_eq_true in Hb. apply NoDup_app_one; [exact ND|].
      destruct (q_parked fs Q _ Hb) as [Hno _].
      intros Hk. exact (Hno (Hkeys _ Hk)).
    + simpl. rewrite app_nil_r. exact ND.
  - intros p H. apply Hmem in H as [H | [H _]]; [|discriminate].
    destruct (q_then fs Q p (Hsub _ H)) as [a [x [Hp Hf]]].
    exists a, x. split; [apply Hthen; exact Hp | exact (Hmono a Hf)].
  - intros k H. apply Hmem in H as [H | [H _]]; [|discriminate].
    destruct (q_await fs Q k (Hsub _ H)) as [ck [Hk [Hpk Hfk]]].
    exists ck. split; [|split; [exact Hpk | exact (Hmono _ Hfk)]].
    rewrite C1; [exact Hk|]. intros ->. congruence.
  - intros p H. apply Hmem in H as [H | [H _]]; [|discriminate].
    destruct (q_thenable fs Q p (Hsub _ H)) as [a [x Hp]].
    exists a, x. apply Hthen. exact Hp.
  - intros p H. apply Hmem in H as [H | [H Hpark]].
    + destruct (q_next fs Q p (Hsub _ H)) as [a [x [Hp Hf]]].
      exists a, x. split; [apply Hthen; exact Hp | exact (Hmono x Hf)].
    + injection H as ->.
      destruct (q_parked fs Q _ Hpark) as [_ [a [x [Hp _]]]].
      destruct (inv_link _ I i0 c0 Hi0) as [st [Hl _]]. fold n0 in Hl.
      rewrite Hl in Hp. injection Hp as <- <- ->.
      exists (prev c0), n0. split; [apply Hthen; exact Hl | exact H4].
  - intros k o' H. apply Hmem in H as [H | [H _]]; [|discriminate].
    destruct (q_fn fs Q k o' (Hsub _ H)) as [HS [ck [Hk Hpk]]].
    split; [exact HS|]. exists ck. split; [|exact Hpk].
    rewrite C1; [exact Hk|]. intros ->. apply Hh. eauto.
  - intros p H. apply unpark_in in H as [H Hne].
    destruct (q_parked fs Q p H) as [Hno [a [x [Hp Hf]]]].
    split.
    + rewrite fmap_app. intros Hk. apply elem_of_app in Hk as [Hk | Hk].
      * exact (Hno (Hkeys _ Hk)).
      * apply key_adopt in Hk as [Hk | Hk]; apply woken_in in Hk as [Hk _];
          [discriminate | congruence].
    + exists a, x. split; [apply Hthen; exact Hp|].
      rewrite H3; [exact Hf|]. intros ->.
      destruct (O p a n0 _ Hp) as [k [ck [Hk [Hpk [_ Hx]]]]].
      apply Hne. rewrite Hpk, <- Hx. reflexivity.
  - intros k H. destruct (q_settled fs Q k H) as [ck [Hk Hpk]].
    destruct (decide (k = i0)) as [-> | Hne].
    + exists (setPc c0 (Finished o)). split; [exact C2 | simpl; discriminate].
    + exists ck. rewrite (C1 k Hne). auto.
  - intros p a x Hp Ha. apply Hthen in Hp.
    destruct (O p a x _ Hp) as [k [ck [Hk [_ [Hpa _]]]]].
    rewrite H3 in Ha by (rewrite Hpa; exact (Hprev k ck Hk)).
    apply Hmem. left.
    apply Hrest; [exact (due_then fs Q p a x Hp Ha) | discriminate].
  - intros k ck Hk Hpk Hfk.
    assert (Hne : k <> i0).
    { intros ->. rewrite C2 in Hk. injection Hk as <-. discriminate. }
    rewrite (C1 k Hne) in Hk. rewrite H3 in Hfk by exact (Hprev k ck Hk).
    apply Hmem. left.
    apply Hrest; [exact (due_await fs Q k ck Hk Hpk Hfk) | discriminate].
  - intros p a x Hp. apply Hthen in Hp.
    destruct (due_adopt fs Q p a x Hp) as [H | [H | H]].
    + left. apply Hmem. left. apply Hrest; [exact H | discriminate].
    + right; left. apply Hmem. left. apply Hrest; [exact H | discriminate].
    + destruct (decide (p = S n0)) as [-> | Hne].
      * right; left. apply Hmem. right. auto.
      * right; right. apply unpark_in. auto.
  - intros k ck Hk Hpk HS.
    assert (Hne : k <> i0).
    { intros ->. rewrite C2 in Hk. injection Hk as <-. discriminate. }
    rewrite (C1 k Hne) in Hk.
    destruct (due_fn fs Q k ck Hk Hpk HS) as [o' Ho]. exists o'.
    apply Hmem. left. apply Hrest; [exact Ho | congruence].
Qed.

(** The promise [fn()] returned settles. *)
Lemma QInv_settles (fs : Fifo.State) i0 o c0 :
  QInv fs -> calls (Fifo.base fs) !! i0 = Some c0 -> pc c0 = AwaitFn ->
  i0 ∉ Fifo.settled fs ->
  QInv (Fifo.mkState (Fifo.base fs) (Fifo.queue fs ++ [Fifo.FnReaction i0 o])
                     (Fifo.parked fs) (Fifo.settled fs ++ [i0])).
Proof.
  intros Q Hi0 Hpc0 Hno.
  split; cbn [Fifo.base Fifo.queue Fifo.parked Fifo.settled] in *.
  - exact (q_base fs Q).
  - exact (q_owned fs Q).
  - rewrite fmap_app. apply NoDup_app_one; [exact (q_nodup fs Q)|].
    simpl. rewrite key_fn. intros [o' H].
    destruct (q_fn fs Q i0 o' H) as [HS _]. exact (Hno HS).
  - intros p H. apply elem_of_snoc in H as [H | H]; [|discriminate].
    exact (q_then fs Q p H).
  - intros k H. apply elem_of_snoc in H as [H | H]; [|discriminate].
    exact (q_await fs Q k H).
  - intros p H. apply elem_of_snoc in H as [H | H]; [|discriminate].
    exact (q_thenable fs Q p H).
  - intros p H. apply elem_of_snoc in H as [H | H]; [|discriminate].
    exact (q_next fs Q p H).
  - intros k o' H. apply elem_of_snoc in H as [H | H].
    + destruct (q_fn fs Q k o' H) as [HS Hc]. split; [|exact Hc].
      apply elem_of_snoc. auto.
    + injection H as -> ->. split; [apply elem_of_snoc; auto | eauto].
  - intros p H. destruct (q_parked fs Q p H) as [Hk Hp]. split; [|exact Hp].
    rewrite fmap_app. intros Hin. apply elem_of_snoc in Hin as [Hin | Hin];
      [exact (Hk Hin) | discriminate].
  - intros k H. apply elem_of_snoc in H as [H | ->].
    + exact (q_settled fs Q k H).
    + exists c0. split; [exact Hi0 | congruence].
  - intros p a x Hp Ha. apply elem_of_snoc. left. exact (due_then fs Q p a x Hp Ha).
  - intros k ck Hk Hpk Hfk. apply elem_of_snoc. left.
    exact (due_await fs Q k ck Hk Hpk Hfk).
  - intros p a x Hp. destruct (due_adopt fs Q p a x Hp) as [H | [H | H]].
    + left. apply elem_of_snoc. auto.
    + right; left. apply elem_of_snoc. auto.
    + right; right. exact H.
  - intros k ck Hk Hpk HS. apply elem_of_snoc in HS as [HS | ->].
    + destruct (due_fn fs Q k ck Hk Hpk HS) as [o' Ho]. exists o'.
      apply elem_of_snoc. auto.
    + exists o. apply elem_of_snoc. auto.
Qed.

(** A call of [runExclusive], up to its [await prev]. *)
Lemma QInv_submit (fs fs' : Fifo.State) u key :
  QInv fs -> Fifo.step fs (Fifo.Submit u key) = Some fs' -> QInv fs'.
Proof.
  intros Q Hstep.
  pose proof (q_base fs Q) as I. pose proof (q_owned fs Q) as O.
  unfold Fifo.step in Hstep.
  destruct (step_invoke (Fifo.base fs) u key) as [h1 [pv [Hs Hcase]]].
  pose proof (Inv_step _ _ _ I Hs) as I'. pose proof (owned_step _ _ _ I O Hs) as O'.
  rewrite Hs in Hstep. cbn [calls heap] in Hstep.
  rewrite lookup_app_r in Hstep by lia. rewrite Nat.sub_diag in Hstep.
  cbn [lookup list_lookup prev Fifo.reactions next] in Hstep.
  injection Hstep as <-.
  set (H := heap (Fifo.base fs)) in *. set (cs := calls (Fifo.base fs)) in *.
  set (cnew := mkCall (lockKeyOf u key) pv (length h1) AwaitPrev) in *.
  set (h' := h1 ++ [Deferred false; Then pv (length h1) AwaitingPrev]) in *.
  set (ready := if isFulfilled h' pv
                then [Fifo.ThenReaction (S (length h1)); Fifo.AwaitReaction (length cs)]
                else []) in *.
  assert (F : (length H <= length h1)%nat).
  { destruct Hcase as [[_ [-> _]] | [_ ->]]; [rewrite length_app|]; simpl; lia. }
  assert (B : forall p v, H !! p = Some v -> h' !! p = Some v).
  { intros p v Hp. unfold h'. apply lookup_app_l_Some.
    destruct Hcase as [[_ [-> _]] | [_ ->]]; [apply lookup_app_l_Some|]; exact Hp. }
  assert (A : forall p, (p < length H)%nat -> h' !! p = H !! p).
  { intros p Hp. destruct (lookup_lt_is_Some_2 H p Hp) as [v Hv].
    rewrite Hv. exact (B p v Hv). }
  assert (C : forall p a x st, h' !! p = Some (Then a x st) ->
            H !! p = Some (Then a x st) \/
            (p = S (length h1) /\ a = pv /\ x = length h1 /\ st = AwaitingPrev)).
  { intros p a x st Hp. unfold h' in Hp.
    apply lookup_app_Some in Hp as [Hp | [Hge Hp]].
    - left. destruct Hcase as [[_ [-> _]] | [_ ->]]; [|exact Hp].
      apply lookup_app_Some in Hp as [Hp | [_ Hp]]; [exact Hp|].
      destruct (p - length H)%nat as [|[|k]]; simpl in Hp; discriminate.
    - right. destruct (p - length h1)%nat as [|[|k]] eqn:Hd; simpl in Hp;
        try discriminate.
      injection Hp as <- <- <-. repeat split; try reflexivity. lia. }
  assert (D : forall q, (q < length H)%nat -> isFulfilled h' q = isFulfilled H q)
    by (intros q Hq; unfold isFulfilled; rewrite (A q Hq); reflexivity).
  assert (Dt : forall q, isFulfilled H q = true -> isFulfilled h' q = true).
  { intros q Hq. rewrite D; [exact Hq|]. exact (isFulfilled_bound _ _ Hq). }
  assert (E : forall k ck, (cs ++ [cnew]) !! k = Some ck ->
            cs !! k = Some ck \/ (k = length cs /\ ck = cnew)).
  { intros k ck Hk. apply lookup_app_Some in Hk as [Hk | [Hge Hk]]; [auto|].
    right. destruct (k - length cs)%nat as [|m] eqn:Hd; simpl in Hk; [|discriminate].
    injection Hk as <-. split; [lia | reflexivity]. }
  assert (Hlink : h' !! S (length h1) = Some (Then pv (length h1) AwaitingPrev)).
  { unfold h'. rewrite lookup_app_r by lia.
    replace (S (length h1) - length h1)%nat with 1%nat by lia. reflexivity. }
  assert (Hcall : (cs ++ [cnew]) !! length cs = Some cnew).
  { rewrite lookup_app_r by lia. rewrite Nat.sub_diag. reflexivity. }
  assert (R : forall j, j ∈ ready ->
            isFulfilled h' pv = true /\
            (j = Fifo.ThenReaction (S (length h1)) \/ j = Fifo.AwaitReaction (length cs))).
  { intros j Hj. unfold ready in Hj. destruct (isFulfilled h' pv).
    - rewrite !elem_of_cons, elem_of_nil in Hj. split; [reflexivity | tauto].
    - apply elem_of_nil in Hj. destruct Hj. }
  assert (R' : isFulfilled h' pv = true ->
            Fifo.ThenReaction (S (length h1)) ∈ ready /\
            Fifo.AwaitReaction (length cs) ∈ ready).
  { intros Hf. unfold ready. rewrite Hf. rewrite !elem_of_cons. auto. }
  split; cbn [Fifo.base Fifo.queue Fifo.parked Fifo.settled heap calls] in *.
  - exact I'.
  - exact O'.
  - rewrite fmap_app. apply NoDup_app. split; [exact (q_nodup fs Q)|]. split.
    + intros k Hk Hr. apply list_elem_of_fmap in Hr as [j [-> Hj]].
      apply R in Hj as [_ [-> | ->]]; simpl in Hk.
      * apply key_then in Hk. destruct (q_then fs Q _ Hk) as [a [x [Hp _]]].
        apply lookup_lt_Some in Hp. fold H in Hp. lia.
      * apply key_await in Hk. destruct (q_await fs Q _ Hk) as [c [Hc _]].
        apply lookup_lt_Some in Hc. fold cs in Hc. lia.
    + unfold ready. destruct (isFulfilled h' pv); [|constructor].
      simpl. apply NoDup_cons. split; [|apply NoDup_singleton].
      rewrite list_elem_of_singleton. discriminate.
  - intros p Hin. apply elem_of_app in Hin as [Hin | Hin].
    + destruct (q_then fs Q p Hin) as [a [x [Hp Hf]]].
      exists a, x. split; [exact (B _ _ Hp) | exact (Dt a Hf)].
    + apply R in Hin as [Hf [Hj | Hj]]; [|discriminate].
      injection Hj as ->. exists pv, (length h1). auto.
  - intros k Hin. apply elem_of_app in Hin as [Hin | Hin].
    + destruct (q_await fs Q k Hin) as [ck [Hk [Hpk Hfk]]].
      exists ck. split; [apply lookup_app_l_Some; exact Hk|].
      split; [exact Hpk | exact (Dt _ Hfk)].
    + apply R in Hin as [Hf [Hj | Hj]]; [discriminate|].
      injection Hj as ->. exists cnew. auto.
  - intros p Hin. apply elem_of_app in Hin as [Hin | Hin].
    + destruct (q_thenable fs Q p Hin) as [a [x Hp]].
      exists a, x. exact (B _ _ Hp).
    + apply R in Hin as [_ [Hj | Hj]]; discriminate.
  - intros p Hin. apply elem_of_app in Hin as [Hin | Hin].
    + destruct (q_next fs Q p Hin) as [a [x [Hp Hf]]].
      exists a, x. split; [exact (B _ _ Hp) | exact (Dt x Hf)].
    + apply R in Hin as [_ [Hj | Hj]]; discriminate.
  - intros k o Hin. apply elem_of_app in Hin as [Hin | Hin].
    + destruct (q_fn fs Q k o Hin) as [HS [ck [Hk Hpk]]].
      split; [exact HS|]. exists ck. split; [apply lookup_app_l_Some; exact Hk | exact Hpk].
    + apply R in Hin as [_ [Hj | Hj]]; discriminate.
  - intros p Hin. destruct (q_parked fs Q p Hin) as [Hno [a [x [Hp Hf]]]].
    split.
    + rewrite fmap_app. intros Hk. apply elem_of_app in Hk as [Hk | Hk];
        [exact (Hno Hk)|].
      apply key_adopt in Hk as [Hk | Hk]; apply R in Hk as [_ [Hj | Hj]];
        discriminate.
    + exists a, x. split; [exact (B _ _ Hp)|].
      rewrite D; [exact Hf|].
      destruct (O p a x _ Hp) as [k [ck [Hk [Hpk [_ Hx]]]]].
      apply lookup_lt_Some in Hp. fold H in Hp. lia.
  - intros k Hin. destruct (q_settled fs Q k Hin) as [ck [Hk Hpk]].
    exists ck. split; [apply lookup_app_l_Some; exact Hk | exact Hpk].
  - intros p a x Hp Ha. apply elem_of_app.
    apply C in Hp as [Hp | [-> [-> _]]].
    + left. destruct (O p a x _ Hp) as [k [ck [Hk [_ [Hpa _]]]]].
      rewrite D in Ha by (rewrite Hpa; exact (proj2 (call_bounds _ k ck I Hk))).
      exact (due_then fs Q p a x Hp Ha).
    + right. exact (proj1 (R' Ha)).
  - intros k ck Hk Hpk Hfk. apply elem_of_app.
    apply E in Hk as [Hk | [-> ->]].
    + left. rewrite D in Hfk by exact (proj2 (call_bounds _ k ck I Hk)).
      exact (due_await fs Q k ck Hk Hpk Hfk).
    + right. exact (proj2 (R' Hfk)).
  - intros p a x Hp. apply C in Hp as [Hp | [_ [_ [_ Hst]]]]; [|discriminate].
    destruct (due_adopt fs Q p a x Hp) as [Hj | [Hj | Hj]].
    + left. apply elem_of_app. auto.
    + right; left. apply elem_of_app. auto.
    + right; right. exact Hj.
  - intros k ck Hk Hpk HS. apply E in Hk as [Hk | [-> ->]]; [|discriminate].
    destruct (due_fn fs Q k ck Hk Hpk HS) as [o Ho]. exists o.
    apply elem_of_app. auto.
Qed.

Lemma QInv_step (fs fs' : Fifo.State) (e : Fifo.Event) :
  QInv fs -> Fifo.step fs e = Some fs' -> QInv fs'.
Proof.
  intros Q Hs. destruct e as [u key | i o |].
  - exact (QInv_submit fs fs' u key Q Hs).
  - unfold Fifo.step in Hs.
    destruct (calls (Fifo.base fs) !! i) as [c|] eqn:Hi; [|discriminate].
    destruct (pc c) eqn:Hpc; try discriminate.
    destruct (bool_decide (i ∈ Fifo.settled fs)) eqn:Hb; [discriminate|].
    apply bool_decide_eq_false in Hb. injection Hs as <-.
    exact (QInv_settles fs i o c Q Hi Hpc Hb).
  - unfold Fifo.step in Hs.
    destruct (Fifo.queue fs) as [|[p | i | p | p | i o] rest] eqn:HQ; [discriminate| | | | |].
    + destruct (step (Fifo.base fs) (RunThen p)) as [b|] eqn:Hb; [|discriminate].
      injection Hs as <-. exact (QInv_then fs p rest b Q HQ Hb).
    + destruct (step (Fifo.base fs) (Resume i)) as [b|] eqn:Hb; [|discriminate].
      injection Hs as <-. exact (QInv_await fs i rest b Q HQ Hb).
    + destruct (heap (Fifo.base fs) !! p) as [[| |a x [| |]]|] eqn:Hp; try discriminate.
      destruct (isFulfilled (heap (Fifo.base fs)) x) eqn:Hf; injection Hs as <-.
      * exact (QInv_thenable_ready fs p rest a x Q HQ Hp Hf).
      * exact (QInv_thenable_parked fs p rest a x Q HQ Hp Hf).
    + destruct (step (Fifo.base fs) (Adopt p)) as [b|] eqn:Hb; [|discriminate].
      injection Hs as <-. exact (QInv_next fs p rest b Q HQ Hb).
    + destruct (calls (Fifo.base fs) !! i) as [c|] eqn:Hi; [|discriminate].
      destruct (step (Fifo.base fs) (Settle i o)) as [b|] eqn:Hb; [|discriminate].
      pose proof (QInv_fn fs i o c rest b Q HQ Hi Hb) as Q'.
      unfold woken, unpark in Q'.
      destruct (bool_decide (S (next c) ∈ Fifo.parked fs)) eqn:Hpk;
        injection Hs as <-.
      * exact Q'.
      * apply bool_decide_eq_false in Hpk.
        pose proof (unpark_absent _ _ Hpk) as Hun. unfold unpark in Hun.
        rewrite Hun, app_nil_r in Q'. exact Q'.
Qed.

Lemma QInv_run (evs : list Fifo.Event) (fs fs' : Fifo.State) :
  QInv fs -> Fifo.run evs fs = Some fs' -> QInv fs'.
Proof.
  revert fs. induction evs as [|e evs IH]; intros fs Q Hr; simpl in Hr.
  - injection Hr as <-. exact Q.
  - destruct (Fifo.step fs e) as [fs1|] eqn:Hs; [|discriminate].
    exact (IH fs1 (QInv_step fs fs1 e Q Hs) Hr).
Qed.

Lemma QInv_reachable (fs : Fifo.State) : Fifo.reachable fs -> QInv fs.
Proof. intros [evs Hr]. exact (QInv_run evs Fifo.init fs QInv_init Hr). Qed.
End QueuePreserved.

Section QueueDrains.
Import Mutex.

Definition isThenable (j : Fifo.Job) : bool :=
  match j with Fifo.ThenableJob _ => true | _ => false end.

Definition thenables (Q : list Fifo.Job) : nat :=
  length (List.filter isThenable Q).

(** A bound on the jobs the queue still has to run while no operation
    settles and no call is made. *)
Definition queueWork (fs : Fifo.State) : nat :=
  (2 * work (Fifo.base fs) + thenables (Fifo.queue fs))%nat.

Lemma thenables_app (a b : list Fifo.Job) :
  thenables (a ++ b) = (thenables a + thenables b)%nat.
Proof. unfold thenables. rewrite List.filter_app, length_app. reflexivity. Qed.

Lemma thenables_waiting p k (cs : list Call) : thenables (Fifo.waiting p k cs) = 0%nat.
Proof.
  revert k. induction cs as [|c cs IH]; intros k; simpl; [reflexivity|].
  rewrite thenables_app, IH. destruct (Nat.eqb (prev c) p); reflexivity.
Qed.

Lemma thenables_cons (j : Fifo.Job) (Q : list Fifo.Job) :
  thenables (j :: Q) = ((if isThenable j then 1 else 0) + thenables Q)%nat.
Proof. unfold thenables. simpl. destruct (isThenable j); reflexivity. Qed.

Ltac count_thenables :=
  rewrite ?thenables_app, ?thenables_cons, ?thenables_waiting;
  cbn [isThenable]; change (thenables []) with 0%nat; lia.

Lemma tick_work (fs fs' : Fifo.State) :
  QInv fs -> Fifo.step fs Fifo.Tick = Some fs' ->
  (queueWork fs' < queueWork fs)%nat.
Proof.
  intros Q Hs. pose proof (q_base fs Q) as Hinv.
  unfold Fifo.step in Hs. unfold queueWork.
  destruct (Fifo.queue fs) as [|[p | i | p | p | i o] rest] eqn:HQ; [discriminate| | | | |].
  - destruct (step (Fifo.base fs) (RunThen p)) as [b|] eqn:Hb; [|discriminate].
    injection Hs as <-. cbn [Fifo.base Fifo.queue].
    destruct (internal_step (fun _ => Returns 0) _ b (RunThen p) Hinv eq_refl I Hb)
      as [Hw _].
    count_thenables.
  - destruct (step (Fifo.base fs) (Resume i)) as [b|] eqn:Hb; [|discriminate].
    injection Hs as <-. cbn [Fifo.base Fifo.queue].
    destruct (internal_step (fun _ => Returns 0) _ b (Resume i) Hinv eq_refl I Hb)
      as [Hw _].
    count_thenables.
  - destruct (heap (Fifo.base fs) !! p) as [[| |a x [| |]]|] eqn:Hp; try discriminate.
    destruct (isFulfilled (heap (Fifo.base fs)) x) eqn:Hf; injection Hs as <-;
      cbn [Fifo.base Fifo.queue]; count_thenables.
  - destruct (step (Fifo.base fs) (Adopt p)) as [b|] eqn:Hb; [|discriminate].
    injection Hs as <-. cbn [Fifo.base Fifo.queue].
    destruct (internal_step (fun _ => Returns 0) _ b (Adopt p) Hinv eq_refl I Hb)
      as [Hw _].
    count_thenables.
  - destruct (calls (Fifo.base fs) !! i) as [c|] eqn:Hi; [|discriminate].
    destruct (step (Fifo.base fs) (Settle i o)) as [b|] eqn:Hb; [|discriminate].
    destruct (internal_step (fun _ => o) _ b (Settle i o) Hinv eq_refl eq_refl Hb)
      as [Hw _].
    destruct (bool_decide (S (next c) ∈ Fifo.parked fs)); injection Hs as <-;
      cbn [Fifo.base Fifo.queue]; count_thenables.
Qed.

(** The queue runs empty: with no new call and no operation settling,
    the job at the head runs, and after at most [queueWork] of them none
    is left. *)
Lemma queue_drains (fs : Fifo.State) :
  QInv fs ->
  exists n fs', (n <= queueWork fs)%nat /\
    Fifo.run (repeat Fifo.Tick n) fs = Some fs' /\ Fifo.queue fs' = [].
Proof.
  remember (queueWork fs) as m eqn:Hm.
  assert (Hle : (queueWork fs <= m)%nat) by lia. clear Hm.
  revert fs Hle. induction m as [|m IH]; intros fs Hle Q.
  - destruct (Fifo.queue fs) as [|j rest] eqn:HQ.
    + exists 0%nat, fs. auto.
    + destruct (head_runs fs Q) as [fs1 Hs]; [rewrite HQ; discriminate|].
      pose proof (tick_work fs fs1 Q Hs). lia.
  - destruct (Fifo.queue fs) as [|j rest] eqn:HQ.
    + exists 0%nat, fs. split; [lia | auto].
    + destruct (head_runs fs Q) as [fs1 Hs]; [rewrite HQ; discriminate|].
      pose proof (tick_work fs fs1 Q Hs) as Hlt.
      destruct (IH fs1 ltac:(lia) (QInv_step fs fs1 _ Q Hs)) as [n [fs' [Hn [Hr Hq]]]].
      exists (S n), fs'. split; [lia|]. split; [|exact Hq].
      cbn [repeat Fifo.run]. rewrite Hs. exact Hr.
Qed.
End QueueDrains.

Section MutexClaims.
Import Mutex.

(** Two bots submit under [container] and [furnace]; the queue runs four
    jobs. *)
Definition overlapRun : list Fifo.Event :=
  [Fifo.Submit None "container"; Fifo.Submit None "furnace";
   Fifo.Tick; Fifo.Tick; Fifo.Tick; Fifo.Tick].

(** Two calls under [container], then one under [furnace]; the queue runs
    until it is empty, and no operation settles. *)
Definition unorderedRun : list Fifo.Event :=
  [Fifo.Submit None "container"; Fifo.Submit None "container";
   Fifo.Submit None "furnace";
   Fifo.Tick; Fifo.Tick; Fifo.Tick; Fifo.Tick; Fifo.Tick; Fifo.Tick].

(** Two calls under [container]; the queue runs until it is empty, the
    first operation settles, and the queue runs until it is empty again. *)
Definition handoverRun : list Fifo.Event :=
  [Fifo.Submit None "container"; Fifo.Submit None "container";
   Fifo.Tick; Fifo.Tick; Fifo.Tick;
   Fifo.OperationSettles 0 (Returns 0);
   Fifo.Tick; Fifo.Tick; Fifo.Tick; Fifo.Tick; Fifo.Tick].

Definition fifoAfter (evs : list Fifo.Event) : Fifo.State :=
  default Fifo.init (Fifo.run evs Fifo.init).

Lemma fifoAfter_reachable (evs : list Fifo.Event) :
  is_Some (Fifo.run evs Fifo.init) -> Fifo.reachable (fifoAfter evs).
Proof.
  intros [s Hs]. exists evs. unfold fifoAfter. rewrite Hs. reflexivity.
Qed.

(** C1.  Safety, in every reachable state of the promise machine, whatever
    the order in which the ready jobs have run, and so in every state the
    first-in first-out job queue reaches: two different calls with the
    same lock key (same bot, same key) are never both running their
    operation, and a call that has started finds every call made earlier
    with its lock key already finished.  Progress: a queued call whose
    earlier calls on the key have finished is brought to its operation by
    at most three promise jobs; and whatever the order of the jobs, a run
    of jobs from a state has at most [work s] of them, and while a call
    has not finished some job can run, so the operations of one key all
    run, one at a time, in the order of the calls.  Calls under distinct
    keys are not ordered, in runs of the job queue: two of them are
    running at once, and with the queue empty a later call under one key
    is running while an earlier call under another key has not started.
    The job queue itself never blocks, in any state it reaches: a new call
    can be made, the job at the head of the queue can run, the queue runs
    empty after at most [queueWork] jobs, and once it is empty a call that
    has not finished waits for nothing but an operation that has not
    settled, its own or that of an earlier call with its lock key, and
    that operation can settle. *)
Theorem C1_runExclusive_exclusive_fifo :
  (forall s, reachable s ->
     (forall i j ci cj,
         calls s !! i = Some ci -> calls s !! j = Some cj -> i <> j ->
         lockKey ci = lockKey cj ->
         ~ (running ci = true /\ running cj = true)) /\
     (forall i j ci cj,
         calls s !! i = Some ci -> calls s !! j = Some cj -> (i < j)%nat ->
         lockKey ci = lockKey cj ->
         started cj = true -> finished ci = true)) /\
  (forall fs, Fifo.reachable fs -> reachable (Fifo.base fs)) /\
  (forall s, reachable s ->
     forall j cj,
       calls s !! j = Some cj -> pc cj = AwaitPrev ->
       (forall i ci, (i < j)%nat -> calls s !! i = Some ci ->
                     lockKey ci = lockKey cj -> finished ci = true) ->
       exists evs s' cj',
         (length evs <= 3)%nat /\ Forall (fun e => promiseJob e = true) evs /\
         run evs s = Some s' /\ calls s' !! j = Some cj' /\ running cj' = true) /\
  (forall s, reachable s ->
     forall outcomes evs s',
       Forall (job outcomes) evs -> run evs s = Some s' ->
       work s = (length evs + work s')%nat /\
       (forall i c, calls s' !! i = Some c -> finished c = false ->
                    exists e, job outcomes e /\ is_Some (step s' e)) /\
       (work s' = 0%nat ->
        forall i c, calls s' !! i = Some c -> finished c = true)) /\
  (exists fs ci cj,
      fs = fifoAfter overlapRun /\ Fifo.reachable fs /\
      calls (Fifo.base fs) !! 0%nat = Some ci /\
      calls (Fifo.base fs) !! 1%nat = Some cj /\
      lockKey ci <> lockKey cj /\ running ci = true /\ running cj = true) /\
  (exists fs ci cj,
      fs = fifoAfter unorderedRun /\ Fifo.reachable fs /\ Fifo.queue fs = [] /\
      calls (Fifo.base fs) !! 1%nat = Some ci /\
      calls (Fifo.base fs) !! 2%nat = Some cj /\
      lockKey ci <> lockKey cj /\ started ci = false /\ running cj = true) /\
  (forall fs, Fifo.reachable fs ->
     (forall u key, is_Some (Fifo.step fs (Fifo.Submit u key))) /\
     (Fifo.queue fs <> [] -> is_Some (Fifo.step fs Fifo.Tick)) /\
     (exists n fs', (n <= queueWork fs)%nat /\
        Fifo.run (repeat Fifo.Tick n) fs = Some fs' /\ Fifo.queue fs' = []) /\
     (Fifo.queue fs = [] ->
      forall j cj, calls (Fifo.base fs) !! j = Some cj -> finished cj = false ->
      exists i c, (i <= j)%nat /\ calls (Fifo.base fs) !! i = Some c /\
        lockKey c = lockKey cj /\ running c = true /\
        forall o, is_Some (Fifo.step fs (Fifo.OperationSettles i o)))).
Proof.
  split; [exact exclusive_and_ordered|]. split; [exact fifo_reachable|].
  split; [|split; [|split; [|split]]].
  - intros s Hr j cj. exact (next_in_line s j cj (Inv_reachable s Hr)).
  - intros s Hr outcomes evs s' Hall Hrun.
    pose proof (Inv_reachable s Hr) as I.
    pose proof (Inv_run evs s s' I Hrun) as I'.
    split; [exact (proj1 (jobs_count outcomes evs s s' I Hall Hrun))|]. split.
    + intros i c Hi Hfin.
      destruct (some_job_ready outcomes s' i c I' Hi Hfin) as [e [Hin He]].
      exists e. split; [exact (internalEvents_spec outcomes s' e Hin) | exact He].
    + intros Hw i c Hi. exact (work_zero_finished s' i c Hw Hi).
  - exists (fifoAfter overlapRun). eexists. eexists.
    split; [reflexivity|].
    split; [apply fifoAfter_reachable; vm_compute; eauto|].
    split; [vm_compute; reflexivity|]. split; [vm_compute; reflexivity|].
    split; [vm_compute; discriminate|]. split; reflexivity.
  - exists (fifoAfter unorderedRun). eexists. eexists.
    split; [reflexivity|].
    split; [apply fifoAfter_reachable; vm_compute; eauto|].
    split; [vm_compute; reflexivity|].
    split; [vm_compute; reflexivity|]. split; [vm_compute; reflexivity|].
    split; [vm_compute; discriminate|]. split; reflexivity.
  - intros fs Hr. pose proof (QInv_reachable fs Hr) as Q.
    split; [intros u key; exact (submit_runs fs u key)|].
    split; [exact (head_runs fs Q)|].
    split; [exact (queue_drains fs Q)|].
    exact (idle_waits_for_operation fs Q).
Qed.

(** Two calls on one key, in the job queue: while the first runs the
    second has not started and its continuation cannot run, the queue is
    empty, and what the second waits for is an operation on its key that
    can settle; once the first has settled the queue brings the second to
    its operation. *)
Lemma C1_runExclusive_exclusive_fifo_witness :
  let waiting := Fifo.base (fifoAfter (firstn 5 handoverRun)) in
  let handed := Fifo.base (fifoAfter handoverRun) in
  Fifo.queue (fifoAfter (firstn 5 handoverRun)) = [] /\
  pc <$> calls waiting = [AwaitFn; AwaitPrev] /\
  step waiting (Resume 1) = None /\
  ~ (running (mkCall "bot:container" 0 1 AwaitFn) = true /\
     running (mkCall "bot:container" 2 3 AwaitPrev) = true) /\
  Fifo.queue (fifoAfter handoverRun) = [] /\
  pc <$> calls handed = [Finished (Returns 0); AwaitFn] /\
  (exists i c, (i <= 1)%nat /\ calls waiting !! i = Some c /\
     lockKey c = "bot:container" /\ running c = true /\
     forall o, is_Some (Fifo.step (fifoAfter (firstn 5 handoverRun))
                                  (Fifo.OperationSettles i o))).
Proof.
  cbv zeta.
  destruct C1_runExclusive_exclusive_fifo as [Hsafe [Hfifo [_ [_ [_ [_ Hlive]]]]]].
  assert (Hfr : Fifo.reachable (fifoAfter (firstn 5 handoverRun))).
  { apply fifoAfter_reachable. vm_compute. eauto. }
  pose proof (Hfifo _ Hfr) as Hr.
  destruct (Hsafe _ Hr) as [Hex _].
  destruct (Hlive _ Hfr) as [_ [_ [_ Hidle]]].
  split; [vm_compute; reflexivity|]. split; [vm_compute; reflexivity|].
  split; [vm_compute; reflexivity|]. split; [|split; [|split]].
  - apply (Hex 0%nat 1%nat); [vm_compute; reflexivity | vm_compute; reflexivity
                              | lia | reflexivity].
  - vm_compute; reflexivity.
  - vm_compute; reflexivity.
  - apply (Hidle ltac:(vm_compute; reflexivity) 1%nat
                 (mkCall "bot:container" 2 3 AwaitPrev));
      [vm_compute; reflexivity | reflexivity].
Defined.

(** C3, on the code.  The entry of a lock key is never removed: the
    [finally] block compares the stored promise, made by [then], with
    [next], made by [new Promise], so its test never succeeds.  Every step
    keeps the entries there are, every call made has an entry under its
    key, and after a single call has finished and every promise job has
    run (no call queued or in flight) the map still holds that call's
    entry. *)
Theorem C3_lock_entry_is_never_removed :
  (forall s, reachable s ->
     forall e s' K, step s e = Some s' ->
                    is_Some (locks s !! K) -> is_Some (locks s' !! K)) /\
  (forall s, reachable s ->
     forall i c, calls s !! i = Some c -> is_Some (locks s !! lockKey c)) /\
  (let s := stateAfter [Invoke None "container"; Resume 0; Settle 0 (Returns 0);
                        RunThen 2; Adopt 2] in
   calls s = [mkCall "bot:container" 0 1 (Finished (Returns 0))] /\
   work s = 0%nat /\
   locks s !! "bot:container" = Some 2%nat).
Proof.
  split; [|split].
  - intros s Hr e s' K Hs HK.
    exact (step_keeps_entries s s' e K (Inv_reachable s Hr) Hs HK).
  - intros s Hr i c Hi. exact (call_has_entry s i c (Inv_reachable s Hr) Hi).
  - vm_compute. repeat split.
Qed.

(** C4.  From a reachable state: when the operation of call [i] throws,
    call [i] ends by throwing that error to its own caller, every other
    activation and the lock map are left as they were; and whatever the
    outcomes of the operations are, failures included, running the ready
    jobs ([work s] of them suffice) brings every call that was queued or
    running to its end, each with the outcome of its own operation. *)
Theorem C4_failure_does_not_block_the_chain :
  forall s, reachable s ->
    (forall i err s',
        step s (Settle i (Throws err)) = Some s' ->
        (exists c', calls s' !! i = Some c' /\ pc c' = Finished (Throws err)) /\
        (forall j, j <> i -> calls s' !! j = calls s !! j) /\
        locks s' = locks s) /\
    (forall outcomes,
        let s' := drain outcomes (work s) s in
        reachable s' /\
        length (calls s') = length (calls s) /\
        (forall i c, calls s !! i = Some c ->
           exists c', calls s' !! i = Some c' /\
                      pc c' = finalPc outcomes i (pc c))).
Proof.
  intros s Hr. pose proof (Inv_reachable s Hr) as I. split.
  - intros i err s' Hs.
    destruct (step_settle s s' i _ I Hs) as [c [Hi [Hpc ->]]]. simpl.
    split; [|split].
    + exists (setPc c (Finished (Throws err))). split; [|reflexivity].
      apply list_lookup_insert_eq. apply lookup_lt_Some in Hi. exact Hi.
    + intros j Hne. apply list_lookup_insert_ne. auto.
    + reflexivity.
  - intros outcomes. exact (drain_spec outcomes (work s) s Hr (Nat.le_refl _)).
Qed.

(** The first of two calls on one key is running and its operation is
    going to throw; the second, queued behind it, returns 7. *)
Definition firstThrows (i : nat) : Outcome :=
  match i with O => Throws 1 | _ => Returns 7 end.

Lemma C4_failure_does_not_block_the_chain_witness :
  let s := stateAfter [Invoke None "container"; Invoke None "container"; Resume 0] in
  let s' := drain firstThrows (work s) s in
  (exists c0, calls s' !! 0%nat = Some c0 /\ pc c0 = Finished (Throws 1)) /\
  (exists c1, calls s' !! 1%nat = Some c1 /\ pc c1 = Finished (Returns 7)).
Proof.
  intros s s'.
  destruct (C4_failure_does_not_block_the_chain s) as [_ H].
  { apply stateAfter_reachable. vm_compute. eauto. }
  destruct (H firstThrows) as [_ [_ Hfinal]]. split.
  - exact (Hfinal 0%nat (mkCall "bot:container" 0 1 AwaitFn) eq_refl).
  - exact (Hfinal 1%nat (mkCall "bot:container" 2 3 AwaitPrev) eq_refl).
Defined.

(** C9, as the code has it.  The lock key is the effective user name, the
    bot's username or ['bot'] when that is unset or empty, followed by a
    colon and the supplied key, and it is the key under which a call is
    entered in the lock map.  For one supplied key, two calls have the same
    lock key exactly when their effective user names are equal: two
    different non-empty usernames give distinct entries, and such calls can
    be running at once; a bot without username shares its entry with every
    other bot without username and with a bot named ['bot'], and calls with
    equal effective names are never running at once. *)
Theorem C9_lock_key_by_effective_username :
  (forall u key,
      lockKeyOf u key
      = String.append (JsString.orElse u "bot") (String.append ":" key)) /\
  (forall s u key s',
      step s (Invoke u key) = Some s' ->
      exists c, calls s' !! length (calls s) = Some c /\
                lockKey c = lockKeyOf u key /\
                is_Some (locks s' !! lockKeyOf u key)) /\
  (forall u1 u2 key,
      lockKeyOf u1 key = lockKeyOf u2 key <->
      JsString.orElse u1 "bot" = JsString.orElse u2 "bot") /\
  (forall n1 n2 key,
      n1 <> "" -> n2 <> "" -> n1 <> n2 ->
      lockKeyOf (Some n1) key <> lockKeyOf (Some n2) key) /\
  (forall key,
      lockKeyOf None key = lockKeyOf (Some "") key /\
      lockKeyOf None key = lockKeyOf (Some "bot") key) /\
  (forall u1 u2 key,
      JsString.orElse u1 "bot" <> JsString.orElse u2 "bot" ->
      exists s ci cj,
        reachable s /\
        calls s !! 0%nat = Some ci /\ calls s !! 1%nat = Some cj /\
        lockKey ci = lockKeyOf u1 key /\ lockKey cj = lockKeyOf u2 key /\
        running ci = true /\ running cj = true) /\
  (forall u1 u2 key,
      JsString.orElse u1 "bot" = JsString.orElse u2 "bot" ->
      forall s, reachable s ->
      forall i j ci cj,
        calls s !! i = Some ci -> calls s !! j = Some cj -> i <> j ->
        lockKey ci = lockKeyOf u1 key -> lockKey cj = lockKeyOf u2 key ->
        ~ (running ci = true /\ running cj = true)).
Proof.
  split; [reflexivity|]. split; [|split; [|split; [|split; [|split]]]].
  - intros s u key s' Hs.
    destruct (step_invoke s u key) as [h1 [pv [Hstep _]]].
    rewrite Hstep in Hs. injection Hs as <-. simpl.
    eexists. split.
    + rewrite lookup_app_r by lia. rewrite Nat.sub_diag. reflexivity.
    + split; [reflexivity|]. rewrite lookup_insert_eq. eauto.
  - exact lockKeyOf_eq.
  - intros n1 n2 key H1 H2 Hne Heq. apply lockKeyOf_eq in Heq.
    destruct n1, n2; simpl in Heq; congruence.
  - intros key. split; reflexivity.
  - intros u1 u2 key Hne.
    assert (HK : lockKeyOf u1 key <> lockKeyOf u2 key).
    { intros Heq. apply Hne. apply lockKeyOf_eq in Heq. exact Heq. }
    eexists. eexists. eexists. split.
    + exists [Invoke u1 key; Invoke u2 key; Resume 0; Resume 1].
      exact (distinct_keys_overlap u1 u2 key HK).
    + simpl. repeat split.
  - intros u1 u2 key Heq s Hr i j ci cj Hi Hj Hne Hki Hkj.
    destruct exclusive_and_ordered with (s := s) as [Hex _];
      [exact Hr|].
    apply (Hex i j ci cj Hi Hj Hne).
    rewrite Hki, Hkj. apply lockKeyOf_eq. exact Heq.
Qed.

Lemma C9_lock_key_by_effective_username_witness :
  lockKeyOf (Some "alice") "container" <> lockKeyOf (Some "bob") "container" /\
  lockKeyOf (Some "alice") "container" = "alice:container".
Proof.
  destruct C9_lock_key_by_effective_username as [_ [_ [_ [H _]]]].
  split; [|reflexivity].
  apply H; discriminate.
Defined.

(** C9 as stated fails: a bot whose username is unset (or empty) and a bot
    named "bot" have different usernames and one lock key, and their calls
    are serialized. *)
Lemma C9_unset_and_bot_share_a_key :
  (None : option string) <> Some "bot" /\
  lockKeyOf None "container" = lockKeyOf (Some "bot") "container" /\
  "" <> "bot" /\
  lockKeyOf (Some "") "container" = lockKeyOf (Some "bot") "container" /\
  step (stateAfter [Invoke None "container"; Invoke (Some "bot") "container";
                    Resume 0]) (Resume 1) = None.
Proof.
  split; [discriminate|]. split; [reflexivity|]. split; [discriminate|].
  split; reflexivity.
Qed.
End MutexClaims.

(* ===================================================================== *)
(** * Further properties: the rest of the registry, the utilities and
      the skills                                                        *)
(* ===================================================================== *)

Section RegistryFacts.
Import ChestStore Registry.

Lemma removeChest_chests store worldKey key :
  chestsOf (fst (removeChest store worldKey key)) worldKey
  = fst (removeIn (chestsOf store worldKey) key) /\
  snd (removeChest store worldKey key) = snd (removeIn (chestsOf store worldKey) key).
Proof.
  unfold removeChest.
  pose proof (ensureWorld_chests store worldKey) as [H H'].
  destruct (ensureWorld store worldKey) as [st ws]; simpl in H, H'. rewrite H.
  unfold removeIn. destruct (findIndex (removable key) (chestsOf store worldKey)).
  - simpl. split; [|reflexivity]. unfold chestsOf, setWorld; simpl.
    rewrite lookup_insert_eq. reflexivity.
  - simpl. split; [exact H' | reflexivity].
Qed.

Lemma markDestroyed_chests env store worldKey theId :
  chestsOf (markDestroyed env store worldKey theId) worldKey
  = markIn env (chestsOf store worldKey) theId.
Proof.
  unfold markDestroyed.
  pose proof (ensureWorld_chests store worldKey) as [H _].
  destruct (ensureWorld store worldKey) as [st ws]; simpl in H. rewrite H.
  unfold chestsOf, setWorld; simpl. rewrite lookup_insert_eq. reflexivity.
Qed.

(** X1. [removeChest] removes the first record whose id is the argument or
    whose label is the argument up to case, and no other: it returns
    [false] exactly when no record answers to the argument, and the
    records are then as they were; otherwise the records are those before
    without the first that answers. *)
Theorem removeChest_removes_first_match :
  forall (store : RootStore) (worldKey key : string),
    let cs := chestsOf store worldKey in
    let cs' := chestsOf (fst (removeChest store worldKey key)) worldKey in
    let found := snd (removeChest store worldKey key) in
    (found = false <->
     forall j c, cs !! j = Some c -> removable key c = false) /\
    (found = false -> cs' = cs) /\
    (found = true ->
     exists i c,
       cs !! i = Some c /\ removable key c = true /\
       (forall j b, (j < i)%nat -> cs !! j = Some b -> removable key b = false) /\
       cs' = delete i cs /\
       S (length cs') = length cs).
Proof.
  intros store worldKey key cs cs' found.
  destruct (removeChest_chests store worldKey key) as [Hcs Hf].
  fold cs in Hcs, Hf. fold cs' in Hcs. fold found in Hf.
  unfold removeIn in Hcs, Hf.
  destruct (findIndex (removable key) cs) as [i|] eqn:Hi; simpl in Hcs, Hf.
  - apply findIndex_Some in Hi as [[c [Hc Hr]] Hlt]. split; [|split].
    + split; [congruence|]. intros H. specialize (H i c Hc). congruence.
    + congruence.
    + intros _. exists i, c. repeat split; auto.
      rewrite Hcs, length_delete by eauto.
      apply lookup_lt_Some in Hc. lia.
  - rewrite findIndex_None in Hi. split; [|split].
    + split; auto.
    + intros _. exact Hcs.
    + congruence.
Qed.

Lemma removable_self (c : ChestRecord) : removable (id c) c = true.
Proof. unfold removable. rewrite String.eqb_refl. reflexivity. Qed.

Lemma delete_last {A : Type} (l : list A) (x : A) : delete (length l) (l ++ [x]) = l.
Proof.
  induction l as [|a l IH]; [reflexivity|]. simpl. f_equal. exact IH.
Qed.

(** X2. Appending by [upsertChest] and removing by the id returned gives the
    records back, when no record before answered to that id. *)
Theorem upsertChest_then_removeChest :
  forall (env : Env) (store : RootStore) (worldKey : string) (record : ChestRecord),
    let cs := chestsOf store worldKey in
    let store1 := fst (upsertChest env store worldKey record) in
    let saved := snd (upsertChest env store worldKey record) in
    existingIndex cs record = None ->
    (forall j c, cs !! j = Some c -> removable (id saved) c = false) ->
    snd (removeChest store1 worldKey (id saved)) = true /\
    chestsOf (fst (removeChest store1 worldKey (id saved))) worldKey = cs.
Proof.
  intros env store worldKey record cs store1 saved Hnew Hfresh.
  destruct (upsertChest_chests env store worldKey record) as [Hcs Hsaved].
  fold store1 in Hcs. fold saved in Hsaved. fold cs in Hcs, Hsaved.
  rewrite (upsertIn_new env cs record Hnew) in Hcs, Hsaved. simpl in Hcs, Hsaved.
  destruct (removeChest_chests store1 worldKey (id saved)) as [Hr Hf].
  rewrite Hr, Hf, Hcs. rewrite <- Hsaved.
  assert (Hi : findIndex (removable (id saved)) (cs ++ [saved]) = Some (length cs)).
  { apply findIndex_Some. split.
    - exists saved. split; [|apply removable_self].
      rewrite lookup_app_r by lia. rewrite Nat.sub_diag. reflexivity.
    - intros j b Hj Hb. rewrite lookup_app_l in Hb by exact Hj.
      exact (Hfresh j b Hb). }
  unfold removeIn. rewrite Hi. simpl. split; [reflexivity | apply delete_last].
Qed.

Lemma upsertChest_then_removeChest_witness :
  snd (removeChest
         (fst (upsertChest clock1 emptyStore overworld
                 (labelRecord "Vault" false single_chest [mkPos 5 70 5] (mkPos 5 70 5))))
         overworld "chest-1-abcdef") = true /\
  chestsOf
    (fst (removeChest
            (fst (upsertChest clock1 emptyStore overworld
                    (labelRecord "Vault" false single_chest [mkPos 5 70 5] (mkPos 5 70 5))))
            overworld "chest-1-abcdef")) overworld = [].
Proof.
  apply (upsertChest_then_removeChest clock1 emptyStore overworld
           (labelRecord "Vault" false single_chest [mkPos 5 70 5] (mkPos 5 70 5))).
  - reflexivity.
  - intros j c Hc. discriminate.
Defined.

(** *** markDestroyed *)

Lemma markIn_length env (cs : list ChestRecord) theId :
  length (markIn env cs theId) = length cs.
Proof.
  unfold markIn. destruct (findIndex (hasId theId) cs) as [i|]; [|reflexivity].
  destruct (cs !! i); [apply length_insert | reflexivity].
Qed.

Lemma markIn_cons env (a : ChestRecord) (cs : list ChestRecord) theId :
  markIn env (a :: cs) theId
  = if hasId theId a then destroy env a :: cs else a :: markIn env cs theId.
Proof.
  unfold markIn. simpl. destruct (hasId theId a); [reflexivity|].
  destruct (findIndex (hasId theId) cs) as [i|]; simpl; [|reflexivity].
  destruct (cs !! i); reflexivity.
Qed.

Lemma listed_destroy env h (c : ChestRecord) : listed h (destroy env c) = false.
Proof. reflexivity. Qed.

Lemma filter_all {A : Type} (p : A -> bool) (l : list A) :
  (forall x, In x l -> p x = true) -> List.filter p l = l.
Proof.
  induction l as [|a l IH]; intros H; [reflexivity|]. simpl.
  rewrite (H a (or_introl eq_refl)). f_equal. apply IH.
  intros x Hx. apply H. right. exact Hx.
Qed.

Lemma NoDup_map_lookup {A B : Type} (f : A -> B) (l : list A) i j a b :
  List.NoDup (List.map f l) -> l !! i = Some a -> l !! j = Some b ->
  f a = f b -> i = j.
Proof.
  revert i j. induction l as [|x l IH]; intros i j Hnd Hi Hj Hf; [discriminate|].
  simpl in Hnd. inversion Hnd as [|y m Hnotin Hnd']; subst.
  destruct i as [|i], j as [|j]; simpl in Hi, Hj.
  - reflexivity.
  - injection Hi as ->. exfalso. apply Hnotin. rewrite Hf.
    apply in_map. apply list_elem_of_In, list_elem_of_lookup. eauto.
  - injection Hj as ->. exfalso. apply Hnotin. rewrite <- Hf.
    apply in_map. apply list_elem_of_In, list_elem_of_lookup. eauto.
  - f_equal. exact (IH i j Hnd' Hi Hj Hf).
Qed.

Lemma markIn_listIn env (cs : list ChestRecord) theId h :
  List.NoDup (List.map id cs) ->
  listIn (markIn env cs theId) h
  = List.filter (fun c => negb (hasId theId c)) (listIn cs h).
Proof.
  unfold listIn. induction cs as [|a cs IH]; intros Hnd; [reflexivity|].
  simpl in Hnd. inversion Hnd as [|y m Hnotin Hnd']; subst. rewrite markIn_cons.
  destruct (hasId theId a) eqn:Ha.
  - simpl. unfold hasId in Ha. apply String.eqb_eq in Ha.
    assert (Hrest : List.filter (fun c => negb (hasId theId c))
                      (List.filter (listed h) cs) = List.filter (listed h) cs).
    { apply filter_all. intros x Hx. apply filter_In in Hx as [Hx _].
      unfold hasId. destruct (String.eqb_spec (id x) theId) as [He|]; [|reflexivity].
      exfalso. apply Hnotin. rewrite Ha, <- He. apply in_map. exact Hx. }
    destruct (listed h a); simpl.
    + unfold hasId at 1. rewrite Ha, String.eqb_refl. simpl. symmetry. exact Hrest.
    + symmetry. exact Hrest.
  - simpl. destruct (listed h a); simpl; [rewrite Ha; simpl; f_equal|]; apply IH, Hnd'.
Qed.

Lemma markIn_lookup env (cs : list ChestRecord) theId j c' :
  markIn env cs theId !! j = Some c' ->
  exists c, cs !! j = Some c /\ (c' = c \/ (c' = destroy env c /\ id c = theId)).
Proof.
  unfold markIn. destruct (findIndex (hasId theId) cs) as [i|] eqn:Hi; [|eauto].
  apply findIndex_Some in Hi as [[rec [Hrec Hid]] _]. rewrite Hrec.
  intros H. apply list_lookup_insert_Some in H as [[-> [<- _]] | [Hne H]].
  - exists rec. split; [exact Hrec|]. right. split; [reflexivity|].
    apply String.eqb_eq. exact Hid.
  - eauto.
Qed.

Lemma markIn_live env (cs : list ChestRecord) theId j r :
  List.NoDup (List.map id cs) ->
  markIn env cs theId !! j = Some r -> truthy (destroyed r) = false ->
  id r <> theId.
Proof.
  intros Hnd Hj Hlive Hid. unfold markIn in Hj.
  destruct (findIndex (hasId theId) cs) as [i|] eqn:Hi.
  - apply findIndex_Some in Hi as [[rec [Hrec Hrid]] _]. rewrite Hrec in Hj.
    apply String.eqb_eq in Hrid.
    apply list_lookup_insert_Some in Hj as [[-> [<- _]] | [Hne Hj]].
    + discriminate.
    + apply Hne. apply (NoDup_map_lookup id cs i j rec r Hnd Hrec Hj). congruence.
  - rewrite findIndex_None in Hi. specialize (Hi j r Hj).
    unfold hasId in Hi. apply String.eqb_neq in Hi. exact (Hi Hid).
Qed.

(** X3. A record marked destroyed stays in the store and answers no query:
    the number of records is unchanged; an unknown id changes nothing; and,
    ids being distinct, [listChests] gives what it gave before without the
    record of that id, and neither [getChestByLabel] nor
    [getChestByPosition] returns a record of that id. *)
Theorem markDestroyed_hides_the_record :
  forall (env : Env) (store : RootStore) (worldKey theId : string),
    let cs := chestsOf store worldKey in
    let store' := markDestroyed env store worldKey theId in
    length (chestsOf store' worldKey) = length cs /\
    ((forall j c, cs !! j = Some c -> id c <> theId) ->
     chestsOf store' worldKey = cs) /\
    (List.NoDup (List.map id cs) ->
     (forall h,
         snd (listChests store' worldKey h)
         = List.filter (fun c => negb (hasId theId c))
                       (snd (listChests store worldKey h))) /\
     (forall l r, snd (getChestByLabel store' worldKey l) = Some r -> id r <> theId) /\
     (forall pos r, snd (getChestByPosition store' worldKey pos) = Some r ->
                    id r <> theId)).
Proof.
  intros env store worldKey theId cs store'.
  pose proof (markDestroyed_chests env store worldKey theId) as Hcs.
  fold cs in Hcs. fold store' in Hcs.
  split; [|split].
  - rewrite Hcs. apply markIn_length.
  - intros Hnone. rewrite Hcs. unfold markIn.
    destruct (findIndex (hasId theId) cs) as [i|] eqn:Hi; [|reflexivity].
    apply findIndex_Some in Hi as [[rec [Hrec Hid]] _].
    apply String.eqb_eq in Hid. exfalso. exact (Hnone i rec Hrec Hid).
  - intros Hnd. split; [|split].
    + intros h. rewrite !listChests_snd, Hcs. apply markIn_listIn, Hnd.
    + intros l r. rewrite getChestByLabel_snd, Hcs. intros H.
      apply byLabelIn_visible in H as [Hin [_ [Hd _]]].
      apply list_elem_of_In, list_elem_of_lookup in Hin as [j Hj].
      exact (markIn_live env cs theId j r Hnd Hj Hd).
    + intros pos r. rewrite getChestByPosition_snd, Hcs. intros H.
      apply byPositionIn_spec in H as [j [Hj [Hd _]]].
      exact (markIn_live env cs theId j r Hnd Hj Hd).
Qed.

Lemma markDestroyed_hides_the_record_witness :
  snd (listChests (markDestroyed clock2 vaultStore overworld "chest-1") overworld true) = [] /\
  snd (getChestByPosition (markDestroyed clock2 vaultStore overworld "chest-1")
         overworld (mkPos 10 64 10)) = None /\
  length (chestsOf (markDestroyed clock2 vaultStore overworld "chest-1") overworld) = 1%nat.
Proof.
  destruct (markDestroyed_hides_the_record clock2 vaultStore overworld "chest-1")
    as [Hlen [_ H]].
  destruct H as [Hlist [_ Hpos]].
  { vm_compute. repeat constructor. intros []. }
  split; [|split].
  - rewrite Hlist. reflexivity.
  - destruct (snd (getChestByPosition (markDestroyed clock2 vaultStore overworld "chest-1")
                     overworld (mkPos 10 64 10))) as [r|] eqn:Hr; [|reflexivity].
    exfalso. revert Hr. vm_compute. discriminate.
  - exact Hlen.
Defined.

(** *** Soft delete and merge *)

Lemma findIndex_ext {A : Type} (p q : A -> bool) (l l' : list A) :
  length l = length l' ->
  (forall j a b, l !! j = Some a -> l' !! j = Some b -> p a = q b) ->
  findIndex p l = findIndex q l'.
Proof.
  revert l'. induction l as [|a l IH]; intros [|b l'] Hlen H; try discriminate.
  - reflexivity.
  - simpl. rewrite (H O a b eq_refl eq_refl). destruct (q b); [reflexivity|].
    f_equal. apply IH; [simpl in Hlen; lia|].
    intros j x y Hx Hy. exact (H (S j) x y Hx Hy).
Qed.

Lemma existingIndex_markIn env (cs : list ChestRecord) theId record :
  existingIndex (markIn env cs theId) record = existingIndex cs record.
Proof.
  unfold existingIndex. f_equal.
  - apply findIndex_ext; [apply markIn_length|].
    intros j a b Ha Hb. destruct (markIn_lookup env cs theId j a Ha) as [c [Hc Hcase]].
    rewrite Hc in Hb. injection Hb as <-.
    destruct Hcase as [-> | [-> _]]; reflexivity.
  - apply findIndex_ext; [apply markIn_length|].
    intros j a b Ha Hb. destruct (markIn_lookup env cs theId j a Ha) as [c [Hc Hcase]].
    rewrite Hc in Hb. injection Hb as <-.
    destruct Hcase as [-> | [-> _]]; reflexivity.
Qed.

(** X4. A destroyed record still takes part in the merge of [upsertChest]:
    the record found is the one found had nothing been destroyed, and an
    upsert that finds the destroyed record makes it live again under the
    id and creation time it had. *)
Theorem upsertChest_revives_destroyed :
  forall (env env2 : Env) (store : RootStore) (worldKey theId : string)
         (record : ChestRecord),
    let cs := chestsOf store worldKey in
    let store1 := markDestroyed env store worldKey theId in
    let store2 := fst (upsertChest env2 store1 worldKey record) in
    let saved := snd (upsertChest env2 store1 worldKey record) in
    existingIndex (chestsOf store1 worldKey) record = existingIndex cs record /\
    (forall i c,
        existingIndex cs record = Some i -> cs !! i = Some c ->
        chestsOf store2 worldKey !! i = Some saved /\
        id saved = id c /\ createdAt saved = createdAt c /\
        destroyed saved = Some false /\
        length (chestsOf store2 worldKey) = length cs /\
        (truthy (forbidden record) = false ->
         In saved (snd (listChests store2 worldKey true)))).
Proof.
  intros env env2 store worldKey theId record cs store1 store2 saved.
  pose proof (markDestroyed_chests env store worldKey theId) as Hcs1.
  fold cs in Hcs1. fold store1 in Hcs1.
  destruct (upsertChest_chests env2 store1 worldKey record) as [Hcs2 Hsaved].
  fold store2 in Hcs2. fold saved in Hsaved. rewrite Hcs1 in Hcs2, Hsaved.
  split; [rewrite Hcs1; apply existingIndex_markIn|].
  intros i c Hi Hc.
  assert (Hi' : existingIndex (markIn env cs theId) record = Some i)
    by (rewrite existingIndex_markIn; exact Hi).
  destruct (existingIndex_lookup _ _ _ Hi') as [c1 [Hc1 _]].
  rewrite (upsertIn_found env2 _ record i c1 Hi' Hc1) in Hcs2, Hsaved.
  simpl in Hcs2, Hsaved.
  destruct (markIn_lookup env cs theId i c1 Hc1) as [c0 [Hc0 Hcase]].
  rewrite Hc in Hc0. injection Hc0 as <-.
  assert (Hlook : chestsOf store2 worldKey !! i = Some saved).
  { rewrite Hcs2, Hsaved. apply list_lookup_insert_eq.
    apply lookup_lt_Some in Hc1. exact Hc1. }
  split; [exact Hlook|].
  split; [rewrite Hsaved; destruct Hcase as [-> | [-> _]]; reflexivity|].
  split; [rewrite Hsaved; destruct Hcase as [-> | [-> _]]; reflexivity|].
  split; [rewrite Hsaved; reflexivity|].
  split; [rewrite Hcs2, length_insert; apply markIn_length|].
  intros Hf. rewrite listChests_snd. unfold listIn. apply filter_In. split.
  - apply list_elem_of_In, list_elem_of_lookup. eauto.
  - rewrite Hsaved. unfold listed. simpl. rewrite Hf. reflexivity.
Qed.

Lemma upsertChest_revives_destroyed_witness :
  let store1 := markDestroyed clock1 vaultStore overworld "chest-1" in
  let again := labelRecord "vault" false double_chest
                 [mkPos 10 64 10; mkPos 11 64 10] (mkPos 10 64 10) in
  id (snd (upsertChest clock2 store1 overworld again)) = "chest-1" /\
  destroyed (snd (upsertChest clock2 store1 overworld again)) = Some false /\
  length (chestsOf (fst (upsertChest clock2 store1 overworld again)) overworld) = 1%nat.
Proof.
  intros store1 again.
  destruct (upsertChest_revives_destroyed clock1 clock2 vaultStore overworld "chest-1" again)
    as [_ H].
  destruct (H O vaultRecord eq_refl eq_refl) as [_ [Hid [_ [Hd [Hlen _]]]]].
  split; [exact Hid|]. split; [exact Hd | exact Hlen].
Defined.

(** *** Upsert, then look up *)

Lemma upsertIn_saved_at env (cs : list ChestRecord) record :
  exists i,
    fst (upsertIn env cs record) !! i = Some (snd (upsertIn env cs record)) /\
    (existingIndex cs record = Some i \/
     (existingIndex cs record = None /\ i = length cs)) /\
    (forall j c, j <> i -> fst (upsertIn env cs record) !! j = Some c ->
                 cs !! j = Some c).
Proof.
  destruct (existingIndex cs record) as [i|] eqn:Hi.
  - destruct (existingIndex_lookup _ _ _ Hi) as [c [Hc _]].
    rewrite (upsertIn_found env cs record i c Hi Hc). simpl. exists i.
    split; [apply list_lookup_insert_eq; apply lookup_lt_Some in Hc; exact Hc|].
    split; [left; reflexivity|].
    intros j b Hne Hb. rewrite list_lookup_insert_ne in Hb by auto. exact Hb.
  - rewrite (upsertIn_new env cs record Hi). simpl. exists (length cs).
    split; [rewrite lookup_app_r by lia; rewrite Nat.sub_diag; reflexivity|].
    split; [right; auto|].
    intros j b Hne Hb. apply lookup_snoc_Some in Hb as [[_ Hb] | [-> _]];
      [exact Hb | congruence].
Qed.

Lemma existingIndex_None_labels (cs : list ChestRecord) record j c :
  existingIndex cs record = None -> cs !! j = Some c ->
  sameLabel (normOf record) c = false.
Proof.
  unfold existingIndex. fold (normOf record).
  destruct (findIndex (sameLabel (normOf record)) cs) eqn:Hl; [discriminate|].
  intros _ Hc. rewrite findIndex_None in Hl. exact (Hl j c Hc).
Qed.

Lemma byLabel_after_upsert :
  forall (env : Env) (store : RootStore) (worldKey : string) (record : ChestRecord)
         (l : string),
    let store1 := fst (upsertChest env store worldKey record) in
    let saved := snd (upsertChest env store worldKey record) in
    normalizeLabel (label record) = label record ->
    truthy (forbidden record) = false ->
    JsString.toLowerCase (normalizeLabel l) = normOf record ->
    snd (getChestByLabel store1 worldKey l) = Some saved.
Proof.
  intros env store worldKey record l store1 saved Htrim Hf Hl.
  destruct (upsertChest_chests env store worldKey record) as [Hcs Hsaved].
  fold store1 in Hcs. fold saved in Hsaved.
  set (cs := chestsOf store worldKey) in *.
  rewrite getChestByLabel_snd, Hcs. unfold byLabelIn. rewrite Hl.
  apply jsFind_Some.
  destruct (upsertIn_saved_at env cs record) as [i [Hi [Hcase Hothers]]].
  rewrite <- Hsaved in Hi.
  assert (Hvis : labelVisible (normOf record) saved = true).
  { rewrite Hsaved. unfold upsertIn.
    destruct (existingIndex cs record) as [k|] eqn:Hk.
    - destruct (existingIndex_lookup _ _ _ Hk) as [c [Hc _]]. rewrite Hc. simpl.
      unfold labelVisible. simpl. rewrite Hf. simpl.
      unfold normOf. apply String.eqb_refl.
    - simpl. unfold labelVisible. simpl. rewrite Hf. simpl.
      unfold normOf. rewrite Htrim. apply String.eqb_refl. }
  exists i. split; [exact Hi|]. split; [exact Hvis|].
  intros j b Hj Hb.
  assert (Hb0 : cs !! j = Some b) by (apply Hothers; [lia | exact Hb]).
  assert (Hs : sameLabel (normOf record) b = false).
  { destruct Hcase as [Hsome | [Hnone _]].
    - unfold existingIndex in Hsome. fold (normOf record) in Hsome.
      destruct (findIndex (sameLabel (normOf record)) cs) as [k|] eqn:Hk.
      + simpl in Hsome. injection Hsome as ->.
        apply findIndex_Some in Hk as [_ Hbefore]. exact (Hbefore j b Hj Hb0).
      + rewrite findIndex_None in Hk. exact (Hk j b Hb0).
    - exact (existingIndex_None_labels cs record j b Hnone Hb0). }
  unfold labelVisible. unfold sameLabel in Hs. rewrite Hs. apply andb_false_r.
Qed.

(** X5. After [upsertChest] of a record that is not forbidden and whose label
    is trimmed, [getChestByLabel] with any label of the same key returns
    the record saved. *)
Theorem upsertChest_then_getChestByLabel :
  forall (env : Env) (store : RootStore) (worldKey : string) (record : ChestRecord)
         (l : string),
    let store1 := fst (upsertChest env store worldKey record) in
    let saved := snd (upsertChest env store worldKey record) in
    normalizeLabel (label record) = label record ->
    truthy (forbidden record) = false ->
    JsString.toLowerCase (normalizeLabel l) = normOf record ->
    snd (getChestByLabel store1 worldKey l) = Some saved.
Proof. exact byLabel_after_upsert. Qed.

Lemma upsertChest_then_getChestByLabel_witness :
  snd (getChestByLabel
         (fst (upsertChest clock1 emptyStore overworld
                 (labelRecord "Iron Stash" false single_chest
                    [mkPos 5 70 5] (mkPos 5 70 5))))
         overworld "  iron stash ")
  = Some (snd (upsertChest clock1 emptyStore overworld
                 (labelRecord "Iron Stash" false single_chest
                    [mkPos 5 70 5] (mkPos 5 70 5)))).
Proof.
  apply upsertChest_then_getChestByLabel; reflexivity.
Defined.

Lemma byPosition_after_upsert :
  forall (env : Env) (store : RootStore) (worldKey : string) (record : ChestRecord)
         (pos : StoredPosition),
    let cs := chestsOf store worldKey in
    let store1 := fst (upsertChest env store worldKey record) in
    let saved := snd (upsertChest env store worldKey record) in
    In pos (positions record) ->
    (forall j c, cs !! j = Some c -> covers pos c = true ->
                 existingIndex cs record = Some j) ->
    snd (getChestByPosition store1 worldKey pos) = Some saved.
Proof.
  intros env store worldKey record pos cs store1 saved Hin Honly.
  destruct (upsertChest_chests env store worldKey record) as [Hcs Hsaved].
  fold store1 in Hcs. fold saved in Hsaved. fold cs in Hcs, Hsaved.
  rewrite getChestByPosition_snd, Hcs. unfold byPositionIn. apply jsFind_Some.
  destruct (upsertIn_saved_at env cs record) as [i [Hi [Hcase Hothers]]].
  rewrite <- Hsaved in Hi.
  assert (Hcov : covers pos saved = true).
  { apply covers_spec. rewrite Hsaved. unfold upsertIn.
    destruct (existingIndex cs record) as [k|] eqn:Hk.
    - destruct (existingIndex_lookup _ _ _ Hk) as [c [Hc _]]. rewrite Hc. simpl. auto.
    - simpl. auto. }
  exists i. split; [exact Hi|]. split; [exact Hcov|].
  intros j b Hj Hb.
  assert (Hb0 : cs !! j = Some b) by (apply Hothers; [lia | exact Hb]).
  destruct (covers pos b) eqn:Hc; [|reflexivity]. exfalso.
  specialize (Honly j b Hb0 Hc).
  destruct Hcase as [Hsome | [Hnone _]]; [|congruence].
  rewrite Hsome in Honly. injection Honly as ->. lia.
Qed.

(** X6. After [upsertChest], [getChestByPosition] at a member coordinate of
    the record returns the record saved, when the only live record that
    held the coordinate before is the one merged into. *)
Theorem upsertChest_then_getChestByPosition :
  forall (env : Env) (store : RootStore) (worldKey : string) (record : ChestRecord)
         (pos : StoredPosition),
    let cs := chestsOf store worldKey in
    let store1 := fst (upsertChest env store worldKey record) in
    let saved := snd (upsertChest env store worldKey record) in
    In pos (positions record) ->
    (forall j c, cs !! j = Some c -> covers pos c = true ->
                 existingIndex cs record = Some j) ->
    snd (getChestByPosition store1 worldKey pos) = Some saved.
Proof. exact byPosition_after_upsert. Qed.

Lemma upsertChest_then_getChestByPosition_witness :
  snd (getChestByPosition
         (fst (upsertChest clock2 vaultStore overworld
                 (labelRecord "vault" true double_chest
                    [mkPos 10 64 10; mkPos 11 64 10] (mkPos 10 64 10))))
         overworld (mkPos 11 64 10))
  = Some (snd (upsertChest clock2 vaultStore overworld
                 (labelRecord "vault" true double_chest
                    [mkPos 10 64 10; mkPos 11 64 10] (mkPos 10 64 10)))).
Proof.
  apply upsertChest_then_getChestByPosition.
  - simpl. auto.
  - intros j c Hc _. destruct j as [|j]; [reflexivity|]. discriminate.
Defined.

(** *** Worlds *)

Lemma chestsOf_setWorld_other store worldKey other ws :
  other <> worldKey -> chestsOf (setWorld store worldKey ws) other = chestsOf store other.
Proof.
  intros Hne. unfold chestsOf, setWorld; simpl.
  rewrite lookup_insert_ne by auto. reflexivity.
Qed.

Lemma chestsOf_ensureWorld store worldKey w :
  chestsOf (fst (ensureWorld store worldKey)) w = chestsOf store w.
Proof.
  unfold ensureWorld. destruct (worlds store !! worldKey) as [ws|] eqn:Hw; simpl.
  - reflexivity.
  - unfold chestsOf, setWorld; simpl. destruct (decide (w = worldKey)) as [-> | Hne].
    + rewrite lookup_insert_eq, Hw. reflexivity.
    + rewrite lookup_insert_ne by auto. reflexivity.
Qed.

(** X7. The queries change the records of no world, and [upsertChest],
    [removeChest] and [markDestroyed] change the records of no world but
    the one they are called for. *)
Theorem worlds_are_separate :
  forall (env : Env) (store : RootStore) (worldKey : string),
    (forall w h l pos,
        chestsOf (fst (listChests store worldKey h)) w = chestsOf store w /\
        chestsOf (fst (getChestByLabel store worldKey l)) w = chestsOf store w /\
        chestsOf (fst (getChestByPosition store worldKey pos)) w = chestsOf store w) /\
    (forall other record key theId,
        other <> worldKey ->
        chestsOf (fst (upsertChest env store worldKey record)) other
        = chestsOf store other /\
        chestsOf (fst (removeChest store worldKey key)) other = chestsOf store other /\
        chestsOf (markDestroyed env store worldKey theId) other = chestsOf store other).
Proof.
  intros env store worldKey. split.
  - intros w h l pos.
    pose proof (chestsOf_ensureWorld store worldKey w) as He.
    unfold listChests, getChestByLabel, getChestByPosition.
    destruct (ensureWorld store worldKey) as [st ws]; simpl in *. auto.
  - intros other record key theId Hne.
    pose proof (chestsOf_ensureWorld store worldKey other) as He.
    unfold upsertChest, removeChest, markDestroyed.
    destruct (ensureWorld store worldKey) as [st ws]; simpl in He.
    split; [|split].
    + destruct (upsertIn env (chests ws) record) as [cs r]. simpl.
      rewrite chestsOf_setWorld_other by exact Hne. exact He.
    + destruct (removeIn (chests ws) key) as [cs [|]]; simpl; [|exact He].
      rewrite chestsOf_setWorld_other by exact Hne. exact He.
    + rewrite chestsOf_setWorld_other by exact Hne. exact He.
Qed.

Lemma worlds_are_separate_witness :
  chestsOf (fst (upsertChest clock2 vaultStore "localhost:25565:the_nether"
                   (labelRecord "Lava" false barrel [mkPos 0 0 0] (mkPos 0 0 0))))
           overworld
  = [vaultRecord].
Proof.
  destruct (worlds_are_separate clock2 vaultStore "localhost:25565:the_nether")
    as [_ H].
  destruct (H overworld (labelRecord "Lava" false barrel [mkPos 0 0 0] (mkPos 0 0 0))
              "" "") as [Hu _]; [discriminate|].
  rewrite Hu. reflexivity.
Defined.

(** X8. [getWorldKey] tells the dimensions of one server apart. *)
Theorem getWorldKey_separates_dimensions :
  forall (bot1 bot2 : Connection),
    hostOf bot1 = hostOf bot2 -> portOf bot1 = portOf bot2 ->
    (getWorldKey bot1 = getWorldKey bot2 <-> dimensionOf bot1 = dimensionOf bot2).
Proof.
  intros bot1 bot2 Hh Hp. unfold getWorldKey. rewrite Hh, Hp. split.
  - intros H. repeat apply String.app_inj in H. exact H.
  - intros ->. reflexivity.
Qed.

Lemma getWorldKey_separates_dimensions_witness :
  getWorldKey (mkConnection None None None None None) = "localhost:25565:overworld" /\
  (getWorldKey (mkConnection None (Some "mc.example.org") (Some 25570) None (Some "the_nether"))
   = getWorldKey (mkConnection None (Some "mc.example.org") (Some 25570) None None)
   <-> "the_nether" = "overworld").
Proof.
  split; [reflexivity|].
  exact (getWorldKey_separates_dimensions
           (mkConnection None (Some "mc.example.org") (Some 25570) None (Some "the_nether"))
           (mkConnection None (Some "mc.example.org") (Some 25570) None None)
           eq_refl eq_refl).
Defined.

(** *** The hidden-chest note of list_chests *)

Definition hiddenListed (c : ChestRecord) : bool :=
  negb (truthy (destroyed c)) && truthy (hidden c) && negb (truthy (forbidden c)).

Lemma listed_cases (a : ChestRecord) :
  (listed true a = true /\ listed false a = true /\ hiddenListed a = false /\
   truthy (hidden a) = false) \/
  (listed true a = true /\ listed false a = false /\ hiddenListed a = true /\
   truthy (hidden a) = true) \/
  (listed true a = false /\ listed false a = false /\ hiddenListed a = false).
Proof.
  unfold listed, hiddenListed.
  destruct (truthy (destroyed a)), (truthy (hidden a)), (truthy (forbidden a));
    simpl; auto 10.
Qed.

Lemma listIn_hidden_split (cs : list ChestRecord) :
  length (listIn cs true)
  = (length (listIn cs false) + length (List.filter hiddenListed cs))%nat.
Proof.
  unfold listIn. induction cs as [|a cs IH]; [reflexivity|]. simpl.
  destruct (listed_cases a) as [[-> [-> [-> _]]] | [[-> [-> [-> _]]] | [-> [-> ->]]]];
    simpl; lia.
Qed.

Lemma listIn_without_hidden (cs : list ChestRecord) :
  listIn cs false
  = List.filter (fun c => negb (truthy (hidden c))) (listIn cs true).
Proof.
  unfold listIn. induction cs as [|a l IH]; [reflexivity|]. simpl.
  destruct (listed_cases a) as [[-> [-> [_ Hh]]] | [[-> [-> [_ Hh]]] | [-> [-> _]]]];
    simpl; rewrite ?Hh; simpl; rewrite ?IH; reflexivity.
Qed.

(** X9. The count [list_chests] reports as hidden is the number of records
    that are hidden and neither destroyed nor forbidden (zero when hidden
    chests are asked for), and the records listed without the hidden ones
    are the records listed with them that are not hidden. *)
Theorem list_chests_hidden_count :
  forall (store : RootStore) (worldKey : string),
    let cs := chestsOf store worldKey in
    snd (hiddenCount store worldKey true) = 0 /\
    snd (hiddenCount store worldKey false)
    = Z.of_nat (length (List.filter hiddenListed cs)) /\
    (hiddenNoteShown false (snd (hiddenCount store worldKey false)) = true <->
     exists c, In c cs /\ hiddenListed c = true) /\
    snd (listChests store worldKey false)
    = List.filter (fun c => negb (truthy (hidden c))) (snd (listChests store worldKey true)).
Proof.
  intros store worldKey cs.
  assert (Hcount : forall h,
            snd (hiddenCount store worldKey h)
            = Z.max (Z.of_nat (length (listIn cs true))
                     - Z.of_nat (length (listIn cs h))) 0).
  { intros h. unfold hiddenCount.
    pose proof (listChests_snd store worldKey h) as H1.
    pose proof (chestsOf_ensureWorld store worldKey worldKey) as H2.
    unfold listChests in *.
    destruct (ensureWorld store worldKey) as [st ws]; simpl in *.
    pose proof (ensureWorld_chests st worldKey) as [H3 _].
    destruct (ensureWorld st worldKey) as [st2 ws2]; simpl in *.
    rewrite H1, H3, H2. reflexivity. }
  split; [|split; [|split]].
  - rewrite Hcount. lia.
  - rewrite Hcount, listIn_hidden_split. lia.
  - rewrite Hcount, listIn_hidden_split. unfold hiddenNoteShown. simpl.
    rewrite Z.ltb_lt. split.
    + intros H. destruct (List.filter hiddenListed cs) as [|c l] eqn:Hf.
      * simpl in H. lia.
      * exists c. apply filter_In. rewrite Hf. left. reflexivity.
    + intros [c Hc]. apply filter_In in Hc.
      destruct (List.filter hiddenListed cs); [destruct Hc | simpl; lia].
  - rewrite !listChests_snd. apply listIn_without_hidden.
Qed.
End RegistryFacts.

(** ** Slot accounting: the summary, the free-slot count and [countInContainerByName] *)

Section SummaryFacts.
Import ChestUtils.

(** [summary[key]] on the entries of a summary. *)
Fixpoint entryOf (key : string) (summary : list (string * Z)) : option Z :=
  match summary with
  | [] => None
  | (k, v) :: rest => if String.eqb k key then Some v else entryOf key rest
  end.

Lemma entryOf_bump_same key n summary :
  entryOf key (bump key n summary) = Some (default 0 (entryOf key summary) + n).
Proof.
  induction summary as [|[k v] rest IH]; simpl.
  - rewrite String.eqb_refl. reflexivity.
  - destruct (String.eqb_spec k key) as [-> | Hne]; simpl.
    + rewrite String.eqb_refl. reflexivity.
    + apply String.eqb_neq in Hne. rewrite Hne. exact IH.
Qed.

Lemma entryOf_bump_other key key' n summary :
  key' <> key -> entryOf key' (bump key n summary) = entryOf key' summary.
Proof.
  intros Hne. induction summary as [|[k v] rest IH]; simpl.
  - destruct (String.eqb_spec key key'); [congruence | reflexivity].
  - destruct (String.eqb_spec k key) as [-> | Hk]; simpl.
    + destruct (String.eqb_spec key key'); [congruence | reflexivity].
    + rewrite IH. reflexivity.
Qed.

Lemma bump_keys key n summary k :
  In k (List.map fst (bump key n summary)) <-> k = key \/ In k (List.map fst summary).
Proof.
  induction summary as [|[k0 v] rest IH]; simpl.
  - intuition.
  - destruct (String.eqb_spec k0 key) as [-> | Hne]; simpl.
    + intuition.
    + rewrite IH. intuition.
Qed.

Lemma bump_NoDup key n summary :
  List.NoDup (List.map fst summary) -> List.NoDup (List.map fst (bump key n summary)).
Proof.
  induction summary as [|[k0 v] rest IH]; simpl; intros Hnd.
  - constructor; [intros [] | constructor].
  - inversion Hnd as [|x l Hnotin Hnd']; subst.
    destruct (String.eqb_spec k0 key) as [-> | Hne]; simpl.
    + constructor; assumption.
    + constructor; [|apply IH, Hnd'].
      rewrite bump_keys. intros [-> | Hin]; [congruence | exact (Hnotin Hin)].
Qed.

Lemma bump_not_nil key n summary : bump key n summary <> [].
Proof.
  destruct summary as [|[k v] rest]; simpl; [discriminate|].
  destruct (String.eqb k key); discriminate.
Qed.

Section Folds.
Variable read : Z -> option Item.

Definition summaryStep (summary : list (string * Z)) (i : Z) : list (string * Z) :=
  match read i with
  | None => summary
  | Some it => bump (name it) (count it) summary
  end.

Definition countStep (wanted : string) (total : Z) (i : Z) : Z :=
  match read i with
  | Some it => if String.eqb (name it) wanted then total + count it else total
  | None => total
  end.

Lemma fold_summary_entry (wanted : string) (l : list Z) (summary : list (string * Z)) :
  default 0 (entryOf wanted (List.fold_left summaryStep l summary))
  = List.fold_left (countStep wanted) l (default 0 (entryOf wanted summary)).
Proof.
  revert summary. induction l as [|i l IH]; intros summary; [reflexivity|]. simpl.
  rewrite IH. f_equal. unfold summaryStep, countStep.
  destruct (read i) as [it|]; [|reflexivity].
  destruct (String.eqb_spec (name it) wanted) as [-> | Hne].
  - rewrite entryOf_bump_same. reflexivity.
  - rewrite entryOf_bump_other by congruence. reflexivity.
Qed.

Lemma fold_summary_absent (wanted : string) (l : list Z) (summary : list (string * Z)) :
  entryOf wanted (List.fold_left summaryStep l summary) = None <->
  entryOf wanted summary = None /\
  (forall i it, In i l -> read i = Some it -> name it <> wanted).
Proof.
  revert summary. induction l as [|i l IH]; intros summary; simpl.
  - intuition.
  - rewrite IH. unfold summaryStep at 1. destruct (read i) as [it|] eqn:Hr.
    + destruct (String.eqb_spec (name it) wanted) as [He | Hne].
      * rewrite He, entryOf_bump_same. split; [intros [H _]; discriminate|].
        intros [_ H]. exfalso. exact (H i it (or_introl eq_refl) Hr He).
      * rewrite entryOf_bump_other by congruence. split.
        -- intros [H1 H2]. split; [exact H1|].
           intros j jt [<- | Hj] Hrj; [congruence | exact (H2 j jt Hj Hrj)].
        -- intros [H1 H2]. split; [exact H1|]. intros j jt Hj. apply H2. right. exact Hj.
    + split.
      * intros [H1 H2]. split; [exact H1|].
        intros j jt [<- | Hj] Hrj; [congruence | exact (H2 j jt Hj Hrj)].
      * intros [H1 H2]. split; [exact H1|]. intros j jt Hj. apply H2. right. exact Hj.
Qed.

Lemma fold_summary_NoDup (l : list Z) (summary : list (string * Z)) :
  List.NoDup (List.map fst summary) ->
  List.NoDup (List.map fst (List.fold_left summaryStep l summary)).
Proof.
  revert summary. induction l as [|i l IH]; intros summary Hnd; [exact Hnd|]. simpl.
  apply IH. unfold summaryStep. destruct (read i); [apply bump_NoDup|]; exact Hnd.
Qed.

Lemma fold_summary_nil (l : list Z) (summary : list (string * Z)) :
  List.fold_left summaryStep l summary = [] <->
  summary = [] /\ (forall i, In i l -> read i = None).
Proof.
  revert summary. induction l as [|i l IH]; intros summary; simpl.
  - intuition.
  - rewrite IH. unfold summaryStep at 1. destruct (read i) as [it|] eqn:Hr.
    + split.
      * intros [H _]. exfalso. exact (bump_not_nil _ _ _ H).
      * intros [_ H]. specialize (H i (or_introl eq_refl)). congruence.
    + split.
      * intros [H1 H2]. split; [exact H1|]. intros j [<- | Hj]; auto.
      * intros [H1 H2]. split; [exact H1|]. intros j Hj. apply H2. right. exact Hj.
Qed.

Definition freeStep (free : Z) (i : Z) : Z :=
  match read i with
  | None => free + 1
  | Some _ => free
  end.

Lemma fold_free_bounds (l : list Z) (free : Z) :
  free <= List.fold_left freeStep l free <= free + Z.of_nat (length l) /\
  (List.fold_left freeStep l free = free + Z.of_nat (length l) <->
   forall i, In i l -> read i = None).
Proof.
  revert free. induction l as [|i l IH]; intros free.
  - simpl. split; [lia|]. split; [intros _ i [] | lia].
  - cbn [List.fold_left length].
    assert (Hstep : freeStep free i
                    = match read i with None => free + 1 | Some _ => free end)
      by reflexivity.
    destruct (read i) as [it|] eqn:Hr; rewrite Hstep.
    + destruct (IH free) as [Hb Heq]. split; [lia|]. split.
      * intros H. exfalso. lia.
      * intros H. specialize (H i (or_introl eq_refl)). congruence.
    + destruct (IH (free + 1)) as [Hb Heq]. split; [lia|]. split.
      * intros H j [<- | Hj]; [exact Hr|]. apply Heq; [lia | exact Hj].
      * intros H.
        assert (Hl : forall j, In j l -> read j = None)
          by (intros j Hj; apply H; right; exact Hj).
        apply Heq in Hl. lia.
Qed.
End Folds.

Lemma loopIndices_length (a b : Z) :
  Z.of_nat (length (loopIndices a b)) = Z.max 0 (b - a).
Proof. unfold loopIndices. rewrite length_map, length_seq. lia. Qed.

(** X10. The summary of a container has one entry per item name, and the
    count it gives for a name is the count [countInContainerByName] gives;
    a name has no entry exactly when no slot of the container region holds
    an item of that name. *)
Theorem summary_agrees_with_countInContainerByName :
  forall (window : Window) (wanted : string),
    let summary := summarizeContainerContents window in
    List.NoDup (List.map fst summary) /\
    default 0 (entryOf wanted summary) = Withdraw.countInContainerByName window wanted /\
    (entryOf wanted summary = None <->
     forall i it, In i (slotReads window) -> slotAt window i = Some it ->
                  name it <> wanted).
Proof.
  intros window wanted summary. unfold summary, summarizeContainerContents,
    summarizeWith, Withdraw.countInContainerByName, Withdraw.countByNameWith, slotReads.
  split; [|split].
  - apply (fold_summary_NoDup (slotAt window)). constructor.
  - exact (fold_summary_entry (slotAt window) wanted _ []).
  - rewrite (fold_summary_absent (slotAt window) wanted _ []). simpl. intuition.
Qed.

(** X11. The number of free slots lies between 0 and the container size (0
    when that is negative), and it reaches it exactly when the summary is
    empty. *)
Theorem free_slots_within_container_size :
  forall (window : Window),
    let size := containerSize (getContainerSlotInfo window) in
    0 <= countFreeContainerSlots window <= Z.max 0 size /\
    (countFreeContainerSlots window = Z.max 0 size <->
     summarizeContainerContents window = []).
Proof.
  intros window size.
  set (info := getContainerSlotInfo window).
  set (l := loopIndices (containerStart info) (containerEnd info)).
  assert (Hlen : Z.of_nat (length l) = Z.max 0 size).
  { unfold l. rewrite loopIndices_length. reflexivity. }
  destruct (fold_free_bounds (slotAt window) l 0) as [Hb Heq].
  change (List.fold_left (freeStep (slotAt window)) l 0)
    with (countFreeContainerSlots window) in Hb, Heq.
  split; [lia|].
  rewrite <- Hlen. rewrite Heq.
  unfold summarizeContainerContents, summarizeWith. fold info. fold l.
  rewrite (fold_summary_nil (slotAt window) l []). intuition.
Qed.
End SummaryFacts.

(** ** Classification: what detectContainerAt and openContainerAt return *)

Section ClassifyFacts.
Import ChestUtils.

Lemma isContainerBlockName_unfold (nm : string) :
  isContainerBlockName nm
  = (String.eqb nm "chest" || String.eqb nm "trapped_chest"
     || String.eqb nm "barrel" || String.eqb nm "ender_chest"
     || JsString.endsWith nm "_shulker_box" || String.eqb nm "shulker_box").
Proof. destruct nm; reflexivity. Qed.

Lemma jsFind_In {A : Type} (p : A -> bool) (l : list A) (a : A) :
  jsFind p l = Some a -> In a l /\ p a = true.
Proof.
  intros H. apply jsFind_Some in H as [i [Hi [Hp _]]]. split; [|exact Hp].
  apply list_elem_of_In, list_elem_of_lookup. eauto.
Qed.

Lemma namedAt_true (bot : Bot) (nm : string) (m : Vec3) :
  namedAt bot nm m = true -> bot m = Some nm.
Proof.
  unfold namedAt. destruct (bot m) as [s|]; [|discriminate].
  intros H. apply String.eqb_eq in H. congruence.
Qed.

(** One block, or the block and one neighbour of the same name, smaller
    one first. *)
Definition wellShaped (bot : Bot) (pos : Vec3) (d : DetectedContainer) : Prop :=
  primary d = List.hd pos (positions d) /\
  (positions d = [pos] \/
   exists m, In m (adjPositions pos) /\ bot m = bot pos /\
             ((positions d = [pos; m] /\ lexLt pos m) \/
              (positions d = [m; pos] /\ lexLt m pos))).

Ltac shape_facts :=
  repeat split; auto; try discriminate; try congruence;
  try (intros; subst; discriminate).

Lemma detect_shape (bot : Bot) (pos : Vec3) (d : DetectedContainer) :
  detectContainerAt bot pos = inr d ->
  (exists nm, bot pos = Some nm /\ isContainerBlockName nm = true /\
     (type d = ChestStore.double_chest ->
      nm = "chest" /\ length (positions d) = 2%nat) /\
     (nm = "chest" -> length (positions d) = 2%nat ->
      type d = ChestStore.double_chest)) /\
  type d <> ChestStore.container /\
  wellShaped bot pos d.
Proof.
  unfold detectContainerAt, wellShaped.
  destruct (bot pos) as [nm|] eqn:Hpos; [|discriminate].
  destruct (String.eqb nm "chest" || String.eqb nm "trapped_chest") eqn:Hpair;
    cbv iota.
  - assert (Hcont : isContainerBlockName nm = true).
    { rewrite isContainerBlockName_unfold, Hpair. reflexivity. }
    assert (Htype : (if String.eqb nm "chest" then ChestStore.double_chest
                     else ChestStore.trapped_chest) = ChestStore.double_chest <->
                    nm = "chest").
    { destruct (String.eqb_spec nm "chest") as [e|n]; simpl; split; intros H;
        try reflexivity; try assumption; try discriminate; exfalso; exact (n H). }
    assert (Htype1 : (if String.eqb nm "chest" then ChestStore.single_chest
                      else ChestStore.trapped_chest) <> ChestStore.double_chest).
    { destruct (String.eqb nm "chest"); discriminate. }
    destruct (jsFind (namedAt bot nm) (adjPositions pos)) as [m|] eqn:Hm.
    + apply jsFind_In in Hm as [Hin Hnamed]. apply namedAt_true in Hnamed.
      pose proof (adjacent_ne pos m Hin) as Hne.
      destruct (sortBy_pair_sorted pos m (not_eq_sym Hne)) as [lo [hi [Hs [Hset Hlt]]]].
      rewrite Hs. intros [= <-]. cbn [type positions primary List.hd length].
      split; [exists nm; split; [reflexivity|]; split; [exact Hcont|]; split|].
      * intros Ht. apply Htype in Ht. auto.
      * intros Hn _. apply Htype. exact Hn.
      * split; [destruct (String.eqb nm "chest"); discriminate|].
        split; [reflexivity|]. right. exists m. split; [exact Hin|].
        split; [congruence|].
        destruct Hset as [[-> ->] | [-> ->]]; auto.
    + intros [= <-]. cbn [type positions primary List.hd length].
      split; [exists nm; split; [reflexivity|]; split; [exact Hcont|]; split|].
      * intros Ht. exfalso. exact (Htype1 Ht).
      * intros _ Hl. discriminate.
      * split; [destruct (String.eqb nm "chest"); discriminate|]. auto.
  - apply orb_false_iff in Hpair as [Hc Ht].
    assert (Hnc : nm <> "chest") by (apply String.eqb_neq; exact Hc).
    destruct (String.eqb nm "barrel") eqn:Hb; cbv iota.
    { assert (Hcont : isContainerBlockName nm = true).
      { rewrite isContainerBlockName_unfold, Hb, !orb_true_r. reflexivity. }
      intros [= <-]. simpl. shape_facts. exists nm. shape_facts. }
    destruct (String.eqb nm "ender_chest") eqn:He; cbv iota.
    { assert (Hcont : isContainerBlockName nm = true).
      { rewrite isContainerBlockName_unfold, He, !orb_true_r. reflexivity. }
      intros [= <-]. simpl. shape_facts. exists nm. shape_facts. }
    destruct (JsString.endsWith nm "_shulker_box" || String.eqb nm "shulker_box") eqn:Hs;
      cbv iota.
    { assert (Hcont : isContainerBlockName nm = true).
      { rewrite isContainerBlockName_unfold, <- orb_assoc, Hs, !orb_true_r. reflexivity. }
      intros [= <-]. simpl. shape_facts. exists nm. shape_facts. }
    assert (Hcont : isContainerBlockName nm = false).
    { rewrite isContainerBlockName_unfold, <- orb_assoc, Hs, Hc, Ht, Hb, He. reflexivity. }
    rewrite Hcont. discriminate.
Qed.

Lemma detect_fails (bot : Bot) (pos : Vec3) (e : DetectError) :
  detectContainerAt bot pos = inl e ->
  (bot pos = None /\ e = NoBlockLoaded) \/
  (exists nm, bot pos = Some nm /\ isContainerBlockName nm = false /\
              e = NotSupportedContainer nm).
Proof.
  unfold detectContainerAt.
  destruct (bot pos) as [nm|] eqn:Hpos; [|intros [= <-]; auto].
  destruct (String.eqb nm "chest" || String.eqb nm "trapped_chest") eqn:Hpair.
  { destruct (jsFind (namedAt bot nm) (adjPositions pos)); discriminate. }
  apply orb_false_iff in Hpair as [Hc Ht].
  destruct (String.eqb nm "barrel") eqn:Hb; [discriminate|].
  destruct (String.eqb nm "ender_chest") eqn:He; [discriminate|].
  destruct (JsString.endsWith nm "_shulker_box" || String.eqb nm "shulker_box") eqn:Hs;
    [discriminate|].
  assert (Hcont : isContainerBlockName nm = false).
  { rewrite isContainerBlockName_unfold, <- orb_assoc, Hs, Hc, Ht, Hb, He. reflexivity. }
  rewrite Hcont. intros [= <-]. right. exists nm. auto.
Qed.

(** X12. [detectContainerAt] classifies exactly the blocks
    [isContainerBlockName] accepts: it fails when no block is loaded or
    the name is not a container name and succeeds otherwise.  A result is
    never of type [container]; it has the inspected block alone, or that
    block and one horizontal neighbour of the same name in ascending
    order; its primary is the first of them; and it is of type
    [double_chest] exactly when the name is [chest] and there are two. *)
Theorem detectContainerAt_classifies_container_blocks :
  forall (bot : Bot) (pos : Vec3),
    (forall e, detectContainerAt bot pos = inl e <->
       (bot pos = None /\ e = NoBlockLoaded) \/
       (exists nm, bot pos = Some nm /\ isContainerBlockName nm = false /\
                   e = NotSupportedContainer nm)) /\
    (forall d, detectContainerAt bot pos = inr d ->
       type d <> ChestStore.container /\
       wellShaped bot pos d /\
       (type d = ChestStore.double_chest <->
        bot pos = Some "chest" /\ length (positions d) = 2%nat)).
Proof.
  intros bot pos. split.
  - intros e. split; [apply detect_fails|].
    destruct (detectContainerAt bot pos) as [e'|d] eqn:Hd.
    + apply detect_fails in Hd.
      intros [[Hn ->] | [nm [Hs [Hc ->]]]];
        destruct Hd as [[Hn' ->] | [nm' [Hs' [Hc' ->]]]]; congruence.
    + apply detect_shape in Hd as [[nm [Hs [Hc _]]] _].
      intros [[Hn _] | [nm' [Hs' [Hc' _]]]]; congruence.
  - intros d Hd. apply detect_shape in Hd as [[nm [Hs [Hc [Hdbl Hrev]]]] [Hnc Hw]].
    split; [exact Hnc|]. split; [exact Hw|]. split.
    + intros Ht. destruct (Hdbl Ht) as [-> Hl]. auto.
    + intros [Hchest Hl]. apply Hrev; [congruence | exact Hl].
Qed.

(** X13. What [openContainerAt] hands to [bot.openContainer] is a loaded block
    with a container name: the block asked for, or the neighbour of the
    same name that heads a double chest; and it hands over nothing when
    the record found at the position is forbidden. *)
Theorem openContainerAt_opens_a_container :
  forall (store : ChestStore.RootStore) (worldKey : string) (bot : Bot)
         (pos target : Vec3),
    snd (openContainerAt store worldKey bot pos) = inr target ->
    (exists nm, bot pos = Some nm /\ bot target = Some nm /\
                isContainerBlockName nm = true) /\
    (target = pos \/ In target (adjPositions pos)) /\
    foundForbidden (snd (ChestStore.getChestByPosition store worldKey pos)) = false.
Proof.
  intros store worldKey bot pos target. unfold openContainerAt.
  destruct (ChestStore.getChestByPosition store worldKey pos) as [st rec]. simpl.
  destruct (foundForbidden rec) eqn:Hf; [discriminate|].
  destruct (detectContainerAt bot pos) as [e|d] eqn:Hd; [discriminate|].
  apply detect_shape in Hd as [[nm [Hs [Hc _]]] [_ [Hprim Hshape]]].
  assert (Hcase : (match type d with
                   | ChestStore.double_chest => primary d
                   | _ => pos
                   end = pos) \/
                  (match type d with
                   | ChestStore.double_chest => primary d
                   | _ => pos
                   end = primary d)).
  { destruct (type d); auto. }
  assert (Hp : primary d = pos \/ (In (primary d) (adjPositions pos) /\
                                   bot (primary d) = bot pos)).
  { rewrite Hprim. destruct Hshape as [-> | [m [Hin [Hm [[-> _] | [-> _]]]]]]; simpl; auto. }
  destruct (bot (match type d with
                 | ChestStore.double_chest => primary d
                 | _ => pos
                 end)) as [nm'|] eqn:Hb; [|discriminate].
  simpl. intros [= <-].
  split; [|split; [|reflexivity]].
  - exists nm. split; [exact Hs|]. split; [|exact Hc].
    destruct Hcase as [-> | ->]; [exact Hs|].
    destruct Hp as [-> | [_ ->]]; exact Hs.
  - destruct Hcase as [-> | ->]; [auto|]. destruct Hp as [-> | [Hin _]]; auto.
Qed.

Lemma openContainerAt_opens_a_container_witness :
  (exists nm, vaultBot (ChestStore.mkPos 11 64 10) = Some nm /\
              vaultBot (ChestStore.mkPos 10 64 10) = Some nm /\
              isContainerBlockName nm = true) /\
  (ChestStore.mkPos 10 64 10 = ChestStore.mkPos 11 64 10 \/
   In (ChestStore.mkPos 10 64 10) (adjPositions (ChestStore.mkPos 11 64 10))) /\
  foundForbidden
    (snd (ChestStore.getChestByPosition emptyStore overworld (ChestStore.mkPos 11 64 10)))
  = false.
Proof.
  apply (openContainerAt_opens_a_container emptyStore overworld vaultBot
           (ChestStore.mkPos 11 64 10) (ChestStore.mkPos 10 64 10)).
  reflexivity.
Defined.
End ClassifyFacts.

(** ** Nearby containers *)

Section DiscoveryFacts.
Import ChestUtils.

(** Every block named [chest] has at most one horizontal neighbour named
    [chest]: the chests of the world stand alone or in pairs. *)
Definition pairedWorld (bot : Bot) : Prop :=
  forall a m1 m2,
    bot a = Some "chest" ->
    In m1 (adjPositions a) -> In m2 (adjPositions a) ->
    bot m1 = Some "chest" -> bot m2 = Some "chest" -> m1 = m2.

(** The entry pushed for a block classified as [det]. *)
Definition reported (det : DetectedContainer) (pos : Vec3) : Discovery.Found :=
  match type det with
  | ChestStore.double_chest => Discovery.mkFound ChestStore.double_chest (primary det)
  | t => Discovery.mkFound t pos
  end.

(** The keys added to [seen] for it. *)
Definition marked (det : DetectedContainer) (pos : Vec3) : gset Vec3 :=
  match type det with
  | ChestStore.double_chest =>
      {[List.nth 1 (positions det) (primary det)]} ∪ {[primary det]}
  | _ => {[pos]}
  end.

Lemma scan_step (bot : Bot) (pos : Vec3) (rest : list Vec3) (seen : gset Vec3)
    (results : list Discovery.Found) (det : DetectedContainer) :
  pos ∉ seen -> detectContainerAt bot pos = inr det ->
  Discovery.scan bot (pos :: rest) seen results
  = Discovery.scan bot rest (marked det pos ∪ seen) (results ++ [reported det pos]).
Proof.
  intros Hs Hd. simpl. destruct (decide (pos ∈ seen)) as [Hin|_]; [contradiction|].
  rewrite Hd. unfold marked, reported.
  destruct (type det); try reflexivity.
  rewrite <- (assoc_L (∪)). reflexivity.
Qed.

Lemma double_halves (bot : Bot) (pos : Vec3) (det : DetectedContainer) :
  pairedWorld bot ->
  detectContainerAt bot pos = inr det -> type det = ChestStore.double_chest ->
  exists p1,
    positions det = [primary det; p1] /\
    (pos = primary det \/ pos = p1) /\
    detectContainerAt bot (primary det) = inr det /\
    detectContainerAt bot p1 = inr det.
Proof.
  intros Hw Hd Ht.
  destruct (detect_shape bot pos det Hd) as [[nm [Hpos [_ [Hdbl _]]]] [_ [Hprim Hshape]]].
  destruct (Hdbl Ht) as [-> Hlen].
  destruct Hshape as [Hone | [m [Hin [Hm Hpair]]]].
  { rewrite Hone in Hlen. discriminate. }
  rewrite Hpos in Hm.
  pose proof (adjacent_ne pos m Hin) as Hne.
  assert (Hdm : detectContainerAt bot m = inr det).
  { rewrite (detect_chest_with_neighbour bot m pos Hm (adjacent_sym pos m Hin) Hpos).
    - rewrite (sortBy_pair_swap pos m (not_eq_sym Hne)).
      rewrite <- Hd.
      rewrite (detect_chest_with_neighbour bot pos m Hpos Hin Hm).
      + destruct (sortBy_pair_sorted pos m (not_eq_sym Hne)) as [lo [hi [Hs _]]].
        rewrite Hs. reflexivity.
      + intros m' Hm' Hne' Hc. apply Hne'. exact (Hw pos m' m Hpos Hm' Hin Hc Hm).
    - intros m' Hm' Hne' Hc. apply Hne'.
      exact (Hw m m' pos Hm Hm' (adjacent_sym pos m Hin) Hc Hpos). }
  destruct Hpair as [[Hp _] | [Hp _]]; rewrite Hp in Hprim; simpl in Hprim.
  - exists m. rewrite Hp, Hprim. auto.
  - exists pos. rewrite Hp, Hprim. auto.
Qed.

(** What the loop keeps true of [seen] and [results]. *)
Record scanned (bot : Bot) (seen : gset Vec3) (results : list Discovery.Found)
  : Prop := mkScanned {
  sc_seen : forall r, In r results -> Discovery.position r ∈ seen;
  sc_own : forall r, In r results ->
    exists det, detectContainerAt bot (Discovery.position r) = inr det /\
                r = reported det (Discovery.position r);
  sc_covered : forall s, s ∈ seen ->
    exists det, detectContainerAt bot s = inr det /\ In (reported det s) results;
  sc_closed : forall s det, s ∈ seen -> detectContainerAt bot s = inr det ->
    type det = ChestStore.double_chest ->
    forall q, In q (positions det) -> q ∈ seen;
  sc_once : List.NoDup (List.map Discovery.position results)
}.

Ltac seen_auto :=
  repeat rewrite elem_of_union; repeat rewrite elem_of_singleton; auto.

Lemma scanned_empty (bot : Bot) : scanned bot ∅ [].
Proof.
  split; simpl; try (intros; contradiction).
  - intros s Hs. apply elem_of_empty in Hs. contradiction.
  - intros s det Hs. apply elem_of_empty in Hs. contradiction.
  - constructor.
Qed.

Lemma NoDup_snoc {A : Type} (l : list A) (x : A) :
  List.NoDup l -> ~ In x l -> List.NoDup (l ++ [x]).
Proof.
  intros Hnd Hx. induction l as [|a l IH]; simpl.
  - constructor; [intros [] | constructor].
  - inversion Hnd as [|y m Hnotin Hnd']; subst. constructor.
    + rewrite in_app_iff. intros [H | [<- | []]]; [exact (Hnotin H)|].
      apply Hx. left. reflexivity.
    + apply IH; [exact Hnd'|]. intros H. apply Hx. right. exact H.
Qed.

Lemma scanned_step (bot : Bot) (pos : Vec3) (seen : gset Vec3)
    (results : list Discovery.Found) (det : DetectedContainer) :
  pairedWorld bot -> scanned bot seen results ->
  pos ∉ seen -> detectContainerAt bot pos = inr det ->
  scanned bot (marked det pos ∪ seen) (results ++ [reported det pos]) /\
  pos ∈ marked det pos ∪ seen.
Proof.
  intros Hw S Hs Hd.
  assert (Hdec : type det = ChestStore.double_chest \/
                 type det <> ChestStore.double_chest).
  { destruct (type det); (left; reflexivity) || (right; discriminate). }
  destruct Hdec as [Ht | Ht].
  - (* a double chest *)
    destruct (double_halves bot pos det Hw Hd Ht) as [p1 [Hps [Hpos [Hd0 Hd1]]]].
    assert (Hm : marked det pos = {[p1]} ∪ {[primary det]}).
    { unfold marked. rewrite Ht, Hps. reflexivity. }
    assert (Hr : forall s, reported det s
                           = Discovery.mkFound ChestStore.double_chest (primary det)).
    { intros s. unfold reported. rewrite Ht. reflexivity. }
    assert (Hhalf : forall s, s ∈ marked det pos -> detectContainerAt bot s = inr det).
    { intros s. rewrite Hm. intros H.
      apply elem_of_union in H as [H | H]; apply elem_of_singleton in H; subst; auto. }
    rewrite Hm in *. split; [|destruct Hpos as [-> | ->]; seen_auto].
    split.
    + intros r Hin. apply in_app_iff in Hin as [Hin | [<- | []]].
      * pose proof (sc_seen _ _ _ S r Hin). seen_auto.
      * rewrite Hr. simpl. seen_auto.
    + intros r Hin. apply in_app_iff in Hin as [Hin | [<- | []]].
      * exact (sc_own _ _ _ S r Hin).
      * rewrite Hr. simpl. exists det. split; [exact Hd0|]. rewrite Hr. reflexivity.
    + intros s Hin. apply elem_of_union in Hin as [Hin | Hin].
      * exists det. split; [apply Hhalf; exact Hin|].
        rewrite !Hr. apply in_app_iff. right. left. reflexivity.
      * destruct (sc_covered _ _ _ S s Hin) as [d [Hds Hrs]].
        exists d. split; [exact Hds|]. apply in_app_iff. left. exact Hrs.
    + intros s d Hin Hds Htd q Hq. apply elem_of_union in Hin as [Hin | Hin].
      * rewrite (Hhalf s Hin) in Hds. injection Hds as <-.
        rewrite Hps in Hq. destruct Hq as [<- | [<- | []]]; seen_auto.
      * pose proof (sc_closed _ _ _ S s d Hin Hds Htd q Hq). seen_auto.
    + rewrite map_app. simpl. apply NoDup_snoc; [exact (sc_once _ _ _ S)|].
      rewrite Hr. simpl. intros Hin. apply in_map_iff in Hin as [r [Hrp Hin]].
      pose proof (sc_seen _ _ _ S r Hin) as Hseen. rewrite Hrp in Hseen.
      apply Hs. apply (sc_closed _ _ _ S (primary det) det Hseen Hd0 Ht).
      rewrite Hps. destruct Hpos as [-> | ->]; simpl; auto.
  - (* any other container *)
    assert (Hm : marked det pos = {[pos]}).
    { unfold marked. destruct (type det); try reflexivity. contradiction. }
    assert (Hr : reported det pos = Discovery.mkFound (type det) pos).
    { unfold reported. destruct (type det); try reflexivity. contradiction. }
    rewrite Hm. split; [|seen_auto]. split.
    + intros r Hin. apply in_app_iff in Hin as [Hin | [<- | []]].
      * pose proof (sc_seen _ _ _ S r Hin). seen_auto.
      * rewrite Hr. simpl. seen_auto.
    + intros r Hin. apply in_app_iff in Hin as [Hin | [<- | []]].
      * exact (sc_own _ _ _ S r Hin).
      * exists det. rewrite Hr. simpl. split; [exact Hd | exact (eq_sym Hr)].
    + intros s Hin. apply elem_of_union in Hin as [Hin | Hin].
      * apply elem_of_singleton in Hin. subst s.
        exists det. split; [exact Hd|]. apply in_app_iff. right. left. reflexivity.
      * destruct (sc_covered _ _ _ S s Hin) as [d [Hds Hrs]].
        exists d. split; [exact Hds|]. apply in_app_iff. left. exact Hrs.
    + intros s d Hin Hds Htd q Hq. apply elem_of_union in Hin as [Hin | Hin].
      * apply elem_of_singleton in Hin. subst s.
        rewrite Hd in Hds. injection Hds as <-. contradiction.
      * pose proof (sc_closed _ _ _ S s d Hin Hds Htd q Hq). seen_auto.
    + rewrite map_app. simpl. apply NoDup_snoc; [exact (sc_once _ _ _ S)|].
      rewrite Hr. simpl. intros Hin. apply in_map_iff in Hin as [r [Hrp Hin]].
      pose proof (sc_seen _ _ _ S r Hin) as Hseen. rewrite Hrp in Hseen.
      exact (Hs Hseen).
Qed.

Lemma scan_scanned (bot : Bot) (positions : list Vec3) :
  pairedWorld bot ->
  forall (seen : gset Vec3) (results final : list Discovery.Found),
    scanned bot seen results ->
    Discovery.scan bot positions seen results = inr final ->
    exists seen', scanned bot seen' final /\ seen ⊆ seen' /\
                  (forall p, In p positions -> p ∈ seen').
Proof.
  intros Hw. induction positions as [|pos rest IH]; intros seen results final S Hscan.
  - simpl in Hscan. injection Hscan as <-. exists seen.
    split; [exact S|]. split; [intros p Hp; exact Hp|]. intros p [].
  - destruct (decide (pos ∈ seen)) as [Hin | Hnot].
    + simpl in Hscan. destruct (decide (pos ∈ seen)); [|contradiction].
      destruct (IH seen results final S Hscan) as [seen' [S' [Hsub Hall]]].
      exists seen'. split; [exact S'|]. split; [exact Hsub|].
      intros p [<- | Hp]; [|exact (Hall p Hp)]. apply Hsub. exact Hin.
    + destruct (detectContainerAt bot pos) as [e|det] eqn:Hd.
      { simpl in Hscan. destruct (decide (pos ∈ seen)); [contradiction|].
        rewrite Hd in Hscan. discriminate. }
      rewrite (scan_step bot pos rest seen results det Hnot Hd) in Hscan.
      destruct (scanned_step bot pos seen results det Hw S Hnot Hd) as [S1 Hpos].
      destruct (IH _ _ final S1 Hscan) as [seen' [S' [Hsub Hall]]].
      exists seen'. split; [exact S'|].
      split; [intros p Hp; apply Hsub; apply elem_of_union; right; exact Hp|].
      intros p [<- | Hp]; [|exact (Hall p Hp)]. apply Hsub. exact Hpos.
Qed.

Lemma scan_total (bot : Bot) (positions : list Vec3) :
  (forall p, In p positions -> exists nm, bot p = Some nm /\ isContainerBlockName nm = true) ->
  forall (seen : gset Vec3) (results : list Discovery.Found),
    exists final, Discovery.scan bot positions seen results = inr final.
Proof.
  induction positions as [|pos rest IH]; intros Hall seen results.
  - exists results. reflexivity.
  - assert (Hrest : forall p, In p rest ->
              exists nm, bot p = Some nm /\ isContainerBlockName nm = true).
    { intros p Hp. apply Hall. right. exact Hp. }
    simpl. destruct (decide (pos ∈ seen)); [apply IH; exact Hrest|].
    destruct (Hall pos (or_introl eq_refl)) as [nm [Hb Hc]].
    destruct (detectContainerAt bot pos) as [e|det] eqn:Hd.
    + exfalso. destruct (detect_fails bot pos e Hd) as [H | [nm' [Hb' [Hc' _]]]].
      * destruct H as [H _]. congruence.
      * congruence.
    + destruct (type det); apply IH; exact Hrest.
Qed.

(** A yard with one double chest and one barrel. *)
Definition yardBot : Bot :=
  fun p =>
    if ChestStore.posEquals p (ChestStore.mkPos 3 64 5)
       || ChestStore.posEquals p (ChestStore.mkPos 3 64 6)
    then Some "chest"
    else if ChestStore.posEquals p (ChestStore.mkPos 0 64 0) then Some "barrel"
    else Some "grass_block".

Lemma yardBot_chest (m : Vec3) :
  yardBot m = Some "chest" ->
  m = ChestStore.mkPos 3 64 5 \/ m = ChestStore.mkPos 3 64 6.
Proof.
  unfold yardBot.
  destruct (ChestStore.posEquals m (ChestStore.mkPos 3 64 5)) eqn:H1.
  - left. apply posEquals_eq. exact H1.
  - destruct (ChestStore.posEquals m (ChestStore.mkPos 3 64 6)) eqn:H2.
    + right. apply posEquals_eq. exact H2.
    + simpl. destruct (ChestStore.posEquals m (ChestStore.mkPos 0 64 0)); discriminate.
Qed.

Lemma yardBot_paired : pairedWorld yardBot.
Proof.
  intros a m1 m2 Ha H1 H2 Hc1 Hc2.
  pose proof (adjacent_ne a m1 H1) as N1.
  pose proof (adjacent_ne a m2 H2) as N2.
  apply yardBot_chest in Ha, Hc1, Hc2.
  destruct Ha as [-> | ->], Hc1 as [-> | ->], Hc2 as [-> | ->];
    reflexivity || (exfalso; (apply N1; reflexivity) || (apply N2; reflexivity)).
Qed.

(** X14. [findNearbyContainers] never lists one position twice, every entry
    lies in the bounding box round the centre, and every entry is what
    [detectContainerAt] says of the entry's own position: the same type,
    and for a double chest the primary half.  The chests of the world
    stand alone or in pairs. *)
Theorem findNearbyContainers_reports_each_container_once :
  forall (bot : Bot) (center : Vec3) (found : list Vec3) (rx ry rz : Z)
         (out : list Discovery.Found),
    pairedWorld bot ->
    Discovery.findNearbyContainers bot center found rx ry rz = inr out ->
    List.NoDup (List.map Discovery.position out) /\
    forall r, In r out ->
      Discovery.inBox center rx ry rz r = true /\
      exists det,
        detectContainerAt bot (Discovery.position r) = inr det /\
        Discovery.type r = type det /\
        (type det = ChestStore.double_chest -> Discovery.position r = primary det).
Proof.
  intros bot center found rx ry rz out Hw Hf.
  unfold Discovery.findNearbyContainers in Hf.
  destruct (Discovery.scan bot found ∅ []) as [e|results] eqn:Hscan; [discriminate|].
  injection Hf as <-.
  destruct (scan_scanned bot found Hw ∅ [] results (scanned_empty bot) Hscan)
    as [seen [S _]].
  split.
  - pose proof (sc_once _ _ _ S) as Hnd. clear -Hnd.
    induction results as [|r rs IH]; simpl; [constructor|].
    inversion Hnd as [|p ps Hnot Hnd']; subst.
    destruct (Discovery.inBox center rx ry rz r); [|apply IH; exact Hnd'].
    simpl. constructor; [|apply IH; exact Hnd'].
    intros Hin. apply Hnot. apply in_map_iff in Hin as [q [Hq Hin]].
    apply filter_In in Hin as [Hin _]. rewrite <- Hq. apply in_map. exact Hin.
  - intros r Hin. apply filter_In in Hin as [Hin Hbox]. split; [exact Hbox|].
    destruct (sc_own _ _ _ S r Hin) as [det [Hd Hr]].
    exists det. split; [exact Hd|].
    unfold reported in Hr. destruct (type det) eqn:Ht; rewrite Hr; simpl;
      (split; [reflexivity | (intros _; reflexivity) || discriminate]).
Qed.

Lemma findNearbyContainers_reports_each_container_once_witness :
  let out := [Discovery.mkFound ChestStore.barrel (ChestStore.mkPos 0 64 0);
              Discovery.mkFound ChestStore.double_chest (ChestStore.mkPos 3 64 5)] in
  Discovery.findNearbyContainers yardBot (ChestStore.mkPos 0 64 0)
    [ChestStore.mkPos 0 64 0; ChestStore.mkPos 3 64 6; ChestStore.mkPos 3 64 5]
    16 8 16 = inr out /\
  List.NoDup (List.map Discovery.position out).
Proof.
  split; [vm_compute; reflexivity|].
  exact (proj1 (findNearbyContainers_reports_each_container_once yardBot
                  (ChestStore.mkPos 0 64 0)
                  [ChestStore.mkPos 0 64 0; ChestStore.mkPos 3 64 6;
                   ChestStore.mkPos 3 64 5] 16 8 16 _ yardBot_paired eq_refl)).
Defined.

(** X15. [findNearbyContainers] fails only on a block that is not a
    container: when every position [bot.findBlocks] returned holds a
    container block it returns a list, and every such position is then
    accounted for: the entry of its container (its own position and type,
    or the primary half of its double chest) is in the list unless that
    entry lies outside the bounding box. *)
Theorem findNearbyContainers_covers_found_blocks :
  forall (bot : Bot) (center : Vec3) (found : list Vec3) (rx ry rz : Z),
    pairedWorld bot ->
    (forall p, In p found ->
       exists nm, bot p = Some nm /\ isContainerBlockName nm = true) ->
    exists out,
      Discovery.findNearbyContainers bot center found rx ry rz = inr out /\
      forall p, In p found ->
        exists det,
          detectContainerAt bot p = inr det /\
          (Discovery.inBox center rx ry rz (reported det p) = true ->
           In (reported det p) out).
Proof.
  intros bot center found rx ry rz Hw Hall.
  destruct (scan_total bot found Hall ∅ []) as [results Hscan].
  exists (List.filter (Discovery.inBox center rx ry rz) results). split.
  - unfold Discovery.findNearbyContainers. rewrite Hscan. reflexivity.
  - destruct (scan_scanned bot found Hw ∅ [] results (scanned_empty bot) Hscan)
      as [seen [S [_ Hseen]]].
    intros p Hp. destruct (sc_covered _ _ _ S p (Hseen p Hp)) as [det [Hd Hin]].
    exists det. split; [exact Hd|]. intros Hbox.
    apply filter_In. split; [exact Hin | exact Hbox].
Qed.

Lemma yardBot_found (p : Vec3) :
  In p [ChestStore.mkPos 3 64 6; ChestStore.mkPos 0 64 0; ChestStore.mkPos 3 64 5] ->
  exists nm, yardBot p = Some nm /\ isContainerBlockName nm = true.
Proof.
  intros [<- | [<- | [<- | []]]]; eexists; split; reflexivity.
Qed.

Lemma findNearbyContainers_covers_found_blocks_witness :
  exists out,
    Discovery.findNearbyContainers yardBot (ChestStore.mkPos 0 64 0)
      [ChestStore.mkPos 3 64 6; ChestStore.mkPos 0 64 0; ChestStore.mkPos 3 64 5]
      16 8 16 = inr out /\
    forall p,
      In p [ChestStore.mkPos 3 64 6; ChestStore.mkPos 0 64 0; ChestStore.mkPos 3 64 5] ->
      exists det,
        detectContainerAt yardBot p = inr det /\
        (Discovery.inBox (ChestStore.mkPos 0 64 0) 16 8 16 (reported det p) = true ->
         In (reported det p) out).
Proof.
  exact (findNearbyContainers_covers_found_blocks yardBot (ChestStore.mkPos 0 64 0)
           [ChestStore.mkPos 3 64 6; ChestStore.mkPos 0 64 0; ChestStore.mkPos 3 64 5]
           16 8 16 yardBot_paired yardBot_found).
Defined.
End DiscoveryFacts.

(** ** Trimming *)

Section TrimFacts.
Import JsString.

Lemma string_append_cons (x : ascii) (a b : string) :
  String.append (String x a) b = String x (String.append a b).
Proof. reflexivity. Qed.

Lemma string_append_assoc (a b c : string) :
  String.append (String.append a b) c = String.append a (String.append b c).
Proof.
  induction a as [|x a IH]; [reflexivity|].
  rewrite !string_append_cons, IH. reflexivity.
Qed.

Lemma append_empty_r (s : string) : String.append s EmptyString = s.
Proof.
  induction s as [|c s IH]; [reflexivity|].
  rewrite string_append_cons, IH. reflexivity.
Qed.

Lemma revOnto_app (s acc : string) :
  revOnto s acc = String.append (reverse s) acc.
Proof.
  unfold reverse. revert acc. induction s as [|c s IH]; intros acc.
  - reflexivity.
  - change (revOnto s (String c acc)
            = String.append (revOnto s (String c EmptyString)) acc).
    rewrite (IH (String c acc)), (IH (String c EmptyString)).
    rewrite string_append_assoc. reflexivity.
Qed.

Lemma reverse_cons (c : ascii) (s : string) :
  reverse (String c s) = String.append (reverse s) (String c EmptyString).
Proof.
  change (reverse (String c s)) with (revOnto s (String c EmptyString)).
  apply revOnto_app.
Qed.

Lemma reverse_app (a b : string) :
  reverse (String.append a b) = String.append (reverse b) (reverse a).
Proof.
  induction a as [|c a IH].
  - change (reverse (String.append EmptyString b)) with (reverse b).
    change (reverse EmptyString) with EmptyString.
    rewrite append_empty_r. reflexivity.
  - rewrite string_append_cons, !reverse_cons, IH, string_append_assoc. reflexivity.
Qed.

Lemma reverse_involutive (s : string) : reverse (reverse s) = s.
Proof.
  induction s as [|c s IH]; [reflexivity|].
  rewrite reverse_cons, reverse_app, IH. reflexivity.
Qed.

(** A string that does not begin with white space. *)
Definition headed (s : string) : Prop :=
  match s with
  | EmptyString => True
  | String c _ => isWhite c = false
  end.

Fixpoint allWhite (s : string) : bool :=
  match s with
  | EmptyString => true
  | String c s' => isWhite c && allWhite s'
  end.

Lemma trimStart_cons (c : ascii) (s : string) :
  trimStart (String c s) = if isWhite c then trimStart s else String c s.
Proof. reflexivity. Qed.

Lemma trimStart_headed (s : string) : headed (trimStart s).
Proof.
  induction s as [|c s IH]; [exact I|].
  rewrite trimStart_cons. destruct (isWhite c) eqn:Hc; [exact IH | exact Hc].
Qed.

Lemma trimStart_of_headed (s : string) : headed s -> trimStart s = s.
Proof.
  destruct s as [|c s]; [reflexivity|].
  intros Hc. rewrite trimStart_cons. unfold headed in Hc. rewrite Hc. reflexivity.
Qed.

Lemma trimStart_split (s : string) :
  exists w, allWhite w = true /\ s = String.append w (trimStart s).
Proof.
  induction s as [|c s [w [Hw Hs]]].
  - exists EmptyString. auto.
  - rewrite trimStart_cons. destruct (isWhite c) eqn:Hc.
    + exists (String c w). split.
      * change (isWhite c && allWhite w = true). rewrite Hc, Hw. reflexivity.
      * rewrite string_append_cons, <- Hs. reflexivity.
    + exists EmptyString. auto.
Qed.

Lemma allWhite_app (a b : string) :
  allWhite (String.append a b) = allWhite a && allWhite b.
Proof.
  induction a as [|c a IH]; [reflexivity|].
  rewrite string_append_cons.
  change (isWhite c && allWhite (String.append a b)
          = isWhite c && allWhite a && allWhite b).
  rewrite IH, andb_assoc. reflexivity.
Qed.

Lemma allWhite_reverse (s : string) : allWhite (reverse s) = allWhite s.
Proof.
  induction s as [|c s IH]; [reflexivity|].
  rewrite reverse_cons, allWhite_app, IH.
  change (allWhite s && (isWhite c && true) = isWhite c && allWhite s).
  rewrite andb_true_r. apply andb_comm.
Qed.

Lemma trimEnd_split (s : string) :
  exists w, allWhite w = true /\ s = String.append (trimEnd s) w.
Proof.
  destruct (trimStart_split (reverse s)) as [w [Hw Hs]].
  exists (reverse w). split; [rewrite allWhite_reverse; exact Hw|].
  unfold trimEnd. rewrite <- reverse_app, <- Hs, reverse_involutive. reflexivity.
Qed.

Lemma trimEnd_headed (s : string) : headed s -> headed (trimEnd s).
Proof.
  intros Hs. destruct (trimEnd_split s) as [w [Hw Heq]].
  destruct (trimEnd s) as [|c t]; [exact I|].
  rewrite Heq in Hs. exact Hs.
Qed.

Lemma trimEnd_idempotent (s : string) : trimEnd (trimEnd s) = trimEnd s.
Proof.
  unfold trimEnd. rewrite reverse_involutive.
  rewrite (trimStart_of_headed _ (trimStart_headed (reverse s))). reflexivity.
Qed.

Lemma trim_idempotent (s : string) : trim (trim s) = trim s.
Proof.
  unfold trim.
  rewrite (trimStart_of_headed _ (trimEnd_headed _ (trimStart_headed s))).
  apply trimEnd_idempotent.
Qed.
End TrimFacts.

(** ** Labelling a chest *)

Section LabelChestFacts.
Import JsString.

Lemma upsertIn_saved_fields env (cs : list ChestStore.ChestRecord) record :
  let saved := snd (ChestStore.upsertIn env cs record) in
  ChestStore.label saved = ChestStore.normalizeLabel (ChestStore.label record) \/
  ChestStore.label saved = ChestStore.label record.
Proof.
  simpl. destruct (ChestStore.existingIndex cs record) as [i|] eqn:Hi.
  - destruct (existingIndex_lookup _ _ _ Hi) as [c [Hc _]].
    rewrite (upsertIn_found env cs record i c Hi Hc). left. reflexivity.
  - rewrite (upsertIn_new env cs record Hi). right. reflexivity.
Qed.

Lemma upsertIn_saved_shape env (cs : list ChestStore.ChestRecord) record :
  let saved := snd (ChestStore.upsertIn env cs record) in
  ChestStore.positions saved = ChestStore.positions record /\
  ChestStore.primary saved = ChestStore.primary record /\
  ChestStore.type saved = ChestStore.type record /\
  ChestStore.destroyed saved = Some false.
Proof.
  simpl. destruct (ChestStore.existingIndex cs record) as [i|] eqn:Hi.
  - destruct (existingIndex_lookup _ _ _ Hi) as [c [Hc _]].
    rewrite (upsertIn_found env cs record i c Hi Hc). simpl. auto.
  - rewrite (upsertIn_new env cs record Hi). simpl. auto.
Qed.

Lemma upsertIn_ignores_stamps env (cs : list ChestStore.ChestRecord) record record' :
  ChestStore.id record = ChestStore.id record' ->
  ChestStore.label record = ChestStore.label record' ->
  ChestStore.notes record = ChestStore.notes record' ->
  ChestStore.hidden record = ChestStore.hidden record' ->
  ChestStore.forbidden record = ChestStore.forbidden record' ->
  ChestStore.type record = ChestStore.type record' ->
  ChestStore.positions record = ChestStore.positions record' ->
  ChestStore.primary record = ChestStore.primary record' ->
  ChestStore.dimension record = ChestStore.dimension record' ->
  ChestStore.upsertIn env cs record = ChestStore.upsertIn env cs record'.
Proof.
  intros Hid Hl Hn Hh Hf Ht Hps Hp Hd.
  assert (Hex : ChestStore.existingIndex cs record = ChestStore.existingIndex cs record').
  { unfold ChestStore.existingIndex. rewrite Hl, Hp. reflexivity. }
  destruct (ChestStore.existingIndex cs record') as [i|] eqn:Hi.
  - destruct (existingIndex_lookup _ _ _ Hex) as [c [Hc _]].
    rewrite (upsertIn_found env cs record i c Hex Hc).
    rewrite (upsertIn_found env cs record' i c Hi Hc).
    unfold ChestStore.overwrite. rewrite Hl, Hn, Hh, Hf, Ht, Hps, Hp, Hd. reflexivity.
  - rewrite (upsertIn_new env cs record Hex), (upsertIn_new env cs record' Hi).
    unfold ChestStore.newRec. rewrite Hid, Hl, Hn, Hh, Hf, Ht, Hps, Hp, Hd. reflexivity.
Qed.

Lemma upsertChest_unfold env store worldKey record :
  ChestStore.upsertChest env store worldKey record
  = (ChestStore.setWorld (fst (ChestStore.ensureWorld store worldKey)) worldKey
       {| ChestStore.chests :=
            fst (ChestStore.upsertIn env (ChestStore.chestsOf store worldKey) record) |},
     snd (ChestStore.upsertIn env (ChestStore.chestsOf store worldKey) record)).
Proof.
  unfold ChestStore.upsertChest.
  pose proof (ensureWorld_chests store worldKey) as [H _].
  destruct (ChestStore.ensureWorld store worldKey) as [st ws]; simpl in H. rewrite H.
  destruct (ChestStore.upsertIn env (ChestStore.chestsOf store worldKey) record);
    reflexivity.
Qed.

(** A successful run is one [upsertChest] of the record built from the
    classification of the block. *)
Lemma label_chest_labeled env stamps store bot world params det saved :
  snd (LabelChest.label_chest env stamps store bot world params)
  = LabelChest.Labeled det saved ->
  exists px py pz l,
    LabelChest.x params = Some px /\ LabelChest.y params = Some py /\
    LabelChest.z params = Some pz /\ LabelChest.label params = Some l /\
    trim l <> "" /\
    ChestUtils.detectContainerAt world (ChestStore.mkPos px py pz) = inr det /\
    LabelChest.label_chest env stamps store bot world params
    = (fst (ChestStore.upsertChest env store (Registry.getWorldKey bot)
              (LabelChest.recordOf stamps bot params l det)),
       LabelChest.Labeled det
         (snd (ChestStore.upsertChest env store (Registry.getWorldKey bot)
                 (LabelChest.recordOf stamps bot params l det)))) /\
    saved = snd (ChestStore.upsertChest env store (Registry.getWorldKey bot)
                   (LabelChest.recordOf stamps bot params l det)).
Proof.
  unfold LabelChest.label_chest.
  destruct (LabelChest.x params) as [px|]; [|discriminate].
  destruct (LabelChest.y params) as [py|]; [|discriminate].
  destruct (LabelChest.z params) as [pz|]; [|discriminate].
  destruct (LabelChest.label params) as [l|]; [|discriminate].
  destruct (String.eqb (trim l) "") eqn:Hblank; [discriminate|].
  destruct (ChestUtils.detectContainerAt world (ChestStore.mkPos px py pz))
    as [e|d] eqn:Hd; [discriminate|].
  destruct (ChestStore.upsertChest env store (Registry.getWorldKey bot)
              (LabelChest.recordOf stamps bot params l d)) as [st sv] eqn:Hup.
  simpl. intros [= -> ->].
  exists px, py, pz, l.
  split; [reflexivity|]. split; [reflexivity|]. split; [reflexivity|].
  split; [reflexivity|]. split; [apply String.eqb_neq; exact Hblank|].
  split; [exact Hd|]. rewrite Hup. split; reflexivity.
Qed.

(** X16. After a successful [label_chest] that does not forbid the chest,
    [getChestByLabel] with the label as it was given returns the record
    saved; that record carries the trimmed label and the positions,
    primary and type [detectContainerAt] found, and is not destroyed. *)
Theorem label_chest_then_getChestByLabel :
  forall (env : ChestStore.Env) (stamps : string * string)
         (store : ChestStore.RootStore) (bot : Registry.Connection)
         (world : ChestUtils.Bot) (params : LabelChest.Params)
         (det : ChestUtils.DetectedContainer) (saved : ChestStore.ChestRecord)
         (l : string),
    snd (LabelChest.label_chest env stamps store bot world params)
    = LabelChest.Labeled det saved ->
    truthy (LabelChest.forbidden params) = false ->
    LabelChest.label params = Some l ->
    snd (ChestStore.getChestByLabel
           (fst (LabelChest.label_chest env stamps store bot world params))
           (Registry.getWorldKey bot) l) = Some saved /\
    ChestStore.label saved = trim l /\
    ChestStore.positions saved = ChestUtils.positions det /\
    ChestStore.primary saved = ChestUtils.primary det /\
    ChestStore.type saved = ChestUtils.type det /\
    ChestStore.destroyed saved = Some false.
Proof.
  intros env stamps store bot world params det saved l Hrun Hf Hl.
  destruct (label_chest_labeled _ _ _ _ _ _ _ _ Hrun)
    as [px [py [pz [l' [_ [_ [_ [Hl' [_ [Hd [Heq Hsaved]]]]]]]]]]].
  rewrite Hl in Hl'. injection Hl' as <-.
  rewrite Heq. simpl fst. rewrite Hsaved.
  set (record := LabelChest.recordOf stamps bot params l det).
  split.
  - apply byLabel_after_upsert.
    + simpl. apply trim_idempotent.
    + simpl. destruct (truthy (LabelChest.forbidden params)); [discriminate | reflexivity].
    + unfold normOf. simpl. unfold ChestStore.normalizeLabel.
      rewrite trim_idempotent. reflexivity.
  - destruct (upsertChest_chests env store (Registry.getWorldKey bot) record) as [_ ->].
    pose proof (upsertIn_saved_shape env
                  (ChestStore.chestsOf store (Registry.getWorldKey bot)) record)
      as [Hps [Hp [Ht Hdes]]].
    split; [|auto].
    destruct (upsertIn_saved_fields env
                (ChestStore.chestsOf store (Registry.getWorldKey bot)) record)
      as [-> | ->]; simpl; [apply trim_idempotent | reflexivity].
Qed.

(** X17. [label_chest] aimed at either half of a double chest saves the
    same record and leaves the same store.  The chests of the world stand
    alone or in pairs. *)
Theorem label_chest_either_half :
  forall (env : ChestStore.Env) (stamps : string * string)
         (store : ChestStore.RootStore) (bot : Registry.Connection)
         (world : ChestUtils.Bot) (params : LabelChest.Params)
         (pos other : ChestStore.StoredPosition)
         (det : ChestUtils.DetectedContainer),
    pairedWorld world ->
    ChestUtils.detectContainerAt world pos = inr det ->
    ChestUtils.type det = ChestStore.double_chest ->
    In other (ChestUtils.positions det) ->
    LabelChest.label_chest env stamps store bot world (LabelChest.aimedAt other params)
    = LabelChest.label_chest env stamps store bot world (LabelChest.aimedAt pos params).
Proof.
  intros env stamps store bot world params pos other det Hw Hd Ht Hin.
  destruct (double_halves world pos det Hw Hd Ht) as [p1 [Hps [_ [Hd0 Hd1]]]].
  assert (Hother : ChestUtils.detectContainerAt world other = inr det).
  { rewrite Hps in Hin. destruct Hin as [<- | [<- | []]]; assumption. }
  unfold LabelChest.label_chest, LabelChest.aimedAt. simpl.
  destruct (LabelChest.label params) as [l|]; [|reflexivity].
  destruct (String.eqb (trim l) ""); [reflexivity|].
  destruct pos as [px py pz], other as [ox oy oz]. simpl.
  rewrite Hd, Hother. reflexivity.
Qed.

(** X18. [label_chest] returns [true] exactly when the three coordinates
    and a label that is not blank are given and the block at the
    coordinates is loaded and has a container name; otherwise the store is
    left as it was.  The time stamps written into the record never reach
    the store: [upsertChest] replaces both. *)
Theorem label_chest_outcome :
  forall (env : ChestStore.Env) (stamps : string * string)
         (store : ChestStore.RootStore) (bot : Registry.Connection)
         (world : ChestUtils.Bot) (params : LabelChest.Params),
    let result := LabelChest.label_chest env stamps store bot world params in
    (LabelChest.returned (snd result) = true <->
     exists px py pz l nm,
       LabelChest.x params = Some px /\ LabelChest.y params = Some py /\
       LabelChest.z params = Some pz /\ LabelChest.label params = Some l /\
       trim l <> "" /\
       world (ChestStore.mkPos px py pz) = Some nm /\
       ChestUtils.isContainerBlockName nm = true) /\
    (LabelChest.returned (snd result) = false -> fst result = store) /\
    (forall stamps',
       LabelChest.label_chest env stamps' store bot world params = result).
Proof.
  intros env stamps store bot world params result. subst result.
  unfold LabelChest.label_chest.
  destruct (LabelChest.x params) as [px|];
    [|split; [split; [discriminate | intros (?&?&?&?&?&?&_); discriminate] | auto]].
  destruct (LabelChest.y params) as [py|];
    [|split; [split; [discriminate | intros (?&?&?&?&?&_&?&_); discriminate] | auto]].
  destruct (LabelChest.z params) as [pz|];
    [|split; [split; [discriminate | intros (?&?&?&?&?&_&_&?&_); discriminate] | auto]].
  destruct (LabelChest.label params) as [l|];
    [|split; [split; [discriminate | intros (?&?&?&?&?&_&_&_&?&_); discriminate] | auto]].
  destruct (String.eqb (trim l) "") eqn:Hblank.
  { apply String.eqb_eq in Hblank.
    split; [split; [discriminate|] | auto].
    intros (?&?&?&l'&?&_&_&_&[= <-]&Hne&_). contradiction. }
  destruct (ChestUtils.detectContainerAt world (ChestStore.mkPos px py pz))
    as [e|det] eqn:Hd.
  { split; [split; [discriminate|] | auto].
    intros (?&?&?&?&nm&[= <-]&[= <-]&[= <-]&_&_&Hnm&Hc). exfalso.
    destruct (detect_fails world _ e Hd) as [[Hnone _] | [nm' [Hnm' [Hc' _]]]];
      congruence. }
  assert (Hstamps : forall st,
            ChestStore.upsertChest env store (Registry.getWorldKey bot)
              (LabelChest.recordOf st bot params l det)
            = ChestStore.upsertChest env store (Registry.getWorldKey bot)
                (LabelChest.recordOf stamps bot params l det)).
  { intros st. rewrite !upsertChest_unfold.
    rewrite (upsertIn_ignores_stamps env _
               (LabelChest.recordOf st bot params l det)
               (LabelChest.recordOf stamps bot params l det)); reflexivity. }
  split; [|split].
  - destruct (ChestStore.upsertChest env store (Registry.getWorldKey bot)
                (LabelChest.recordOf stamps bot params l det)) as [st sv].
    simpl. split; [|reflexivity]. intros _.
    destruct (detect_shape world _ det Hd) as [[nm [Hnm [Hc _]]] _].
    exists px, py, pz, l, nm. repeat split; try assumption.
    apply String.eqb_neq. exact Hblank.
  - destruct (ChestStore.upsertChest env store (Registry.getWorldKey bot)
                (LabelChest.recordOf stamps bot params l det)) as [st sv].
    simpl. discriminate.
  - intros st. rewrite (Hstamps st). reflexivity.
Qed.

Definition stashParams : LabelChest.Params :=
  LabelChest.mkParams (Some 3) (Some 64) (Some 6) (Some " Stash ") None None None.

Lemma label_chest_then_getChestByLabel_witness :
  exists det saved,
    snd (LabelChest.label_chest clock1 ("t1", "t2") emptyStore localBot yardBot
           stashParams) = LabelChest.Labeled det saved /\
    snd (ChestStore.getChestByLabel
           (fst (LabelChest.label_chest clock1 ("t1", "t2") emptyStore localBot yardBot
                   stashParams))
           (Registry.getWorldKey localBot) " Stash ") = Some saved /\
    ChestStore.label saved = "Stash" /\
    ChestStore.primary saved = ChestStore.mkPos 3 64 5.
Proof.
  eexists. eexists.
  assert (Hrun : snd (LabelChest.label_chest clock1 ("t1", "t2") emptyStore localBot
                        yardBot stashParams)
                 = LabelChest.Labeled
                     (ChestUtils.mkDetected ChestStore.double_chest
                        [ChestStore.mkPos 3 64 5; ChestStore.mkPos 3 64 6]
                        (ChestStore.mkPos 3 64 5))
                     (ChestStore.mkChest "chest-1-abcdef" "Stash" None (Some false)
                        (Some false) ChestStore.double_chest
                        [ChestStore.mkPos 3 64 5; ChestStore.mkPos 3 64 6]
                        (ChestStore.mkPos 3 64 5) "overworld"
                        (ChestStore.now clock1) (ChestStore.now clock1) (Some false)))
    by (vm_compute; reflexivity).
  split; [exact Hrun|].
  destruct (label_chest_then_getChestByLabel clock1 ("t1", "t2") emptyStore localBot
              yardBot stashParams _ _ " Stash " Hrun eq_refl eq_refl)
    as [Hget [Hlabel [_ [Hprim _]]]].
  split; [exact Hget|]. split; [exact Hlabel | exact Hprim].
Defined.

Lemma label_chest_either_half_witness :
  LabelChest.label_chest clock1 ("t1", "t2") emptyStore localBot yardBot
    (LabelChest.aimedAt (ChestStore.mkPos 3 64 5) stashParams)
  = LabelChest.label_chest clock1 ("t1", "t2") emptyStore localBot yardBot
      (LabelChest.aimedAt (ChestStore.mkPos 3 64 6) stashParams).
Proof.
  apply (label_chest_either_half clock1 ("t1", "t2") emptyStore localBot yardBot
           stashParams (ChestStore.mkPos 3 64 6) (ChestStore.mkPos 3 64 5)
           (ChestUtils.mkDetected ChestStore.double_chest
              [ChestStore.mkPos 3 64 5; ChestStore.mkPos 3 64 6]
              (ChestStore.mkPos 3 64 5))
           yardBot_paired).
  - vm_compute. reflexivity.
  - reflexivity.
  - simpl. auto.
Defined.
End LabelChestFacts.

(** ** Listing nearby containers *)

Section FindContainersFacts.
Import ChestStore.

Lemma getChestByPosition_chestsOf store worldKey pos w :
  chestsOf (fst (getChestByPosition store worldKey pos)) w = chestsOf store w.
Proof.
  unfold getChestByPosition.
  pose proof (chestsOf_ensureWorld store worldKey w) as H.
  destruct (ensureWorld store worldKey) as [st ws]; simpl in *. exact H.
Qed.

Lemma visibleOf_spec (worldKey : string) (containers : list Discovery.Found) :
  forall store,
    (forall w, chestsOf (fst (FindContainers.visibleOf store worldKey containers)) w
               = chestsOf store w) /\
    (forall c, In c (snd (FindContainers.visibleOf store worldKey containers)) <->
               In c containers /\
               ChestUtils.foundForbidden
                 (byPositionIn (chestsOf store worldKey) (Discovery.position c))
               = false).
Proof.
  induction containers as [|a rest IH]; intros store; simpl.
  - split; [reflexivity|]. intros c. tauto.
  - pose proof (getChestByPosition_snd store worldKey (Discovery.position a)) as Hs.
    pose proof (getChestByPosition_chestsOf store worldKey (Discovery.position a)) as Hf.
    destruct (getChestByPosition store worldKey (Discovery.position a)) as [st rec].
    simpl in Hs, Hf. destruct (IH st) as [IHf IHs].
    destruct (FindContainers.visibleOf st worldKey rest) as [st' vis]. simpl in *.
    split; [intros w; rewrite IHf; apply Hf|].
    intros c. rewrite Hs. rewrite <- (Hf worldKey).
    destruct (ChestUtils.foundForbidden
                (byPositionIn (chestsOf st worldKey) (Discovery.position a))) eqn:Ha.
    + rewrite IHs. split.
      * intros [Hin Hc]. auto.
      * intros [[<- | Hin] Hc]; [congruence | auto].
    + simpl. rewrite IHs. split.
      * intros [<- | [Hin Hc]]; auto.
      * intros [[<- | Hin] Hc]; auto.
Qed.

Lemma linesOf_spec (worldKey : string) (visible : list Discovery.Found) :
  forall store,
    (forall w, chestsOf (fst (FindContainers.linesOf store worldKey visible)) w
               = chestsOf store w) /\
    snd (FindContainers.linesOf store worldKey visible)
    = List.map (fun c =>
                  FindContainers.mkLine
                    (FindContainers.humanizeContainerType (Discovery.type c))
                    (Discovery.position c)
                    (label <$> byPositionIn (chestsOf store worldKey)
                                 (Discovery.position c)))
               visible.
Proof.
  induction visible as [|a rest IH]; intros store; simpl.
  - split; reflexivity.
  - pose proof (getChestByPosition_snd store worldKey (Discovery.position a)) as Hs.
    pose proof (getChestByPosition_chestsOf store worldKey (Discovery.position a)) as Hf.
    destruct (getChestByPosition store worldKey (Discovery.position a)) as [st rec].
    simpl in Hs, Hf. destruct (IH st) as [IHf IHs].
    destruct (FindContainers.linesOf st worldKey rest) as [st' lines]. simpl in *.
    split; [intros w; rewrite IHf; apply Hf|].
    rewrite IHs, Hs, (Hf worldKey). reflexivity.
Qed.

(** What [find_containers] lists: the containers [findNearbyContainers]
    returned whose position lies in no record, or in a first live record
    that is not forbidden, each with the label of that record. *)
Lemma find_containers_spec store worldKey bot center found radius_x radius_y radius_z :
  let result := FindContainers.find_containers store worldKey bot center found
                  radius_x radius_y radius_z in
  (forall w, chestsOf (fst result) w = chestsOf store w) /\
  forall lines, snd result = inr lines ->
    exists containers,
      Discovery.findNearbyContainers bot center found
        (FindContainers.numberOr radius_x 16) (FindContainers.numberOr radius_y 8)
        (FindContainers.numberOr radius_z 16) = inr containers /\
      forall ln, In ln lines ->
        exists c, In c containers /\
          ChestUtils.foundForbidden
            (byPositionIn (chestsOf store worldKey) (Discovery.position c)) = false /\
          FindContainers.position ln = Discovery.position c /\
          FindContainers.typeHuman ln
          = FindContainers.humanizeContainerType (Discovery.type c) /\
          FindContainers.labeled ln
          = (label <$> byPositionIn (chestsOf store worldKey) (Discovery.position c)).
Proof.
  cbv zeta. unfold FindContainers.find_containers.
  destruct (Discovery.findNearbyContainers bot center found _ _ _)
    as [e|containers]; simpl.
  { split; [reflexivity | discriminate]. }
  destruct (visibleOf_spec worldKey containers store) as [Hvf Hvs].
  destruct (FindContainers.visibleOf store worldKey containers) as [st vis].
  destruct (linesOf_spec worldKey vis st) as [Hlf Hls].
  destruct (FindContainers.linesOf st worldKey vis) as [st' lines]. simpl in *.
  split; [intros w; rewrite Hlf; apply Hvf|].
  intros lines' [= <-]. exists containers. split; [reflexivity|].
  intros ln Hin. rewrite Hls in Hin. apply in_map_iff in Hin as [c [<- Hc]].
  apply Hvs in Hc as [Hc Hforb]. exists c. simpl.
  rewrite (Hvf worldKey). auto.
Qed.

(** X19. After [label_chest] has labelled a container as forbidden,
    [find_containers] lists neither of its blocks, and it changes the
    records of no world.  Before the labelling, the only live records
    holding a block of the container are at the place [upsertChest] merges
    into. *)
Theorem label_chest_forbidden_hides_from_find_containers :
  forall (env : Env) (stamps : string * string) (store : RootStore)
         (bot : Registry.Connection) (world : ChestUtils.Bot)
         (params : LabelChest.Params) (det : ChestUtils.DetectedContainer)
         (saved : ChestRecord) (l : string)
         (center : ChestUtils.Vec3) (found : list ChestUtils.Vec3)
         (radius_x radius_y radius_z : option Z),
    let worldKey := Registry.getWorldKey bot in
    let store1 := fst (LabelChest.label_chest env stamps store bot world params) in
    let result := FindContainers.find_containers store1 worldKey world center found
                    radius_x radius_y radius_z in
    snd (LabelChest.label_chest env stamps store bot world params)
    = LabelChest.Labeled det saved ->
    LabelChest.label params = Some l ->
    truthy (LabelChest.forbidden params) = true ->
    (forall pos j c,
        In pos (ChestUtils.positions det) ->
        chestsOf store worldKey !! j = Some c -> covers pos c = true ->
        existingIndex (chestsOf store worldKey)
          (LabelChest.recordOf stamps bot params l det) = Some j) ->
    (forall w, chestsOf (fst result) w = chestsOf store1 w) /\
    (forall lines, snd result = inr lines ->
       forall ln, In ln lines ->
         ~ In (FindContainers.position ln) (ChestUtils.positions det)).
Proof.
  intros env stamps store bot world params det saved l center found
         radius_x radius_y radius_z worldKey store1 result Hrun Hl Hforb Honly.
  destruct (find_containers_spec store1 worldKey world center found
              radius_x radius_y radius_z) as [Hsame Hlines].
  fold result in Hsame, Hlines. split; [exact Hsame|].
  intros lines Hres ln Hin Hpos.
  destruct (Hlines lines Hres) as [containers [_ Hall]].
  destruct (Hall ln Hin) as [c [_ [Hvisible [Hat _]]]].
  rewrite <- Hat in Hvisible.
  destruct (label_chest_labeled _ _ _ _ _ _ _ _ Hrun)
    as [px [py [pz [l' [_ [_ [_ [Hl' [_ [Hd [Heq Hsaved]]]]]]]]]]].
  rewrite Hl in Hl'. injection Hl' as <-.
  fold worldKey in Heq, Hsaved.
  set (record := LabelChest.recordOf stamps bot params l det) in *.
  assert (Hget : byPositionIn (chestsOf store1 worldKey) (FindContainers.position ln)
                 = Some saved).
  { rewrite <- getChestByPosition_snd. subst store1. rewrite Heq. simpl fst.
    rewrite Hsaved. apply byPosition_after_upsert.
    - exact Hpos.
    - intros j c' Hj Hc. exact (Honly _ j c' Hpos Hj Hc). }
  rewrite Hget in Hvisible. simpl in Hvisible.
  assert (Hsf : forbidden saved = Some true).
  { rewrite Hsaved.
    destruct (upsertChest_chests env store worldKey record) as [_ ->].
    destruct (existingIndex (chestsOf store worldKey) record) as [i|] eqn:Hi.
    - destruct (existingIndex_lookup _ _ _ Hi) as [c' [Hc' _]].
      rewrite (upsertIn_found env _ record i c' Hi Hc'). simpl. rewrite Hforb. reflexivity.
    - rewrite (upsertIn_new env _ record Hi). simpl. rewrite Hforb. reflexivity. }
  rewrite Hsf in Hvisible. discriminate.
Qed.

Definition lockedParams : LabelChest.Params :=
  LabelChest.mkParams (Some 3) (Some 64) (Some 5) (Some "stash") None None (Some true).

(** The double chest of the yard is labelled, then labelled again as
    forbidden: only the barrel is listed. *)
Lemma label_chest_forbidden_hides_from_find_containers_witness :
  let store0 := fst (LabelChest.label_chest clock1 ("t1", "t2") emptyStore localBot
                       yardBot stashParams) in
  let store1 := fst (LabelChest.label_chest clock2 ("t3", "t4") store0 localBot
                       yardBot lockedParams) in
  snd (FindContainers.find_containers store1 (Registry.getWorldKey localBot) yardBot
         (mkPos 0 64 0) [mkPos 0 64 0; mkPos 3 64 6; mkPos 3 64 5] None None None)
  = inr [FindContainers.mkLine "Barrel" (mkPos 0 64 0) None] /\
  forall ln,
    In ln [FindContainers.mkLine "Barrel" (mkPos 0 64 0) None] ->
    ~ In (FindContainers.position ln) [mkPos 3 64 5; mkPos 3 64 6].
Proof.
  cbv zeta.
  assert (Hres : snd (FindContainers.find_containers
                        (fst (LabelChest.label_chest clock2 ("t3", "t4")
                                (fst (LabelChest.label_chest clock1 ("t1", "t2")
                                        emptyStore localBot yardBot stashParams))
                                localBot yardBot lockedParams))
                        (Registry.getWorldKey localBot) yardBot
                        (mkPos 0 64 0) [mkPos 0 64 0; mkPos 3 64 6; mkPos 3 64 5]
                        None None None)
                 = inr [FindContainers.mkLine "Barrel" (mkPos 0 64 0) None])
    by (vm_compute; reflexivity).
  split; [exact Hres|].
  refine (proj2 (label_chest_forbidden_hides_from_find_containers
                   clock2 ("t3", "t4")
                   (fst (LabelChest.label_chest clock1 ("t1", "t2") emptyStore localBot
                           yardBot stashParams))
                   localBot yardBot lockedParams
                   (ChestUtils.mkDetected double_chest [mkPos 3 64 5; mkPos 3 64 6]
                      (mkPos 3 64 5))
                   _ "stash" (mkPos 0 64 0) [mkPos 0 64 0; mkPos 3 64 6; mkPos 3 64 5]
                   None None None _ eq_refl eq_refl _) _ Hres).
  - vm_compute. reflexivity.
  - intros pos j c Hpos Hj Hc. vm_compute in Hj.
    destruct j as [|j]; [vm_compute; reflexivity|]. discriminate.
Defined.
End FindContainersFacts.

(** ** Depositing and withdrawing everything *)

Section ReportFacts.
Import ChestUtils Skills Reports.

Lemma record_moved (k : string) (total n : Z) (report : Report) (name : string) (v : Z) :
  In (name, v) (moved (record k total n report)) <->
  In (name, v) (moved report) \/ (name = k /\ v = n /\ 0 < n).
Proof.
  unfold record, pushIf, reportedMoved. simpl.
  destruct (Z.ltb_spec 0 n) as [Hn | Hn].
  - rewrite in_app_iff. simpl. split.
    + intros [H | [[= <- <-] | []]]; auto.
    + intros [H | [-> [-> _]]]; auto.
  - split; [auto|]. intros [H | [_ [_ H]]]; [exact H | lia].
Qed.

Lemma record_failed (k : string) (total n : Z) (report : Report) (name : string) (v : Z) :
  In (name, v) (failed (record k total n report)) <->
  In (name, v) (failed report) \/ (name = k /\ v = total - n /\ n < total).
Proof.
  unfold record, pushIf, reportedFailed. simpl.
  destruct (Z.ltb_spec n total) as [Hn | Hn].
  - rewrite in_app_iff. simpl. split.
    + intros [H | [[= <- <-] | []]]; auto.
    + intros [H | [-> [-> _]]]; auto.
  - split; [auto|]. intros [H | [_ [_ H]]]; [exact H | lia].
Qed.

(** Two reports list the same numbers for [name]. *)
Definition sameLines (name : string) (report0 report : Report) : Prop :=
  (forall v, In (name, v) (moved report) <-> In (name, v) (moved report0)) /\
  (forall v, In (name, v) (failed report) <-> In (name, v) (failed report0)).

Lemma sameLines_refl name report : sameLines name report report.
Proof. split; intros v; tauto. Qed.

Lemma sameLines_record name k total n report0 report :
  k <> name -> sameLines name (record k total n report0) report ->
  sameLines name report0 report.
Proof.
  intros Hne [Hm Hf]. split; intros v.
  - rewrite Hm, record_moved. intuition congruence.
  - rewrite Hf, record_failed. intuition congruence.
Qed.

Lemma entryOf_absent (key : string) (entries : list (string * Z)) :
  entryOf key entries = None <-> ~ In key (List.map fst entries).
Proof.
  induction entries as [|[k v] rest IH]; simpl.
  - tauto.
  - destruct (String.eqb_spec k key) as [-> | Hne].
    + split; [discriminate | intros H; exfalso; auto].
    + rewrite IH. tauto.
Qed.

Lemma entryOf_In (key : string) (v : Z) (entries : list (string * Z)) :
  List.NoDup (List.map fst entries) -> In (key, v) entries ->
  entryOf key entries = Some v.
Proof.
  induction entries as [|[k w] rest IH]; simpl; intros Hnd Hin; [contradiction|].
  inversion Hnd as [|x l Hk Hnd']; subst.
  destruct Hin as [[= -> ->] | Hin].
  - rewrite String.eqb_refl. reflexivity.
  - destruct (String.eqb_spec k key) as [-> | Hne]; [|apply IH; assumption].
    exfalso. apply Hk. apply in_map_iff. exists (key, v). auto.
Qed.

Lemma NoDup_split_keys {B : Type} (before after : list (string * B)) (k : string) (b : B) :
  List.NoDup (List.map fst (before ++ (k, b) :: after)) ->
  ~ In k (List.map fst before) /\ ~ In k (List.map fst after).
Proof.
  rewrite map_app. simpl. intros Hnd.
  apply List.NoDup_remove_2 in Hnd. rewrite in_app_iff in Hnd. tauto.
Qed.

Section LoopFacts.
Context {W : Type} (ops : @WindowOps W).

(** The window after the transfers of the entries of [invMap], one
    [depositType] per entry the registry knows, each on the window the one
    before it left. *)
Definition depositedThrough (itemsByName : string -> option Z)
    (invMap : list (string * Z)) (window : W) : W :=
  List.fold_left
    (fun w e =>
       match itemsByName (fst e) with
       | Some id => fst (depositType ops w id (snd e))
       | None => w
       end)
    invMap window.

(** The same for the entries of [totals], one [withdrawType] each. *)
Definition withdrawnThrough (totals : list (string * (Z * Z))) (window : W) : W :=
  List.fold_left
    (fun w e => fst (withdrawType ops w (fst (snd e)) (snd (snd e))))
    totals window.

Lemma depositEach_window itemsByName invMap window report :
  fst (depositEach ops itemsByName invMap window report)
  = depositedThrough itemsByName invMap window.
Proof.
  revert window report. induction invMap as [|[k t] rest IH]; intros window report.
  - reflexivity.
  - simpl. unfold depositedThrough. simpl. destruct (itemsByName k) as [id|].
    + destruct (depositType ops window id t) as [w n]. simpl. apply IH.
    + apply IH.
Qed.

Lemma depositEach_app itemsByName before after window report :
  depositEach ops itemsByName (before ++ after) window report
  = depositEach ops itemsByName after
      (depositedThrough itemsByName before window)
      (snd (depositEach ops itemsByName before window report)).
Proof.
  revert window report. induction before as [|[k t] rest IH]; intros window report.
  - reflexivity.
  - simpl. unfold depositedThrough. simpl. destruct (itemsByName k) as [id|].
    + destruct (depositType ops window id t) as [w n]. simpl. apply IH.
    + apply IH.
Qed.

Lemma depositEach_other itemsByName invMap name window report :
  ~ In name (List.map fst invMap) \/ itemsByName name = None ->
  sameLines name report (snd (depositEach ops itemsByName invMap window report)).
Proof.
  revert window report. induction invMap as [|[k t] rest IH]; intros window report Hn.
  - apply sameLines_refl.
  - assert (Hrest : ~ In name (List.map fst rest) \/ itemsByName name = None).
    { destruct Hn as [Hn | Hn]; [left | right; exact Hn].
      intros Hin. apply Hn. right. exact Hin. }
    simpl. destruct (itemsByName k) as [id|] eqn:Hk; [|apply IH; exact Hrest].
    destruct (depositType ops window id t) as [w n].
    apply (sameLines_record name k t n); [|apply IH; exact Hrest].
    intros ->. destruct Hn as [Hn | Hn]; [apply Hn; left; reflexivity | congruence].
Qed.

Lemma withdrawEach_window totals window report :
  fst (withdrawEach ops totals window report) = withdrawnThrough totals window.
Proof.
  revert window report. induction totals as [|[k [id t]] rest IH]; intros window report.
  - reflexivity.
  - simpl. unfold withdrawnThrough. simpl.
    destruct (withdrawType ops window id t) as [w n]. simpl. apply IH.
Qed.

Lemma withdrawEach_app before after window report :
  withdrawEach ops (before ++ after) window report
  = withdrawEach ops after (withdrawnThrough before window)
      (snd (withdrawEach ops before window report)).
Proof.
  revert window report. induction before as [|[k [id t]] rest IH]; intros window report.
  - reflexivity.
  - simpl. unfold withdrawnThrough. simpl.
    destruct (withdrawType ops window id t) as [w n]. simpl. apply IH.
Qed.

Lemma withdrawEach_other totals name window report :
  ~ In name (List.map fst totals) ->
  sameLines name report (snd (withdrawEach ops totals window report)).
Proof.
  revert window report. induction totals as [|[k [id t]] rest IH]; intros window report Hn.
  - apply sameLines_refl.
  - assert (Hrest : ~ In name (List.map fst rest))
      by (intros Hin; apply Hn; right; exact Hin).
    simpl. destruct (withdrawType ops window id t) as [w n].
    apply (sameLines_record name k t n); [|apply IH; exact Hrest].
    intros ->. apply Hn. left. reflexivity.
Qed.
End LoopFacts.

(** *** The inventory map *)

Lemma collect_entry (wanted : string) (items : list Item) (map0 : list (string * Z)) :
  default 0 (entryOf wanted
               (List.fold_left (fun map it => bump (name it) (count it) map) items map0))
  = List.fold_left (fun a it => a + count it)
      (List.filter (fun it => String.eqb (name it) wanted) items)
      (default 0 (entryOf wanted map0)).
Proof.
  revert map0. induction items as [|it items IH]; intros map0; [reflexivity|].
  simpl. rewrite IH. destruct (String.eqb_spec (name it) wanted) as [-> | Hne]; simpl.
  - rewrite entryOf_bump_same. reflexivity.
  - rewrite entryOf_bump_other by congruence. reflexivity.
Qed.

Lemma collect_NoDup (items : list Item) (map0 : list (string * Z)) :
  List.NoDup (List.map fst map0) ->
  List.NoDup (List.map fst
                (List.fold_left (fun map it => bump (name it) (count it) map) items map0)).
Proof.
  revert map0. induction items as [|it items IH]; intros map0 Hnd; [exact Hnd|].
  simpl. apply IH. apply bump_NoDup. exact Hnd.
Qed.

Lemma collect_keys (items : list Item) (map0 : list (string * Z)) (k : string) :
  In k (List.map fst
          (List.fold_left (fun map it => bump (name it) (count it) map) items map0)) <->
  In k (List.map fst map0) \/ exists it, In it items /\ name it = k.
Proof.
  revert map0. induction items as [|it items IH]; intros map0; simpl.
  - split; [auto | intros [H | [it [[] _]]]; exact H].
  - rewrite IH, bump_keys. split.
    + intros [[-> | H] | [it' [Hin Hn]]]; eauto.
    + intros [H | [it' [[<- | Hin] Hn]]]; eauto.
Qed.

Lemma sum_from (items : list Item) (a : Z) :
  (forall it, In it items -> 0 <= count it) ->
  a <= List.fold_left (fun a it => a + count it) items a.
Proof.
  revert a. induction items as [|it items IH]; intros a Hpos; simpl; [lia|].
  assert (Hit : 0 <= count it) by (apply Hpos; left; reflexivity).
  assert (Hrest : forall it', In it' items -> 0 <= count it')
    by (intros it' Hin; apply Hpos; right; exact Hin).
  specialize (IH (a + count it) Hrest). lia.
Qed.

Lemma inventoryTotal_nonneg (items : list Item) (wanted : string) :
  (forall it, In it items -> 0 <= count it) -> 0 <= inventoryTotal items wanted.
Proof.
  intros Hpos. unfold inventoryTotal. apply sum_from.
  intros it Hin. apply filter_In in Hin as [Hin _]. exact (Hpos it Hin).
Qed.

(** *** The totals of the container *)

Definition countsOf (totals : list (string * (Z * Z))) : list (string * Z) :=
  List.map (fun e => (fst e, snd (snd e))) totals.

Lemma countsOf_bumpTotals (key : string) (typeId n : Z) (totals : list (string * (Z * Z))) :
  countsOf (bumpTotals key typeId n totals) = bump key n (countsOf totals).
Proof.
  induction totals as [|[k [t v]] rest IH]; simpl; [reflexivity|].
  destruct (String.eqb k key); simpl; [reflexivity|].
  f_equal. exact IH.
Qed.

Lemma countsOf_containerTotals (window : Window) :
  countsOf (containerTotals window) = summarizeContainerContents window.
Proof.
  unfold containerTotals, summarizeContainerContents, summarizeWith.
  generalize (loopIndices (containerStart (getContainerSlotInfo window))
                          (containerEnd (getContainerSlotInfo window))).
  intros l.
  change (@nil (string * Z)) with (countsOf []).
  generalize (@nil (string * (Z * Z))).
  induction l as [|i l IH]; intros totals; [reflexivity|]. simpl.
  rewrite IH. destruct (slotAt window i) as [it|]; [|reflexivity].
  rewrite countsOf_bumpTotals. reflexivity.
Qed.

Lemma countByName_from (read : Z -> option Item) (wanted : string) (l : list Z) (a : Z) :
  (forall i it, read i = Some it -> 0 <= count it) ->
  a <= List.fold_left (countStep read wanted) l a.
Proof.
  intros Hpos. revert a. induction l as [|i l IH]; intros a; simpl; [lia|].
  specialize (IH (countStep read wanted a i)).
  assert (a <= countStep read wanted a i); [|lia].
  unfold countStep. destruct (read i) as [it|] eqn:Hi; [|lia].
  specialize (Hpos i it Hi). destruct (String.eqb (name it) wanted); lia.
Qed.

(** The type id kept for a name is the type of a slot that holds the
    name. *)
Lemma bumpTotals_types (key : string) (typeId n : Z) (totals : list (string * (Z * Z)))
    (k : string) (t v : Z) :
  In (k, (t, v)) (bumpTotals key typeId n totals) ->
  (k = key /\ t = typeId) \/ exists v', In (k, (t, v')) totals.
Proof.
  induction totals as [|[k0 [t0 v0]] rest IH]; simpl.
  - intros [[= <- <- _] | []]. auto.
  - destruct (String.eqb_spec k0 key) as [-> | Hne]; simpl.
    + intros [[= <- <- _] | Hin]; [auto | right; eauto].
    + intros [[= <- <- <-] | Hin]; [right; eauto|].
      destruct (IH Hin) as [H | [v' H]]; [auto | right; eauto].
Qed.

Lemma foldTotals_types (window : Window) (l : list Z) (totals : list (string * (Z * Z)))
    (k : string) (t v : Z) :
  In (k, (t, v))
     (List.fold_left
        (fun totals i =>
           match slotAt window i with
           | None => totals
           | Some it => bumpTotals (name it) (itemType it) (count it) totals
           end) l totals) ->
  (exists v', In (k, (t, v')) totals) \/
  (exists i it, In i l /\ slotAt window i = Some it /\ name it = k /\ itemType it = t).
Proof.
  revert totals v. induction l as [|i l IH]; intros totals v Hin.
  - left. exists v. exact Hin.
  - simpl in Hin. apply IH in Hin as [[v' Hv] | [j [jt [Hj H]]]].
    + destruct (slotAt window i) as [it|] eqn:Hi; [|left; eauto].
      apply bumpTotals_types in Hv as [[-> ->] | [v'' Hv]].
      * right. exists i, it. simpl. auto.
      * left. eauto.
    + right. exists j, jt. simpl. auto.
Qed.

Lemma containerTotals_types (window : Window) (k : string) (t v : Z) :
  In (k, (t, v)) (containerTotals window) ->
  exists i it, In i (slotReads window) /\ slotAt window i = Some it /\
               name it = k /\ itemType it = t.
Proof.
  intros Hin. apply foldTotals_types in Hin as [[v' []] | H]. exact H.
Qed.

(** X20. The ['all'] branch of [deposit_items] accounts for the whole
    inventory.  The map of [collectInventoryByName] has one entry per item
    name of the inventory; the entries are worked off in order, each name
    the registry knows by one [depositType] for its total on the window
    the transfers before it left, and the branch ends on the window the
    last of them left.  For such a name the total is the number the branch
    for named items computes, the number [n] that [depositType] returned
    lies between 0 and the total, and the report lists the name with [n]
    under the deposited items exactly when [n > 0] and with [total - n]
    under the failed ones exactly when [n < total], and nowhere else.  A
    name the registry does not know, or that no item bears, is listed
    nowhere.  Item counts are not negative. *)
Theorem deposit_all_accounts_for_the_inventory :
  forall (W : Type) (ops : @WindowOps W) (itemsByName : string -> option Z)
         (items : list Item) (window : W),
    (forall it, In it items -> 0 <= count it) ->
    let invMap := collectInventoryByName items in
    let result := depositAll ops itemsByName items window in
    fst result = depositedThrough ops itemsByName invMap window /\
    List.NoDup (List.map fst invMap) /\
    (forall wanted,
        In wanted (List.map fst invMap) <-> exists it, In it items /\ name it = wanted) /\
    (forall wanted,
        ~ In wanted (List.map fst invMap) \/ itemsByName wanted = None ->
        forall v, ~ In (wanted, v) (moved (snd result)) /\
                  ~ In (wanted, v) (failed (snd result))) /\
    (forall before wanted total after id,
        invMap = before ++ (wanted, total) :: after ->
        itemsByName wanted = Some id ->
        let reached := depositedThrough ops itemsByName before window in
        let n := snd (depositType ops reached id total) in
        total = inventoryTotal items wanted /\
        0 <= n <= total /\
        (forall v, In (wanted, v) (moved (snd result)) <-> v = n /\ 0 < n) /\
        (forall v, In (wanted, v) (failed (snd result)) <-> v = total - n /\ n < total)).
Proof.
  intros W ops itemsByName items window Hpos invMap result.
  assert (Hnd : List.NoDup (List.map fst invMap))
    by exact (collect_NoDup items [] (List.NoDup_nil _)).
  split; [apply depositEach_window|]. split; [exact Hnd|]. split; [|split].
  - intros wanted. unfold invMap, collectInventoryByName.
    rewrite collect_keys. simpl. tauto.
  - intros wanted Hn v.
    assert (Hsame : sameLines wanted (mkReport [] []) (snd result))
      by exact (depositEach_other ops itemsByName invMap wanted window
                  (mkReport [] []) Hn).
    destruct Hsame as [Hm Hf]. rewrite Hm, Hf. simpl. tauto.
  - intros before wanted total after id Hsplit Hid reached n.
    assert (Htotal : total = inventoryTotal items wanted).
    { assert (Hin : In (wanted, total) invMap)
        by (rewrite Hsplit; apply in_elt).
      pose proof (entryOf_In wanted total invMap Hnd Hin) as He.
      assert (Hk : default 0 (entryOf wanted invMap) = inventoryTotal items wanted)
        by exact (collect_entry wanted items []).
      rewrite He in Hk. exact Hk. }
    assert (H0 : 0 <= total)
      by (rewrite Htotal; apply inventoryTotal_nonneg; exact Hpos).
    split; [exact Htotal|].
    pose proof (transferType_spec (deposit ops) reached id total H0) as [_ [_ [Hb _]]].
    fold (depositType ops reached id total) in Hb. fold n in Hb.
    split; [exact Hb|].
    rewrite Hsplit in Hnd. apply NoDup_split_keys in Hnd as [Hbefore Hafter].
    assert (Hres : result
                   = depositEach ops itemsByName ((wanted, total) :: after) reached
                       (snd (depositEach ops itemsByName before window (mkReport [] [])))).
    { unfold result, depositAll. fold invMap. rewrite Hsplit. apply depositEach_app. }
    simpl in Hres. rewrite Hid in Hres.
    destruct (depositEach_other ops itemsByName before wanted window (mkReport [] [])
                (or_introl Hbefore)) as [Hm0 Hf0].
    set (report0 := snd (depositEach ops itemsByName before window (mkReport [] []))) in *.
    assert (Hn : depositType ops reached id total
                 = (fst (depositType ops reached id total), n)).
    { unfold n. destruct (depositType ops reached id total); reflexivity. }
    rewrite Hn in Hres.
    destruct (depositEach_other ops itemsByName after wanted
                (fst (depositType ops reached id total))
                (record wanted total n report0) (or_introl Hafter)) as [Hm Hf].
    rewrite <- Hres in Hm, Hf.
    split; intros v.
    + rewrite Hm, record_moved, Hm0. simpl. tauto.
    + rewrite Hf, record_failed, Hf0. simpl. tauto.
Qed.

(** An inventory with two stacks of cobblestone and one of dirt, a
    registry that knows both, and a chest with 69 places left. *)
Definition pack : list Item :=
  [mkItem "cobblestone" 64 1; mkItem "dirt" 10 2; mkItem "cobblestone" 6 1].

Definition smallRegistry (name : string) : option Z :=
  if String.eqb name "cobblestone" then Some 1
  else if String.eqb name "dirt" then Some 2 else None.

Lemma pack_counts (it : Item) : In it pack -> 0 <= count it.
Proof. intros [<- | [<- | [<- | []]]]; simpl; lia. Qed.

Lemma deposit_all_accounts_for_the_inventory_witness :
  depositAll roomOps smallRegistry pack 69
  = (0, mkReport [("cobblestone", 69)] [("cobblestone", 1); ("dirt", 10)]) /\
  (forall v, In ("dirt", v) (moved (snd (depositAll roomOps smallRegistry pack 69)))
             <-> v = 0 /\ 0 < 0) /\
  (forall v, In ("dirt", v) (failed (snd (depositAll roomOps smallRegistry pack 69)))
             <-> v = 10 - 0 /\ 0 < 10).
Proof.
  split; [reflexivity|].
  destruct (deposit_all_accounts_for_the_inventory Z roomOps smallRegistry pack 69
              pack_counts) as [_ [_ [_ [_ H]]]].
  destruct (H [("cobblestone", 70)] "dirt" 10 [] 2 eq_refl eq_refl)
    as [_ [_ [Hm Hf]]].
  split; [exact Hm | exact Hf].
Defined.

(** X21. The ['all'] branch of [withdraw_items] accounts for the whole
    container.  The [totals] map has one entry per item name of the
    container region, with the type id of a slot that holds the name; the
    entries are worked off in order, each by one [withdrawType] for its
    total on the window the transfers before it left, and the branch ends
    on the window the last of them left.  For each entry the total is the
    number [countInContainerByName] gives for the name when the branch is
    entered, the number [n] that [withdrawType] returned lies between 0
    and the total, and the report lists the name with [n] under the
    withdrawn items exactly when [n > 0] and with [total - n] under the
    failed ones exactly when [n < total], and nowhere else.  A name
    without entry has no unit in the container and is listed nowhere.
    Item counts are not negative. *)
Theorem withdraw_all_accounts_for_the_container :
  forall (W : Type) (ops : @WindowOps W) (slotsOf : W -> Window) (window : W),
    (forall i it, slotAt (slotsOf window) i = Some it -> 0 <= count it) ->
    let totals := containerTotals (slotsOf window) in
    let result := withdrawAll ops slotsOf window in
    fst result = withdrawnThrough ops totals window /\
    List.NoDup (List.map fst totals) /\
    (forall wanted,
        ~ In wanted (List.map fst totals) ->
        Withdraw.countInContainerByName (slotsOf window) wanted = 0 /\
        forall v, ~ In (wanted, v) (moved (snd result)) /\
                  ~ In (wanted, v) (failed (snd result))) /\
    (forall before wanted typeId total after,
        totals = before ++ (wanted, (typeId, total)) :: after ->
        let reached := withdrawnThrough ops before window in
        let n := snd (withdrawType ops reached typeId total) in
        total = Withdraw.countInContainerByName (slotsOf window) wanted /\
        (exists i it, In i (slotReads (slotsOf window)) /\
                      slotAt (slotsOf window) i = Some it /\
                      name it = wanted /\ itemType it = typeId) /\
        0 <= n <= total /\
        (forall v, In (wanted, v) (moved (snd result)) <-> v = n /\ 0 < n) /\
        (forall v, In (wanted, v) (failed (snd result)) <-> v = total - n /\ n < total)).
Proof.
  intros W ops slotsOf window Hpos totals result.
  set (slots0 := slotsOf window) in *.
  set (l := loopIndices (containerStart (getContainerSlotInfo slots0))
                        (containerEnd (getContainerSlotInfo slots0))).
  assert (Hcounts : countsOf totals = summarizeContainerContents slots0)
    by apply countsOf_containerTotals.
  assert (Hkeys : List.map fst (countsOf totals) = List.map fst totals)
    by (unfold countsOf; rewrite map_map; reflexivity).
  assert (Hnd : List.NoDup (List.map fst totals)).
  { rewrite <- Hkeys, Hcounts. apply (fold_summary_NoDup (slotAt slots0)). constructor. }
  assert (Hentry : forall k,
            default 0 (entryOf k (countsOf totals))
            = Withdraw.countInContainerByName slots0 k).
  { intros k. rewrite Hcounts. exact (fold_summary_entry (slotAt slots0) k l []). }
  assert (Hnonneg : forall k, 0 <= Withdraw.countInContainerByName slots0 k).
  { intros k. exact (countByName_from (slotAt slots0) k l 0 Hpos). }
  split; [apply withdrawEach_window|]. split; [exact Hnd|]. split.
  - intros wanted Hn. split.
    + rewrite <- Hentry. rewrite <- Hkeys in Hn. apply entryOf_absent in Hn.
      rewrite Hn. reflexivity.
    + intros v.
      assert (Hsame : sameLines wanted (mkReport [] []) (snd result))
        by exact (withdrawEach_other ops totals wanted window (mkReport [] []) Hn).
      destruct Hsame as [Hm Hf]. rewrite Hm, Hf. simpl. tauto.
  - intros before wanted typeId total after Hsplit reached n.
    assert (Hin : In (wanted, (typeId, total)) totals)
      by (rewrite Hsplit; apply in_elt).
    assert (Htotal : total = Withdraw.countInContainerByName slots0 wanted).
    { assert (Hin' : In (wanted, total) (countsOf totals)).
      { unfold countsOf. apply in_map_iff. exists (wanted, (typeId, total)). auto. }
      assert (Hnd' : List.NoDup (List.map fst (countsOf totals)))
        by (rewrite Hkeys; exact Hnd).
      pose proof (entryOf_In wanted total _ Hnd' Hin') as He.
      pose proof (Hentry wanted) as Hk. rewrite He in Hk. exact Hk. }
    assert (H0 : 0 <= total) by (rewrite Htotal; apply Hnonneg).
    split; [exact Htotal|].
    split; [exact (containerTotals_types slots0 wanted typeId total Hin)|].
    pose proof (transferType_spec (withdraw ops) reached typeId total H0)
      as [_ [_ [Hb _]]].
    fold (withdrawType ops reached typeId total) in Hb. fold n in Hb.
    split; [exact Hb|].
    rewrite Hsplit in Hnd. apply NoDup_split_keys in Hnd as [Hbefore Hafter].
    assert (Hres : result
                   = withdrawEach ops ((wanted, (typeId, total)) :: after) reached
                       (snd (withdrawEach ops before window (mkReport [] [])))).
    { unfold result, withdrawAll. fold slots0. fold totals. rewrite Hsplit.
      apply withdrawEach_app. }
    simpl in Hres.
    destruct (withdrawEach_other ops before wanted window (mkReport [] []) Hbefore)
      as [Hm0 Hf0].
    set (report0 := snd (withdrawEach ops before window (mkReport [] []))) in *.
    assert (Hn : withdrawType ops reached typeId total
                 = (fst (withdrawType ops reached typeId total), n)).
    { unfold n. destruct (withdrawType ops reached typeId total); reflexivity. }
    rewrite Hn in Hres.
    destruct (withdrawEach_other ops after wanted
                (fst (withdrawType ops reached typeId total))
                (record wanted total n report0) Hafter) as [Hm Hf].
    rewrite <- Hres in Hm, Hf.
    split; intros v.
    + rewrite Hm, record_moved, Hm0. simpl. tauto.
    + rewrite Hf, record_failed, Hf0. simpl. tauto.
Qed.

(** A crate of three slots, two of them holding stone, and an inventory
    with 3 places left. *)
Definition crate : Window :=
  mkWindow [Some (mkItem "stone" 5 1); None; Some (mkItem "stone" 7 1)] (Some 3) None.

Lemma crate_counts (i : Z) (it : Item) : slotAt crate i = Some it -> 0 <= count it.
Proof.
  unfold slotAt. destruct (i <? 0); [discriminate|].
  destruct (Z.to_nat i) as [|[|[|k]]]; simpl; intros [= <-]; simpl; lia.
Qed.

Lemma withdraw_all_accounts_for_the_container_witness :
  withdrawAll roomOps (fun _ => crate) 3
  = (0, mkReport [("stone", 3)] [("stone", 9)]) /\
  12 = Withdraw.countInContainerByName crate "stone" /\
  (forall v, In ("stone", v) (moved (snd (withdrawAll roomOps (fun _ => crate) 3)))
             <-> v = 3 /\ 0 < 3) /\
  (forall v, In ("stone", v) (failed (snd (withdrawAll roomOps (fun _ => crate) 3)))
             <-> v = 12 - 3 /\ 3 < 12).
Proof.
  split; [reflexivity|].
  destruct (withdraw_all_accounts_for_the_container Z roomOps (fun _ => crate) 3
              crate_counts) as [_ [_ [_ H]]].
  destruct (H [] "stone" 1 12 [] eq_refl) as [Ht [_ [_ [Hm Hf]]]].
  split; [exact Ht|]. split; [exact Hm | exact Hf].
Defined.
End ReportFacts.
